(** * Markdown to ADF converter: a shallow embedding and its properties

    The converter of the repository (the block parser [markdownToAdf], the
    inline parser [parseInline] and the table parser [parseTableBlock]) is
    embedded below together with the small part of the JavaScript string and
    regular-expression semantics it relies on.

    - a JavaScript string is the list of its UTF-16 code units ([str]);
    - a regular expression literal is a term of [re], run by a backtracking
      matcher written in continuation-passing style ([matchRe]);
    - the [while] loops are recursions on a fuel counter and return [None]
      when the counter runs out; the totality lemmas show it never does;
    - the call [markdownToAdf] makes on itself for a run of quote lines is
      not guarded in the source, so the room on the call stack of the
      engine decides whether a deeply quoted text is converted:
      [markdownToAdfAt] takes the number of nested calls there is room for
      and returns [None] where the engine throws its [RangeError].

    The Git utilities ([getIssueKeyFromBranch], [getCommitsOnBranch],
    [getRepoRemoteUrl]) and the next start time of a worklog
    ([calculateNextStartTime]) follow, on the same strings and expressions;
    what a Git command prints is a parameter of the function that runs
    it. *)

From Stdlib Require Import String Ascii.
From Stdlib Require Import List NArith Arith Bool Lia.
From Stdlib Require DecimalN.
Import ListNotations.

Set Implicit Arguments.
Set Warnings "-register-all".

(* ------------------------------------------------------------------ *)
(** ** Strings *)
(* ------------------------------------------------------------------ *)

(** A string is the sequence of its UTF-16 code units. *)
Definition str : Type := list N.

(** The code units of an ASCII literal. *)
Definition lit (s : string) : str :=
  map N_of_ascii (list_ascii_of_string s).

Definition LF : N := 10%N.

(** White space and line terminators: the set stripped by [trim] and
    [trimEnd] and matched by the class [\s]. *)
Definition isSpace (c : N) : bool :=
  (N.leb 9 c && N.leb c 13)
  || N.eqb c 32 || N.eqb c 160 || N.eqb c 5760
  || (N.leb 8192 c && N.leb c 8202)
  || N.eqb c 8232 || N.eqb c 8233 || N.eqb c 8239 || N.eqb c 8287
  || N.eqb c 12288 || N.eqb c 65279.

(** Line terminators: what [.] does not match. *)
Definition isLineTerminator (c : N) : bool :=
  N.eqb c 10 || N.eqb c 13 || N.eqb c 8232 || N.eqb c 8233.

Definition dot (c : N) : bool := negb (isLineTerminator c).

(** [\d] and [\w]. *)
Definition isDigit (c : N) : bool := N.leb 48 c && N.leb c 57.

Definition isWord (c : N) : bool :=
  (N.leb 65 c && N.leb c 90) || (N.leb 97 c && N.leb c 122)
  || isDigit c || N.eqb c 95.

(** A class written as a list of characters, and its complement. *)
Definition oneOf (cs : str) (c : N) : bool := existsb (N.eqb c) cs.
Definition noneOf (cs : str) (c : N) : bool := negb (oneOf cs c).
Definition anyOf (s : string) : N -> bool := oneOf (lit s).
Definition notOf (s : string) : N -> bool := noneOf (lit s).

(** [String.prototype.split] with a one-character separator. *)
Fixpoint split (sep : N) (s : str) : list str :=
  match s with
  | [] => [[]]
  | c :: s' =>
      if N.eqb c sep then [] :: split sep s'
      else match split sep s' with
           | l :: ls => (c :: l) :: ls
           | [] => [[c]]
           end
  end.

(** [Array.prototype.join] with a one-character separator. *)
Fixpoint join (sep : N) (ls : list str) : str :=
  match ls with
  | [] => []
  | [l] => l
  | l :: ls' => l ++ sep :: join sep ls'
  end.

Fixpoint trimStart (s : str) : str :=
  match s with
  | c :: s' => if isSpace c then trimStart s' else s
  | [] => []
  end.

Fixpoint trimEnd (s : str) : str :=
  match s with
  | [] => []
  | c :: s' =>
      match trimEnd s' with
      | [] => if isSpace c then [] else [c]
      | t => c :: t
      end
  end.

Definition trim (s : str) : str := trimEnd (trimStart s).

Fixpoint startsWith (p s : str) : bool :=
  match p, s with
  | [], _ => true
  | a :: p', b :: s' => N.eqb a b && startsWith p' s'
  | _ :: _, [] => false
  end.

(** [s.slice(a, b)] for [0 <= a <= b]. *)
Definition slice (s : str) (a b : nat) : str := firstn (b - a) (skipn a s).

Definition isEmpty (s : str) : bool :=
  match s with [] => true | _ => false end.

(** Array loops of the form [while (i < n && p(lines[i])) { push; i++ }]:
    the lines taken and the lines left. *)
Fixpoint span (A : Type) (p : A -> bool) (l : list A) : list A * list A :=
  match l with
  | x :: l' =>
      if p x then let (a, b) := span p l' in (x :: a, b) else ([], l)
  | [] => ([], [])
  end.

(* ------------------------------------------------------------------ *)
(** ** Regular expressions *)
(* ------------------------------------------------------------------ *)

(** The fragment of the regular-expression syntax the converter uses.
    Every quantifier of the source applies to a single character class. *)
Inductive re : Type :=
| Eps
| Bol                                   (* ^ *)
| Eol                                   (* $ *)
| Chr (cls : N -> bool)                 (* one character of a class *)
| Rep (greedy : bool) (min : nat) (max : option nat) (cls : N -> bool)
| Seq (r1 r2 : re)
| Alt (r1 r2 : re)
| Grp (n : nat) (r : re).               (* capture group number n *)

Declare Scope re_scope.
Delimit Scope re_scope with re.
Bind Scope re_scope with re.
Infix "<+>" := Seq (at level 60, right associativity) : re_scope.
Infix "<|>" := Alt (at level 70, right associativity) : re_scope.

(** A literal string. *)
Fixpoint Lit (s : str) : re :=
  match s with
  | [] => Eps
  | [c] => Chr (N.eqb c)
  | c :: s' => Seq (Chr (N.eqb c)) (Lit s')
  end.

Definition star (cls : N -> bool) : re := Rep true 0 None cls.
Definition plus (cls : N -> bool) : re := Rep true 1 None cls.
Definition plusLazy (cls : N -> bool) : re := Rep false 1 None cls.
Definition opt (cls : N -> bool) : re := Rep true 0 (Some 1) cls.
Definition atLeast (n : nat) (cls : N -> bool) : re := Rep true n None cls.
Definition between (n m : nat) (cls : N -> bool) : re := Rep true n (Some m) cls.

(** Captures: the latest binding of a group comes first. *)
Definition captures : Type := list (nat * str).

Fixpoint lookup (n : nat) (caps : captures) : option str :=
  match caps with
  | (m, v) :: caps' => if Nat.eqb n m then Some v else lookup n caps'
  | [] => None
  end.

(** The end position of a match and its captures. *)
Definition result : Type := (nat * captures)%type.
Definition cont : Type := nat -> str -> captures -> option result.

Definition canTake (max : option nat) : bool :=
  match max with Some 0 => false | _ => true end.

Definition decr (max : option nat) : option nat :=
  match max with Some m => Some (pred m) | None => None end.

(** Greedy quantifier: one more character first, the continuation after. *)
Fixpoint repGreedy (cls : N -> bool) (min : nat) (max : option nat)
    (pos : nat) (s : str) (k : nat -> str -> option result) : option result :=
  let stop := match min with 0 => k pos s | S _ => None end in
  match s with
  | c :: s' =>
      if cls c && canTake max then
        match repGreedy cls (pred min) (decr max) (S pos) s' k with
        | Some x => Some x
        | None => stop
        end
      else stop
  | [] => stop
  end.

(** Lazy quantifier: the continuation first, one more character after. *)
Fixpoint repLazy (cls : N -> bool) (min : nat) (max : option nat)
    (pos : nat) (s : str) (k : nat -> str -> option result) : option result :=
  let more :=
    match s with
    | c :: s' =>
        if cls c && canTake max then
          repLazy cls (pred min) (decr max) (S pos) s' k
        else None
    | [] => None
    end in
  match min with
  | 0 => match k pos s with Some x => Some x | None => more end
  | S _ => more
  end.

(** The backtracking matcher.  [pos] is the index of the first character of
    [s] in the whole input. *)
Fixpoint matchRe (r : re) (pos : nat) (s : str) (caps : captures) (k : cont)
    : option result :=
  match r with
  | Eps => k pos s caps
  | Bol => if Nat.eqb pos 0 then k pos s caps else None
  | Eol => match s with [] => k pos s caps | _ :: _ => None end
  | Chr cls =>
      match s with
      | c :: s' => if cls c then k (S pos) s' caps else None
      | [] => None
      end
  | Rep greedy min max cls =>
      (if greedy then repGreedy else repLazy) cls min max pos s
        (fun pos' s' => k pos' s' caps)
  | Seq r1 r2 =>
      matchRe r1 pos s caps (fun pos' s' caps' => matchRe r2 pos' s' caps' k)
  | Alt r1 r2 =>
      match matchRe r1 pos s caps k with
      | Some x => Some x
      | None => matchRe r2 pos s caps k
      end
  | Grp n r0 =>
      matchRe r0 pos s caps
        (fun pos' s' caps' => k pos' s' ((n, firstn (pos' - pos) s) :: caps'))
  end.

Definition accept : cont := fun pos _ caps => Some (pos, caps).

(** A match at position [pos]. *)
Definition matchAt (r : re) (pos : nat) (s : str) : option result :=
  matchRe r pos s [] accept.

(** The match object of [exec]: where the match starts, where it ends and
    what the groups captured. *)
Record Match : Type := mkMatch {
  index : nat;
  stop : nat;
  groups : captures
}.

(** The leftmost match starting at [pos] or later. *)
Fixpoint search (r : re) (pos : nat) (s : str) : option Match :=
  match matchAt r pos s with
  | Some (e, caps) => Some (mkMatch pos e caps)
  | None =>
      match s with
      | [] => None
      | _ :: s' => search r (S pos) s'
      end
  end.

(** [re.exec(text)] with [re.lastIndex = lastIndex]. *)
Definition reExec (r : re) (text : str) (lastIndex : nat) : option Match :=
  if Nat.leb lastIndex (List.length text)
  then search r lastIndex (skipn lastIndex text)
  else None.

(** [text.match(re)] for a regular expression without the [g] flag. *)
Definition reMatch (r : re) (text : str) : option Match := reExec r text 0.

(** [re.test(text)]. *)
Definition reTest (r : re) (text : str) : bool :=
  match reMatch r text with Some _ => true | None => false end.

(** [text.replace(re, empty)]: the text without its first match, for a
    regular expression without the [g] flag. *)
Definition reRemove (r : re) (text : str) : str :=
  match reMatch r text with
  | Some m => firstn (index m) text ++ skipn (stop m) text
  | None => text
  end.

(** [match[n]]: [None] stands for [undefined]. *)
Definition group (n : nat) (m : Match) : option str := lookup n (groups m).

(** JavaScript truthiness of [match[n]]: defined and not empty. *)
Definition truthy (o : option str) : bool :=
  match o with
  | Some (_ :: _) => true
  | _ => false
  end.

Definition orEmpty (o : option str) : str :=
  match o with Some v => v | None => [] end.

(** A literal given as an ASCII string. *)
Definition Str (s : string) : re := Lit (lit s).

(* ------------------------------------------------------------------ *)
(** ** The document tree *)
(* ------------------------------------------------------------------ *)

Inductive Mark : Type :=
| Strong
| Em
| Code
| Link (href : str).

(** [marks = None] is a text node without a [marks] field. *)
Inductive Inline : Type :=
| Text (text : str) (marks : option (list Mark))
| Mention (id : str) (text : str) (accessLevel : str).

Inductive CellType : Type := tableHeader | tableCell.

Inductive Block : Type :=
| Paragraph (content : list Inline)
| Heading (level : nat) (content : list Inline)
| CodeBlock (language : option str) (content : list Inline)
| Rule
| Blockquote (content : list Block)
| BulletList (content : list ListItem)
| OrderedList (content : list ListItem)
| Table (isNumberColumnEnabled : bool) (layout : str) (content : list TableRow)
with ListItem : Type :=
| listItem (content : list Block)
with TableRow : Type :=
| tableRow (content : list TableCell)
with TableCell : Type :=
| Cell (type : CellType) (content : list Block).

Record Document : Type := mkDocument {
  version : nat;
  content : list Block
}.

(* ------------------------------------------------------------------ *)
(** ** A small error monad for the fuelled loops *)
(* ------------------------------------------------------------------ *)

Definition bind (A B : Type) (m : option A) (f : A -> option B) : option B :=
  match m with
  | Some a => f a
  | None => None
  end.

Notation "x <- m ;; k" := (bind m (fun x => k))
  (at level 61, m at next level, right associativity).
Notation "' p <- m ;; k" := (bind m (fun x => match x with p => k end))
  (at level 61, p pattern, m at next level, right associativity).

Fixpoint mapM (A B : Type) (f : A -> option B) (l : list A) : option (list B) :=
  match l with
  | [] => Some []
  | a :: l' => b <- f a ;; bs <- mapM f l' ;; Some (b :: bs)
  end.

(* ------------------------------------------------------------------ *)
(** ** Inline parser *)
(* ------------------------------------------------------------------ *)

(** [[a-zA-Z0-9:_-]] *)
Definition isAccountIdChar (c : N) : bool :=
  (N.leb 97 c && N.leb c 122) || (N.leb 65 c && N.leb c 90)
  || isDigit c || anyOf ":_-" c.

(** The alternatives of the inline expression, in the order of the source;
    the groups keep the numbers they have there. *)
Definition boldRe : re :=
  Grp 1 (Str "**" <+> Grp 2 (plusLazy dot) <+> Str "**").
Definition italicStarRe : re :=
  Grp 3 (Str "*" <+> Grp 4 (plusLazy dot) <+> Str "*").
Definition italicUnderRe : re :=
  Grp 5 (Str "_" <+> Grp 6 (plusLazy dot) <+> Str "_").
Definition codeSpanRe : re :=
  Grp 7 (Str "`" <+> Grp 8 (plus (notOf "`")) <+> Str "`").
Definition linkRe : re :=
  (Str "[" <+> Grp 9 (plus (notOf "]")) <+> Str "](" <+>
   Grp 10 (plus (notOf ")")) <+> Str ")")%re.
Definition mentionRe : re :=
  Grp 11 (Str "@accountId:" <+> Grp 12 (plus isAccountIdChar)).

Definition inlineRe : re :=
  (boldRe <|> italicStarRe <|> italicUnderRe <|> codeSpanRe <|> linkRe
   <|> mentionRe)%re.

(** The node pushed for one match, if any. *)
Definition inlineNode (m : Match) : list Inline :=
  if truthy (group 1 m) then
    [Text (orEmpty (group 2 m)) (Some [Strong])]
  else if truthy (group 3 m) then
    [Text (orEmpty (group 4 m)) (Some [Em])]
  else if truthy (group 5 m) then
    [Text (orEmpty (group 6 m)) (Some [Em])]
  else if truthy (group 7 m) then
    [Text (orEmpty (group 8 m)) (Some [Code])]
  else if truthy (group 9 m) && truthy (group 10 m) then
    [Text (orEmpty (group 9 m)) (Some [Link (orEmpty (group 10 m))])]
  else if truthy (group 11 m) then
    [Mention (orEmpty (group 12 m)) (lit "@" ++ orEmpty (group 12 m)) []]
  else [].

(** The [while ((match = inlineRe.exec(text)) !== null)] loop: the nodes
    pushed and the final [lastIndex]. *)
Fixpoint parseInlineLoop (fuel : nat) (text : str) (lastIndex : nat)
    (nodes : list Inline) : option (list Inline * nat) :=
  match reExec inlineRe text lastIndex with
  | None => Some (nodes, lastIndex)
  | Some m =>
      match fuel with
      | 0 => None
      | S fuel' =>
          let nodes :=
            if Nat.ltb lastIndex (index m)
            then nodes ++ [Text (slice text lastIndex (index m)) None]
            else nodes in
          let nodes := nodes ++ inlineNode m in
          parseInlineLoop fuel' text (stop m) nodes
      end
  end.

Definition parseInline (text : str) : option (list Inline) :=
  '(nodes, lastIndex) <- parseInlineLoop (S (List.length text)) text 0 [] ;;
  let nodes :=
    if Nat.ltb lastIndex (List.length text)
    then nodes ++ [Text (skipn lastIndex text) None]
    else nodes in
  Some (match nodes with
        | [] => [Text [] None]
        | _ :: _ => nodes
        end).

(* ------------------------------------------------------------------ *)
(** ** Table parser *)
(* ------------------------------------------------------------------ *)

(** [/^\|[\s\-:|]+\|$/] *)
Definition separatorRe : re :=
  (Bol <+> Str "|" <+> plus (fun c => isSpace c || anyOf "-:|" c) <+>
   Str "|" <+> Eol)%re.

Definition tableCells (line : str) : list str :=
  map trim
    (split 124 (reRemove (Str "|" <+> Eol) (reRemove (Bol <+> Str "|") line))).

Definition tableRowOf (isHeader : bool) (cells : list str) : option TableRow :=
  rowContent <-
    mapM (fun cellText =>
            nodes <- parseInline cellText ;;
            Some (Cell (if isHeader then tableHeader else tableCell)
                       [Paragraph nodes]))
         cells ;;
  Some (tableRow rowContent).

(** The [for] loop of [parseTableBlock], from index [i] on. *)
Fixpoint parseTableRows (i : nat) (lines : list str) (rows : list TableRow)
    : option (list TableRow) :=
  match lines with
  | [] => Some rows
  | l :: lines' =>
      let line := trim l in
      if reTest separatorRe line then parseTableRows (S i) lines' rows
      else
        row <- tableRowOf (Nat.eqb i 0) (tableCells line) ;;
        parseTableRows (S i) lines' (rows ++ [row])
  end.

Definition parseTableBlock (lines : list str) : option Block :=
  rows <- parseTableRows 0 lines [] ;;
  Some (Table false (lit "default") rows).

(* ------------------------------------------------------------------ *)
(** ** Block-level parser *)
(* ------------------------------------------------------------------ *)

(** The opening fence: three backticks, a run of word characters as
    group 1, end of input. *)
Definition codeFenceRe : re :=
  (Bol <+> Str "```" <+> Grp 1 (star isWord) <+> Eol)%re.

(** The rule: three or more asterisks, or hyphens, or underscores, then
    white space up to the end of input. *)
Definition ruleRe : re :=
  (Bol <+>
   Grp 1 (atLeast 3 (anyOf "*") <|> atLeast 3 (anyOf "-")
          <|> atLeast 3 (anyOf "_")) <+>
   star isSpace <+> Eol)%re.

(** The heading: one to six hashes (group 1), white space, the text
    (group 2), end of input. *)
Definition headingRe : re :=
  (Bol <+> Grp 1 (between 1 6 (anyOf "#")) <+> plus isSpace <+>
   Grp 2 (plus dot) <+> Eol)%re.

(** [/^>\s?/] *)
Definition quoteRe : re := (Bol <+> Str ">" <+> opt isSpace)%re.

(** [/^\|.+\|/] *)
Definition tableLineRe : re := (Bol <+> Str "|" <+> plus dot <+> Str "|")%re.

(** The bullet character U+2022. *)
Definition BULLET : N := 8226%N.

(** The bullet item: white space, one of the markers, white space. *)
Definition bulletRe : re :=
  (Bol <+> star isSpace <+> Chr (fun c => anyOf "-*+" c || N.eqb c BULLET) <+>
   plus isSpace)%re.

(** The ordered item: white space, digits, a period, white space. *)
Definition orderedRe : re :=
  (Bol <+> star isSpace <+> plus isDigit <+> Str "." <+> plus isSpace)%re.

Definition fence : str := lit "```".

(** [flushParagraph]: the closure pushes on [blocks]; here it returns the
    new [blocks]. *)
Definition flushParagraph (blocks : list Block) (paraLines : list str)
    : option (list Block) :=
  match paraLines with
  | [] => Some blocks
  | _ :: _ =>
      let text := join LF paraLines in
      if isEmpty (trim text) then Some blocks
      else nodes <- parseInline text ;; Some (blocks ++ [Paragraph nodes])
  end.

(** The items of a list run. *)
Definition listItems (markerRe : re) (run : list str) : option (list ListItem) :=
  mapM (fun l =>
          nodes <- parseInline (reRemove markerRe l) ;;
          Some (listItem [Paragraph nodes]))
       run.

(** [lines[i + 1].trim()], or the empty string at the last line. *)
Definition nextLineOf (rest : list str) : str :=
  match rest with
  | next :: _ => trim next
  | [] => []
  end.

Section BlockLoop.

(** The recursive call [markdownToAdf(innerMarkdown)]. *)
Variable recur : str -> option Document.

(** One iteration of the main [while (i < lines.length)] loop, at the line
    [line = lines[i]] followed by [rest]: the new [blocks], the new
    [paragraphBuffer] and the lines from the new [i] on. *)
Definition blockStep (line : str) (rest : list str) (blocks : list Block)
    (paragraphBuffer : list str)
    : option (list Block * list str * list str) :=
  let lines := line :: rest in
  let trimmed := trimEnd line in
  (* --- Fenced code block --- *)
  match reMatch codeFenceRe trimmed with
  | Some codeMatch =>
      blocks <- flushParagraph blocks paragraphBuffer ;;
      let language :=
        if truthy (group 1 codeMatch) then group 1 codeMatch else None in
      let (codeLines, after) :=
        span (fun l => negb (startsWith fence (trimEnd l))) rest in
      let codeBlock := CodeBlock language [Text (join LF codeLines) None] in
      Some (blocks ++ [codeBlock], [], tl after)
  | None =>
  (* --- Horizontal rule --- *)
  if reTest ruleRe trimmed then
    blocks <- flushParagraph blocks paragraphBuffer ;;
    Some (blocks ++ [Rule], [], rest)
  else
  (* --- Heading --- *)
  match reMatch headingRe trimmed with
  | Some headingMatch =>
      blocks <- flushParagraph blocks paragraphBuffer ;;
      let level := Nat.min (List.length (orEmpty (group 1 headingMatch))) 6 in
      nodes <- parseInline (orEmpty (group 2 headingMatch)) ;;
      Some (blocks ++ [Heading level nodes], [], rest)
  | None =>
  (* --- Blockquote --- *)
  if reTest quoteRe trimmed then
    blocks <- flushParagraph blocks paragraphBuffer ;;
    let (quoted, after) := span (fun l => reTest quoteRe (trimEnd l)) lines in
    let quoteLines := map (reRemove quoteRe) quoted in
    let innerMarkdown := join LF quoteLines in
    innerDoc <- recur innerMarkdown ;;
    Some (blocks ++ [Blockquote (content innerDoc)], [], after)
  else
  (* --- Table (requires header row + separator row) --- *)
  if reTest tableLineRe trimmed && reTest separatorRe (nextLineOf rest) then
    blocks <- flushParagraph blocks paragraphBuffer ;;
    let (tableLines, after) :=
      span (fun l => reTest tableLineRe (trimEnd l)) lines in
    tbl <- parseTableBlock tableLines ;;
    Some (blocks ++ [tbl], [], after)
  else
  (* --- Bullet list --- *)
  if reTest bulletRe line then
    blocks <- flushParagraph blocks paragraphBuffer ;;
    let (run, after) := span (reTest bulletRe) lines in
    items <- listItems bulletRe run ;;
    Some (blocks ++ [BulletList items], [], after)
  else
  (* --- Ordered list --- *)
  if reTest orderedRe line then
    blocks <- flushParagraph blocks paragraphBuffer ;;
    let (run, after) := span (reTest orderedRe) lines in
    items <- listItems orderedRe run ;;
    Some (blocks ++ [OrderedList items], [], after)
  else
  (* --- Blank line: flush paragraph --- *)
  if isEmpty trimmed then
    blocks <- flushParagraph blocks paragraphBuffer ;;
    Some (blocks, [], rest)
  else
  (* --- Default: accumulate paragraph text --- *)
  Some (blocks, paragraphBuffer ++ [trimmed], rest)
  end
  end.

(** The loop itself.  [lines] holds the lines from index [i] on; the result
    is the final [blocks] and [paragraphBuffer]. *)
Fixpoint blockLoop (fuel : nat) (lines : list str) (blocks : list Block)
    (paragraphBuffer : list str) : option (list Block * list str) :=
  match lines with
  | [] => Some (blocks, paragraphBuffer)
  | line :: rest =>
      match fuel with
      | 0 => None
      | S fuel' =>
          '(blocks, paragraphBuffer, lines') <-
            blockStep line rest blocks paragraphBuffer ;;
          blockLoop fuel' lines' blocks paragraphBuffer
      end
  end.

End BlockLoop.

(** The single empty paragraph of an otherwise empty document. *)
Definition emptyParagraph : Block := Paragraph [Text [] None].

(** The end of [markdownToAdf]: the guard on an empty [blocks] and the
    envelope. *)
Definition assemble (blocks : list Block) : Document :=
  mkDocument 1 (match blocks with
                | [] => [emptyParagraph]
                | _ :: _ => blocks
                end).

(** [markdownToAdf] on an engine whose call stack has room for [depth]
    nested calls of it.  The source calls itself on the text of a run of
    quote lines without a guard; [None] is the [RangeError] of the engine
    when these calls nest deeper than the room.  The frames of the other
    functions, which do not nest, are not counted. *)
Fixpoint markdownToAdfAt (depth : nat) (markdown : str) : option Document :=
  match depth with
  | 0 => None
  | S depth' =>
      let lines := split LF markdown in
      '(blocks, paragraphBuffer) <-
        blockLoop (markdownToAdfAt depth') (List.length lines) lines [] [] ;;
      blocks <- flushParagraph blocks paragraphBuffer ;;
      Some (assemble blocks)
  end.

(** [markdownToAdf] where the call stack has room enough: a call on a quoted
    text is on a shorter text, so room for one call more than the input has
    characters is enough for it. *)
Definition markdownToAdf (markdown : str) : option Document :=
  markdownToAdfAt (S (List.length markdown)) markdown.

(* ------------------------------------------------------------------ *)
(** ** The variant without blockquotes *)
(* ------------------------------------------------------------------ *)

(** The second converter of the repository.  Its [parseInline],
    [parseTableBlock] and [flushParagraph] are the ones above, character for
    character; its loop has no blockquote case, starts a table at every
    pipe-delimited line and knows three bullet markers.  [blockStep] is one
    iteration of its loop. *)
Module NoQuote.

(** The bullet item: white space, one of the markers, white space. *)
Definition bulletRe : re :=
  (Bol <+> star isSpace <+> Chr (anyOf "-*+") <+> plus isSpace)%re.

Definition blockStep (line : str) (rest : list str) (blocks : list Block)
    (paragraphBuffer : list str)
    : option (list Block * list str * list str) :=
  let lines := line :: rest in
  let trimmed := trimEnd line in
  (* --- Fenced code block --- *)
  match reMatch codeFenceRe trimmed with
  | Some codeMatch =>
      blocks <- flushParagraph blocks paragraphBuffer ;;
      let language :=
        if truthy (group 1 codeMatch) then group 1 codeMatch else None in
      let (codeLines, after) :=
        span (fun l => negb (startsWith fence (trimEnd l))) rest in
      let codeBlock := CodeBlock language [Text (join LF codeLines) None] in
      Some (blocks ++ [codeBlock], [], tl after)
  | None =>
  (* --- Horizontal rule --- *)
  if reTest ruleRe trimmed then
    blocks <- flushParagraph blocks paragraphBuffer ;;
    Some (blocks ++ [Rule], [], rest)
  else
  (* --- Heading --- *)
  match reMatch headingRe trimmed with
  | Some headingMatch =>
      blocks <- flushParagraph blocks paragraphBuffer ;;
      let level := Nat.min (List.length (orEmpty (group 1 headingMatch))) 6 in
      nodes <- parseInline (orEmpty (group 2 headingMatch)) ;;
      Some (blocks ++ [Heading level nodes], [], rest)
  | None =>
  (* --- Table (collect consecutive | rows) --- *)
  if reTest tableLineRe trimmed then
    blocks <- flushParagraph blocks paragraphBuffer ;;
    let (tableLines, after) :=
      span (fun l => reTest tableLineRe (trimEnd l)) lines in
    tbl <- parseTableBlock tableLines ;;
    Some (blocks ++ [tbl], [], after)
  else
  (* --- Bullet list --- *)
  if reTest bulletRe line then
    blocks <- flushParagraph blocks paragraphBuffer ;;
    let (run, after) := span (reTest bulletRe) lines in
    items <- listItems bulletRe run ;;
    Some (blocks ++ [BulletList items], [], after)
  else
  (* --- Ordered list --- *)
  if reTest orderedRe line then
    blocks <- flushParagraph blocks paragraphBuffer ;;
    let (run, after) := span (reTest orderedRe) lines in
    items <- listItems orderedRe run ;;
    Some (blocks ++ [OrderedList items], [], after)
  else
  (* --- Blank line: flush paragraph --- *)
  if isEmpty trimmed then
    blocks <- flushParagraph blocks paragraphBuffer ;;
    Some (blocks, [], rest)
  else
  (* --- Default: accumulate paragraph text --- *)
  Some (blocks, paragraphBuffer ++ [trimmed], rest)
  end
  end.

Fixpoint blockLoop (fuel : nat) (lines : list str) (blocks : list Block)
    (paragraphBuffer : list str) : option (list Block * list str) :=
  match lines with
  | [] => Some (blocks, paragraphBuffer)
  | line :: rest =>
      match fuel with
      | 0 => None
      | S fuel' =>
          '(blocks, paragraphBuffer, lines') <-
            blockStep line rest blocks paragraphBuffer ;;
          blockLoop fuel' lines' blocks paragraphBuffer
      end
  end.

Definition markdownToAdf (markdown : str) : option Document :=
  let lines := split LF markdown in
  '(blocks, paragraphBuffer) <-
    blockLoop (List.length lines) lines [] [] ;;
  blocks <- flushParagraph blocks paragraphBuffer ;;
  Some (assemble blocks).

End NoQuote.

(* ------------------------------------------------------------------ *)
(** ** Git utilities *)
(* ------------------------------------------------------------------ *)

(** [text.replace(re, replacement)] for a regular expression without the
    [g] flag and a replacement without dollar patterns: the first match is
    replaced. *)
Definition reReplace (r : re) (replacement : str) (text : str) : str :=
  match reMatch r text with
  | Some m => firstn (index m) text ++ replacement ++ skipn (stop m) text
  | None => text
  end.

(** [run(cmd, cwd)]: the output of the command, trimmed.  The output is a
    parameter here; [None] stands for the exception [execSync] throws when
    the command fails. *)
Definition run (output : option str) : option str :=
  match output with
  | Some out => Some (trim out)
  | None => None
  end.

Definition isUpper (c : N) : bool := N.leb 65 c && N.leb c 90.

(** The issue key: a capital letter, one or more capital letters or digits,
    a hyphen, one or more digits; the whole is group 1. *)
Definition issueKeyRe : re :=
  Grp 1 (Chr isUpper <+> plus (fun c => isUpper c || isDigit c) <+>
         Str "-" <+> plus isDigit).

(** [getIssueKeyFromBranch]: [output] is what
    [git rev-parse --abbrev-ref HEAD] prints.  [None] is [null]. *)
Definition getIssueKeyFromBranch (output : option str) : option str :=
  match run output with
  | Some branch =>
      match reMatch issueKeyRe branch with
      | Some m => group 1 m
      | None => None
      end
  | None => None
  end.

(** [getRepoRemoteUrl]: [output] is what [git remote get-url origin]
    prints.  [None] is [null]. *)
Definition getRepoRemoteUrl (output : option str) : option str :=
  match run output with
  | Some remote =>
      if startsWith (lit "git@") remote then
        Some (reReplace (Str ".git" <+> Eol) []
                (reReplace (Str ":") (lit "/")
                   (reReplace (Bol <+> Str "git@") (lit "https://") remote)))
      else Some (reReplace (Str ".git" <+> Eol) [] remote)
  | None => None
  end.

(** [text.split(separator)] with a separator of one character or more: the
    separator is looked for from left to right and the search goes on after
    each occurrence.  [skip] counts the characters of an occurrence still to
    pass over. *)
Fixpoint splitOnAux (sep : str) (skip : nat) (s : str) : list str :=
  match s with
  | [] => [[]]
  | c :: s' =>
      match skip with
      | S k => splitOnAux sep k s'
      | 0 =>
          if startsWith sep s
          then [] :: splitOnAux sep (pred (List.length sep)) s'
          else match splitOnAux sep 0 s' with
               | l :: ls => (c :: l) :: ls
               | [] => [[c]]
               end
      end
  end.

Definition splitOn (sep : str) (s : str) : list str := splitOnAux sep 0 s.

(** A commit as [getCommitsOnBranch] returns it; [None] is [undefined]. *)
Record Commit : Type := mkCommit {
  hash : option str;
  message : option str;
  date : option str;
  author : option str
}.

(** The callback of [map]: the destructuring takes the first four parts. *)
Definition commitOf (line : str) : Commit :=
  let parts := splitOn (lit "||") line in
  mkCommit (nth_error parts 0) (nth_error parts 1) (nth_error parts 2)
           (nth_error parts 3).

(** [getCommitsOnBranch]: [output] is what [git log] prints with the format
    of hash, subject, date and author name separated by two pipes. *)
Definition getCommitsOnBranch (output : option str) : list Commit :=
  match run output with
  | Some log => if isEmpty log then [] else map commitOf (split LF log)
  | None => []
  end.

(* ------------------------------------------------------------------ *)
(** ** The next start time *)
(* ------------------------------------------------------------------ *)

(** The numbers of the model are the non-negative integers below two to the
    power 53, on which the arithmetic of the source is exact, and
    not-a-number.  The source computes in floating point; where another
    value would arise (a fraction, a negative number, an infinity, an
    integer from two to the power 53 on) the functions below return [None]:
    the model does not follow the source there. *)
Definition maxSafe : N := 9007199254740992%N.

Inductive JsNumber : Type :=
| Num (n : N)
| NaN.

(** The digits of a decimal numeral, the most significant first, and the
    numeral of a string of digits. *)
Fixpoint digitsOf (u : Decimal.uint) : str :=
  match u with
  | Decimal.Nil => []
  | Decimal.D0 u' => 48%N :: digitsOf u'
  | Decimal.D1 u' => 49%N :: digitsOf u'
  | Decimal.D2 u' => 50%N :: digitsOf u'
  | Decimal.D3 u' => 51%N :: digitsOf u'
  | Decimal.D4 u' => 52%N :: digitsOf u'
  | Decimal.D5 u' => 53%N :: digitsOf u'
  | Decimal.D6 u' => 54%N :: digitsOf u'
  | Decimal.D7 u' => 55%N :: digitsOf u'
  | Decimal.D8 u' => 56%N :: digitsOf u'
  | Decimal.D9 u' => 57%N :: digitsOf u'
  end.

Fixpoint uintOf (s : str) : option Decimal.uint :=
  match s with
  | [] => Some Decimal.Nil
  | c :: s' =>
      u <- uintOf s' ;;
      if N.eqb c 48 then Some (Decimal.D0 u)
      else if N.eqb c 49 then Some (Decimal.D1 u)
      else if N.eqb c 50 then Some (Decimal.D2 u)
      else if N.eqb c 51 then Some (Decimal.D3 u)
      else if N.eqb c 52 then Some (Decimal.D4 u)
      else if N.eqb c 53 then Some (Decimal.D5 u)
      else if N.eqb c 54 then Some (Decimal.D6 u)
      else if N.eqb c 55 then Some (Decimal.D7 u)
      else if N.eqb c 56 then Some (Decimal.D8 u)
      else if N.eqb c 57 then Some (Decimal.D9 u)
      else None
  end.

(** [n.toString()] for such a number. *)
Definition toStr (n : N) : str := digitsOf (N.to_uint n).

(** The characters of the numerals that [Number] reads: the digits, the
    point, the signs, and the letters of the exponent, of the hexadecimal
    digits, of the prefixes of the binary, octal and hexadecimal numerals
    and of [Infinity]. *)
Definition isNumeralChar (c : N) : bool :=
  isDigit c || anyOf ".+-abcdefABCDEFxXoOInity" c.

(** [Number(s)] for a string, the white space around it dropped: zero for
    the empty string, the value of a string of decimal digits, and
    not-a-number for a string that holds a character no numeral holds.  A
    string of numeral characters that is not a string of digits may be a
    numeral of another form: the model does not follow it. *)
Definition Number (s : str) : option JsNumber :=
  let t := trim s in
  if isEmpty t then Some (Num 0)
  else if forallb isNumeralChar t then
    u <- uintOf t ;;
    if N.ltb (N.of_uint u) maxSafe then Some (Num (N.of_uint u)) else None
  else Some NaN.

Definition isNaN (x : option JsNumber) : bool :=
  match x with
  | Some NaN => true
  | _ => false
  end.

(** [s.padStart(targetLength, c)] with a padding of one character. *)
Definition padStart (targetLength : nat) (c : N) (s : str) : str :=
  repeat c (targetLength - List.length s) ++ s.

Record WorklogEntry : Type := mkEntry {
  startTime : str;
  timeSpentSeconds : N
}.

(** The body of the loop up to the comparison: the end of an entry in
    seconds.  The destructuring takes the first three parts.  A part that
    is missing is [undefined], and the sum is then not-a-number, as it is
    when one of the three parts is, whatever the other parts are.  The
    terms of the sum are not negative, so the sums are exact when the end
    is below two to the power 53. *)
Definition endSecondsOf (entry : WorklogEntry) : option JsNumber :=
  match map Number (split 58 (startTime entry)) with
  | h :: m :: s :: _ =>
      if isNaN h || isNaN m || isNaN s then Some NaN
      else
        match h, m, s with
        | Some (Num h), Some (Num m), Some (Num s) =>
            let startSeconds := (h * 3600 + m * 60 + s)%N in
            let endSeconds := (startSeconds + timeSpentSeconds entry)%N in
            if N.ltb endSeconds maxSafe then Some (Num endSeconds) else None
        | _, _, _ => None
        end
  | _ => Some NaN
  end.

(** The [for] loop of [calculateNextStartTime].  The comparison with
    not-a-number is false: such an entry leaves the latest end as it is. *)
Fixpoint latestEnd (entries : list WorklogEntry) (latestEndSeconds : N)
    : option N :=
  match entries with
  | [] => Some latestEndSeconds
  | entry :: rest =>
      endSeconds <- endSecondsOf entry ;;
      latestEnd rest
        match endSeconds with
        | Num x => if N.ltb latestEndSeconds x then x else latestEndSeconds
        | NaN => latestEndSeconds
        end
  end.

(** The end of [calculateNextStartTime]: hours, minutes and seconds, each
    padded to two digits. *)
Definition formatTime (latestEndSeconds : N) : str :=
  let hours := (latestEndSeconds / 3600)%N in
  let minutes := ((latestEndSeconds mod 3600) / 60)%N in
  let seconds := (latestEndSeconds mod 60)%N in
  padStart 2 48 (toStr hours) ++ lit ":" ++
  padStart 2 48 (toStr minutes) ++ lit ":" ++
  padStart 2 48 (toStr seconds).

Definition calculateNextStartTime (entries : list WorklogEntry)
    (workdayStart : str) : option str :=
  match entries with
  | [] => Some workdayStart
  | _ :: _ =>
      latestEndSeconds <- latestEnd entries 0%N ;;
      Some (formatTime latestEndSeconds)
  end.

(* ------------------------------------------------------------------ *)
(** ** Notions used in the statements and in their proofs *)
(* ------------------------------------------------------------------ *)

(** Lines given as ASCII literals, joined by newlines. *)
Definition nl (ls : list string) : str := join LF (map lit ls).

(** *** Entries within the exact numbers *)

(** A part of a start time that is blank or a string of decimal digits, the
    white space around it apart, and the value of such a part. *)
Definition isDigitsPart (part : str) : bool := forallb isDigit (trim part).

Definition valueOfPart (part : str) : N :=
  match uintOf (trim part) with
  | Some u => N.of_uint u
  | None => 0%N
  end.

(** A part that is no numeral for certain: it holds a character that no
    numeral holds, the white space around it apart. *)
Definition isNoNumeral (part : str) : bool :=
  negb (forallb isNumeralChar (trim part)).

(** An entry on which the arithmetic of the source is exact: its start time
    has fewer than three parts, or one of the first three is no numeral for
    certain (the end is then not-a-number), or the three are blank or
    strings of decimal digits and the end is below two to the power 53. *)
Definition exactEntry (entry : WorklogEntry) : bool :=
  match split 58 (startTime entry) with
  | h :: m :: s :: _ =>
      isNoNumeral h || isNoNumeral m || isNoNumeral s ||
      (isDigitsPart h && isDigitsPart m && isDigitsPart s &&
       N.ltb (valueOfPart h * 3600 + valueOfPart m * 60 + valueOfPart s
              + timeSpentSeconds entry) maxSafe)
  | _ => true
  end.

(** *** Measures on expressions and texts *)

(** The least number of characters a match of [r] consumes. *)
Fixpoint minLen (r : re) : nat :=
  match r with
  | Eps | Bol | Eol => 0
  | Chr _ => 1
  | Rep _ min _ _ => min
  | Seq r1 r2 => minLen r1 + minLen r2
  | Alt r1 r2 => Nat.min (minLen r1) (minLen r2)
  | Grp _ r0 => minLen r0
  end.

(** The groups of [r]. *)
Fixpoint groupNums (r : re) : list nat :=
  match r with
  | Eps | Bol | Eol | Chr _ | Rep _ _ _ _ => []
  | Seq r1 r2 | Alt r1 r2 => groupNums r1 ++ groupNums r2
  | Grp n r0 => n :: groupNums r0
  end.

(** The characters a non-empty match of [r] may start with. *)
Fixpoint first (r : re) (c : N) : bool :=
  match r with
  | Eps | Bol | Eol => false
  | Chr cls | Rep _ _ _ cls => cls c
  | Seq r1 r2 => first r1 c || (Nat.eqb (minLen r1) 0 && first r2 c)
  | Alt r1 r2 => first r1 c || first r2 c
  | Grp _ r0 => first r0 c
  end.

(** The size of a text given by its lines: every line counts with its
    newline. *)
Definition lineSize (lines : list str) : nat :=
  list_sum (map (fun l => S (List.length l)) lines).

Fixpoint str_eqb (a b : str) : bool :=
  match a, b with
  | [], [] => true
  | x :: a', y :: b' => N.eqb x y && str_eqb a' b'
  | _, _ => false
  end.

Definition nonEmpty (A : Type) (l : list A) : bool :=
  match l with [] => false | _ :: _ => true end.

(** *** Well-formed documents

    The shape of the data model: a text node carries no mark or exactly one,
    a mention shows its identifier after an at sign and has an empty access
    level; inline sequences are not empty; a heading has a level from 1 to
    6; a code block has a single unmarked text child; a list is not empty
    and each of its items, like each table cell, holds exactly one
    paragraph; the content of a block quote and of the document is not
    empty. *)
Definition wfInline (i : Inline) : bool :=
  match i with
  | Text _ None => true
  | Text _ (Some [_]) => true
  | Text _ (Some _) => false
  | Mention id txt accessLevel =>
      str_eqb txt (lit "@" ++ id) && isEmpty accessLevel
  end.

Definition wfInlines (c : list Inline) : bool :=
  nonEmpty c && forallb wfInline c.

Definition wfItem (i : ListItem) : bool :=
  match i with
  | listItem [Paragraph c] => wfInlines c
  | listItem _ => false
  end.

Definition wfCell (c : TableCell) : bool :=
  match c with
  | Cell _ [Paragraph c] => wfInlines c
  | Cell _ _ => false
  end.

Definition wfRow (r : TableRow) : bool :=
  match r with
  | tableRow cells => nonEmpty cells && forallb wfCell cells
  end.

Fixpoint wfBlock (b : Block) : bool :=
  match b with
  | Paragraph c => wfInlines c
  | Heading level c => Nat.leb 1 level && Nat.leb level 6 && wfInlines c
  | CodeBlock _ [Text _ None] => true
  | CodeBlock _ _ => false
  | Rule => true
  | Blockquote c => nonEmpty c && forallb wfBlock c
  | BulletList items | OrderedList items =>
      nonEmpty items && forallb wfItem items
  | Table isNumberColumnEnabled layout rows =>
      negb isNumberColumnEnabled && str_eqb layout (lit "default")
      && forallb wfRow rows
  end.

Definition wfDocument (d : Document) : bool :=
  Nat.eqb (version d) 1 && nonEmpty (content d) && forallb wfBlock (content d).

(** The blocks of a text before the guard on an empty document: the main
    loop and the last [flushParagraph]. *)
Definition scanBlocks (markdown : str) : option (list Block) :=
  let lines := split LF markdown in
  '(blocks, paragraphBuffer) <-
    blockLoop (markdownToAdfAt (List.length markdown))
      (List.length lines) lines [] [] ;;
  flushParagraph blocks paragraphBuffer.

(** A separator row, as [parseTableBlock] tests it. *)
Definition isSeparator (l : str) : bool := reTest separatorRe (trim l).

(** The cells of a row all have the type [ty]. *)
Definition cellIs (ty : CellType) (c : TableCell) : bool :=
  match c, ty with
  | Cell tableHeader _, tableHeader => true
  | Cell tableCell _, tableCell => true
  | _, _ => false
  end.

Definition rowIs (ty : CellType) (r : TableRow) : bool :=
  match r with
  | tableRow cells => forallb (cellIs ty) cells
  end.

(** *** Nesting of block quotes

    The converter puts block quotes at block level only, and every block
    quote comes from one nested call of [markdownToAdf].  The nesting of a
    block is the number of block quotes one inside the other that it
    holds; the nesting of a text is that of the document the converter
    gives for it when the call stack has room. *)
Fixpoint blockNesting (b : Block) : nat :=
  match b with
  | Blockquote c => S (list_max (map blockNesting c))
  | _ => 0
  end.

Definition quoteNesting (blocks : list Block) : nat :=
  list_max (map blockNesting blocks).

Definition nesting (markdown : str) : nat :=
  match markdownToAdf markdown with
  | Some d => quoteNesting (content d)
  | None => 0
  end.

(** The result of an iteration of the loop, kept when the blocks pushed so
    far nest no deeper than [room]. *)
Definition within (room : nat)
    (r : option (list Block * list str * list str))
    : option (list Block * list str * list str) :=
  match r with
  | Some (blocks', buf', lines') =>
      if Nat.leb (quoteNesting blocks') room
      then Some (blocks', buf', lines') else None
  | None => None
  end.

(** The letter x under [n] quote markers, and its document. *)
Definition nestedQuote (n : nat) : str := repeat 62%N n ++ lit "x".

Fixpoint nestedBlocks (n : nat) : list Block :=
  match n with
  | 0 => [Paragraph [Text (lit "x") None]]
  | S n' => [Blockquote (nestedBlocks n')]
  end.

(** *** Inputs on which the two converters agree *)

(** A line whose right-trimmed form begins with the quote marker. *)
Definition isQuoteLine (l : str) : bool := startsWith (lit ">") (trimEnd l).

(** A pipe-delimited line, as both loops test it. *)
Definition isTableLine (l : str) : bool := reTest tableLineRe (trimEnd l).

(** A list item that only the four-marker expression recognizes: its marker
    is the bullet character. *)
Definition isDotItem (l : str) : bool :=
  reTest bulletRe l && negb (reTest NoQuote.bulletRe l).

(** Every pipe-delimited line is followed by a separator row or comes after
    a pipe-delimited line; [prev] tells whether the line before the first
    one is pipe-delimited. *)
Fixpoint tablesStartOk (prev : bool) (lines : list str) : bool :=
  match lines with
  | [] => true
  | l :: rest =>
      (negb (isTableLine l) || prev || reTest separatorRe (nextLineOf rest))
      && tablesStartOk (isTableLine l) rest
  end.

Definition noQuoteLine (markdown : str) : bool :=
  forallb (fun l => negb (isQuoteLine l)) (split LF markdown).

Definition noDotItem (markdown : str) : bool :=
  forallb (fun l => negb (isDotItem l)) (split LF markdown).

Definition tablesSeparated (markdown : str) : bool :=
  tablesStartOk false (split LF markdown).

(** The lines after the body of a fenced block: the closing fence line, or
    nothing when the input ends inside the block. *)
Definition closingLines (closing : option str) : list str :=
  match closing with
  | Some l => [l]
  | None => []
  end.


(** *** Deterministic matches

    [Firstly r pos X rest caps caps']: run at [X ++ rest], the expression
    [r] first hands over to its continuation after [X], with the captures
    [caps']; so when the continuation succeeds there, its result is the
    result of the match. *)
Definition Firstly (r : re) (pos : nat) (X rest : str) (caps caps' : captures)
    : Prop :=
  forall (k : cont) (x : result),
    k (pos + List.length X) rest caps' = Some x ->
    matchRe r pos (X ++ rest) caps k = Some x.

(** The first character of a text is none of the class, if there is one. *)
Definition headNot (cls : N -> bool) (s : str) : bool :=
  match s with
  | [] => true
  | c :: _ => negb (cls c)
  end.

(** *** Texts around an inline construct *)

(** The characters an alternative of the inline expression starts with:
    the asterisk, the underscore, the backtick, the opening bracket and
    the at sign. *)
Definition isTrigger (c : N) : bool := anyOf "*_`[@" c.

Definition isPlain (s : str) : bool := forallb (fun c => negb (isTrigger c)) s.

(** The node pushed for the text between two matches: none when the text is
    empty. *)
Definition textNode (s : str) : list Inline :=
  match s with
  | [] => []
  | _ :: _ => [Text s None]
  end.

(** *** Lines of paragraph text *)

(** A character that opens no block construct when it starts a line. *)
Definition startsText (c : N) : bool :=
  negb (isSpace c || anyOf "`*-_#>|+" c || isDigit c || N.eqb c BULLET).

(** A line of paragraph text: it starts with such a character and holds no
    newline. *)
Definition textLine (l : str) : bool :=
  match l with
  | c :: _ => startsText c
  | [] => false
  end && forallb (fun c => negb (N.eqb c LF)) l.

(** *** List item lines *)

(** A list item line in its parts: the indentation, the marker, the white
    space after it and the text of the item. *)
Record ItemLine : Type := mkItemLine {
  indent : str;
  marker : str;
  gap : str;
  itemText : str
}.

Definition itemLine (it : ItemLine) : str :=
  indent it ++ marker it ++ gap it ++ itemText it.

(** A bullet marker: a hyphen, an asterisk, a plus or the bullet
    character. *)
Definition isBulletMarker (m : str) : bool :=
  match m with
  | [c] => anyOf "-*+" c || N.eqb c BULLET
  | _ => false
  end.

(** An ordered marker: one digit or more, then a period. *)
Definition isOrderedMarker (m : str) : bool :=
  match span isDigit m with
  | (_ :: _, [c]) => N.eqb c 46
  | _ => false
  end.

(** The parts are what their names say, and the line holds no newline. *)
Definition wfItemLine (isMarker : str -> bool) (it : ItemLine) : bool :=
  forallb isSpace (indent it) && isMarker (marker it) &&
  nonEmpty (gap it) && forallb isSpace (gap it) &&
  headNot isSpace (itemText it) &&
  forallb (fun c => negb (N.eqb c LF)) (itemLine it).

(** The list items of a sequence of inline contents. *)
Definition itemsOf (contents : list (list Inline)) : list ListItem :=
  map (fun nodes => listItem [Paragraph nodes]) contents.

(** *** Quoting a text *)

(** The text [a] quoted: each of its lines after a quote marker and a
    space. *)
Definition quoteText (a : str) : str :=
  join LF (map (fun l => lit "> " ++ l) (split LF a)).

(** *** Texts without an opening fence *)

(** No line of the text opens a fenced code block. *)
Definition noFence (markdown : str) : bool :=
  forallb (fun l => negb (reTest codeFenceRe (trimEnd l))) (split LF markdown).

(** *** Table rows *)

(** The line of a row: the cell texts between pipes. *)
Definition rowLine (cells : list str) : str :=
  lit "|" ++ join 124 cells ++ lit "|".

(** The characters a separator row is made of. *)
Definition isSepChar (c : N) : bool := isSpace c || anyOf "-:|" c.

(** The cell texts of a row: no pipe and no line terminator in them, and a
    character somewhere that a separator row cannot hold. *)
Definition wfRowCells (cells : list str) : bool :=
  forallb (forallb (fun c => dot c && negb (N.eqb c 124))) cells &&
  existsb (existsb (fun c => negb (isSepChar c))) cells.

(** A separator row that is also a pipe-delimited line, without newline. *)
Definition wfSeparator (sep : str) : bool :=
  isSeparator sep && reTest tableLineRe (trimEnd sep) &&
  forallb (fun c => negb (N.eqb c LF)) sep.

(** The row of a sequence of cell contents. *)
Definition rowOf (ty : CellType) (contents : list (list Inline)) : TableRow :=
  tableRow (map (fun nodes => Cell ty [Paragraph nodes]) contents).

(** *** Lines of fields *)

(** [fields.join(separator)]. *)
Fixpoint joinOn (sep : str) (fields : list str) : str :=
  match fields with
  | [] => []
  | [f] => f
  | f :: fields' => f ++ sep ++ joinOn sep fields'
  end.

(** One field or more, without pipe and without newline. *)
Definition wfFields (fields : list str) : bool :=
  nonEmpty fields &&
  forallb (forallb (fun c => negb (N.eqb c 124) && negb (N.eqb c LF))) fields.

(** The commit read from a sequence of fields. *)
Definition commitOfFields (fields : list str) : Commit :=
  mkCommit (nth_error fields 0) (nth_error fields 1) (nth_error fields 2)
           (nth_error fields 3).

(** *** Blocks that are no block quote *)


(** *** Expressions that do not look at the position *)

(** No start-of-input assertion in the expression. *)
Fixpoint noBol (r : re) : bool :=
  match r with
  | Bol => false
  | Eps | Eol | Chr _ | Rep _ _ _ _ => true
  | Seq r1 r2 | Alt r1 r2 => noBol r1 && noBol r2
  | Grp _ r0 => noBol r0
  end.

(** A match found [k] characters further on. *)
Definition shiftMatch (k : nat) (m : Match) : Match :=
  mkMatch (k + index m) (k + stop m) (groups m).

(** *** Inline constructs *)

(** The constructs of the inline parser, each with what it encloses. *)
Inductive Construct : Type :=
| CStrong (t : str)
| CEm (delimiter : N) (t : str)
| CCode (t : str)
| CLink (label url : str)
| CMention (id : str).

(** The text of a construct as it is written. *)
Definition constructText (c : Construct) : str :=
  match c with
  | CStrong t => lit "**" ++ t ++ lit "**"
  | CEm d t => [d] ++ t ++ [d]
  | CCode t => lit "`" ++ t ++ lit "`"
  | CLink label url => lit "[" ++ label ++ lit "](" ++ url ++ lit ")"
  | CMention id => lit "@accountId:" ++ id
  end.

(** The node it stands for. *)
Definition constructNode (c : Construct) : Inline :=
  match c with
  | CStrong t => Text t (Some [Strong])
  | CEm _ t => Text t (Some [Em])
  | CCode t => Text t (Some [Code])
  | CLink label url => Text label (Some [Link url])
  | CMention id => Mention id (lit "@" ++ id) []
  end.

(** What a construct may enclose for its closing delimiter to be the first
    one met, and, for a mention, where the identifier ends in the text
    [post] that follows. *)
Definition wfConstruct (c : Construct) (post : str) : bool :=
  match c with
  | CStrong t =>
      nonEmpty t && forallb (fun c => dot c && negb (N.eqb c 42)) t
  | CEm d t =>
      (N.eqb d 42 || N.eqb d 95) && nonEmpty t &&
      forallb (fun c => dot c && negb (N.eqb c d)) t
  | CCode t => nonEmpty t && forallb (notOf "`") t
  | CLink label url =>
      nonEmpty label && forallb (notOf "]") label &&
      nonEmpty url && forallb (notOf ")") url
  | CMention id =>
      nonEmpty id && forallb isAccountIdChar id &&
      headNot isAccountIdChar post
  end.

(* ================================================================== *)
(** * Properties *)
(* ================================================================== *)

Unset Implicit Arguments.

(* ------------------------------------------------------------------ *)
(** ** The matcher *)
(* ------------------------------------------------------------------ *)

Section Quantifiers.

Variable cls : N -> bool.
Variable k : nat -> str -> option result.

(** A successful quantifier consumed [n >= min] characters of the class and
    handed over to its continuation. *)
Lemma repGreedy_inv : forall s min max pos x,
  repGreedy cls min max pos s k = Some x ->
  exists n, min <= n /\ n <= List.length s /\
            forallb cls (firstn n s) = true /\
            k (pos + n) (skipn n s) = Some x.
Proof.
  induction s as [|c s IH]; intros min max pos x H; simpl in H.
  - destruct min; [|discriminate].
    exists 0. rewrite Nat.add_0_r. repeat split; auto.
  - assert (Hstop : match min with 0 => k pos (c :: s) | S _ => None end = Some x ->
                    exists n, min <= n /\ n <= List.length (c :: s) /\
                      forallb cls (firstn n (c :: s)) = true /\
                      k (pos + n) (skipn n (c :: s)) = Some x).
    { destruct min; [|discriminate]. intros Hk.
      exists 0. rewrite Nat.add_0_r. repeat split; simpl; auto; lia. }
    destruct (cls c) eqn:Hc; simpl in H; [|auto].
    destruct (canTake max); [|auto].
    destruct (repGreedy cls (pred min) (decr max) (S pos) s k) eqn:E; [|auto].
    inversion H; subst; clear H.
    apply IH in E. destruct E as (n & Hn & Hl & Hall & Hk).
    exists (S n). simpl. rewrite Hc, Hall.
    replace (pos + S n) with (S pos + n) by lia.
    repeat split; auto; lia.
Qed.

Lemma repLazy_inv : forall s min max pos x,
  repLazy cls min max pos s k = Some x ->
  exists n, min <= n /\ n <= List.length s /\
            forallb cls (firstn n s) = true /\
            k (pos + n) (skipn n s) = Some x.
Proof.
  induction s as [|c s IH]; intros min max pos x H; simpl in H.
  - destruct min; [|discriminate].
    destruct (k pos []) eqn:Hk; [|discriminate].
    inversion H; subst.
    exists 0. rewrite Nat.add_0_r. repeat split; auto.
  - assert (Hmore : (if cls c && canTake max
                     then repLazy cls (pred min) (decr max) (S pos) s k
                     else None) = Some x ->
                    exists n, min <= n /\ n <= List.length (c :: s) /\
                      forallb cls (firstn n (c :: s)) = true /\
                      k (pos + n) (skipn n (c :: s)) = Some x).
    { destruct (cls c) eqn:Hc; simpl; [|discriminate].
      destruct (canTake max); [|discriminate].
      intros E. apply IH in E. destruct E as (n & Hn & Hl & Hall & Hk).
      exists (S n). simpl. rewrite Hc, Hall.
      replace (pos + S n) with (S pos + n) by lia.
      repeat split; auto; lia. }
    destruct min; [|auto].
    destruct (k pos (c :: s)) eqn:Hk; [|auto].
    inversion H; subst.
    exists 0. rewrite Nat.add_0_r. repeat split; simpl; auto; lia.
Qed.

(** A quantifier that may take no more character hands over at once. *)
Lemma repGreedy_max0 : forall s pos,
  repGreedy cls 0 (Some 0) pos s k = k pos s.
Proof.
  intros [|c s] pos; simpl; auto. now rewrite Bool.andb_false_r.
Qed.

End Quantifiers.

(** A successful match consumed [n >= minLen r] characters, changed the
    captures of its own groups only, and handed over to its continuation. *)
Lemma matchRe_inv : forall r pos s caps k x,
  matchRe r pos s caps k = Some x ->
  exists n caps', minLen r <= n /\ n <= List.length s /\
                  (forall g, ~ In g (groupNums r) ->
                             lookup g caps' = lookup g caps) /\
                  k (pos + n) (skipn n s) caps' = Some x.
Proof.
  induction r as [| | |cls|g min max cls|r1 IH1 r2 IH2|r1 IH1 r2 IH2|g r IH];
    intros pos s caps k x H; simpl in H.
  - exists 0, caps. rewrite Nat.add_0_r. simpl. repeat split; auto; lia.
  - destruct (Nat.eqb pos 0); [|discriminate].
    exists 0, caps. rewrite Nat.add_0_r. simpl. repeat split; auto; lia.
  - destruct s; [|discriminate].
    exists 0, caps. rewrite Nat.add_0_r. simpl. repeat split; auto.
  - destruct s as [|c s]; [discriminate|].
    destruct (cls c); [|discriminate].
    exists 1, caps. simpl. replace (pos + 1) with (S pos) by lia.
    repeat split; auto; lia.
  - destruct g.
    + apply repGreedy_inv in H. destruct H as (n & ? & ? & _ & ?).
      exists n, caps. simpl. auto.
    + apply repLazy_inv in H. destruct H as (n & ? & ? & _ & ?).
      exists n, caps. simpl. auto.
  - apply IH1 in H. destruct H as (n1 & caps1 & Hm1 & Hl1 & Hg1 & H).
    apply IH2 in H. destruct H as (n2 & caps2 & Hm2 & Hl2 & Hg2 & H).
    rewrite length_skipn in Hl2.
    exists (n1 + n2), caps2. simpl.
    rewrite skipn_skipn in H.
    replace (n2 + n1) with (n1 + n2) in H by lia.
    replace (pos + (n1 + n2)) with (pos + n1 + n2) by lia.
    repeat split; auto; try lia.
    intros g Hg. rewrite Hg2, Hg1; auto; intro; apply Hg, in_or_app; auto.
  - destruct (matchRe r1 pos s caps k) eqn:E.
    + inversion H; subst. apply IH1 in E.
      destruct E as (n & caps' & ? & ? & Hg & ?). exists n, caps'. simpl.
      repeat split; auto; try lia.
      intros g Hn. apply Hg. intro; apply Hn, in_or_app; auto.
    + apply IH2 in H.
      destruct H as (n & caps' & ? & ? & Hg & ?). exists n, caps'. simpl.
      repeat split; auto; try lia.
      intros g Hn. apply Hg. intro; apply Hn, in_or_app; auto.
  - apply IH in H. destruct H as (n & caps' & ? & ? & Hg & ?).
    exists n, ((g, firstn (pos + n - pos) s) :: caps').
    split; [auto|]. split; [auto|]. split; [|auto].
    intros g' Hn. simpl.
    destruct (Nat.eqb g' g) eqn:E.
    + apply Nat.eqb_eq in E. subst. exfalso. apply Hn. now left.
    + apply Hg. intro. apply Hn. now right.
Qed.

Lemma matchAt_inv : forall r pos s e caps,
  matchAt r pos s = Some (e, caps) ->
  pos + minLen r <= e /\ e <= pos + List.length s.
Proof.
  intros r pos s e caps H. apply matchRe_inv in H.
  destruct H as (n & caps' & Hm & Hl & _ & H).
  unfold accept in H. inversion H; subst. lia.
Qed.

Lemma search_inv : forall r s pos m,
  search r pos s = Some m ->
  pos <= index m /\ index m + minLen r <= stop m /\
  stop m <= pos + List.length s.
Proof.
  intros r. induction s as [|c s IH]; intros pos m H; simpl in H.
  - destruct (matchAt r pos []) as [[e caps]|] eqn:E; [|discriminate].
    inversion H; subst; simpl. apply matchAt_inv in E. simpl in E. lia.
  - destruct (matchAt r pos (c :: s)) as [[e caps]|] eqn:E.
    + inversion H; subst; simpl. apply matchAt_inv in E. simpl in E. lia.
    + apply IH in H. simpl. lia.
Qed.

Lemma reExec_inv : forall r text lastIndex m,
  reExec r text lastIndex = Some m ->
  lastIndex <= index m /\ index m + minLen r <= stop m /\
  stop m <= List.length text.
Proof.
  intros r text lastIndex m H. unfold reExec in H.
  destruct (Nat.leb lastIndex (List.length text)) eqn:E; [|discriminate].
  apply Nat.leb_le in E. apply search_inv in H.
  rewrite length_skipn in H. lia.
Qed.

(** An expression that starts with [^] matches at the start or nowhere. *)
Lemma search_Bol_later : forall r s pos,
  0 < pos -> search (Seq Bol r) pos s = None.
Proof.
  intros r. induction s as [|c s IH]; intros pos Hpos;
    destruct pos as [|pos]; try lia; simpl; unfold matchAt; simpl; auto.
  all: try (apply IH; lia).
Qed.

Lemma reMatch_Bol : forall r t,
  reMatch (Seq Bol r) t =
  match matchAt r 0 t with
  | Some (e, caps) => Some (mkMatch 0 e caps)
  | None => None
  end.
Proof.
  intros r t. unfold reMatch, reExec. simpl.
  destruct t as [|c t]; simpl; unfold matchAt; simpl.
  - destruct (matchRe r 0 [] [] accept) as [[e caps]|]; auto.
  - destruct (matchRe r 0 (c :: t) [] accept) as [[e caps]|]; auto.
    apply search_Bol_later. lia.
Qed.

Lemma reTest_Bol : forall r t,
  reTest (Seq Bol r) t =
  match matchAt r 0 t with Some _ => true | None => false end.
Proof.
  intros r t. unfold reTest. rewrite reMatch_Bol.
  destruct (matchAt r 0 t) as [[e caps]|]; auto.
Qed.

(** Removing a match of an expression that cannot match the empty string
    makes the text shorter. *)
Lemma reRemove_shorter : forall r t m,
  reMatch r t = Some m -> 0 < minLen r ->
  List.length (reRemove r t) < List.length t.
Proof.
  intros r t m H Hmin. unfold reRemove. rewrite H.
  apply reExec_inv in H.
  rewrite length_app, length_firstn, length_skipn. lia.
Qed.

Lemma reRemove_le : forall r t,
  List.length (reRemove r t) <= List.length t.
Proof.
  intros r t. unfold reRemove.
  destruct (reMatch r t) as [m|] eqn:H; [|lia].
  apply reExec_inv in H.
  rewrite length_app, length_firstn, length_skipn. lia.
Qed.

(* ------------------------------------------------------------------ *)
(** ** Strings and lines *)
(* ------------------------------------------------------------------ *)

(** Facts on character classes are linear arithmetic on code units. *)
Ltac codes :=
  repeat match goal with
         | H : _ && _ = true |- _ => apply Bool.andb_true_iff in H; destruct H
         | H : _ || _ = true |- _ => apply Bool.orb_true_iff in H; destruct H
         | H : _ || _ = false |- _ => apply Bool.orb_false_iff in H; destruct H
         | H : negb _ = true |- _ => apply Bool.negb_true_iff in H
         | H : negb _ = false |- _ => apply Bool.negb_false_iff in H
         | H : N.eqb _ _ = true |- _ => apply N.eqb_eq in H
         | H : N.eqb _ _ = false |- _ => apply N.eqb_neq in H
         | H : N.leb _ _ = true |- _ => apply N.leb_le in H
         | H : N.leb _ _ = false |- _ => apply N.leb_gt in H
         end;
  try lia.

Lemma str_eqb_refl : forall a, str_eqb a a = true.
Proof.
  induction a as [|x a IH]; simpl; auto. now rewrite N.eqb_refl.
Qed.

Lemma span_app : forall {A : Type} (p : A -> bool) (l : list A),
  l = fst (span p l) ++ snd (span p l).
Proof.
  induction l as [|x l IH]; simpl; auto.
  destruct (p x); simpl; auto.
  destruct (span p l) as [a b]; simpl in *. now f_equal.
Qed.

Lemma span_cons_true : forall {A : Type} (p : A -> bool) (x : A) (l : list A),
  p x = true -> span p (x :: l) = (x :: fst (span p l), snd (span p l)).
Proof.
  intros A p x l H. simpl. rewrite H. now destruct (span p l).
Qed.

Lemma span_all : forall {A : Type} (p : A -> bool) (l : list A),
  forallb p l = true -> span p l = (l, []).
Proof.
  induction l as [|x l IH]; simpl; auto.
  intros H. apply Bool.andb_true_iff in H. destruct H as [Hx Hl].
  now rewrite Hx, (IH Hl).
Qed.

Lemma span_stop : forall {A : Type} (p : A -> bool) (a : list A) (x : A)
    (l : list A),
  forallb p a = true -> p x = false -> span p (a ++ x :: l) = (a, x :: l).
Proof.
  induction a as [|y a IH]; simpl; intros x l Ha Hx.
  - now rewrite Hx.
  - apply Bool.andb_true_iff in Ha. destruct Ha as [Hy Ha].
    now rewrite Hy, (IH x l Ha Hx).
Qed.

Lemma lineSize_app : forall a b, lineSize (a ++ b) = lineSize a + lineSize b.
Proof.
  intros a b. unfold lineSize. now rewrite map_app, list_sum_app.
Qed.

Lemma lineSize_cons : forall l ls,
  lineSize (l :: ls) = S (List.length l) + lineSize ls.
Proof. reflexivity. Qed.

Lemma lineSize_length : forall ls, List.length ls <= lineSize ls.
Proof.
  induction ls as [|l ls IH]; simpl; auto.
  rewrite lineSize_cons. simpl. lia.
Qed.

Lemma split_size : forall sep s, lineSize (split sep s) = S (List.length s).
Proof.
  intros sep. induction s as [|c s IH]; simpl; auto.
  destruct (N.eqb c sep).
  - rewrite lineSize_cons, IH. simpl. lia.
  - destruct (split sep s) as [|l ls].
    + discriminate.
    + rewrite lineSize_cons in *. simpl. lia.
Qed.

Lemma join_size : forall sep l ls,
  S (List.length (join sep (l :: ls))) = lineSize (l :: ls).
Proof.
  intros sep l ls. revert l.
  induction ls as [|l' ls IH]; intros l.
  - simpl. unfold lineSize. simpl. lia.
  - change (join sep (l :: l' :: ls)) with (l ++ sep :: join sep (l' :: ls)).
    rewrite length_app, (lineSize_cons l), <- (IH l'). cbn [List.length]. lia.
Qed.

Lemma join_length_le : forall sep ls,
  List.length (join sep ls) <= lineSize ls.
Proof.
  intros sep [|l ls]; simpl; auto.
  pose proof (join_size sep l ls). simpl in *. lia.
Qed.

(** Splitting the joined lines gives the lines back. *)
Lemma split_join : forall sep l ls,
  Forall (fun x => forallb (fun c => negb (N.eqb c sep)) x = true) (l :: ls) ->
  split sep (join sep (l :: ls)) = l :: ls.
Proof.
  intros sep l ls. revert l.
  induction ls as [|l' ls IH]; intros l H.
  - simpl. inversion H as [|? ? Hl _]; subst. clear H.
    induction l as [|c l IHl]; simpl; auto.
    simpl in Hl. apply Bool.andb_true_iff in Hl. destruct Hl as [Hc Hl].
    apply Bool.negb_true_iff in Hc. rewrite Hc, (IHl Hl). reflexivity.
  - change (join sep (l :: l' :: ls)) with (l ++ sep :: join sep (l' :: ls)).
    inversion H as [|? ? Hl Hrest]; subst.
    specialize (IH l' Hrest). clear H Hrest.
    remember (join sep (l' :: ls)) as j eqn:Hj. clear Hj.
    induction l as [|c l IHl]; simpl.
    + rewrite N.eqb_refl. now rewrite IH.
    + simpl in Hl. apply Bool.andb_true_iff in Hl. destruct Hl as [Hc Hl].
      apply Bool.negb_true_iff in Hc. rewrite Hc, (IHl Hl). reflexivity.
Qed.

Lemma trimEnd_spaces : forall s, forallb isSpace s = true -> trimEnd s = [].
Proof.
  induction s as [|c s IH]; simpl; auto.
  intros H. apply Bool.andb_true_iff in H. destruct H as [Hc Hs].
  now rewrite (IH Hs), Hc.
Qed.

Lemma trimEnd_app_spaces : forall s ws,
  forallb isSpace ws = true -> trimEnd (s ++ ws) = trimEnd s.
Proof.
  induction s as [|c s IH]; simpl; intros ws H.
  - now apply trimEnd_spaces.
  - now rewrite (IH ws H).
Qed.

Lemma trimEnd_no_space : forall s,
  forallb (fun c => negb (isSpace c)) s = true -> trimEnd s = s.
Proof.
  induction s as [|c s IH]; simpl; auto.
  intros H. apply Bool.andb_true_iff in H. destruct H as [Hc Hs].
  rewrite (IH Hs). apply Bool.negb_true_iff in Hc. rewrite Hc.
  now destruct s.
Qed.

(** [trimEnd] keeps the first character, if it keeps anything. *)
Lemma trimEnd_head : forall s c t, trimEnd s = c :: t -> exists s', s = c :: s'.
Proof.
  intros [|x s] c t H; simpl in H; [discriminate|].
  destruct (trimEnd s); [destruct (isSpace x); [discriminate|]|];
    inversion H; subst; eauto.
Qed.

Lemma trimEnd_cons_keep : forall c s,
  isSpace c = false -> exists t, trimEnd (c :: s) = c :: t.
Proof.
  intros c s H. simpl. rewrite H. destruct (trimEnd s); eauto.
Qed.

Lemma trimEnd_length : forall s, List.length (trimEnd s) <= List.length s.
Proof.
  induction s as [|c s IH]; simpl; auto.
  destruct (trimEnd s); [destruct (isSpace c)|]; simpl in *; lia.
Qed.

Lemma split_spaces : forall s,
  forallb isSpace s = true ->
  Forall (fun l => forallb isSpace l = true) (split LF s).
Proof.
  induction s as [|c s IH]; simpl; intros H.
  - repeat constructor.
  - apply Bool.andb_true_iff in H. destruct H as [Hc Hs].
    specialize (IH Hs).
    destruct (N.eqb c LF).
    + constructor; auto.
    + destruct (split LF s) as [|l ls].
      * repeat constructor. simpl. now rewrite Hc.
      * inversion IH; subst. constructor; auto. simpl. now rewrite Hc.
Qed.

Lemma split_no_sep : forall sep s,
  forallb (fun c => negb (N.eqb c sep)) s = true -> split sep s = [s].
Proof.
  intros sep s H. apply (@split_join sep s []).
  now constructor.
Qed.

(* ------------------------------------------------------------------ *)
(** ** The inline parser returns, and returns well-formed nodes *)
(* ------------------------------------------------------------------ *)

Lemma inlineNode_wf : forall m, forallb wfInline (inlineNode m) = true.
Proof.
  intros m. unfold inlineNode.
  repeat match goal with
         | |- context [if ?b then _ else _] => destruct b
         end; simpl; auto.
  now rewrite str_eqb_refl.
Qed.

Lemma forallb_snoc : forall {A : Type} (p : A -> bool) (l : list A) (x : A),
  forallb p l = true -> p x = true -> forallb p (l ++ [x]) = true.
Proof.
  intros A p l x Hl Hx. rewrite forallb_app, Hl. simpl. now rewrite Hx.
Qed.

(** Every match of the inline expression is at least three characters long,
    so [lastIndex] grows and the loop ends within its fuel. *)
Lemma parseInlineLoop_ok : forall fuel text lastIndex nodes,
  List.length text < fuel + lastIndex ->
  forallb wfInline nodes = true ->
  exists nodes' lastIndex',
    parseInlineLoop fuel text lastIndex nodes = Some (nodes', lastIndex') /\
    forallb wfInline nodes' = true.
Proof.
  assert (Hmin : minLen inlineRe = 3) by reflexivity.
  induction fuel as [|fuel IH]; intros text lastIndex nodes Hlen Hwf;
    cbn [parseInlineLoop];
    destruct (reExec inlineRe text lastIndex) as [m|] eqn:E; eauto.
  - apply reExec_inv in E. lia.
  - apply reExec_inv in E. rewrite Hmin in E.
    apply IH; [lia|].
    rewrite forallb_app, inlineNode_wf, Bool.andb_true_r.
    destruct (Nat.ltb lastIndex (index m)); auto.
    now apply forallb_snoc.
Qed.

Lemma parseInline_ok : forall text,
  exists nodes, parseInline text = Some nodes /\ wfInlines nodes = true.
Proof.
  intros text. unfold parseInline.
  destruct (@parseInlineLoop_ok (S (List.length text)) text 0 [])
    as (nodes & lastIndex & H & Hwf); [lia|reflexivity|].
  rewrite H. cbn [bind].
  eexists. split; [reflexivity|].
  unfold wfInlines.
  destruct (Nat.ltb lastIndex (List.length text)).
  - destruct nodes; simpl in *; auto.
    rewrite forallb_app. apply Bool.andb_true_iff in Hwf.
    destruct Hwf as [-> ->]. reflexivity.
  - destruct nodes; simpl in *; auto.
Qed.

Lemma mapM_ok : forall {A B : Type} (f : A -> option B) (p : B -> bool)
    (l : list A),
  (forall a, exists b, f a = Some b /\ p b = true) ->
  exists bs, mapM f l = Some bs /\ forallb p bs = true /\
             List.length bs = List.length l.
Proof.
  intros A B f p l Hf. induction l as [|a l IH]; simpl.
  - exists []. auto.
  - destruct (Hf a) as (b & Hb & Hp). destruct IH as (bs & Hbs & Hall & Hlen).
    rewrite Hb, Hbs. simpl. exists (b :: bs). simpl.
    rewrite Hp, Hall. auto.
Qed.

Lemma flushParagraph_ok : forall blocks paraLines,
  forallb wfBlock blocks = true ->
  exists blocks', flushParagraph blocks paraLines = Some blocks' /\
                  forallb wfBlock blocks' = true.
Proof.
  intros blocks paraLines Hwf. unfold flushParagraph.
  destruct paraLines as [|l ls]; eauto.
  destruct (isEmpty (trim (join LF (l :: ls)))); eauto.
  destruct (parseInline_ok (join LF (l :: ls))) as (nodes & -> & Hn).
  cbn [bind]. eexists. split; [reflexivity|].
  now apply forallb_snoc.
Qed.

Lemma listItems_ok : forall markerRe run,
  exists items, listItems markerRe run = Some items /\
                forallb wfItem items = true /\
                List.length items = List.length run.
Proof.
  intros markerRe run. unfold listItems. apply mapM_ok.
  intros l. destruct (parseInline_ok (reRemove markerRe l)) as (nodes & -> & Hn).
  cbn [bind]. eexists. split; [reflexivity|]. exact Hn.
Qed.

Lemma split_nonEmpty : forall sep s, nonEmpty (split sep s) = true.
Proof.
  intros sep [|c s]; simpl; auto.
  destruct (N.eqb c sep); auto. destruct (split sep s); auto.
Qed.

Lemma tableRowOf_ok : forall isHeader cells,
  nonEmpty cells = true ->
  exists row, tableRowOf isHeader cells = Some row /\ wfRow row = true.
Proof.
  intros isHeader cells Hne. unfold tableRowOf.
  destruct (mapM_ok
              (fun cellText =>
                 nodes <- parseInline cellText ;;
                 Some (Cell (if isHeader then tableHeader else tableCell)
                            [Paragraph nodes]))
              wfCell cells) as (row & -> & Hall & Hlen).
  - intros cellText. destruct (parseInline_ok cellText) as (nodes & -> & Hn).
    cbn [bind]. eexists. split; [reflexivity|]. exact Hn.
  - cbn [bind]. eexists. split; [reflexivity|]. simpl.
    rewrite Hall, Bool.andb_true_r.
    destruct cells; [discriminate|]. now destruct row.
Qed.

Lemma parseTableRows_ok : forall lines i rows,
  forallb wfRow rows = true ->
  exists rows', parseTableRows i lines rows = Some rows' /\
                forallb wfRow rows' = true.
Proof.
  induction lines as [|l lines IH]; intros i rows Hwf; cbn [parseTableRows].
  - eauto.
  - destruct (reTest separatorRe (trim l)); [now apply IH|].
    destruct (@tableRowOf_ok (Nat.eqb i 0) (tableCells (trim l)))
      as (row & -> & Hrow).
    + unfold tableCells. destruct (split 124 _) eqn:E; auto.
      pose proof (split_nonEmpty 124
        (reRemove (Str "|" <+> Eol) (reRemove (Bol <+> Str "|") (trim l)))) as Hs.
      rewrite E in Hs. discriminate.
    + cbn [bind]. apply IH. now apply forallb_snoc.
Qed.

Lemma parseTableBlock_ok : forall lines,
  exists tbl, parseTableBlock lines = Some tbl /\ wfBlock tbl = true.
Proof.
  intros lines. unfold parseTableBlock.
  destruct (@parseTableRows_ok lines 0 []) as (rows & -> & Hwf); auto.
  cbn [bind]. eexists. split; [reflexivity|]. simpl. exact Hwf.
Qed.

(* ------------------------------------------------------------------ *)
(** ** Quote lines and headings *)
(* ------------------------------------------------------------------ *)

(** A quote line starts with a [>] sign. *)
Lemma quoteTest_head : forall t,
  reTest quoteRe t = true -> exists r, t = 62%N :: r.
Proof.
  intros t H. unfold quoteRe in H. rewrite reTest_Bol in H.
  destruct t as [|c t]; [discriminate|].
  unfold matchAt in H. cbn -[N.eqb] in H.
  destruct (N.eqb 62 c) eqn:E; [|discriminate].
  apply N.eqb_eq in E. subst. eauto.
Qed.

Lemma quote_match : forall s, exists m, reMatch quoteRe (62%N :: s) = Some m.
Proof.
  intros s. unfold quoteRe. rewrite reMatch_Bol.
  unfold matchAt. cbn -[isSpace].
  destruct s as [|c s]; cbn -[isSpace]; [eauto|].
  destruct (isSpace c); cbn; eauto.
  rewrite repGreedy_max0. cbn. eauto.
Qed.

(** Stripping the marker of a quote line makes it shorter. *)
Lemma dedent_shorter : forall l,
  reTest quoteRe (trimEnd l) = true ->
  List.length (reRemove quoteRe l) < List.length l.
Proof.
  intros l H. apply quoteTest_head in H. destruct H as (r & Hr).
  apply trimEnd_head in Hr. destruct Hr as (s & ->).
  destruct (quote_match s) as (m & Hm).
  apply reRemove_shorter with (m := m); [exact Hm | cbv; lia].
Qed.

Lemma span_fst_all : forall {A : Type} (p : A -> bool) (l : list A),
  forallb p (fst (span p l)) = true.
Proof.
  induction l as [|x l IH]; simpl; auto.
  destruct (p x) eqn:E; simpl; auto.
  destruct (span p l); simpl in *. now rewrite E.
Qed.

Lemma dedent_size : forall quoted,
  forallb (fun l => reTest quoteRe (trimEnd l)) quoted = true ->
  lineSize (map (reRemove quoteRe) quoted) + List.length quoted
  <= lineSize quoted.
Proof.
  induction quoted as [|l quoted IH]; cbn [map forallb List.length];
    intros H; auto.
  apply Bool.andb_true_iff in H. destruct H as [Hl Hq].
  rewrite !lineSize_cons. specialize (IH Hq).
  pose proof (dedent_shorter l Hl). lia.
Qed.

(** The hashes of a heading are at least one. *)
Lemma heading_level : forall t m,
  reMatch headingRe t = Some m ->
  1 <= List.length (orEmpty (group 1 m)).
Proof.
  intros t m H. unfold headingRe in H. rewrite reMatch_Bol in H.
  destruct (matchAt _ 0 t) as [[e caps]|] eqn:E; [|discriminate].
  inversion H; subst; clear H.
  unfold matchAt, between in E.
  remember (plus isSpace <+> Grp 2 (plus dot) <+> Eol)%re as rest eqn:Hrest.
  cbn [matchRe] in E.
  apply repGreedy_inv in E. destruct E as (n & Hn & Hl & _ & E).
  apply matchRe_inv in E. destruct E as (n2 & caps' & _ & _ & Hg & E).
  unfold accept in E. inversion E; subst; clear E.
  unfold group. cbn [groups]. rewrite Hg.
  - cbn. rewrite length_firstn. lia.
  - cbv. intuition discriminate.
Qed.

(* ------------------------------------------------------------------ *)
(** ** One iteration of the block loop *)
(* ------------------------------------------------------------------ *)

Lemma suffix_tl : forall {A : Type} (l a b : list A),
  l = a ++ b -> exists pre, l = pre ++ tl b.
Proof.
  intros A l a [|x b] H; simpl.
  - exists l. now rewrite app_nil_r.
  - exists (a ++ [x]). now rewrite <- app_assoc.
Qed.

Lemma suffix_size : forall pre lines' rest : list str,
  rest = pre ++ lines' ->
  List.length lines' <= List.length rest /\ lineSize lines' <= lineSize rest.
Proof.
  intros pre lines' rest ->. rewrite length_app, lineSize_app. lia.
Qed.

Ltac flush_step Hwf :=
  match goal with
  | |- context [flushParagraph ?b ?p] =>
      let b1 := fresh "blocks1" in
      let E := fresh "Hflush" in
      let Hb := fresh "Hwf1" in
      destruct (flushParagraph_ok b p Hwf) as (b1 & E & Hb);
      rewrite E; cbn [bind]
  end.

Section StepOk.

Variable recur : str -> option Document.
Variable n : nat.

(** The recursive call returns a well-formed document on every text
    shorter than [n]. *)
Hypothesis recur_ok : forall s,
  List.length s < n -> exists d, recur s = Some d /\ wfDocument d = true.

(** An iteration returns, pushes well-formed blocks only, and leaves a
    suffix of the lines after the current one. *)
Lemma blockStep_ok : forall line rest blocks buf,
  lineSize (line :: rest) <= S n ->
  forallb wfBlock blocks = true ->
  exists blocks' buf' lines',
    blockStep recur line rest blocks buf = Some (blocks', buf', lines') /\
    forallb wfBlock blocks' = true /\
    exists pre, rest = pre ++ lines'.
Proof.
  intros line rest blocks buf Hsize Hwf. unfold blockStep. cbv zeta.
  destruct (reMatch codeFenceRe (trimEnd line)) as [codeMatch|] eqn:Hfence.
  { flush_step Hwf.
    destruct (span _ rest) as [codeLines after] eqn:Hspan.
    do 3 eexists. split; [reflexivity|]. split.
    - now apply forallb_snoc.
    - pose proof (span_app (fun l => negb (startsWith fence (trimEnd l))) rest)
        as Happ.
      rewrite Hspan in Happ. simpl in Happ. eapply suffix_tl; eauto. }
  destruct (reTest ruleRe (trimEnd line)) eqn:Hrule.
  { flush_step Hwf.
    do 3 eexists. split; [reflexivity|]. split.
    - now apply forallb_snoc.
    - now exists []. }
  destruct (reMatch headingRe (trimEnd line)) as [headingMatch|] eqn:Hhead.
  { flush_step Hwf.
    destruct (parseInline_ok (orEmpty (group 2 headingMatch)))
      as (nodes & -> & Hnodes).
    cbn [bind]. do 3 eexists. split; [reflexivity|]. split.
    - apply forallb_snoc; auto. cbn [wfBlock]. rewrite Hnodes.
      apply heading_level in Hhead.
      rewrite Bool.andb_true_r. apply Bool.andb_true_iff. split.
      + apply Nat.leb_le. lia.
      + apply Nat.leb_le. lia.
    - now exists []. }
  destruct (reTest quoteRe (trimEnd line)) eqn:Hquote.
  { flush_step Hwf.
    rewrite (span_cons_true (fun l => reTest quoteRe (trimEnd l)) line rest Hquote).
    pose proof (span_app (fun l => reTest quoteRe (trimEnd l)) rest) as Happ.
    pose proof (span_fst_all (fun l => reTest quoteRe (trimEnd l)) rest) as Hall.
    destruct (span _ rest) as [quoted after]. cbn [fst snd] in *.
    destruct (recur_ok (join LF (map (reRemove quoteRe) (line :: quoted))))
      as (d & -> & Hd).
    - assert (Hq : forallb (fun l => reTest quoteRe (trimEnd l))
                     (line :: quoted) = true).
      { cbn [forallb]. now rewrite Hquote, Hall. }
      apply dedent_size in Hq.
      pose proof (join_size LF (reRemove quoteRe line)
                    (map (reRemove quoteRe) quoted)) as Hj.
      cbn [map] in *. cbn [List.length] in Hq.
      rewrite Happ in Hsize.
      rewrite lineSize_cons, lineSize_app in Hsize.
      rewrite (lineSize_cons line) in Hq. lia.
    - cbn [bind]. do 3 eexists. split; [reflexivity|]. split.
      + apply forallb_snoc; auto. cbn [wfBlock].
        unfold wfDocument in Hd.
        apply Bool.andb_true_iff in Hd. destruct Hd as [Hd Hd2].
        apply Bool.andb_true_iff in Hd. destruct Hd as [_ Hd1].
        now rewrite Hd1, Hd2.
      + eauto. }
  destruct (reTest tableLineRe (trimEnd line) &&
            reTest separatorRe (nextLineOf rest)) eqn:Htable.
  { apply Bool.andb_true_iff in Htable. destruct Htable as [Htable _].
    flush_step Hwf.
    rewrite (span_cons_true (fun l => reTest tableLineRe (trimEnd l))
               line rest Htable).
    pose proof (span_app (fun l => reTest tableLineRe (trimEnd l)) rest) as Happ.
    destruct (span _ rest) as [run after]. cbn [fst snd] in *.
    destruct (parseTableBlock_ok (line :: run)) as (tbl & -> & Htbl).
    cbn [bind]. do 3 eexists. split; [reflexivity|]. split.
    - now apply forallb_snoc.
    - eauto. }
  destruct (reTest bulletRe line) eqn:Hbullet.
  { flush_step Hwf.
    rewrite (span_cons_true (reTest bulletRe) line rest Hbullet).
    pose proof (span_app (reTest bulletRe) rest) as Happ.
    destruct (span _ rest) as [run after]. cbn [fst snd] in *.
    destruct (listItems_ok bulletRe (line :: run)) as (items & -> & Hitems & Hlen).
    cbn [bind]. do 3 eexists. split; [reflexivity|]. split.
    - apply forallb_snoc; auto. cbn [wfBlock]. rewrite Hitems.
      destruct items; [discriminate|reflexivity].
    - eauto. }
  destruct (reTest orderedRe line) eqn:Hordered.
  { flush_step Hwf.
    rewrite (span_cons_true (reTest orderedRe) line rest Hordered).
    pose proof (span_app (reTest orderedRe) rest) as Happ.
    destruct (span _ rest) as [run after]. cbn [fst snd] in *.
    destruct (listItems_ok orderedRe (line :: run)) as (items & -> & Hitems & Hlen).
    cbn [bind]. do 3 eexists. split; [reflexivity|]. split.
    - apply forallb_snoc; auto. cbn [wfBlock]. rewrite Hitems.
      destruct items; [discriminate|reflexivity].
    - eauto. }
  destruct (isEmpty (trimEnd line)).
  { flush_step Hwf.
    do 3 eexists. split; [reflexivity|]. split; auto. now exists []. }
  do 3 eexists. split; [reflexivity|]. split; auto. now exists [].
Qed.

(** The loop returns within a fuel of one unit per line. *)
Lemma blockLoop_ok : forall fuel lines blocks buf,
  List.length lines <= fuel ->
  lineSize lines <= S n ->
  forallb wfBlock blocks = true ->
  exists blocks' buf',
    blockLoop recur fuel lines blocks buf = Some (blocks', buf') /\
    forallb wfBlock blocks' = true.
Proof.
  induction fuel as [|fuel IH]; intros lines blocks buf Hlen Hsize Hwf;
    destruct lines as [|line rest]; cbn [blockLoop]; eauto;
    cbn [List.length] in Hlen; try lia.
  destruct (blockStep_ok line rest blocks buf Hsize Hwf)
    as (blocks' & buf' & lines' & -> & Hwf' & pre & Hpre).
  cbn [bind]. apply suffix_size in Hpre.
  rewrite lineSize_cons in Hsize.
  apply IH; auto; lia.
Qed.

End StepOk.

(** Case analysis on the results bound in a hypothesis. *)
Ltac split_binds H :=
  repeat match type of H with
         | context [bind ?m _] =>
             let E := fresh "Hbind" in
             destruct m eqn:E; cbn [bind] in H; [|discriminate H]
         end.

Lemma blockStep_suffix : forall recur line rest blocks buf blocks' buf' lines',
  blockStep recur line rest blocks buf = Some (blocks', buf', lines') ->
  exists pre, rest = pre ++ lines'.
Proof.
  intros recur line rest blocks buf blocks' buf' lines' H.
  unfold blockStep in H. cbv zeta in H.
  destruct (reMatch codeFenceRe (trimEnd line)) as [codeMatch|].
  { split_binds H.
    pose proof (span_app (fun l => negb (startsWith fence (trimEnd l))) rest)
      as Happ.
    destruct (span _ rest) as [codeLines after]. cbn [fst snd] in Happ.
    inversion H; subst. eapply suffix_tl; eauto. }
  destruct (reTest ruleRe (trimEnd line)).
  { split_binds H. inversion H; subst. now exists []. }
  destruct (reMatch headingRe (trimEnd line)) as [headingMatch|].
  { split_binds H. inversion H; subst. now exists []. }
  destruct (reTest quoteRe (trimEnd line)) eqn:Hquote.
  { rewrite (span_cons_true (fun l => reTest quoteRe (trimEnd l))
               line rest Hquote) in H.
    pose proof (span_app (fun l => reTest quoteRe (trimEnd l)) rest) as Happ.
    destruct (span _ rest) as [quoted after]. cbn [fst snd] in *.
    split_binds H. inversion H; subst. eauto. }
  destruct (reTest tableLineRe (trimEnd line) &&
            reTest separatorRe (nextLineOf rest)) eqn:Htable.
  { apply Bool.andb_true_iff in Htable. destruct Htable as [Htable _].
    rewrite (span_cons_true (fun l => reTest tableLineRe (trimEnd l))
               line rest Htable) in H.
    pose proof (span_app (fun l => reTest tableLineRe (trimEnd l)) rest) as Happ.
    destruct (span _ rest) as [run after]. cbn [fst snd] in *.
    split_binds H. inversion H; subst. eauto. }
  destruct (reTest bulletRe line) eqn:Hbullet.
  { rewrite (span_cons_true (reTest bulletRe) line rest Hbullet) in H.
    pose proof (span_app (reTest bulletRe) rest) as Happ.
    destruct (span _ rest) as [run after]. cbn [fst snd] in *.
    split_binds H. inversion H; subst. eauto. }
  destruct (reTest orderedRe line) eqn:Hordered.
  { rewrite (span_cons_true (reTest orderedRe) line rest Hordered) in H.
    pose proof (span_app (reTest orderedRe) rest) as Happ.
    destruct (span _ rest) as [run after]. cbn [fst snd] in *.
    split_binds H. inversion H; subst. eauto. }
  destruct (isEmpty (trimEnd line)).
  { split_binds H. inversion H; subst. now exists []. }
  inversion H; subst. now exists [].
Qed.

Section StepExt.

Variables recur1 recur2 : str -> option Document.
Variable n : nat.

(** Two recursive calls that agree on every text shorter than [n]. *)
Hypothesis recur_agree : forall s, List.length s < n -> recur1 s = recur2 s.

(** An iteration calls [markdownToAdf] on shorter texts only. *)
Lemma blockStep_ext : forall line rest blocks buf,
  lineSize (line :: rest) <= S n ->
  blockStep recur1 line rest blocks buf = blockStep recur2 line rest blocks buf.
Proof.
  intros line rest blocks buf Hsize. unfold blockStep. cbv zeta.
  destruct (reMatch codeFenceRe (trimEnd line)) as [codeMatch|]; auto.
  destruct (reTest ruleRe (trimEnd line)); auto.
  destruct (reMatch headingRe (trimEnd line)) as [headingMatch|]; auto.
  destruct (reTest quoteRe (trimEnd line)) eqn:Hquote; auto.
  destruct (flushParagraph blocks buf) as [blocks1|]; cbn [bind]; auto.
  rewrite (span_cons_true (fun l => reTest quoteRe (trimEnd l)) line rest Hquote).
  pose proof (span_app (fun l => reTest quoteRe (trimEnd l)) rest) as Happ.
  pose proof (span_fst_all (fun l => reTest quoteRe (trimEnd l)) rest) as Hall.
  destruct (span _ rest) as [quoted after]. cbn [fst snd] in *.
  rewrite recur_agree; auto.
  assert (Hq : forallb (fun l => reTest quoteRe (trimEnd l))
                 (line :: quoted) = true).
  { cbn [forallb]. now rewrite Hquote, Hall. }
  apply dedent_size in Hq.
  pose proof (join_size LF (reRemove quoteRe line)
                (map (reRemove quoteRe) quoted)) as Hj.
  cbn [map] in *. cbn [List.length] in Hq.
  rewrite Happ in Hsize.
  rewrite lineSize_cons, lineSize_app in Hsize.
  rewrite (lineSize_cons line) in Hq. lia.
Qed.

Lemma blockLoop_ext : forall fuel lines blocks buf,
  lineSize lines <= S n ->
  blockLoop recur1 fuel lines blocks buf = blockLoop recur2 fuel lines blocks buf.
Proof.
  induction fuel as [|fuel IH]; intros lines blocks buf Hsize;
    destruct lines as [|line rest]; cbn [blockLoop]; auto.
  rewrite (blockStep_ext line rest blocks buf Hsize).
  destruct (blockStep recur2 line rest blocks buf)
    as [[[blocks' buf'] lines']|] eqn:Hstep; cbn [bind]; auto.
  apply blockStep_suffix in Hstep. destruct Hstep as (pre & Hpre).
  apply suffix_size in Hpre. rewrite lineSize_cons in Hsize.
  apply IH. lia.
Qed.

End StepExt.

(* ------------------------------------------------------------------ *)
(** ** The converter returns *)
(* ------------------------------------------------------------------ *)

Lemma assemble_wf : forall blocks,
  forallb wfBlock blocks = true -> wfDocument (assemble blocks) = true.
Proof.
  intros [|b blocks] H; [reflexivity|].
  unfold wfDocument, assemble. cbn [version content nonEmpty Nat.eqb].
  exact H.
Qed.

(** With a depth above the length of the text the converter returns, and
    returns a well-formed document. *)
Lemma markdownToAdfAt_ok : forall depth markdown,
  List.length markdown < depth ->
  exists d, markdownToAdfAt depth markdown = Some d /\ wfDocument d = true.
Proof.
  induction depth as [|depth IH]; intros markdown Hlen; [lia|].
  cbn [markdownToAdfAt].
  destruct (blockLoop_ok (markdownToAdfAt depth) depth IH
              (List.length (split LF markdown)) (split LF markdown) [] [])
    as (blocks & buf & -> & Hwf); auto.
  - rewrite split_size. lia.
  - cbn [bind].
    destruct (flushParagraph_ok blocks buf Hwf) as (blocks' & -> & Hwf').
    cbn [bind]. eexists. split; [reflexivity|]. now apply assemble_wf.
Qed.

(** Beyond the length of the text the depth does not matter. *)
Lemma markdownToAdfAt_stable : forall depth1 depth2 markdown,
  List.length markdown < depth1 ->
  List.length markdown < depth2 ->
  markdownToAdfAt depth1 markdown = markdownToAdfAt depth2 markdown.
Proof.
  induction depth1 as [|depth1 IH]; intros depth2 markdown H1 H2; [lia|].
  destruct depth2 as [|depth2]; [lia|].
  cbn [markdownToAdfAt].
  rewrite (blockLoop_ext (markdownToAdfAt depth1) (markdownToAdfAt depth2)
             (List.length markdown)); auto.
  - intros s Hs. apply IH; lia.
  - rewrite split_size. lia.
Qed.

Lemma markdownToAdf_total : forall markdown,
  exists d, markdownToAdf markdown = Some d /\ wfDocument d = true.
Proof.
  intros markdown. apply markdownToAdfAt_ok. lia.
Qed.

(* ------------------------------------------------------------------ *)
(** ** First characters *)
(* ------------------------------------------------------------------ *)

Lemma matchRe_first : forall r pos s caps k x,
  matchRe r pos s caps k = Some x ->
  exists n caps', minLen r <= n /\
                  k (pos + n) (skipn n s) caps' = Some x /\
                  (0 < n -> exists c s', s = c :: s' /\ first r c = true).
Proof.
  induction r as [| | |cls|g min max cls|r1 IH1 r2 IH2|r1 IH1 r2 IH2|g r IH];
    intros pos s caps k x H; simpl in H.
  - exists 0, caps. rewrite Nat.add_0_r. simpl. repeat split; auto; lia.
  - destruct (Nat.eqb pos 0); [|discriminate].
    exists 0, caps. rewrite Nat.add_0_r. simpl. repeat split; auto; lia.
  - destruct s; [|discriminate].
    exists 0, caps. rewrite Nat.add_0_r. simpl. repeat split; auto; lia.
  - destruct s as [|c s]; [discriminate|].
    destruct (cls c) eqn:Hc; [|discriminate].
    exists 1, caps. simpl. replace (pos + 1) with (S pos) by lia.
    repeat split; eauto.
  - assert (Hrep : exists n, min <= n /\ n <= List.length s /\
                     forallb cls (firstn n s) = true /\
                     k (pos + n) (skipn n s) caps = Some x).
    { destruct g; [apply repGreedy_inv in H|apply repLazy_inv in H]; exact H. }
    destruct Hrep as (n & Hn & Hl & Hall & Hk).
    exists n, caps. simpl. repeat split; auto.
    intros Hpos. destruct n as [|n]; [lia|].
    destruct s as [|c s]; [simpl in Hl; lia|].
    simpl in Hall. apply Bool.andb_true_iff in Hall. destruct Hall as [Hc _].
    eauto.
  - apply IH1 in H. destruct H as (n1 & caps1 & Hm1 & H & Hf1).
    apply IH2 in H. destruct H as (n2 & caps2 & Hm2 & H & Hf2).
    exists (n1 + n2), caps2. simpl.
    rewrite skipn_skipn in H.
    replace (n2 + n1) with (n1 + n2) in H by lia.
    replace (pos + (n1 + n2)) with (pos + n1 + n2) by lia.
    repeat split; auto; try lia.
    intros Hpos. destruct n1 as [|n1].
    + simpl in Hf2. destruct Hf2 as (c & s' & -> & Hc); [lia|].
      exists c, s'. split; auto.
      assert (Hz : minLen r1 = 0) by lia.
      rewrite Hz, Hc. simpl. apply Bool.orb_true_r.
    + destruct Hf1 as (c & s' & -> & Hc); [lia|].
      exists c, s'. split; auto. now rewrite Hc.
  - destruct (matchRe r1 pos s caps k) eqn:E.
    + inversion H; subst. apply IH1 in E.
      destruct E as (n & caps' & ? & ? & Hf). exists n, caps'. simpl.
      repeat split; auto; try lia.
      intros Hpos. destruct (Hf Hpos) as (c & s' & -> & Hc).
      exists c, s'. now rewrite Hc.
    + apply IH2 in H.
      destruct H as (n & caps' & ? & ? & Hf). exists n, caps'. simpl.
      repeat split; auto; try lia.
      intros Hpos. destruct (Hf Hpos) as (c & s' & -> & Hc).
      exists c, s'. rewrite Hc. split; auto. apply Bool.orb_true_r.
  - apply IH in H. destruct H as (n & caps' & ? & ? & Hf).
    exists n, ((g, firstn (pos + n - pos) s) :: caps'). simpl.
    repeat split; auto.
Qed.

(** An anchored expression that cannot match the empty string matches only
    texts that start with one of its first characters. *)
Lemma reMatch_first : forall r t m,
  reMatch (Seq Bol r) t = Some m -> 0 < minLen r ->
  exists c s', t = c :: s' /\ first r c = true.
Proof.
  intros r t m H Hmin. rewrite reMatch_Bol in H.
  destruct (matchAt r 0 t) as [[e caps]|] eqn:E; [|discriminate].
  apply matchRe_first in E. destruct E as (n & caps' & Hn & _ & Hf).
  apply Hf. lia.
Qed.

Lemma reMatch_nil : forall r,
  0 < minLen r -> reMatch (Seq Bol r) [] = None.
Proof.
  intros r Hmin. destruct (reMatch (Seq Bol r) []) as [m|] eqn:E; auto.
  apply reMatch_first in E; auto. destruct E as (c & s' & E & _). discriminate.
Qed.

Lemma reMatch_other : forall r c s,
  0 < minLen r -> first r c = false -> reMatch (Seq Bol r) (c :: s) = None.
Proof.
  intros r c s Hmin Hc. destruct (reMatch (Seq Bol r) (c :: s)) as [m|] eqn:E; auto.
  apply reMatch_first in E; auto. destruct E as (c' & s' & E & Hc').
  inversion E; subst. congruence.
Qed.

Lemma reTest_other : forall r c s,
  0 < minLen r -> first r c = false -> reTest (Seq Bol r) (c :: s) = false.
Proof.
  intros r c s Hmin Hc. unfold reTest. now rewrite reMatch_other.
Qed.

Lemma reTest_first : forall r t,
  reTest (Seq Bol r) t = true -> 0 < minLen r ->
  exists c s', t = c :: s' /\ first r c = true.
Proof.
  intros r t H Hmin. unfold reTest in H.
  destruct (reMatch (Seq Bol r) t) as [m|] eqn:E; [|discriminate].
  eapply reMatch_first; eauto.
Qed.

(* ------------------------------------------------------------------ *)
(** ** The document and its blocks *)
(* ------------------------------------------------------------------ *)

Lemma markdownToAdf_scan : forall markdown,
  markdownToAdf markdown =
  (blocks <- scanBlocks markdown ;; Some (assemble blocks)).
Proof.
  intros markdown. unfold markdownToAdf, scanBlocks. cbn [markdownToAdfAt].
  destruct (blockLoop _ _ _ _ _) as [[blocks buf]|]; reflexivity.
Qed.

(** The dedented text of a run of quote lines is shorter than the run. *)
Lemma quote_run_shorter : forall line rest,
  reTest quoteRe (trimEnd line) = true ->
  List.length
    (join LF (map (reRemove quoteRe)
                (fst (span (fun l => reTest quoteRe (trimEnd l)) (line :: rest)))))
  < List.length
      (join LF (fst (span (fun l => reTest quoteRe (trimEnd l)) (line :: rest)))).
Proof.
  intros line rest Hquote.
  rewrite (span_cons_true (fun l => reTest quoteRe (trimEnd l)) line rest Hquote).
  pose proof (span_fst_all (fun l => reTest quoteRe (trimEnd l)) rest) as Hall.
  destruct (span _ rest) as [quoted after]. cbn [fst snd] in *.
  assert (Hq : forallb (fun l => reTest quoteRe (trimEnd l))
                 (line :: quoted) = true).
  { cbn [forallb]. now rewrite Hquote, Hall. }
  apply dedent_size in Hq.
  pose proof (join_size LF (reRemove quoteRe line)
                (map (reRemove quoteRe) quoted)) as Hj.
  pose proof (join_size LF line quoted) as Hj'.
  cbn [map] in *. cbn [List.length] in Hq. lia.
Qed.

(* ------------------------------------------------------------------ *)
(** ** Blank lines *)
(* ------------------------------------------------------------------ *)

Section QuantifierRuns.

Variable cls : N -> bool.
Variable k : nat -> str -> option result.

(** A quantifier fails when its continuation fails at every point it can
    stop at. *)
Lemma repGreedy_fail : forall (P : str -> Prop),
  (forall c s, P (c :: s) -> P s) ->
  (forall pos s, P s -> k pos s = None) ->
  forall s min max pos, P s -> repGreedy cls min max pos s k = None.
Proof.
  intros P Htl Hk. induction s as [|c s IH]; intros min max pos HP; simpl.
  - destruct min; auto.
  - rewrite (IH _ _ _ (Htl _ _ HP)).
    destruct (cls c && canTake max); destruct min; auto.
Qed.

(** A greedy quantifier takes a whole run when the continuation accepts
    after it. *)
Lemma repGreedy_all : forall s min pos x,
  forallb cls s = true -> min <= List.length s ->
  k (pos + List.length s) [] = Some x ->
  repGreedy cls min None pos s k = Some x.
Proof.
  induction s as [|c s IH]; intros min pos x Hall Hmin Hk; simpl in *.
  - destruct min; [|lia]. now rewrite Nat.add_0_r in Hk.
  - apply Bool.andb_true_iff in Hall. destruct Hall as [Hc Hall].
    rewrite Hc. simpl. rewrite (IH (pred min) (S pos) x); auto; [lia|].
    now replace (S pos + List.length s) with (pos + S (List.length s)) by lia.
Qed.

Lemma repGreedy_head_false : forall c s min max pos,
  cls c = false -> repGreedy cls (S min) max pos (c :: s) k = None.
Proof.
  intros c s min max pos Hc. simpl. now rewrite Hc.
Qed.

End QuantifierRuns.

(** Disjoint character classes, by case analysis on the code unit. *)
Ltac class_false :=
  match goal with
  | |- ?b = false =>
      let E := fresh "E" in
      destruct b eqn:E; [exfalso|reflexivity];
      cbv [isSpace isDigit isWord isLineTerminator dot anyOf notOf oneOf
           noneOf existsb lit list_ascii_of_string map N_of_ascii
           N_of_digits BULLET isAccountIdChar] in *;
      cbn [N.add N.mul] in *;
      codes
  end.

Lemma space_not_marker : forall c,
  isSpace c = true -> (anyOf "-*+" c || N.eqb c BULLET) = false.
Proof. intros c H. class_false. Qed.

Lemma space_not_digit : forall c, isSpace c = true -> isDigit c = false.
Proof. intros c H. class_false. Qed.

(** A line of white space is no list item. *)
Lemma bullet_spaces : forall line,
  forallb isSpace line = true -> reTest bulletRe line = false.
Proof.
  intros line H. unfold bulletRe. rewrite reTest_Bol.
  unfold matchAt, star. cbn [matchRe].
  rewrite (repGreedy_fail _ _ (fun s => forallb isSpace s = true)); auto.
  - intros c s Hs. simpl in Hs. now apply Bool.andb_true_iff in Hs.
  - intros pos [|c s] Hs; auto. simpl in Hs.
    apply Bool.andb_true_iff in Hs. destruct Hs as [Hc _].
    now rewrite (space_not_marker c Hc).
Qed.

Lemma ordered_spaces : forall line,
  forallb isSpace line = true -> reTest orderedRe line = false.
Proof.
  intros line H. unfold orderedRe. rewrite reTest_Bol.
  unfold matchAt, star, plus. cbn [matchRe].
  rewrite (repGreedy_fail _ _ (fun s => forallb isSpace s = true)); auto.
  - intros c s Hs. simpl in Hs. now apply Bool.andb_true_iff in Hs.
  - intros pos [|c s] Hs; auto. simpl in Hs.
    apply Bool.andb_true_iff in Hs. destruct Hs as [Hc _].
    apply repGreedy_head_false. now apply space_not_digit.
Qed.

Lemma tests_nil :
  reMatch codeFenceRe [] = None /\ reTest ruleRe [] = false /\
  reMatch headingRe [] = None /\ reTest quoteRe [] = false /\
  reTest tableLineRe [] = false /\ reTest separatorRe [] = false.
Proof. repeat split. Qed.

(** A blank line flushes the paragraph buffer and nothing else. *)
Lemma blockStep_blank : forall recur line rest blocks buf,
  forallb isSpace line = true ->
  blockStep recur line rest blocks buf =
  (blocks' <- flushParagraph blocks buf ;; Some (blocks', [], rest)).
Proof.
  intros recur line rest blocks buf H.
  destruct tests_nil as (H1 & H2 & H3 & H4 & H5 & _).
  unfold blockStep. cbv zeta.
  rewrite (trimEnd_spaces line H), H1, H2, H3, H4, H5.
  rewrite (bullet_spaces line H), (ordered_spaces line H).
  reflexivity.
Qed.

Lemma blockLoop_blank : forall recur fuel lines blocks,
  Forall (fun l => forallb isSpace l = true) lines ->
  List.length lines <= fuel ->
  blockLoop recur fuel lines blocks [] = Some (blocks, []).
Proof.
  intros recur. induction fuel as [|fuel IH]; intros lines blocks Hall Hlen;
    destruct lines as [|line rest]; cbn [blockLoop]; auto;
    cbn [List.length] in Hlen; try lia.
  inversion Hall; subst.
  rewrite blockStep_blank; auto. cbn [flushParagraph bind].
  apply IH; auto. lia.
Qed.

(** An input of white space is a document of one empty paragraph. *)
Lemma markdownToAdf_spaces : forall markdown,
  forallb isSpace markdown = true ->
  markdownToAdf markdown = Some (mkDocument 1 [Paragraph [Text [] None]]).
Proof.
  intros markdown H. unfold markdownToAdf. cbn [markdownToAdfAt].
  rewrite blockLoop_blank; auto.
  now apply split_spaces.
Qed.

(* ------------------------------------------------------------------ *)
(** ** Rules *)
(* ------------------------------------------------------------------ *)

Lemma forallb_repeat : forall {A : Type} (p : A -> bool) (c : A) (n : nat),
  p c = true -> forallb p (repeat c n) = true.
Proof.
  intros A p c n H. induction n as [|n IH]; simpl; auto. now rewrite H.
Qed.

Lemma split_app_no_sep : forall sep a b,
  forallb (fun c => negb (N.eqb c sep)) a = true ->
  split sep (a ++ b) =
  match split sep b with
  | l :: ls => (a ++ l) :: ls
  | [] => [a]
  end.
Proof.
  intros sep a b. induction a as [|c a IH]; simpl; intros H.
  - pose proof (split_nonEmpty sep b). now destruct (split sep b).
  - apply Bool.andb_true_iff in H. destruct H as [Hc Ha].
    apply Bool.negb_true_iff in Hc. rewrite Hc, (IH Ha).
    pose proof (split_nonEmpty sep b). destruct (split sep b); [discriminate|].
    reflexivity.
Qed.

(** Three or more rule characters are a rule line. *)
Lemma rule_run : forall c n,
  In c (lit "*-_") -> 3 <= n -> reTest ruleRe (repeat c n) = true.
Proof.
  intros c n Hc Hn. unfold ruleRe. rewrite reTest_Bol.
  unfold matchAt, atLeast, star. cbn [matchRe].
  destruct n as [|n]; [lia|].
  cbn in Hc. destruct Hc as [<-|[<-|[<-|[]]]].
  - erewrite repGreedy_all;
      [reflexivity | now apply forallb_repeat | rewrite repeat_length; lia
      | cbn; reflexivity].
  - cbn [repeat]. rewrite repGreedy_head_false by reflexivity.
    change (45%N :: repeat 45%N n) with (repeat 45%N (S n)).
    erewrite repGreedy_all;
      [reflexivity | now apply forallb_repeat | rewrite repeat_length; lia
      | cbn; reflexivity].
  - cbn [repeat]. rewrite !repGreedy_head_false by reflexivity.
    change (95%N :: repeat 95%N n) with (repeat 95%N (S n)).
    erewrite repGreedy_all;
      [reflexivity | now apply forallb_repeat | rewrite repeat_length; lia
      | cbn; reflexivity].
Qed.

(** A line of rule characters followed by white space gives a rule. *)
Lemma blockStep_rule : forall recur c n ws rest blocks,
  In c (lit "*-_") -> 3 <= n -> forallb isSpace ws = true ->
  blockStep recur (repeat c n ++ ws) rest blocks [] =
  Some (blocks ++ [Rule], [], rest).
Proof.
  intros recur c n ws rest blocks Hc Hn Hws.
  unfold blockStep. cbv zeta.
  rewrite (trimEnd_app_spaces _ _ Hws), trimEnd_no_space.
  - unfold codeFenceRe at 1.
    destruct n as [|n]; [lia|]. cbn [repeat].
    rewrite reMatch_other.
    + change (c :: repeat c n) with (repeat c (S n)).
      now rewrite rule_run.
    + cbv. lia.
    + cbn in Hc. destruct Hc as [<-|[<-|[<-|[]]]]; reflexivity.
  - apply forallb_repeat.
    cbn in Hc. destruct Hc as [<-|[<-|[<-|[]]]]; reflexivity.
Qed.

Lemma markdownToAdf_rule : forall c n ws,
  In c (lit "*-_") -> 3 <= n -> forallb isSpace ws = true ->
  markdownToAdf (repeat c n ++ ws) = Some (mkDocument 1 [Rule]).
Proof.
  intros c n ws Hc Hn Hws. unfold markdownToAdf. cbn [markdownToAdfAt].
  rewrite split_app_no_sep.
  - pose proof (split_spaces ws Hws) as Hsp.
    pose proof (split_nonEmpty LF ws) as Hne.
    destruct (split LF ws) as [|l ls]; [discriminate|].
    inversion Hsp; subst.
    cbn [List.length blockLoop].
    rewrite blockStep_rule; auto. cbn [bind].
    rewrite blockLoop_blank; auto.
  - apply forallb_repeat.
    cbn in Hc. destruct Hc as [<-|[<-|[<-|[]]]]; reflexivity.
Qed.

(* ------------------------------------------------------------------ *)
(** ** A pipe-delimited line without a separator row *)
(* ------------------------------------------------------------------ *)

(** A pipe-delimited line starts with a pipe. *)
Lemma tableLine_head : forall t,
  reTest tableLineRe t = true -> exists s, t = 124%N :: s.
Proof.
  intros t H. unfold tableLineRe in H.
  apply reTest_first in H; [|cbv; lia].
  destruct H as (c & s & -> & Hc). cbn -[N.eqb] in Hc.
  codes. subst. eauto.
Qed.

(** A line that starts with a pipe opens none of the other constructs. *)
Lemma pipe_tests : forall s,
  reMatch codeFenceRe (124%N :: s) = None /\
  reTest ruleRe (124%N :: s) = false /\
  reMatch headingRe (124%N :: s) = None /\
  reTest quoteRe (124%N :: s) = false /\
  reTest bulletRe (124%N :: s) = false /\
  reTest NoQuote.bulletRe (124%N :: s) = false /\
  reTest orderedRe (124%N :: s) = false.
Proof.
  intros s. repeat split;
    first [apply reMatch_other | apply reTest_other];
    solve [cbv; lia | reflexivity].
Qed.

Lemma trim_keep : forall c s,
  isSpace c = false -> isEmpty (trim (c :: s)) = false.
Proof.
  intros c s H. unfold trim. cbn [trimStart]. rewrite H.
  destruct (trimEnd_cons_keep c s H) as (t & ->). reflexivity.
Qed.

(** At a pipe-delimited line with no separator row after it the loop pushes
    no block: the trimmed line joins the paragraph buffer. *)
Lemma blockStep_table_line_alone : forall recur line rest blocks buf,
  reTest tableLineRe (trimEnd line) = true ->
  reTest separatorRe (nextLineOf rest) = false ->
  blockStep recur line rest blocks buf =
  Some (blocks, buf ++ [trimEnd line], rest).
Proof.
  intros recur line rest blocks buf Htable Hsep.
  destruct (tableLine_head _ Htable) as (t & Ht).
  destruct (trimEnd_head _ _ _ Ht) as (s & ->).
  unfold blockStep. cbv zeta. rewrite Ht in *.
  destruct (pipe_tests t) as (H1 & H2 & H3 & H4 & _).
  destruct (pipe_tests s) as (_ & _ & _ & _ & H5 & _ & H6).
  now rewrite H1, H2, H3, H4, Htable, Hsep, H5, H6.
Qed.

Lemma markdownToAdf_table_line_alone : forall line,
  forallb (fun c => negb (N.eqb c LF)) line = true ->
  reTest tableLineRe (trimEnd line) = true ->
  exists nodes,
    parseInline (trimEnd line) = Some nodes /\
    markdownToAdf line = Some (mkDocument 1 [Paragraph nodes]).
Proof.
  intros line Hline Htable.
  destruct (parseInline_ok (trimEnd line)) as (nodes & Hnodes & _).
  exists nodes. split; [exact Hnodes|].
  unfold markdownToAdf. cbn [markdownToAdfAt].
  rewrite split_no_sep by exact Hline.
  cbn [List.length blockLoop].
  rewrite blockStep_table_line_alone; [|exact Htable|apply tests_nil].
  cbn [bind app flushParagraph join].
  destruct (tableLine_head _ Htable) as (t & Ht). rewrite Ht in *.
  rewrite trim_keep by reflexivity.
  rewrite Hnodes. reflexivity.
Qed.

(* ------------------------------------------------------------------ *)
(** ** Fenced code blocks *)
(* ------------------------------------------------------------------ *)

Lemma word_not_space : forall c, isWord c = true -> isSpace c = false.
Proof. intros c H. class_false. Qed.

Lemma word_not_newline : forall c, isWord c = true -> N.eqb c LF = false.
Proof. intros c H. unfold LF. class_false. Qed.

Lemma forallb_impl : forall {A : Type} (p q : A -> bool) (l : list A),
  (forall a, p a = true -> q a = true) ->
  forallb p l = true -> forallb q l = true.
Proof.
  intros A p q l Hpq. induction l as [|a l IH]; simpl; auto.
  intros H. apply Bool.andb_true_iff in H. destruct H as [Ha Hl].
  now rewrite (Hpq a Ha), (IH Hl).
Qed.

(** The opening fence with its language tag. *)
Lemma codeFence_open : forall lang,
  forallb isWord lang = true ->
  exists m, reMatch codeFenceRe (fence ++ lang) = Some m /\
            group 1 m = Some lang.
Proof.
  intros lang H. unfold codeFenceRe. rewrite reMatch_Bol.
  unfold matchAt, star. cbn [matchRe Str Lit lit fence app
    list_ascii_of_string map].
  cbn -[repGreedy firstn Nat.sub].
  erewrite repGreedy_all; [|exact H|lia|reflexivity].
  eexists. split; [reflexivity|].
  unfold group. cbn [groups lookup Nat.eqb].
  replace (3 + List.length lang - 3) with (List.length lang) by lia.
  now rewrite firstn_all.
Qed.

Lemma trimEnd_open : forall lang,
  forallb isWord lang = true -> trimEnd (fence ++ lang) = fence ++ lang.
Proof.
  intros lang H. apply trimEnd_no_space.
  rewrite forallb_app. apply Bool.andb_true_iff. split; [reflexivity|].
  apply (forallb_impl isWord); auto.
  intros c Hc. now rewrite (word_not_space c Hc).
Qed.

Lemma open_no_newline : forall lang,
  forallb isWord lang = true ->
  forallb (fun c => negb (N.eqb c LF)) (fence ++ lang) = true.
Proof.
  intros lang H.
  rewrite forallb_app. apply Bool.andb_true_iff. split; [reflexivity|].
  apply (forallb_impl isWord); auto.
  intros c Hc. now rewrite (word_not_newline c Hc).
Qed.

(** The language of a code block: the tag of the fence unless it is
    empty. *)
Lemma blockStep_fence : forall recur lang rest blocks,
  forallb isWord lang = true ->
  blockStep recur (fence ++ lang) rest blocks [] =
  Some (blocks ++
          [CodeBlock (match lang with [] => None | _ :: _ => Some lang end)
             [Text (join LF
                      (fst (span (fun l => negb (startsWith fence (trimEnd l)))
                              rest))) None]],
        [],
        tl (snd (span (fun l => negb (startsWith fence (trimEnd l))) rest))).
Proof.
  intros recur lang rest blocks H. unfold blockStep. cbv zeta.
  rewrite (trimEnd_open lang H).
  destruct (codeFence_open lang H) as (m & -> & ->).
  cbn [flushParagraph bind].
  destruct (span _ rest) as [codeLines after]. cbn [fst snd].
  now destruct lang.
Qed.

Lemma blockLoop_nil : forall recur fuel blocks buf,
  blockLoop recur fuel [] blocks buf = Some (blocks, buf).
Proof. intros recur [|fuel] blocks buf; reflexivity. Qed.

(** A fenced block: the lines up to the closing fence, or up to the end of
    the input, are the text of the code block as they are. *)
Lemma markdownToAdf_fenced : forall lang body closing,
  forallb isWord lang = true ->
  Forall (fun l => forallb (fun c => negb (N.eqb c LF)) l = true)
         (body ++ closingLines closing) ->
  forallb (fun l => negb (startsWith fence (trimEnd l))) body = true ->
  forallb (fun l => startsWith fence (trimEnd l)) (closingLines closing)
    = true ->
  markdownToAdf (join LF ((fence ++ lang) :: body ++ closingLines closing)) =
  Some (mkDocument 1
          [CodeBlock (match lang with [] => None | _ :: _ => Some lang end)
             [Text (join LF body) None]]).
Proof.
  intros lang body closing Hlang Hlines Hbody Hclosing.
  unfold markdownToAdf. cbn [markdownToAdfAt].
  rewrite split_join.
  2:{ constructor; auto. now apply open_no_newline. }
  cbn [List.length blockLoop].
  rewrite blockStep_fence by exact Hlang. cbn [bind].
  destruct closing as [l|]; cbn [closingLines] in *.
  - cbn [forallb] in Hclosing. rewrite Bool.andb_true_r in Hclosing.
    rewrite span_stop; auto; [|now rewrite Hclosing].
    cbn [fst snd tl]. now rewrite blockLoop_nil.
  - rewrite app_nil_r, (span_all _ _ Hbody). cbn [fst snd tl].
    now rewrite blockLoop_nil.
Qed.


(* ------------------------------------------------------------------ *)
(** ** The order of the inline alternatives *)
(* ------------------------------------------------------------------ *)

(** A match found at the position the search starts from is a match of the
    expression at that position. *)
Lemma search_here : forall r s pos m,
  search r pos s = Some m -> index m = pos ->
  matchAt r pos s = Some (stop m, groups m).
Proof.
  intros r s pos m H Hidx.
  destruct s as [|c s]; simpl in H;
    destruct (matchAt r pos _) as [[e caps]|] eqn:E;
    try discriminate; try (inversion H; subst; reflexivity).
  apply search_inv in H. lia.
Qed.

Lemma matchAt_search : forall r s pos e caps,
  matchAt r pos s = Some (e, caps) -> search r pos s = Some (mkMatch pos e caps).
Proof.
  intros r s pos e caps H. destruct s; simpl; now rewrite H.
Qed.

(** The capture of a group that spans the whole expression. *)
Lemma matchAt_Grp : forall g r pos s e caps,
  matchAt (Grp g r) pos s = Some (e, caps) ->
  exists n caps', minLen r <= n /\ n <= List.length s /\ e = pos + n /\
                  caps = (g, firstn n s) :: caps'.
Proof.
  intros g r pos s e caps H. unfold matchAt in H. cbn [matchRe] in H.
  apply matchRe_inv in H. destruct H as (n & caps' & Hn & Hl & _ & H).
  unfold accept in H. inversion H; subst; clear H.
  exists n, caps'. replace (pos + n - pos) with n by lia. auto.
Qed.

(** Where the bold alternative matches, the whole expression matches as the
    bold alternative does. *)
Lemma bold_first : forall s pos e caps,
  matchAt boldRe pos s = Some (e, caps) ->
  matchAt inlineRe pos s = Some (e, caps) /\
  truthy (lookup 1 caps) = true.
Proof.
  intros s pos e caps H. split.
  - unfold matchAt, inlineRe in *. cbn [matchRe]. now rewrite H.
  - unfold boldRe in H. apply matchAt_Grp in H.
    destruct H as (n & caps' & Hn & Hl & _ & ->).
    cbn [lookup Nat.eqb]. cbn in Hn.
    destruct s as [|c s]; [simpl in Hl; lia|].
    destruct n; [lia|]. reflexivity.
Qed.

Lemma reExec_bold_first : forall text lastIndex mb,
  reExec boldRe text lastIndex = Some mb ->
  index mb = lastIndex ->
  reExec inlineRe text lastIndex = Some mb /\
  inlineNode mb = [Text (orEmpty (group 2 mb)) (Some [Strong])].
Proof.
  intros text lastIndex mb H Hidx. unfold reExec in *.
  destruct (Nat.leb lastIndex (List.length text)); [|discriminate].
  apply search_here in H; auto.
  apply bold_first in H. destruct H as [H Ht]. split.
  - rewrite (matchAt_search _ _ _ _ _ H). destruct mb; simpl in *. now subst.
  - unfold inlineNode, group. now rewrite Ht.
Qed.

(* ------------------------------------------------------------------ *)
(** ** Table rows *)
(* ------------------------------------------------------------------ *)

Lemma mapM_forallb : forall {A B : Type} (f : A -> option B) (p : B -> bool)
    (l : list A) (bs : list B),
  (forall a b, f a = Some b -> p b = true) ->
  mapM f l = Some bs -> forallb p bs = true.
Proof.
  intros A B f p. induction l as [|a l IH]; intros bs Hf H; simpl in H.
  - inversion H. reflexivity.
  - destruct (f a) as [b|] eqn:Hb; [|discriminate]. cbn [bind] in H.
    destruct (mapM f l) as [bs'|]; [|discriminate]. cbn [bind] in H.
    inversion H; subst. simpl. now rewrite (Hf a b Hb), (IH bs' Hf eq_refl).
Qed.

Lemma tableRowOf_type : forall isHeader cells row,
  tableRowOf isHeader cells = Some row ->
  rowIs (if isHeader then tableHeader else tableCell) row = true.
Proof.
  intros isHeader cells row H. unfold tableRowOf in H.
  destruct (mapM _ cells) as [rowContent|] eqn:E; [|discriminate].
  cbn [bind] in H. inversion H; subst. cbn [rowIs].
  refine (mapM_forallb _ _ _ _ _ E).
  intros a b Hab. cbv beta in Hab.
  destruct (parseInline a) as [nodes|]; [|discriminate].
  cbn [bind] in Hab. inversion Hab. now destruct isHeader.
Qed.

Lemma tableCells_nonEmpty : forall line, nonEmpty (tableCells line) = true.
Proof.
  intros line. unfold tableCells.
  pose proof (split_nonEmpty 124
    (reRemove (Str "|" <+> Eol) (reRemove (Bol <+> Str "|") line))) as Hs.
  now destruct (split 124 _).
Qed.

(** After the first line every line that is no separator gives one row of
    body cells, and a separator gives none. *)
Lemma parseTableRows_body : forall lines i rows,
  exists new,
    parseTableRows (S i) lines rows = Some (rows ++ new) /\
    List.length new =
      List.length (filter (fun l => negb (isSeparator l)) lines) /\
    forallb (rowIs tableCell) new = true.
Proof.
  induction lines as [|l lines IH]; intros i rows; cbn [parseTableRows filter].
  - exists []. now rewrite app_nil_r.
  - unfold isSeparator at 1.
    destruct (reTest separatorRe (trim l)); cbn [negb].
    + apply IH.
    + destruct (tableRowOf_ok (Nat.eqb (S i) 0) (tableCells (trim l))
                  (tableCells_nonEmpty _)) as (row & Hrow & _).
      rewrite Hrow. cbn [bind].
      apply tableRowOf_type in Hrow. cbn [Nat.eqb] in Hrow.
      destruct (IH (S i) (rows ++ [row])) as (new & -> & Hlen & Hall).
      exists (row :: new). rewrite <- app_assoc. cbn [app List.length forallb].
      now rewrite Hrow, Hall, Hlen.
Qed.

Lemma parseTableBlock_rows : forall lines,
  exists rows,
    parseTableBlock lines = Some (Table false (lit "default") rows) /\
    List.length rows =
      List.length (filter (fun l => negb (isSeparator l)) lines) /\
    match lines with
    | [] => True
    | l :: _ =>
        if isSeparator l then forallb (rowIs tableCell) rows = true
        else match rows with
             | header :: body =>
                 rowIs tableHeader header = true /\
                 forallb (rowIs tableCell) body = true
             | [] => False
             end
    end.
Proof.
  intros [|l lines]; unfold parseTableBlock.
  - exists []. cbn. auto.
  - cbn [parseTableRows filter].
    change (reTest separatorRe (trim l)) with (isSeparator l).
    destruct (isSeparator l); cbn [negb].
    + destruct (parseTableRows_body lines 0 []) as (new & -> & Hlen & Hall).
      exists new. cbn [bind app]. repeat split; auto.
    + destruct (tableRowOf_ok (Nat.eqb 0 0) (tableCells (trim l))
                  (tableCells_nonEmpty _)) as (row & Hrow & _).
      rewrite Hrow. cbn [bind].
      apply tableRowOf_type in Hrow. cbn [Nat.eqb] in Hrow.
      destruct (parseTableRows_body lines 0 ([] ++ [row]))
        as (new & -> & Hlen & Hall).
      exists (row :: new). cbn [bind app List.length]. repeat split; auto.
Qed.

(* ------------------------------------------------------------------ *)
(** ** Nested block quotes *)
(* ------------------------------------------------------------------ *)

(** A line that starts with a quote marker opens no earlier construct. *)
Lemma quote_tests : forall s,
  reMatch codeFenceRe (62%N :: s) = None /\
  reTest ruleRe (62%N :: s) = false /\
  reMatch headingRe (62%N :: s) = None /\
  reTest quoteRe (62%N :: s) = true.
Proof.
  intros s. repeat split;
    try (first [apply reMatch_other | apply reTest_other];
         solve [cbv; lia | reflexivity]).
  unfold reTest. now destruct (quote_match s) as (m & ->).
Qed.

(** The marker goes, and a character that is no white space stays. *)
Lemma dedent_keep : forall c s,
  isSpace c = false -> reRemove quoteRe (62%N :: c :: s) = c :: s.
Proof.
  intros c s H. unfold reRemove, quoteRe. rewrite reMatch_Bol.
  unfold matchAt, opt. cbn -[isSpace]. now rewrite H.
Qed.

Lemma nestedQuote_head : forall n,
  exists c s, nestedQuote n = c :: s /\ isSpace c = false.
Proof.
  intros [|n]; unfold nestedQuote; cbn [repeat app]; eauto.
  exists 120%N, []. split; reflexivity.
Qed.

Lemma nestedQuote_chars : forall n,
  forallb (fun c => negb (isSpace c)) (nestedQuote n) = true /\
  forallb (fun c => negb (N.eqb c LF)) (nestedQuote n) = true.
Proof.
  intros n. unfold nestedQuote. rewrite !forallb_app.
  rewrite !forallb_repeat by reflexivity. split; reflexivity.
Qed.

Lemma nestedQuote_S : forall n, nestedQuote (S n) = 62%N :: nestedQuote n.
Proof. reflexivity. Qed.

(** [n] markers give [n] block quotes, one inside the other. *)
Lemma markdownToAdf_nested : forall n,
  markdownToAdf (nestedQuote n) = Some (mkDocument 1 (nestedBlocks n)).
Proof.
  induction n as [|n IH]; [reflexivity|].
  unfold markdownToAdf. cbn [markdownToAdfAt].
  destruct (nestedQuote_chars (S n)) as [Hsp Hnl].
  rewrite (split_no_sep _ _ Hnl). cbn [List.length blockLoop].
  unfold blockStep. cbv zeta.
  rewrite (trimEnd_no_space _ Hsp).
  rewrite nestedQuote_S in *.
  destruct (quote_tests (nestedQuote n)) as (-> & -> & -> & Hq).
  rewrite Hq. cbn [flushParagraph bind].
  assert (Hq' : reTest quoteRe (trimEnd (62%N :: nestedQuote n)) = true).
  { now rewrite (trimEnd_no_space _ Hsp). }
  cbn [span]. rewrite Hq'. cbn [map join].
  destruct (nestedQuote_head n) as (c & s & Hcs & Hc).
  rewrite Hcs at 2. rewrite (dedent_keep c s Hc), <- Hcs.
  change (markdownToAdfAt (List.length (62%N :: nestedQuote n)) (nestedQuote n))
    with (markdownToAdf (nestedQuote n)).
  rewrite IH. reflexivity.
Qed.

(* ------------------------------------------------------------------ *)
(** ** The two converters *)
(* ------------------------------------------------------------------ *)

Lemma quoteLine_test : forall l,
  isQuoteLine l = false -> reTest quoteRe (trimEnd l) = false.
Proof.
  intros l H. destruct (reTest quoteRe (trimEnd l)) eqn:E; auto.
  apply quoteTest_head in E. destruct E as (r & E).
  unfold isQuoteLine in H. rewrite E in H. discriminate.
Qed.

(** Where the three-marker expression matches, the four-marker expression
    matches the same way. *)
Lemma bullet_same : forall l m,
  reMatch NoQuote.bulletRe l = Some m -> reMatch bulletRe l = Some m.
Proof.
  intros l m. unfold bulletRe, NoQuote.bulletRe. rewrite !reMatch_Bol.
  unfold matchAt, star.
  pose (k3 := fun (pos' : nat) (s' : str) =>
                matchRe (Chr (anyOf "-*+") <+> plus isSpace) pos' s' [] accept).
  pose (k4 := fun (pos' : nat) (s' : str) =>
                matchRe (Chr (fun c => anyOf "-*+" c || N.eqb c BULLET)
                         <+> plus isSpace) pos' s' [] accept).
  change (match repGreedy isSpace 0 None 0 l k3 with
          | Some (e, caps) => Some (mkMatch 0 e caps)
          | None => None
          end = Some m ->
          match repGreedy isSpace 0 None 0 l k4 with
          | Some (e, caps) => Some (mkMatch 0 e caps)
          | None => None
          end = Some m).
  assert (Hk : forall pos s x, k3 pos s = Some x -> k4 pos s = Some x).
  { intros pos [|c s] x; unfold k3, k4; cbn [matchRe]; auto.
    destruct (anyOf "-*+" c); [auto|discriminate]. }
  assert (Hk3 : forall pos c s, isSpace c = true -> k3 pos (c :: s) = None).
  { intros pos c s Hc. unfold k3. cbn [matchRe].
    pose proof (space_not_marker c Hc) as Hm.
    apply Bool.orb_false_iff in Hm. destruct Hm as [-> _]. reflexivity. }
  clearbody k3 k4.
  assert (Hrep : forall s pos x,
             repGreedy isSpace 0 None pos s k3 = Some x ->
             repGreedy isSpace 0 None pos s k4 = Some x).
  { induction s as [|c s IH]; intros pos x H;
      cbn [repGreedy canTake pred decr] in *; auto.
    destruct (isSpace c) eqn:Hc; cbn [andb] in *; auto.
    destruct (repGreedy isSpace 0 None (S pos) s k3) as [y|] eqn:E.
    - inversion H; subst. now rewrite (IH _ _ E).
    - rewrite Hk3 in H by exact Hc. discriminate. }
  intros H.
  destruct (repGreedy isSpace 0 None 0 l k3) as [[e caps]|] eqn:E;
    [|discriminate].
  now rewrite (Hrep _ _ _ E).
Qed.

Lemma bullet_test_same : forall l,
  isDotItem l = false -> reTest bulletRe l = reTest NoQuote.bulletRe l.
Proof.
  intros l H. unfold isDotItem in H.
  destruct (reTest NoQuote.bulletRe l) eqn:E.
  - unfold reTest in *.
    destruct (reMatch NoQuote.bulletRe l) as [m|] eqn:Em; [|discriminate].
    now rewrite (bullet_same _ _ Em).
  - now destruct (reTest bulletRe l).
Qed.

Lemma bullet_remove_same : forall l,
  reTest NoQuote.bulletRe l = true ->
  reRemove bulletRe l = reRemove NoQuote.bulletRe l.
Proof.
  intros l H. unfold reTest in H. unfold reRemove.
  destruct (reMatch NoQuote.bulletRe l) as [m|] eqn:Em; [|discriminate].
  now rewrite (bullet_same _ _ Em).
Qed.

Lemma span_ext : forall {A : Type} (p q : A -> bool) (l : list A),
  Forall (fun x => p x = q x) l -> span p l = span q l.
Proof.
  intros A p q l H. induction H as [|x l Hx _ IH]; simpl; auto.
  now rewrite Hx, IH.
Qed.

Lemma mapM_ext : forall {A B : Type} (f g : A -> option B) (l : list A),
  Forall (fun x => f x = g x) l -> mapM f l = mapM g l.
Proof.
  intros A B f g l H. induction H as [|x l Hx _ IH]; simpl; auto.
  now rewrite Hx, IH.
Qed.

Lemma bullet_items_same : forall run,
  forallb (reTest NoQuote.bulletRe) run = true ->
  listItems bulletRe run = listItems NoQuote.bulletRe run.
Proof.
  intros run H. unfold listItems. apply mapM_ext.
  apply Forall_forall. intros l Hl.
  rewrite forallb_forall in H. now rewrite (bullet_remove_same l (H l Hl)).
Qed.

(** Which lines are pipe-delimited lines. *)
Lemma tableLine_pipe : forall l,
  isTableLine l = true -> exists s, l = 124%N :: s.
Proof.
  intros l H. apply tableLine_head in H. destruct H as (t & Ht).
  apply trimEnd_head in Ht. exact Ht.
Qed.

Lemma not_tableLine_first : forall r l,
  reTest (Seq Bol r) l = true -> 0 < minLen r -> first r 124%N = false ->
  isTableLine l = false.
Proof.
  intros r l H Hmin Hf. destruct (isTableLine l) eqn:E; auto.
  apply tableLine_pipe in E. destruct E as (s & ->).
  now rewrite reTest_other in H.
Qed.

Lemma not_tableLine_trimmed : forall r l,
  reTest (Seq Bol r) (trimEnd l) = true -> 0 < minLen r ->
  first r 124%N = false -> isTableLine l = false.
Proof.
  intros r l H Hmin Hf. destruct (isTableLine l) eqn:E; auto.
  apply tableLine_head in E. destruct E as (s & Hs).
  rewrite Hs in H. now rewrite reTest_other in H.
Qed.

Lemma fence_not_tableLine : forall l,
  startsWith fence (trimEnd l) = true -> isTableLine l = false.
Proof.
  intros l H. destruct (isTableLine l) eqn:E; auto.
  apply tableLine_head in E. destruct E as (s & Hs).
  rewrite Hs in H. discriminate.
Qed.

Lemma blank_not_tableLine : forall l,
  isEmpty (trimEnd l) = true -> isTableLine l = false.
Proof.
  intros l H. unfold isTableLine. now destruct (trimEnd l).
Qed.

(** The table condition on what is left of the lines. *)
Lemma tablesStartOk_drop : forall pre post prev,
  tablesStartOk prev (pre ++ post) = true ->
  exists prev', tablesStartOk prev' post = true.
Proof.
  induction pre as [|l pre IH]; intros post prev H; cbn [app] in H; eauto.
  cbn [tablesStartOk] in H. apply Bool.andb_true_iff in H.
  destruct H as [_ H]. eauto.
Qed.

Lemma tablesStartOk_weaken : forall post prev,
  tablesStartOk prev post = true ->
  match post with
  | [] => True
  | l :: _ => isTableLine l = false
  end ->
  tablesStartOk false post = true.
Proof.
  intros [|l post] prev H Hl; auto.
  cbn [tablesStartOk] in *. now rewrite Hl in *.
Qed.

Lemma tablesStartOk_after : forall pre x post prev,
  isTableLine x = false ->
  tablesStartOk prev (pre ++ x :: post) = true ->
  tablesStartOk false post = true.
Proof.
  intros pre x post prev Hx H.
  apply tablesStartOk_drop in H. destruct H as (prev' & H).
  cbn [tablesStartOk] in H. rewrite Hx in H.
  now apply Bool.andb_true_iff in H.
Qed.

Lemma tablesStartOk_run : forall run post prev,
  run <> [] ->
  forallb (fun l => negb (isTableLine l)) run = true ->
  tablesStartOk prev (run ++ post) = true ->
  tablesStartOk false post = true.
Proof.
  intros run post prev Hne Hall H.
  destruct (exists_last Hne) as (pre & x & ->).
  rewrite forallb_app in Hall. apply Bool.andb_true_iff in Hall.
  destruct Hall as [_ Hx]. cbn in Hx. rewrite Bool.andb_true_r in Hx.
  apply Bool.negb_true_iff in Hx.
  rewrite <- app_assoc in H. cbn [app] in H.
  eapply tablesStartOk_after; eauto.
Qed.

Lemma span_snd_head : forall {A : Type} (p : A -> bool) (l : list A),
  match snd (span p l) with
  | [] => True
  | x :: _ => p x = false
  end.
Proof.
  induction l as [|x l IH]; simpl; auto.
  destruct (p x) eqn:E; simpl; auto.
  now destruct (span p l).
Qed.

Section SameStep.

Variable recur : str -> option Document.
Variables (line : str) (rest : list str).

Hypothesis no_quote :
  forallb (fun l => negb (isQuoteLine l)) (line :: rest) = true.
Hypothesis no_dot :
  forallb (fun l => negb (isDotItem l)) (line :: rest) = true.
Hypothesis tables_ok : tablesStartOk false (line :: rest) = true.

Lemma same_quote_test : reTest quoteRe (trimEnd line) = false.
Proof.
  cbn [forallb] in no_quote. apply Bool.andb_true_iff in no_quote.
  destruct no_quote as [H _]. apply Bool.negb_true_iff in H.
  now apply quoteLine_test.
Qed.

Lemma same_bullet_tests :
  Forall (fun l => reTest bulletRe l = reTest NoQuote.bulletRe l) (line :: rest).
Proof.
  apply Forall_forall. intros l Hl. apply bullet_test_same.
  rewrite forallb_forall in no_dot. specialize (no_dot l Hl).
  now apply Bool.negb_true_iff in no_dot.
Qed.

Lemma same_table_test :
  (reTest tableLineRe (trimEnd line) && reTest separatorRe (nextLineOf rest))
  = isTableLine line.
Proof.
  cbn [tablesStartOk] in tables_ok. apply Bool.andb_true_iff in tables_ok.
  destruct tables_ok as [H _]. fold (isTableLine line).
  destruct (isTableLine line); cbn in *; auto.
Qed.

Lemma same_rest : tablesStartOk (isTableLine line) rest = true.
Proof.
  cbn [tablesStartOk] in tables_ok. apply Bool.andb_true_iff in tables_ok.
  now destruct tables_ok.
Qed.

(** On such lines an iteration of one loop is an iteration of the other. *)
Lemma blockStep_same : forall blocks buf,
  blockStep recur line rest blocks buf = NoQuote.blockStep line rest blocks buf.
Proof.
  intros blocks buf. unfold blockStep, NoQuote.blockStep. cbv zeta.
  destruct (reMatch codeFenceRe (trimEnd line)) as [codeMatch|]; auto.
  destruct (reTest ruleRe (trimEnd line)); auto.
  destruct (reMatch headingRe (trimEnd line)) as [headingMatch|]; auto.
  rewrite same_quote_test, same_table_test. fold (isTableLine line).
  destruct (isTableLine line); auto.
  pose proof same_bullet_tests as Hb.
  rewrite (Forall_inv Hb).
  destruct (reTest NoQuote.bulletRe line) eqn:Hbullet; auto.
  destruct (flushParagraph blocks buf) as [blocks1|]; cbn [bind]; auto.
  rewrite (span_ext _ _ _ Hb).
  pose proof (span_fst_all (reTest NoQuote.bulletRe) (line :: rest)) as Hall.
  destruct (span (reTest NoQuote.bulletRe) (line :: rest)) as [run after].
  cbn [fst] in Hall. now rewrite (bullet_items_same run Hall).
Qed.

(** What an iteration leaves meets the table condition again. *)
Lemma blockStep_same_inv : forall blocks buf blocks' buf' lines',
  NoQuote.blockStep line rest blocks buf = Some (blocks', buf', lines') ->
  tablesStartOk false lines' = true /\ exists pre, rest = pre ++ lines'.
Proof.
  intros blocks buf blocks' buf' lines' H.
  pose proof same_rest as Hrest.
  assert (Hone : isTableLine line = false ->
                 tablesStartOk false rest = true /\
                 exists pre, rest = pre ++ rest).
  { intros Hl. rewrite Hl in Hrest. split; auto. now exists []. }
  unfold NoQuote.blockStep in H. cbv zeta in H.
  destruct (reMatch codeFenceRe (trimEnd line)) as [codeMatch|].
  { split_binds H.
    pose proof (span_app (fun l => negb (startsWith fence (trimEnd l))) rest)
      as Happ.
    pose proof (span_snd_head (fun l => negb (startsWith fence (trimEnd l))) rest)
      as Hhead.
    destruct (span _ rest) as [codeLines after]. cbn [fst snd] in *.
    inversion H; subst blocks' buf' lines'; clear H.
    destruct after as [|closing post]; cbn [tl].
    - split; auto. exists codeLines. exact Happ.
    - apply Bool.negb_false_iff in Hhead. apply fence_not_tableLine in Hhead.
      rewrite Happ in Hrest. split.
      + eapply tablesStartOk_after; eauto.
      + exists (codeLines ++ [closing]). now rewrite <- app_assoc. }
  destruct (reTest ruleRe (trimEnd line)) eqn:Hrule.
  { split_binds H. inversion H; subst blocks' buf' lines'. apply Hone.
    unfold ruleRe in Hrule.
    eapply not_tableLine_trimmed; [exact Hrule|cbv; lia|reflexivity]. }
  destruct (reMatch headingRe (trimEnd line)) as [headingMatch|] eqn:Hhead.
  { split_binds H. inversion H; subst blocks' buf' lines'. apply Hone.
    assert (Ht : reTest headingRe (trimEnd line) = true).
    { unfold reTest. now rewrite Hhead. }
    unfold headingRe in Ht.
    eapply not_tableLine_trimmed; [exact Ht|cbv; lia|reflexivity]. }
  fold (isTableLine line) in H.
  destruct (isTableLine line) eqn:Htable.
  { rewrite (span_cons_true (fun l => reTest tableLineRe (trimEnd l))
               line rest Htable) in H.
    pose proof (span_app (fun l => reTest tableLineRe (trimEnd l)) rest) as Happ.
    pose proof (span_snd_head (fun l => reTest tableLineRe (trimEnd l)) rest)
      as Hhead'.
    destruct (span _ rest) as [run after]. cbn [fst snd] in *.
    split_binds H. inversion H; subst blocks' buf' lines'; clear H.
    rewrite Happ in Hrest. apply tablesStartOk_drop in Hrest.
    destruct Hrest as (prev' & Hrest). split; eauto.
    eapply tablesStartOk_weaken; eauto. }
  destruct (reTest NoQuote.bulletRe line) eqn:Hbullet.
  { pose proof (span_app (reTest NoQuote.bulletRe) (line :: rest)) as Happ.
    pose proof (span_fst_all (reTest NoQuote.bulletRe) (line :: rest)) as Hall.
    rewrite (span_cons_true (reTest NoQuote.bulletRe) line rest Hbullet) in *.
    destruct (span _ rest) as [run after]. cbn [fst snd] in *.
    split_binds H. inversion H; subst blocks' buf' lines'; clear H.
    inversion Happ as [Happ']. split; eauto.
    apply (tablesStartOk_run (line :: run) after false); [discriminate| |].
    - apply (forallb_impl (reTest NoQuote.bulletRe)); auto.
      intros x Hx. apply Bool.negb_true_iff. unfold NoQuote.bulletRe in Hx.
      eapply not_tableLine_first; [exact Hx|cbv; lia|reflexivity].
    - cbn [app]. rewrite <- Happ'. exact tables_ok. }
  destruct (reTest orderedRe line) eqn:Hordered.
  { pose proof (span_app (reTest orderedRe) (line :: rest)) as Happ.
    pose proof (span_fst_all (reTest orderedRe) (line :: rest)) as Hall.
    rewrite (span_cons_true (reTest orderedRe) line rest Hordered) in *.
    destruct (span _ rest) as [run after]. cbn [fst snd] in *.
    split_binds H. inversion H; subst blocks' buf' lines'; clear H.
    inversion Happ as [Happ']. split; eauto.
    apply (tablesStartOk_run (line :: run) after false); [discriminate| |].
    - apply (forallb_impl (reTest orderedRe)); auto.
      intros x Hx. apply Bool.negb_true_iff. unfold orderedRe in Hx.
      eapply not_tableLine_first; [exact Hx|cbv; lia|reflexivity].
    - cbn [app]. rewrite <- Happ'. exact tables_ok. }
  destruct (isEmpty (trimEnd line)) eqn:Hblank.
  { split_binds H. inversion H; subst blocks' buf' lines'. now apply Hone. }
  inversion H; subst blocks' buf' lines'. now apply Hone.
Qed.

End SameStep.

Lemma blockLoop_same : forall recur fuel lines blocks buf,
  forallb (fun l => negb (isQuoteLine l)) lines = true ->
  forallb (fun l => negb (isDotItem l)) lines = true ->
  tablesStartOk false lines = true ->
  blockLoop recur fuel lines blocks buf = NoQuote.blockLoop fuel lines blocks buf.
Proof.
  intros recur. induction fuel as [|fuel IH];
    intros lines blocks buf Hq Hd Ht; destruct lines as [|line rest];
    cbn [blockLoop NoQuote.blockLoop]; auto.
  rewrite (blockStep_same recur line rest Hq Hd Ht).
  destruct (NoQuote.blockStep line rest blocks buf)
    as [[[blocks' buf'] lines']|] eqn:Hstep; cbn [bind]; auto.
  apply (blockStep_same_inv line rest Ht) in Hstep.
  destruct Hstep as (Ht' & pre & Hpre).
  cbn [forallb] in Hq, Hd. rewrite Hpre, forallb_app in Hq, Hd.
  apply Bool.andb_true_iff in Hq, Hd.
  destruct Hq as [_ Hq], Hd as [_ Hd].
  apply Bool.andb_true_iff in Hq, Hd.
  apply IH; tauto.
Qed.

Lemma markdownToAdf_same : forall markdown,
  noQuoteLine markdown = true ->
  noDotItem markdown = true ->
  tablesSeparated markdown = true ->
  NoQuote.markdownToAdf markdown = markdownToAdf markdown.
Proof.
  intros markdown Hq Hd Ht.
  unfold markdownToAdf, NoQuote.markdownToAdf. cbn [markdownToAdfAt]. cbv zeta.
  now rewrite blockLoop_same.
Qed.


(* ------------------------------------------------------------------ *)
(** ** Deterministic matches *)
(* ------------------------------------------------------------------ *)

Lemma matchRe_other : forall r c s pos caps k,
  0 < minLen r -> first r c = false -> matchRe r pos (c :: s) caps k = None.
Proof.
  intros r c s pos caps k Hmin Hc.
  destruct (matchRe r pos (c :: s) caps k) as [x|] eqn:E; auto.
  apply matchRe_first in E. destruct E as (n & caps' & Hn & _ & Hf).
  destruct Hf as (c' & s' & E & Hc'); [lia|].
  inversion E; subst. congruence.
Qed.

Lemma matchRe_nil : forall r pos caps k,
  0 < minLen r -> matchRe r pos [] caps k = None.
Proof.
  intros r pos caps k Hmin.
  destruct (matchRe r pos [] caps k) as [x|] eqn:E; auto.
  apply matchRe_inv in E. destruct E as (n & caps' & Hn & Hl & _).
  simpl in Hl. lia.
Qed.

(** The search passes over characters no match can start with. *)
Lemma search_skip : forall r pre rest pos,
  0 < minLen r ->
  forallb (fun c => negb (first r c)) pre = true ->
  search r pos (pre ++ rest) = search r (pos + List.length pre) rest.
Proof.
  intros r pre rest pos Hmin. revert pos.
  induction pre as [|c pre IH]; intros pos H; cbn [app List.length].
  - now rewrite Nat.add_0_r.
  - cbn [forallb] in H. apply Bool.andb_true_iff in H. destruct H as [Hc H].
    apply Bool.negb_true_iff in Hc.
    cbn [search]. unfold matchAt at 1. rewrite matchRe_other by assumption.
    rewrite IH by assumption. f_equal. lia.
Qed.

Lemma search_none : forall r s pos,
  0 < minLen r ->
  forallb (fun c => negb (first r c)) s = true ->
  search r pos s = None.
Proof.
  intros r s pos Hmin H.
  rewrite <- (app_nil_r s), search_skip by assumption.
  cbn [search]. unfold matchAt. now rewrite matchRe_nil.
Qed.

Lemma firstn_exact : forall {A : Type} (n : nat) (a b : list A),
  n = List.length a -> firstn n (a ++ b) = a.
Proof.
  intros A n a b ->. rewrite firstn_app, Nat.sub_diag, firstn_all. cbn.
  apply app_nil_r.
Qed.

Lemma Firstly_matchAt : forall r pos X rest caps',
  Firstly r pos X rest [] caps' ->
  matchAt r pos (X ++ rest) = Some (pos + List.length X, caps').
Proof. intros r pos X rest caps' H. now apply H. Qed.

Lemma Firstly_Eps : forall pos rest caps, Firstly Eps pos [] rest caps caps.
Proof.
  intros pos rest caps k x Hk. cbn in *. now rewrite Nat.add_0_r in Hk.
Qed.

Lemma Firstly_Chr : forall (cls : N -> bool) c pos rest caps,
  cls c = true -> Firstly (Chr cls) pos [c] rest caps caps.
Proof.
  intros cls c pos rest caps Hc k x Hk. cbn in *. rewrite Hc.
  now replace (S pos) with (pos + 1) by lia.
Qed.

Lemma Firstly_Seq : forall r1 r2 pos X1 X2 rest caps caps1 caps2,
  Firstly r1 pos X1 (X2 ++ rest) caps caps1 ->
  Firstly r2 (pos + List.length X1) X2 rest caps1 caps2 ->
  Firstly (Seq r1 r2) pos (X1 ++ X2) rest caps caps2.
Proof.
  intros r1 r2 pos X1 X2 rest caps caps1 caps2 H1 H2 k x Hk.
  cbn [matchRe]. rewrite <- app_assoc. apply H1. apply H2.
  rewrite length_app, Nat.add_assoc in Hk. exact Hk.
Qed.

Lemma Firstly_Lit : forall l pos rest caps,
  Firstly (Lit l) pos l rest caps caps.
Proof.
  induction l as [|c l IH]; intros pos rest caps.
  - apply Firstly_Eps.
  - destruct l as [|c' l].
    + apply Firstly_Chr, N.eqb_refl.
    + change (Lit (c :: c' :: l)) with (Seq (Chr (N.eqb c)) (Lit (c' :: l))).
      apply (Firstly_Seq _ _ pos [c] (c' :: l) rest caps caps caps).
      * apply Firstly_Chr, N.eqb_refl.
      * apply IH.
Qed.

Lemma Firstly_Grp : forall g r pos X rest caps caps',
  Firstly r pos X rest caps caps' ->
  Firstly (Grp g r) pos X rest caps ((g, X) :: caps').
Proof.
  intros g r pos X rest caps caps' H k x Hk. cbn [matchRe]. apply H.
  replace (pos + List.length X - pos) with (List.length X) by lia.
  now rewrite firstn_exact.
Qed.

Lemma Firstly_Alt_l : forall r1 r2 pos X rest caps caps',
  Firstly r1 pos X rest caps caps' ->
  Firstly (Alt r1 r2) pos X rest caps caps'.
Proof.
  intros r1 r2 pos X rest caps caps' H k x Hk. cbn [matchRe].
  now rewrite (H k x Hk).
Qed.

Lemma Firstly_Alt_r : forall r1 r2 pos X rest caps caps',
  (forall k, matchRe r1 pos (X ++ rest) caps k = None) ->
  Firstly r2 pos X rest caps caps' ->
  Firstly (Alt r1 r2) pos X rest caps caps'.
Proof.
  intros r1 r2 pos X rest caps caps' H1 H2 k x Hk. cbn [matchRe].
  rewrite H1. now apply H2.
Qed.

(** A greedy quantifier first stops after the whole run of its class. *)
Lemma repGreedy_run : forall cls k X rest min pos x,
  forallb cls X = true -> headNot cls rest = true ->
  min <= List.length X ->
  k (pos + List.length X) rest = Some x ->
  repGreedy cls min None pos (X ++ rest) k = Some x.
Proof.
  intros cls k. induction X as [|c X IH]; intros rest min pos x Hall Hrest Hmin Hk.
  - cbn [app List.length] in *. rewrite Nat.add_0_r in Hk.
    destruct min; [|lia].
    destruct rest as [|c rest]; simpl; auto.
    simpl in Hrest. apply Bool.negb_true_iff in Hrest. now rewrite Hrest.
  - cbn [app forallb List.length] in *.
    apply Bool.andb_true_iff in Hall. destruct Hall as [Hc Hall].
    simpl. rewrite Hc. simpl.
    rewrite (IH rest (pred min) (S pos) x); auto; [lia|].
    now replace (S pos + List.length X) with (pos + S (List.length X)) by lia.
Qed.

Lemma Firstly_greedy : forall cls min X pos rest caps,
  forallb cls X = true -> headNot cls rest = true ->
  min <= List.length X ->
  Firstly (Rep true min None cls) pos X rest caps caps.
Proof.
  intros cls min X pos rest caps Hall Hrest Hmin k x Hk. cbn [matchRe].
  now apply repGreedy_run.
Qed.

(** A lazy quantifier stops after the shortest run after which the
    continuation succeeds. *)
Lemma repLazy_run : forall cls k X rest min pos x,
  forallb cls X = true ->
  (forall i, min <= i -> i < List.length X ->
             k (pos + i) (skipn i X ++ rest) = None) ->
  min <= List.length X ->
  k (pos + List.length X) rest = Some x ->
  repLazy cls min None pos (X ++ rest) k = Some x.
Proof.
  intros cls k. induction X as [|c X IH]; intros rest min pos x Hall Hfail Hmin Hk.
  - cbn [app List.length] in *. rewrite Nat.add_0_r in Hk.
    destruct min; [|lia].
    destruct rest as [|c rest]; simpl; now rewrite Hk.
  - cbn [app forallb List.length] in *.
    apply Bool.andb_true_iff in Hall. destruct Hall as [Hc Hall].
    assert (Hrec : repLazy cls (pred min) None (S pos) (X ++ rest) k = Some x).
    { apply IH; auto; [|lia|].
      - intros i Hi Hlt. specialize (Hfail (S i)).
        replace (pos + S i) with (S pos + i) in Hfail by lia.
        apply Hfail; lia.
      - now replace (S pos + List.length X) with (pos + S (List.length X)) by lia. }
    simpl. rewrite Hc. simpl. rewrite Hrec.
    destruct min; auto.
    specialize (Hfail 0). rewrite Nat.add_0_r in Hfail. cbn [skipn app] in Hfail.
    rewrite Hfail; auto; lia.
Qed.

(** A lazy, captured run followed by an expression that cannot start with a
    character of the run. *)
Lemma Firstly_lazy_then : forall g cls min r2 X X2 pos rest caps caps2,
  forallb cls X = true -> min <= List.length X ->
  0 < minLen r2 ->
  forallb (fun c => negb (first r2 c)) X = true ->
  Firstly r2 (pos + List.length X) X2 rest ((g, X) :: caps) caps2 ->
  Firstly (Seq (Grp g (Rep false min None cls)) r2) pos (X ++ X2) rest caps caps2.
Proof.
  intros g cls min r2 X X2 pos rest caps caps2 Hall Hmin Hmin2 Hfirst H2 k x Hk.
  cbn [matchRe]. rewrite <- app_assoc. apply repLazy_run; auto.
  - intros i Hi Hlt.
    destruct (skipn i X) as [|c s] eqn:E.
    + apply (f_equal (@List.length N)) in E. rewrite length_skipn in E.
      simpl in E. lia.
    + cbn [app]. apply matchRe_other; auto.
      rewrite forallb_forall in Hfirst.
      apply Bool.negb_true_iff, Hfirst.
      rewrite <- (firstn_skipn i X). apply in_or_app. right.
      rewrite E. now left.
  - replace (pos + List.length X - pos) with (List.length X) by lia.
    rewrite firstn_exact by reflexivity.
    apply H2. rewrite length_app, Nat.add_assoc in Hk. exact Hk.
Qed.

(* ------------------------------------------------------------------ *)
(** ** One inline construct in plain text *)
(* ------------------------------------------------------------------ *)

Lemma trigger_first : forall c, isTrigger c = false -> first inlineRe c = false.
Proof.
  intros c H. destruct (first inlineRe c) eqn:E; auto.
  cbn -[N.eqb] in E. codes; subst; discriminate.
Qed.

Lemma plain_first : forall s,
  isPlain s = true -> forallb (fun c => negb (first inlineRe c)) s = true.
Proof.
  intros s. apply forallb_impl. intros c Hc.
  apply Bool.negb_true_iff in Hc. now rewrite (trigger_first c Hc).
Qed.

Lemma inlineRe_minLen : 0 < minLen inlineRe.
Proof. cbv. lia. Qed.

Lemma parseInlineLoop_done : forall fuel text lastIndex nodes,
  reExec inlineRe text lastIndex = None ->
  parseInlineLoop fuel text lastIndex nodes = Some (nodes, lastIndex).
Proof.
  intros [|fuel] text lastIndex nodes H; cbn [parseInlineLoop]; now rewrite H.
Qed.

Lemma reExec_plain_tail : forall r done post,
  0 < minLen r ->
  forallb (fun c => negb (first r c)) post = true ->
  reExec r (done ++ post) (List.length done) = None.
Proof.
  intros r done post Hmin H. unfold reExec.
  rewrite length_app.
  replace (Nat.leb (List.length done) (List.length done + List.length post))
    with true by (symmetry; apply Nat.leb_le; lia).
  rewrite skipn_app, skipn_all, Nat.sub_diag. cbn [app skipn].
  now apply search_none.
Qed.

(** Text without a trigger character is one unmarked text node. *)
Lemma parseInline_plain : forall text,
  isPlain text = true -> parseInline text = Some [Text text None].
Proof.
  intros text H. unfold parseInline.
  rewrite parseInlineLoop_done.
  - cbn [bind]. destruct text as [|c text]; reflexivity.
  - apply (reExec_plain_tail inlineRe [] text inlineRe_minLen).
    now apply plain_first.
Qed.

(** One match between two plain texts: three nodes at most. *)
Lemma parseInline_single : forall pre X post caps node,
  isPlain pre = true -> isPlain post = true ->
  matchAt inlineRe (List.length pre) (X ++ post)
    = Some (List.length pre + List.length X, caps) ->
  inlineNode (mkMatch (List.length pre) (List.length pre + List.length X) caps)
    = [node] ->
  parseInline (pre ++ X ++ post) = Some (textNode pre ++ node :: textNode post).
Proof.
  intros pre X post caps node Hpre Hpost Hmatch Hnode.
  assert (Hexec : reExec inlineRe (pre ++ X ++ post) 0 =
                  Some (mkMatch (List.length pre)
                          (List.length pre + List.length X) caps)).
  { unfold reExec. cbn [Nat.leb skipn].
    rewrite search_skip;
      [|exact inlineRe_minLen|now apply plain_first].
    cbn [Nat.add]. now apply matchAt_search. }
  assert (Hend : reExec inlineRe (pre ++ X ++ post)
                   (List.length pre + List.length X) = None).
  { rewrite app_assoc, <- length_app.
    apply reExec_plain_tail; [exact inlineRe_minLen|now apply plain_first]. }
  unfold parseInline. cbn [parseInlineLoop]. rewrite Hexec.
  cbn [index stop]. rewrite Hnode.
  rewrite parseInlineLoop_done by exact Hend. cbn [bind].
  assert (Hslice : slice (pre ++ X ++ post) 0 (List.length pre) = pre).
  { unfold slice. cbn [skipn]. rewrite Nat.sub_0_r.
    now rewrite firstn_exact. }
  assert (Hskip : skipn (List.length pre + List.length X) (pre ++ X ++ post)
                  = post).
  { rewrite app_assoc, <- length_app, skipn_app, skipn_all, Nat.sub_diag.
    reflexivity. }
  rewrite Hslice, Hskip, !length_app.
  assert (Hpre' : (if Nat.ltb 0 (List.length pre)
                   then [] ++ [Text pre None] else []) = textNode pre).
  { now destruct pre. }
  rewrite Hpre'.
  assert (Hlt : Nat.ltb (List.length pre + List.length X)
                  (List.length pre + (List.length X + List.length post))
                = nonEmpty post).
  { destruct post as [|c post]; cbn [nonEmpty List.length].
    - apply Nat.ltb_ge. lia.
    - apply Nat.ltb_lt. lia. }
  rewrite Hlt.
  destruct post as [|c post]; cbn [nonEmpty textNode].
  - destruct (textNode pre ++ [node]) eqn:E; [|now rewrite <- E].
    destruct (textNode pre); discriminate.
  - rewrite <- app_assoc. cbn [app].
    destruct (textNode pre ++ node :: [Text (c :: post) None]) eqn:E; auto.
    destruct (textNode pre); discriminate.
Qed.

(** A lazy span between an opening and a closing literal, both captured. *)
Lemma Firstly_delimited : forall g1 g2 op cl t pos rest,
  forallb dot t = true -> t <> [] -> 0 < List.length cl ->
  forallb (fun c => negb (first (Lit cl) c)) t = true ->
  Firstly (Grp g1 (Lit op <+> Grp g2 (plusLazy dot) <+> Lit cl))
    pos (op ++ t ++ cl) rest [] [(g1, op ++ t ++ cl); (g2, t)].
Proof.
  intros g1 g2 op cl t pos rest Hdot Hne Hcl Hfirst.
  apply Firstly_Grp.
  apply (Firstly_Seq _ _ pos op (t ++ cl) rest [] [] [(g2, t)]).
  - apply Firstly_Lit.
  - unfold plusLazy. apply Firstly_lazy_then; auto.
    + destruct t; [contradiction|simpl; lia].
    + clear -Hcl. destruct cl as [|c [|c' cl]]; simpl in *; lia.
    + apply Firstly_Lit.
Qed.

(** A greedy span between an opening and a closing literal. *)
Lemma Firstly_enclosed : forall g op cl cls t pos rest caps,
  forallb cls t = true -> t <> [] -> headNot cls (cl ++ rest) = true ->
  Firstly (Lit op <+> Grp g (plus cls) <+> Lit cl)
    pos (op ++ t ++ cl) rest caps ((g, t) :: caps).
Proof.
  intros g op cl cls t pos rest caps Hall Hne Hhead.
  apply (Firstly_Seq _ _ pos op (t ++ cl) rest caps caps ((g, t) :: caps)).
  - apply Firstly_Lit.
  - apply (Firstly_Seq _ _ _ t cl rest caps ((g, t) :: caps) ((g, t) :: caps)).
    + apply Firstly_Grp. unfold plus. apply Firstly_greedy; auto.
      destruct t; [contradiction|simpl; lia].
    + apply Firstly_Lit.
Qed.

Lemma not_star_first : forall (d : N) t,
  forallb (fun c => dot c && negb (N.eqb c d)) t = true ->
  forallb dot t = true /\
  forallb (fun c => negb (N.eqb d c)) t = true.
Proof.
  intros d t H. split.
  - revert H. apply forallb_impl. intros c Hc.
    now apply Bool.andb_true_iff in Hc.
  - revert H. apply forallb_impl. intros c Hc.
    apply Bool.andb_true_iff in Hc. destruct Hc as [_ Hc].
    now rewrite N.eqb_sym.
Qed.

Lemma first_Lit1 : forall d t,
  forallb (fun c => negb (N.eqb d c)) t = true ->
  forallb (fun c => negb (first (Lit [d]) c)) t = true.
Proof. intros d t H. exact H. Qed.

Lemma first_Lit2 : forall d t,
  forallb (fun c => negb (N.eqb d c)) t = true ->
  forallb (fun c => negb (first (Lit [d; d]) c)) t = true.
Proof.
  intros d t. apply forallb_impl. intros c Hc. cbn [Lit first minLen Nat.eqb
    Nat.add andb]. now rewrite Bool.orb_false_r.
Qed.

(** The bold alternative. *)
Lemma bold_Firstly : forall t pos rest,
  forallb (fun c => dot c && negb (N.eqb c 42)) t = true -> t <> [] ->
  Firstly inlineRe pos (lit "**" ++ t ++ lit "**") rest []
    [(1, lit "**" ++ t ++ lit "**"); (2, t)].
Proof.
  intros t pos rest Ht Hne. apply not_star_first in Ht. destruct Ht as [Hdot Hns].
  unfold inlineRe. apply Firstly_Alt_l. unfold boldRe, Str.
  apply Firstly_delimited; auto.
  - cbn. lia.
  - now apply first_Lit2.
Qed.

Lemma bold_fails_single : forall c s pos caps k,
  N.eqb 42 c = false -> matchRe boldRe pos (42%N :: c :: s) caps k = None.
Proof.
  intros c s pos caps k Hc. unfold boldRe, Str.
  change (lit "**") with [42%N; 42%N].
  cbn [matchRe Lit]. rewrite N.eqb_refl. now rewrite Hc.
Qed.

(** The asterisk italic alternative. *)
Lemma italicStar_Firstly : forall t pos rest,
  forallb (fun c => dot c && negb (N.eqb c 42)) t = true -> t <> [] ->
  Firstly inlineRe pos (lit "*" ++ t ++ lit "*") rest []
    [(3, lit "*" ++ t ++ lit "*"); (4, t)].
Proof.
  intros t pos rest Ht Hne. apply not_star_first in Ht. destruct Ht as [Hdot Hns].
  unfold inlineRe. apply Firstly_Alt_r.
  - intros k. destruct t as [|c t]; [contradiction|].
    cbn [forallb] in Hns. apply Bool.andb_true_iff in Hns.
    destruct Hns as [Hc _]. apply Bool.negb_true_iff in Hc.
    now apply bold_fails_single.
  - apply Firstly_Alt_l. unfold italicStarRe, Str.
    apply Firstly_delimited; auto; cbn; lia.
Qed.

(** The underscore italic alternative. *)
Lemma italicUnder_Firstly : forall t pos rest,
  forallb (fun c => dot c && negb (N.eqb c 95)) t = true -> t <> [] ->
  Firstly inlineRe pos (lit "_" ++ t ++ lit "_") rest []
    [(5, lit "_" ++ t ++ lit "_"); (6, t)].
Proof.
  intros t pos rest Ht Hne. apply not_star_first in Ht. destruct Ht as [Hdot Hns].
  unfold inlineRe.
  apply Firstly_Alt_r;
    [intros k; apply matchRe_other; [cbv; lia|reflexivity]|].
  apply Firstly_Alt_r;
    [intros k; apply matchRe_other; [cbv; lia|reflexivity]|].
  apply Firstly_Alt_l. unfold italicUnderRe, Str.
  apply Firstly_delimited; auto; cbn; lia.
Qed.

(** The code span alternative. *)
Lemma codeSpan_Firstly : forall t pos rest,
  forallb (notOf "`") t = true -> t <> [] ->
  Firstly inlineRe pos (lit "`" ++ t ++ lit "`") rest []
    [(7, lit "`" ++ t ++ lit "`"); (8, t)].
Proof.
  intros t pos rest Ht Hne. unfold inlineRe.
  do 3 (apply Firstly_Alt_r;
        [intros k; apply matchRe_other; [cbv; lia|reflexivity]|]).
  apply Firstly_Alt_l. unfold codeSpanRe, Str.
  apply Firstly_Grp. apply Firstly_enclosed; auto.
Qed.

(** The link alternative. *)
Lemma link_Firstly : forall label url pos rest,
  forallb (notOf "]") label = true -> label <> [] ->
  forallb (notOf ")") url = true -> url <> [] ->
  Firstly inlineRe pos (lit "[" ++ label ++ lit "](" ++ url ++ lit ")") rest []
    [(10, url); (9, label)].
Proof.
  intros label url pos rest Hl Hlne Hu Hune. unfold inlineRe.
  do 4 (apply Firstly_Alt_r;
        [intros k; apply matchRe_other; [cbv; lia|reflexivity]|]).
  apply Firstly_Alt_l. unfold linkRe, Str.
  apply (Firstly_Seq _ _ pos (lit "[") (label ++ lit "](" ++ url ++ lit ")")
           rest [] [] [(10, url); (9, label)]).
  - apply Firstly_Lit.
  - apply (Firstly_Seq _ _ _ label (lit "](" ++ url ++ lit ")") rest
             [] [(9, label)] [(10, url); (9, label)]).
    + apply Firstly_Grp. unfold plus. apply Firstly_greedy; auto.
      destruct label; [contradiction|simpl; lia].
    + apply Firstly_enclosed; auto.
Qed.

(** The mention alternative. *)
Lemma mention_Firstly : forall id pos rest,
  forallb isAccountIdChar id = true -> id <> [] ->
  headNot isAccountIdChar rest = true ->
  Firstly inlineRe pos (lit "@accountId:" ++ id) rest []
    [(11, lit "@accountId:" ++ id); (12, id)].
Proof.
  intros id pos rest Hid Hne Hrest. unfold inlineRe.
  do 5 (apply Firstly_Alt_r;
        [intros k; apply matchRe_other; [cbv; lia|reflexivity]|]).
  unfold mentionRe, Str. apply Firstly_Grp.
  apply (Firstly_Seq _ _ pos (lit "@accountId:") id rest [] [] [(12, id)]).
  - apply Firstly_Lit.
  - apply Firstly_Grp. unfold plus. apply Firstly_greedy; auto.
    destruct id; [contradiction|simpl; lia].
Qed.

Lemma parseInline_bold : forall pre t post,
  isPlain pre = true -> isPlain post = true ->
  forallb (fun c => dot c && negb (N.eqb c 42)) t = true -> t <> [] ->
  parseInline (pre ++ (lit "**" ++ t ++ lit "**") ++ post) =
  Some (textNode pre ++ Text t (Some [Strong]) :: textNode post).
Proof.
  intros pre t post Hpre Hpost Ht Hne.
  eapply parseInline_single; auto.
  - apply Firstly_matchAt, bold_Firstly; auto.
  - reflexivity.
Qed.

Lemma parseInline_italicStar : forall pre t post,
  isPlain pre = true -> isPlain post = true ->
  forallb (fun c => dot c && negb (N.eqb c 42)) t = true -> t <> [] ->
  parseInline (pre ++ (lit "*" ++ t ++ lit "*") ++ post) =
  Some (textNode pre ++ Text t (Some [Em]) :: textNode post).
Proof.
  intros pre t post Hpre Hpost Ht Hne.
  eapply parseInline_single; auto.
  - apply Firstly_matchAt, italicStar_Firstly; auto.
  - reflexivity.
Qed.

Lemma parseInline_italicUnder : forall pre t post,
  isPlain pre = true -> isPlain post = true ->
  forallb (fun c => dot c && negb (N.eqb c 95)) t = true -> t <> [] ->
  parseInline (pre ++ (lit "_" ++ t ++ lit "_") ++ post) =
  Some (textNode pre ++ Text t (Some [Em]) :: textNode post).
Proof.
  intros pre t post Hpre Hpost Ht Hne.
  eapply parseInline_single; auto.
  - apply Firstly_matchAt, italicUnder_Firstly; auto.
  - reflexivity.
Qed.

Lemma parseInline_codeSpan : forall pre t post,
  isPlain pre = true -> isPlain post = true ->
  forallb (notOf "`") t = true -> t <> [] ->
  parseInline (pre ++ (lit "`" ++ t ++ lit "`") ++ post) =
  Some (textNode pre ++ Text t (Some [Code]) :: textNode post).
Proof.
  intros pre t post Hpre Hpost Ht Hne.
  eapply parseInline_single; auto.
  - apply Firstly_matchAt, codeSpan_Firstly; auto.
  - reflexivity.
Qed.

Lemma parseInline_link : forall pre label url post,
  isPlain pre = true -> isPlain post = true ->
  forallb (notOf "]") label = true -> label <> [] ->
  forallb (notOf ")") url = true -> url <> [] ->
  parseInline (pre ++ (lit "[" ++ label ++ lit "](" ++ url ++ lit ")") ++ post) =
  Some (textNode pre ++ Text label (Some [Link url]) :: textNode post).
Proof.
  intros pre label url post Hpre Hpost Hl Hlne Hu Hune.
  eapply parseInline_single; auto.
  - apply Firstly_matchAt, link_Firstly; auto.
  - destruct label; [contradiction|]. destruct url; [contradiction|].
    reflexivity.
Qed.

Lemma parseInline_mention : forall pre id post,
  isPlain pre = true -> isPlain post = true ->
  forallb isAccountIdChar id = true -> id <> [] ->
  headNot isAccountIdChar post = true ->
  parseInline (pre ++ (lit "@accountId:" ++ id) ++ post) =
  Some (textNode pre ++ Mention id (lit "@" ++ id) [] :: textNode post).
Proof.
  intros pre id post Hpre Hpost Hid Hne Hhead.
  eapply parseInline_single; auto.
  - apply Firstly_matchAt, mention_Firstly; auto.
  - reflexivity.
Qed.

(* ------------------------------------------------------------------ *)
(** ** Delimiters that are never closed *)
(* ------------------------------------------------------------------ *)

Lemma repLazy_fail : forall cls k (P : str -> Prop),
  (forall c s, P (c :: s) -> P s) ->
  (forall pos s, P s -> k pos s = None) ->
  forall s min max pos, P s -> repLazy cls min max pos s k = None.
Proof.
  intros cls k P Htl Hk. induction s as [|c s IH]; intros min max pos HP; simpl.
  - rewrite (Hk _ _ HP). now destruct min.
  - rewrite (IH _ _ _ (Htl _ _ HP)), (Hk _ _ HP).
    destruct (cls c && canTake max); destruct min; auto.
Qed.

(** A captured quantifier followed by an expression fails on a text none of
    whose characters that expression can start with. *)
Lemma Rep_then_fail : forall g greedy min max cls r2 s pos caps k,
  0 < minLen r2 ->
  forallb (fun c => negb (first r2 c)) s = true ->
  matchRe (Seq (Grp g (Rep greedy min max cls)) r2) pos s caps k = None.
Proof.
  intros g greedy min max cls r2 s pos caps k Hmin Hs. cbn [matchRe].
  assert (Htl : forall (c : N) (s0 : str),
            forallb (fun c => negb (first r2 c)) (c :: s0) = true ->
            forallb (fun c => negb (first r2 c)) s0 = true).
  { intros c s0 H. simpl in H. now apply Bool.andb_true_iff in H. }
  destruct greedy;
    [apply (repGreedy_fail _ _ _ Htl)|apply (repLazy_fail _ _ _ Htl)]; auto;
    intros pos' [|c s'] Hs'.
  all: try (apply matchRe_nil; exact Hmin).
  all: apply matchRe_other; auto; simpl in Hs';
       apply Bool.andb_true_iff in Hs'; destruct Hs' as [Hc _];
       now apply Bool.negb_true_iff.
Qed.

(** The same after one more character, when the quantifier needs one. *)
Lemma Rep_then_fail_cons : forall g greedy min cls r2 c s pos caps k,
  0 < minLen r2 ->
  forallb (fun c => negb (first r2 c)) s = true ->
  matchRe (Seq (Grp g (Rep greedy (S min) None cls)) r2) pos (c :: s) caps k
  = None.
Proof.
  intros g greedy min cls r2 c s pos caps k Hmin Hs.
  pose proof (Rep_then_fail g greedy min None cls r2 s) as H.
  cbn [matchRe] in *.
  destruct greedy; cbn [repGreedy repLazy pred decr canTake].
  - destruct (cls c); cbn [andb]; auto.
    set (k1 := fun (pos' : nat) (s' : str) =>
                 matchRe r2 pos' s' ((g, firstn (pos' - pos) (c :: s)) :: caps) k).
    assert (Hk1 : repGreedy cls min None (S pos) s k1 = None).
    { assert (Htl : forall (c0 : N) (s0 : str),
                forallb (fun c => negb (first r2 c)) (c0 :: s0) = true ->
                forallb (fun c => negb (first r2 c)) s0 = true).
      { intros c0 s0 H0. simpl in H0. now apply Bool.andb_true_iff in H0. }
      apply (repGreedy_fail _ _ _ Htl); auto.
      intros pos' [|c' s'] Hs'; unfold k1.
      - apply matchRe_nil; exact Hmin.
      - apply matchRe_other; auto. simpl in Hs'.
        apply Bool.andb_true_iff in Hs'. destruct Hs' as [Hc _].
        now apply Bool.negb_true_iff. }
    now rewrite Hk1.
  - destruct (cls c); cbn [andb]; auto.
    assert (Htl : forall (c0 : N) (s0 : str),
              forallb (fun c => negb (first r2 c)) (c0 :: s0) = true ->
              forallb (fun c => negb (first r2 c)) s0 = true).
    { intros c0 s0 H0. simpl in H0. now apply Bool.andb_true_iff in H0. }
    apply (repLazy_fail _ _ _ Htl); auto.
    intros pos' [|c' s'] Hs'.
    + apply matchRe_nil; exact Hmin.
    + apply matchRe_other; auto. simpl in Hs'.
      apply Bool.andb_true_iff in Hs'. destruct Hs' as [Hc _].
      now apply Bool.negb_true_iff.
Qed.

Lemma search_cons_none : forall r c s pos,
  matchAt r pos (c :: s) = None -> search r pos (c :: s) = search r (S pos) s.
Proof. intros r c s pos H. cbn [search]. now rewrite H. Qed.

Lemma plain_not : forall (d : N) t,
  isTrigger d = true -> isPlain t = true ->
  forallb (fun c => negb (N.eqb d c)) t = true.
Proof.
  intros d t Hd. apply forallb_impl. intros c Hc.
  apply Bool.negb_true_iff in Hc. apply Bool.negb_true_iff.
  destruct (N.eqb_spec d c); auto. subst. congruence.
Qed.

Lemma matchRe_Lit_app : forall op t pos caps k,
  matchRe (Lit op) pos (op ++ t) caps k = k (pos + List.length op) t caps.
Proof.
  induction op as [|c op IH]; intros t pos caps k.
  - cbn. now rewrite Nat.add_0_r.
  - destruct op as [|c' op].
    + cbn. rewrite N.eqb_refl. f_equal. lia.
    + change (matchRe (Lit (c :: c' :: op)) pos ((c :: c' :: op) ++ t) caps k)
        with (if N.eqb c c
              then matchRe (Lit (c' :: op)) (S pos) ((c' :: op) ++ t) caps k
              else None).
      rewrite N.eqb_refl, IH. cbn [List.length]. f_equal. lia.
Qed.

(** An opening delimiter, a captured quantifier and an expression that can
    start with no character of the text after the delimiter: no match. *)
Lemma opened_fail_seq : forall g greedy min cls op r2 t pos caps k,
  0 < minLen r2 ->
  forallb (fun c => negb (first r2 c)) t = true ->
  matchRe (Lit op <+> Grp g (Rep greedy min None cls) <+> r2)
    pos (op ++ t) caps k = None.
Proof.
  intros g greedy min cls op r2 t pos caps k Hmin Ht.
  change (matchRe (Lit op <+> Grp g (Rep greedy min None cls) <+> r2)
            pos (op ++ t) caps k)
    with (matchRe (Lit op) pos (op ++ t) caps
            (fun pos' s' caps' =>
               matchRe (Grp g (Rep greedy min None cls) <+> r2) pos' s' caps' k)).
  rewrite matchRe_Lit_app. now apply Rep_then_fail.
Qed.

Lemma opened_fail : forall g1 g greedy min cls op r2 t pos caps k,
  0 < minLen r2 ->
  forallb (fun c => negb (first r2 c)) t = true ->
  matchRe (Grp g1 (Lit op <+> Grp g (Rep greedy min None cls) <+> r2))
    pos (op ++ t) caps k = None.
Proof.
  intros g1 g greedy min cls op r2 t pos caps k Hmin Ht.
  change (matchRe (Grp g1 (Lit op <+> Grp g (Rep greedy min None cls) <+> r2))
            pos (op ++ t) caps k)
    with (matchRe (Lit op <+> Grp g (Rep greedy min None cls) <+> r2)
            pos (op ++ t) caps
            (fun pos' s' caps' =>
               k pos' s' ((g1, firstn (pos' - pos) (op ++ t)) :: caps'))).
  now apply opened_fail_seq.
Qed.

(** The same with one more character between the delimiter and the text. *)
Lemma opened_fail_cons : forall g1 g greedy min cls op r2 c t pos caps k,
  0 < minLen r2 ->
  forallb (fun c => negb (first r2 c)) t = true ->
  matchRe (Grp g1 (Lit op <+> Grp g (Rep greedy (S min) None cls) <+> r2))
    pos (op ++ c :: t) caps k = None.
Proof.
  intros g1 g greedy min cls op r2 c t pos caps k Hmin Ht.
  change (matchRe (Grp g1 (Lit op <+> Grp g (Rep greedy (S min) None cls) <+> r2))
            pos (op ++ c :: t) caps k)
    with (matchRe (Lit op) pos (op ++ c :: t) caps
            (fun pos' s' caps' =>
               matchRe (Grp g (Rep greedy (S min) None cls) <+> r2) pos' s' caps'
                 (fun pos'' s'' caps'' =>
                    k pos'' s'' ((g1, firstn (pos'' - pos) (op ++ c :: t))
                                   :: caps'')))).
  rewrite matchRe_Lit_app. now apply Rep_then_fail_cons.
Qed.

(** An opening asterisk, underscore, backtick or bracket with no closing
    one after it starts no match. *)
Lemma opener_no_match : forall t pos,
  isPlain t = true ->
  matchAt inlineRe pos (42%N :: t) = None /\
  matchAt inlineRe pos (42%N :: 42%N :: t) = None /\
  matchAt inlineRe pos (95%N :: t) = None /\
  matchAt inlineRe pos (96%N :: t) = None /\
  (forallb (notOf "]") t = true -> matchAt inlineRe pos (91%N :: t) = None).
Proof.
  intros t pos Ht.
  pose proof (plain_not 42 t eq_refl Ht) as H42.
  pose proof (plain_not 95 t eq_refl Ht) as H95.
  pose proof (plain_not 96 t eq_refl Ht) as H96.
  assert (Hother : forall r c s,
            0 < minLen r -> first r c = false ->
            matchRe r pos (c :: s) [] accept = None)
    by (intros; now apply matchRe_other).
  assert (Hb1 : matchRe boldRe pos (42%N :: t) [] accept = None).
  { destruct t as [|c t]; [reflexivity|].
    cbn [forallb] in H42. apply Bool.andb_true_iff in H42.
    destruct H42 as [Hc _]. apply Bool.negb_true_iff in Hc.
    now apply bold_fails_single. }
  assert (Hi1 : matchRe italicStarRe pos (42%N :: t) [] accept = None).
  { apply (opened_fail 3 4 false 1 dot [42%N] (Lit [42%N]) t);
      [cbn; lia|exact H42]. }
  assert (Hb2 : matchRe boldRe pos (42%N :: 42%N :: t) [] accept = None).
  { apply (opened_fail 1 2 false 1 dot [42%N; 42%N] (Lit [42%N; 42%N]) t);
      [cbn; lia|now apply first_Lit2]. }
  assert (Hi2 : matchRe italicStarRe pos (42%N :: 42%N :: t) [] accept = None).
  { apply (opened_fail_cons 3 4 false 0 dot [42%N] (Lit [42%N]) 42%N t);
      [cbn; lia|exact H42]. }
  assert (Hu : matchRe italicUnderRe pos (95%N :: t) [] accept = None).
  { apply (opened_fail 5 6 false 1 dot [95%N] (Lit [95%N]) t);
      [cbn; lia|exact H95]. }
  assert (Hc : matchRe codeSpanRe pos (96%N :: t) [] accept = None).
  { apply (opened_fail 7 8 true 1 (notOf "`") [96%N] (Lit [96%N]) t);
      [cbn; lia|exact H96]. }
  unfold matchAt, inlineRe. cbn [matchRe].
  repeat split.
  - rewrite Hb1, Hi1. rewrite !Hother; solve [reflexivity | cbv; lia].
  - rewrite Hb2, Hi2. rewrite !Hother; solve [reflexivity | cbv; lia].
  - rewrite Hu. rewrite !Hother; solve [reflexivity | cbv; lia].
  - rewrite Hc. rewrite !Hother; solve [reflexivity | cbv; lia].
  - intros Hbr.
    assert (Hl : matchRe linkRe pos (91%N :: t) [] accept = None).
    { apply (opened_fail_seq 9 true 1 (notOf "]") [91%N]
               (Str "](" <+> Grp 10 (plus (notOf ")")) <+> Str ")") t);
        [cbv; lia|].
      revert Hbr. apply forallb_impl. intros c Hc'.
      apply Bool.negb_true_iff.
      destruct (first (Str "](" <+> Grp 10 (plus (notOf ")")) <+> Str ")") c)
        eqn:E; auto.
      exfalso. revert Hc' E. clear. cbv [notOf noneOf oneOf anyOf].
      cbn -[N.eqb]. intros Hc' E. codes. }
    rewrite Hl. rewrite !Hother; solve [reflexivity | cbv; lia].
Qed.

Lemma parseInline_no_match : forall text,
  text <> [] -> reExec inlineRe text 0 = None ->
  parseInline text = Some [Text text None].
Proof.
  intros text Hne H. unfold parseInline.
  rewrite parseInlineLoop_done by exact H. cbn [bind].
  destruct text; [contradiction|reflexivity].
Qed.

Lemma parseInline_unclosed : forall pre op t,
  isPlain pre = true -> isPlain t = true ->
  In op [lit "**"; lit "*"; lit "_"; lit "`"] ->
  parseInline (pre ++ op ++ t) = Some [Text (pre ++ op ++ t) None].
Proof.
  intros pre op t Hpre Ht Hop.
  apply parseInline_no_match.
  - destruct Hop as [<-|[<-|[<-|[<-|[]]]]]; destruct pre; discriminate.
  - unfold reExec. cbn [Nat.leb skipn].
    rewrite search_skip; [|exact inlineRe_minLen|now apply plain_first].
    destruct (opener_no_match t (0 + List.length pre) Ht)
      as (H1 & H2 & H3 & H4 & _).
    destruct (opener_no_match t (S (0 + List.length pre)) Ht)
      as (H1' & _).
    pose proof (plain_first t Ht) as Hpl.
    destruct Hop as [<-|[<-|[<-|[<-|[]]]]];
      cbn [lit app list_ascii_of_string map];
      change (N_of_ascii "*") with 42%N; change (N_of_ascii "_") with 95%N;
      change (N_of_ascii "`") with 96%N.
    + rewrite search_cons_none by exact H2.
      rewrite search_cons_none by exact H1'.
      apply search_none; [exact inlineRe_minLen|exact Hpl].
    + rewrite search_cons_none by exact H1.
      apply search_none; [exact inlineRe_minLen|exact Hpl].
    + rewrite search_cons_none by exact H3.
      apply search_none; [exact inlineRe_minLen|exact Hpl].
    + rewrite search_cons_none by exact H4.
      apply search_none; [exact inlineRe_minLen|exact Hpl].
Qed.

Lemma parseInline_unclosed_bracket : forall pre t,
  isPlain pre = true -> isPlain t = true -> forallb (notOf "]") t = true ->
  parseInline (pre ++ lit "[" ++ t) = Some [Text (pre ++ lit "[" ++ t) None].
Proof.
  intros pre t Hpre Ht Hbr.
  apply parseInline_no_match.
  - destruct pre; discriminate.
  - unfold reExec. cbn [Nat.leb skipn].
    rewrite search_skip; [|exact inlineRe_minLen|now apply plain_first].
    destruct (opener_no_match t (0 + List.length pre) Ht)
      as (_ & _ & _ & _ & H5).
    change (lit "[" ++ t) with (91%N :: t).
    rewrite search_cons_none by exact (H5 Hbr).
    apply search_none; [exact inlineRe_minLen|now apply plain_first].
Qed.

(* ------------------------------------------------------------------ *)
(** ** Anchored expressions on a line of known shape *)
(* ------------------------------------------------------------------ *)

Lemma trimEnd_cons_nonspace : forall c s,
  isSpace c = false -> trimEnd (c :: s) = c :: trimEnd s.
Proof.
  intros c s H. cbn [trimEnd]. rewrite H. now destruct (trimEnd s).
Qed.

Lemma trimEnd_app_nonspace : forall a b,
  forallb (fun c => negb (isSpace c)) a = true ->
  trimEnd (a ++ b) = a ++ trimEnd b.
Proof.
  induction a as [|c a IH]; intros b H; cbn [app]; auto.
  cbn [forallb] in H. apply Bool.andb_true_iff in H. destruct H as [Hc H].
  apply Bool.negb_true_iff in Hc.
  now rewrite trimEnd_cons_nonspace, IH.
Qed.

Lemma trimEnd_app_keep : forall a b,
  trimEnd b <> [] -> trimEnd (a ++ b) = a ++ trimEnd b.
Proof.
  induction a as [|c a IH]; intros b H; cbn [app]; auto.
  cbn [trimEnd]. rewrite IH by exact H.
  destruct (a ++ trimEnd b) eqn:E; auto.
  apply app_eq_nil in E. destruct E as [_ E]. contradiction.
Qed.

Lemma forallb_trimEnd : forall (p : N -> bool) s,
  forallb p s = true -> forallb p (trimEnd s) = true.
Proof.
  intros p. induction s as [|c s IH]; intros H; auto.
  cbn [forallb] in H. apply Bool.andb_true_iff in H. destruct H as [Hc H].
  cbn [trimEnd]. specialize (IH H).
  destruct (trimEnd s) as [|d t].
  - destruct (isSpace c); cbn [forallb]; auto. now rewrite Hc.
  - cbn [forallb] in *. now rewrite Hc, IH.
Qed.

Lemma headNot_trimEnd : forall (p : N -> bool) s,
  headNot p s = true -> headNot p (trimEnd s) = true.
Proof.
  intros p s H. destruct (trimEnd s) as [|c t] eqn:E; auto.
  destruct (trimEnd_head _ _ _ E) as (s' & ->). exact H.
Qed.

Lemma headNot_app : forall (p : N -> bool) a b,
  a <> [] -> headNot p a = true -> headNot p (a ++ b) = true.
Proof. intros p [|c a] b Hne H; [contradiction|exact H]. Qed.

Lemma Firstly_Eol : forall pos caps, Firstly Eol pos [] [] caps caps.
Proof.
  intros pos caps k x H. cbn [app List.length matchRe] in *.
  now rewrite Nat.add_0_r in H.
Qed.

Lemma repGreedy_run_max : forall cls k X rest min m pos x,
  forallb cls X = true ->
  List.length X = m \/ headNot cls rest = true ->
  min <= List.length X -> List.length X <= m ->
  k (pos + List.length X) rest = Some x ->
  repGreedy cls min (Some m) pos (X ++ rest) k = Some x.
Proof.
  intros cls k. induction X as [|c X IH]; intros rest min m pos x HX Hrest Hmin Hm Hk;
    cbn [List.length app] in *.
  - rewrite Nat.add_0_r in Hk. destruct min; [|lia].
    destruct rest as [|c s]; cbn [repGreedy]; auto.
    destruct Hrest as [<-|Hrest].
    + cbn [canTake]. now rewrite Bool.andb_false_r.
    + cbn [headNot] in Hrest. apply Bool.negb_true_iff in Hrest.
      now rewrite Hrest.
  - cbn [forallb] in HX. apply Bool.andb_true_iff in HX. destruct HX as [Hc HX].
    destruct m as [|m]; [lia|].
    cbn [repGreedy canTake decr pred]. rewrite Hc. cbn [andb].
    rewrite (IH rest (pred min) m (S pos) x); auto; try lia.
    + destruct Hrest as [E|Hrest]; [left; lia|now right].
    + now replace (S pos + List.length X) with (pos + S (List.length X)) by lia.
Qed.

Lemma Firstly_greedy_max : forall cls min m X pos rest caps,
  forallb cls X = true ->
  List.length X = m \/ headNot cls rest = true ->
  min <= List.length X -> List.length X <= m ->
  Firstly (Rep true min (Some m) cls) pos X rest caps caps.
Proof.
  intros cls min m X pos rest caps HX Hrest Hmin Hm k x Hk.
  cbn [matchRe]. now apply repGreedy_run_max.
Qed.

(** An anchored expression with a known first match: the match object, the
    test and the text left by its removal. *)
Lemma reMatch_Firstly : forall r X rest caps,
  Firstly r 0 X rest [] caps ->
  reMatch (Seq Bol r) (X ++ rest) = Some (mkMatch 0 (List.length X) caps).
Proof.
  intros r X rest caps H. rewrite reMatch_Bol.
  now rewrite (Firstly_matchAt _ _ _ _ _ H).
Qed.

Lemma reTest_Firstly : forall r X rest caps,
  Firstly r 0 X rest [] caps -> reTest (Seq Bol r) (X ++ rest) = true.
Proof.
  intros r X rest caps H. unfold reTest. now rewrite (reMatch_Firstly _ _ _ _ H).
Qed.

Lemma reRemove_Firstly : forall r X rest caps,
  Firstly r 0 X rest [] caps -> reRemove (Seq Bol r) (X ++ rest) = rest.
Proof.
  intros r X rest caps H. unfold reRemove. rewrite (reMatch_Firstly _ _ _ _ H).
  cbn [index stop firstn app].
  rewrite skipn_app, skipn_all, Nat.sub_diag. reflexivity.
Qed.

(* ------------------------------------------------------------------ *)
(** ** Headings *)
(* ------------------------------------------------------------------ *)

Lemma hash_not_space : forall n,
  forallb (fun c => negb (isSpace c)) (repeat 35%N n) = true.
Proof. intros n. now apply forallb_repeat. Qed.

Lemma space_not_hash : forall c, isSpace c = true -> anyOf "#" c = false.
Proof. intros c H. class_false. Qed.

(** One to six hashes, white space and a text on one line match the
    heading expression: group 1 is the hashes, group 2 the text. *)
Lemma heading_match : forall n ws t,
  1 <= n -> n <= 6 ->
  forallb isSpace ws = true -> ws <> [] ->
  forallb dot t = true -> t <> [] -> headNot isSpace t = true ->
  exists e,
    reMatch headingRe (repeat 35%N n ++ ws ++ t) =
    Some (mkMatch 0 e [(2, t); (1, repeat 35%N n)]).
Proof.
  intros n ws t Hn1 Hn6 Hws Hwne Ht Htne Hhead.
  eexists. unfold headingRe.
  replace (repeat 35%N n ++ ws ++ t)
    with ((repeat 35%N n ++ ws ++ t ++ []) ++ [])
    by now rewrite !app_nil_r.
  apply reMatch_Firstly.
  eapply Firstly_Seq.
  - apply Firstly_Grp. unfold between. apply Firstly_greedy_max.
    + now apply forallb_repeat.
    + right. destruct ws as [|w ws]; [contradiction|].
      cbn [app headNot]. cbn [forallb] in Hws.
      apply Bool.andb_true_iff in Hws. destruct Hws as [Hw _].
      now rewrite (space_not_hash w Hw).
    + rewrite repeat_length. lia.
    + rewrite repeat_length. lia.
  - eapply Firstly_Seq.
    + unfold plus. apply Firstly_greedy; auto.
      * rewrite app_nil_r. rewrite app_nil_r. exact Hhead.
      * destruct ws; [contradiction|cbn; lia].
    + eapply Firstly_Seq.
      * apply Firstly_Grp. unfold plus. apply Firstly_greedy; auto.
        destruct t; [contradiction|cbn; lia].
      * apply Firstly_Eol.
Qed.

(** At such a line the loop pushes a heading whose level is the number of
    hashes and whose content is the inline parse of the text. *)
Lemma blockStep_heading : forall recur n ws c s rest blocks buf,
  1 <= n -> n <= 6 ->
  forallb isSpace ws = true -> ws <> [] ->
  isSpace c = false -> forallb dot (c :: s) = true ->
  blockStep recur (repeat 35%N n ++ ws ++ c :: s) rest blocks buf =
  (blocks' <- flushParagraph blocks buf ;;
   nodes <- parseInline (trimEnd (c :: s)) ;;
   Some (blocks' ++ [Heading n nodes], [], rest)).
Proof.
  intros recur n ws c s rest blocks buf Hn1 Hn6 Hws Hwne Hc Hdot.
  destruct (trimEnd_cons_keep c s Hc) as (t & Ht).
  assert (Htrim : trimEnd (repeat 35%N n ++ ws ++ c :: s)
                  = repeat 35%N n ++ ws ++ c :: t).
  { rewrite app_assoc, trimEnd_app_keep by (rewrite Ht; discriminate).
    now rewrite Ht, <- app_assoc. }
  destruct (heading_match n ws (c :: t)) as (e & He); auto.
  { rewrite <- Ht. now apply forallb_trimEnd. }
  { discriminate. }
  { cbn [headNot]. now rewrite Hc. }
  unfold blockStep. cbv zeta. rewrite Htrim, He, Ht.
  destruct n as [|n]; [lia|]. cbn [repeat app].
  assert (H1 : reMatch codeFenceRe (35%N :: repeat 35%N n ++ ws ++ c :: t) = None)
    by (apply reMatch_other; solve [cbv; lia | reflexivity]).
  assert (H2 : reTest ruleRe (35%N :: repeat 35%N n ++ ws ++ c :: t) = false)
    by (apply reTest_other; solve [cbv; lia | reflexivity]).
  rewrite H1, H2.
  cbn [group groups lookup Nat.eqb orEmpty].
  change (35%N :: repeat 35%N n) with (repeat 35%N (S n)).
  rewrite repeat_length, Nat.min_l by lia.
  reflexivity.
Qed.

(** A document of one line. *)
Lemma markdownToAdf_one_line : forall line b,
  forallb (fun c => negb (N.eqb c LF)) line = true ->
  (forall recur, blockStep recur line [] [] [] = Some ([b], [], [])) ->
  markdownToAdf line = Some (mkDocument 1 [b]).
Proof.
  intros line b Hline Hstep. unfold markdownToAdf. cbn [markdownToAdfAt].
  rewrite split_no_sep by exact Hline.
  cbn [List.length blockLoop]. rewrite Hstep. reflexivity.
Qed.

Lemma dot_not_newline : forall s,
  forallb dot s = true -> forallb (fun c => negb (N.eqb c LF)) s = true.
Proof.
  intros s. apply forallb_impl. intros c H. apply Bool.negb_true_iff.
  class_false. subst. unfold LF in *. congruence.
Qed.

Lemma forallb_app_intro : forall {A : Type} (p : A -> bool) (a b : list A),
  forallb p a = true -> forallb p b = true -> forallb p (a ++ b) = true.
Proof. intros A p a b Ha Hb. rewrite forallb_app. now rewrite Ha, Hb. Qed.

Lemma markdownToAdf_heading : forall n ws c s,
  1 <= n -> n <= 6 ->
  forallb (fun c => isSpace c && negb (N.eqb c LF)) ws = true -> ws <> [] ->
  isSpace c = false -> forallb dot (c :: s) = true ->
  exists nodes,
    parseInline (trimEnd (c :: s)) = Some nodes /\
    markdownToAdf (repeat 35%N n ++ ws ++ c :: s) =
    Some (mkDocument 1 [Heading n nodes]).
Proof.
  intros n ws c s Hn1 Hn6 Hws Hwne Hc Hdot.
  destruct (parseInline_ok (trimEnd (c :: s))) as (nodes & Hnodes & _).
  exists nodes. split; [exact Hnodes|].
  assert (Hsp : forallb isSpace ws = true).
  { revert Hws. apply forallb_impl. intros x Hx.
    now apply Bool.andb_true_iff in Hx. }
  assert (Hnl : forallb (fun c => negb (N.eqb c LF)) ws = true).
  { revert Hws. apply forallb_impl. intros x Hx.
    now apply Bool.andb_true_iff in Hx. }
  apply markdownToAdf_one_line.
  - apply forallb_app_intro; [now apply forallb_repeat|].
    apply forallb_app_intro; [exact Hnl|now apply dot_not_newline].
  - intros recur. rewrite blockStep_heading; auto.
    cbn [flushParagraph bind]. rewrite Hnodes. reflexivity.
Qed.

(* ------------------------------------------------------------------ *)
(** ** Paragraphs *)
(* ------------------------------------------------------------------ *)

Ltac first_false :=
  unfold codeFenceRe, ruleRe, headingRe, quoteRe, tableLineRe, bulletRe,
    orderedRe, Str, star, plus, opt, atLeast, between;
  cbn [first minLen Lit lit list_ascii_of_string map Nat.eqb Nat.add Nat.min
       andb orb];
  unfold startsText in *; class_false;
  repeat match goal with
         | H : _ && _ = false |- _ =>
             apply Bool.andb_false_iff in H; destruct H
         end;
  codes.

(** A line that starts with a hash or with a text character opens no fence,
    rule, quote, table or list. *)
Lemma text_tests : forall c s,
  startsText c = true \/ c = 35%N ->
  reMatch codeFenceRe (c :: s) = None /\
  reTest ruleRe (c :: s) = false /\
  reTest quoteRe (c :: s) = false /\
  reTest tableLineRe (c :: s) = false /\
  reTest bulletRe (c :: s) = false /\
  reTest orderedRe (c :: s) = false /\
  isSpace c = false.
Proof.
  intros c s [H| ->].
  - repeat split;
      first [apply reMatch_other | apply reTest_other | idtac];
      try solve [cbv; lia]; first_false.
  - repeat split;
      first [apply reMatch_other | apply reTest_other | idtac];
      solve [cbv; lia | reflexivity].
Qed.

Lemma text_no_heading : forall c s,
  startsText c = true -> reMatch headingRe (c :: s) = None.
Proof.
  intros c s H. apply reMatch_other; [cbv; lia|]. first_false.
Qed.

(** A line that opens nothing joins the paragraph buffer, trimmed on the
    right. *)
Lemma blockStep_default : forall recur c s rest blocks buf,
  startsText c = true \/ c = 35%N ->
  reMatch headingRe (trimEnd (c :: s)) = None ->
  blockStep recur (c :: s) rest blocks buf =
  Some (blocks, buf ++ [trimEnd (c :: s)], rest).
Proof.
  intros recur c s rest blocks buf Hc Hh.
  destruct (text_tests c s Hc) as (_ & _ & _ & _ & H5 & H6 & Hsp).
  destruct (trimEnd_cons_keep c s Hsp) as (t & Ht).
  destruct (text_tests c t Hc) as (H1 & H2 & H3 & H4 & _).
  unfold blockStep. cbv zeta. rewrite Hh, H5, H6, Ht, H1, H2, H3, H4.
  reflexivity.
Qed.

Lemma blockStep_text : forall recur l rest blocks buf,
  textLine l = true ->
  blockStep recur l rest blocks buf = Some (blocks, buf ++ [trimEnd l], rest).
Proof.
  intros recur [|c s] rest blocks buf H; [discriminate|].
  unfold textLine in H. apply Bool.andb_true_iff in H. destruct H as [Hc _].
  apply blockStep_default; [now left|].
  destruct (text_tests c s (or_introl Hc)) as (_ & _ & _ & _ & _ & _ & Hsp).
  destruct (trimEnd_cons_keep c s Hsp) as (t & ->).
  now apply text_no_heading.
Qed.

Lemma blockLoop_text : forall recur fuel lines blocks buf,
  forallb textLine lines = true ->
  List.length lines <= fuel ->
  blockLoop recur fuel lines blocks buf = Some (blocks, buf ++ map trimEnd lines).
Proof.
  intros recur. induction fuel as [|fuel IH]; intros lines blocks buf Hall Hlen;
    destruct lines as [|line rest]; cbn [blockLoop map];
    rewrite ?app_nil_r; auto; cbn [List.length] in Hlen; try lia.
  cbn [forallb] in Hall. apply Bool.andb_true_iff in Hall.
  destruct Hall as [Hl Hall].
  rewrite blockStep_text by exact Hl. cbn [bind].
  rewrite IH; auto; [|lia]. now rewrite <- app_assoc.
Qed.

Lemma join_cons_head : forall sep c t ls,
  exists r, join sep ((c :: t) :: ls) = c :: r.
Proof. intros sep c t [|l ls]; cbn [join app]; eauto. Qed.

Lemma forallb_Forall : forall {A : Type} (p : A -> bool) (l : list A),
  forallb p l = true -> Forall (fun x => p x = true) l.
Proof. intros A p l H. now apply Forall_forall, forallb_forall. Qed.

(** Rewriting with the result of an inline parse, up to conversion. *)
Ltac use_nodes H :=
  match type of H with
  | _ = ?v =>
      match goal with
      | |- context [parseInline ?x] =>
          replace (parseInline x) with v by (symmetry; exact H)
      end
  end.

Lemma flushParagraph_text : forall blocks c t ls,
  isSpace c = false ->
  flushParagraph blocks ((c :: t) :: ls) =
  (nodes <- parseInline (join LF ((c :: t) :: ls)) ;;
   Some (blocks ++ [Paragraph nodes])).
Proof.
  intros blocks c t ls Hc. unfold flushParagraph.
  destruct (join_cons_head LF c t ls) as (r & ->).
  now rewrite trim_keep by exact Hc.
Qed.

(** Lines of text up to the end of the input are one paragraph: the lines,
    each trimmed on the right, joined by newlines and parsed as a whole. *)
Lemma markdownToAdf_paragraph : forall lines,
  lines <> [] -> forallb textLine lines = true ->
  exists nodes,
    parseInline (join LF (map trimEnd lines)) = Some nodes /\
    markdownToAdf (join LF lines) = Some (mkDocument 1 [Paragraph nodes]).
Proof.
  intros lines Hne Hall.
  destruct (parseInline_ok (join LF (map trimEnd lines))) as (nodes & Hnodes & _).
  exists nodes. split; [exact Hnodes|].
  destruct lines as [|l ls]; [contradiction|].
  unfold markdownToAdf. cbn [markdownToAdfAt].
  rewrite split_join.
  - rewrite blockLoop_text; auto. cbn [bind app].
    cbn [map] in *.
    destruct l as [|c s]; [discriminate|].
    cbn [forallb] in Hall. apply Bool.andb_true_iff in Hall.
    destruct Hall as [Hl _]. unfold textLine in Hl.
    apply Bool.andb_true_iff in Hl. destruct Hl as [Hc _].
    destruct (text_tests c s (or_introl Hc)) as (_ & _ & _ & _ & _ & _ & Hsp).
    destruct (trimEnd_cons_keep c s Hsp) as (t & Ht). rewrite Ht in *.
    rewrite flushParagraph_text by exact Hsp.
    use_nodes Hnodes. reflexivity.
  - apply forallb_Forall. revert Hall. apply forallb_impl.
    intros x Hx. unfold textLine in Hx.
    now apply Bool.andb_true_iff in Hx.
Qed.

(* ------------------------------------------------------------------ *)
(** ** Hashes that are no heading *)
(* ------------------------------------------------------------------ *)

(** The hashes quantifier fails when what follows it fails after every
    number of hashes it can take. *)
Lemma hashes_fail : forall (k : nat -> str -> option result) t j m min pos,
  (forall pos i, 0 < i -> k pos (repeat 35%N i ++ t) = None) ->
  (j <= m -> forall pos, k pos t = None) ->
  headNot (anyOf "#") t = true ->
  repGreedy (anyOf "#") min (Some m) pos (repeat 35%N j ++ t) k = None.
Proof.
  intros k t. induction j as [|j IH]; intros m min pos Hk Hgood Ht.
  - cbn [repeat app]. destruct t as [|c t]; cbn [repGreedy].
    + destruct min; auto. apply Hgood. lia.
    + cbn [headNot] in Ht. apply Bool.negb_true_iff in Ht. rewrite Ht.
      cbn [andb]. destruct min; auto. apply Hgood. lia.
  - cbn [repeat app repGreedy].
    change (35%N :: repeat 35%N j ++ t) with (repeat 35%N (S j) ++ t).
    rewrite (Hk pos (S j)) by lia.
    destruct m as [|m].
    + cbn [canTake]. rewrite Bool.andb_false_r. now destruct min.
    + cbn [canTake decr pred]. change (anyOf "#" 35%N) with true. cbn [andb].
      rewrite IH; auto; [now destruct min|].
      intros Hj. apply Hgood. lia.
Qed.

(** More than six hashes, or hashes with no white space after them, do not
    match the heading expression. *)
Lemma heading_fail : forall n t,
  headNot (anyOf "#") t = true ->
  6 < n \/ headNot isSpace t = true ->
  reMatch headingRe (repeat 35%N n ++ t) = None.
Proof.
  intros n t Ht Hn. unfold headingRe. rewrite reMatch_Bol.
  unfold matchAt, between.
  remember (plus isSpace <+> Grp 2 (plus dot) <+> Eol)%re as R2 eqn:ER2.
  assert (Hmin : 0 < minLen R2) by (subst R2; cbv; lia).
  assert (Hfirst : forall c, first R2 c = isSpace c).
  { intros c. subst R2. cbn. now rewrite Bool.orb_false_r. }
  cbn [matchRe].
  rewrite hashes_fail; auto.
  - intros pos [|i] Hi; [lia|]. cbn [repeat app].
    apply matchRe_other; [exact Hmin|now rewrite Hfirst].
  - intros Hle pos. destruct Hn as [Hn|Hn]; [lia|].
    destruct t as [|c t]; [now apply matchRe_nil|].
    apply matchRe_other; [exact Hmin|]. rewrite Hfirst.
    cbn [headNot] in Hn. now apply Bool.negb_true_iff.
Qed.

(** Such a line alone is a paragraph. *)
Lemma markdownToAdf_hashes : forall n t,
  1 <= n ->
  headNot (anyOf "#") t = true ->
  6 < n \/ headNot isSpace t = true ->
  forallb (fun c => negb (N.eqb c LF)) t = true ->
  exists nodes,
    parseInline (trimEnd (repeat 35%N n ++ t)) = Some nodes /\
    markdownToAdf (repeat 35%N n ++ t) = Some (mkDocument 1 [Paragraph nodes]).
Proof.
  intros n t Hn1 Ht Hn Hnl.
  destruct (parseInline_ok (trimEnd (repeat 35%N n ++ t))) as (nodes & Hnodes & _).
  exists nodes. split; [exact Hnodes|].
  unfold markdownToAdf. cbn [markdownToAdfAt].
  rewrite split_no_sep
    by (apply forallb_app_intro; [now apply forallb_repeat|exact Hnl]).
  cbn [List.length blockLoop].
  assert (Htrim : trimEnd (repeat 35%N n ++ t) = repeat 35%N n ++ trimEnd t)
    by (apply trimEnd_app_nonspace, hash_not_space).
  destruct n as [|n]; [lia|].
  change (repeat 35%N (S n) ++ t) with (35%N :: repeat 35%N n ++ t) in *.
  rewrite blockStep_default; [|now right|].
  - cbn [bind app]. rewrite Htrim. cbn [repeat app].
    rewrite flushParagraph_text by reflexivity.
    cbn [join]. rewrite Htrim in Hnodes. use_nodes Hnodes. reflexivity.
  - rewrite Htrim. apply heading_fail.
    + now apply headNot_trimEnd.
    + destruct Hn as [Hn|Hn]; [now left|right; now apply headNot_trimEnd].
Qed.

(* ------------------------------------------------------------------ *)
(** ** Lists *)
(* ------------------------------------------------------------------ *)

(** A greedy quantifier fails when its continuation fails at every point of
    the run it can take. *)
Lemma repGreedy_run_fail : forall cls (k : nat -> str -> option result) X rest
    min max pos,
  headNot cls rest = true ->
  (forall i pos, i <= List.length X -> k pos (skipn i X ++ rest) = None) ->
  repGreedy cls min max pos (X ++ rest) k = None.
Proof.
  intros cls k. induction X as [|c X IH]; intros rest min max pos Hrest Hk.
  - cbn [app]. specialize (Hk 0 pos (Nat.le_0_l _)). cbn [skipn app] in Hk.
    destruct rest as [|c s]; cbn [repGreedy].
    + rewrite Hk. now destruct min.
    + cbn [headNot] in Hrest. apply Bool.negb_true_iff in Hrest.
      rewrite Hrest, Hk. cbn [andb]. now destruct min.
  - cbn [app repGreedy].
    pose proof (Hk 0 pos (Nat.le_0_l _)) as H0. cbn [skipn app] in H0.
    rewrite H0.
    rewrite IH; auto.
    + destruct (cls c && canTake max); now destruct min.
    + intros i pos' Hi. apply (Hk (S i) pos'). cbn [List.length]. lia.
Qed.

Lemma skipn_head_or : forall (p : N -> bool) (X : str) (c : N) (rest : str) i,
  forallb p X = true -> i <= List.length X ->
  exists d s, skipn i X ++ c :: rest = d :: s /\ (p d = true \/ d = c).
Proof.
  intros p. induction X as [|x X IH]; intros c rest i HX Hi.
  - cbn [List.length] in Hi. replace i with 0 by lia. cbn. eauto.
  - cbn [forallb] in HX. apply Bool.andb_true_iff in HX. destruct HX as [Hx HX].
    destruct i as [|i].
    + cbn. eauto.
    + cbn [skipn]. apply IH; auto. cbn [List.length] in Hi. lia.
Qed.

Lemma marker_not_space : forall c,
  (anyOf "-*+" c || N.eqb c BULLET) = true -> isSpace c = false.
Proof.
  intros c H. destruct (isSpace c) eqn:E; auto.
  now rewrite (space_not_marker c E) in H.
Qed.

Lemma digit_not_space : forall c, isDigit c = true -> isSpace c = false.
Proof.
  intros c H. destruct (isSpace c) eqn:E; auto.
  now rewrite (space_not_digit c E) in H.
Qed.

Lemma digit_not_marker : forall c,
  isDigit c = true -> (anyOf "-*+" c || N.eqb c BULLET) = false.
Proof. intros c H. class_false. Qed.

(** The parts of a well-formed item line. *)
Lemma wfItemLine_parts : forall isMarker it,
  wfItemLine isMarker it = true ->
  forallb isSpace (indent it) = true /\ isMarker (marker it) = true /\
  gap it <> [] /\ forallb isSpace (gap it) = true /\
  headNot isSpace (itemText it) = true /\
  forallb (fun c => negb (N.eqb c LF)) (itemLine it) = true.
Proof.
  intros isMarker it H. unfold wfItemLine in H.
  repeat (apply Bool.andb_true_iff in H; destruct H as [H ?]).
  repeat split; auto.
  destruct (gap it); [discriminate|discriminate].
Qed.

Lemma bulletMarker_inv : forall m,
  isBulletMarker m = true ->
  exists c, m = [c] /\ (anyOf "-*+" c || N.eqb c BULLET) = true.
Proof.
  intros [|c [|d m]] H; try discriminate. eauto.
Qed.

Lemma orderedMarker_inv : forall m,
  isOrderedMarker m = true ->
  exists d ds, m = (d :: ds) ++ [46%N] /\ forallb isDigit (d :: ds) = true.
Proof.
  intros m H. unfold isOrderedMarker in H.
  pose proof (span_app isDigit m) as Happ.
  pose proof (span_fst_all isDigit m) as Hall.
  destruct (span isDigit m) as [[|d ds] [|c [|c' r]]]; try discriminate.
  apply N.eqb_eq in H. subst c. cbn [fst snd] in *. eauto.
Qed.

(** A bullet item line matches the bullet expression up to its text. *)
Lemma bullet_Firstly : forall ws c gp t,
  forallb isSpace ws = true ->
  (anyOf "-*+" c || N.eqb c BULLET) = true ->
  gp <> [] -> forallb isSpace gp = true -> headNot isSpace t = true ->
  Firstly (star isSpace <+>
           Chr (fun c => anyOf "-*+" c || N.eqb c BULLET) <+> plus isSpace)
    0 (ws ++ [c] ++ gp) t [] [].
Proof.
  intros ws c gp t Hws Hc Hgne Hgp Ht.
  eapply Firstly_Seq.
  - unfold star. apply Firstly_greedy; auto; [|lia].
    cbn [app headNot]. now rewrite (marker_not_space c Hc).
  - eapply Firstly_Seq.
    + now apply Firstly_Chr.
    + unfold plus. apply Firstly_greedy; auto.
      destruct gp; [contradiction|cbn; lia].
Qed.

(** An ordered item line matches the ordered expression up to its text. *)
Lemma ordered_Firstly : forall ws d ds gp t,
  forallb isSpace ws = true -> forallb isDigit (d :: ds) = true ->
  gp <> [] -> forallb isSpace gp = true -> headNot isSpace t = true ->
  Firstly (star isSpace <+> plus isDigit <+> Str "." <+> plus isSpace)
    0 (ws ++ (d :: ds) ++ [46%N] ++ gp) t [] [].
Proof.
  intros ws d ds gp t Hws Hds Hgne Hgp Ht.
  assert (Hd : isDigit d = true)
    by (cbn [forallb] in Hds; now apply Bool.andb_true_iff in Hds).
  eapply Firstly_Seq.
  - unfold star. apply Firstly_greedy; auto; [|lia].
    cbn [app headNot]. now rewrite (digit_not_space d Hd).
  - eapply Firstly_Seq.
    + unfold plus. apply Firstly_greedy; [exact Hds|reflexivity|cbn; lia].
    + eapply Firstly_Seq.
      * apply (Firstly_Lit [46%N]).
      * unfold plus. apply Firstly_greedy; auto.
        destruct gp; [contradiction|cbn; lia].
Qed.

(** A line that starts with white space opens no fence, rule, heading,
    quote or table. *)
Lemma space_tests : forall c s,
  isSpace c = true ->
  reMatch codeFenceRe (c :: s) = None /\
  reTest ruleRe (c :: s) = false /\
  reMatch headingRe (c :: s) = None /\
  reTest quoteRe (c :: s) = false /\
  reTest tableLineRe (c :: s) = false.
Proof.
  intros c s H.
  repeat split;
    first [apply reMatch_other | apply reTest_other];
    try solve [cbv; lia]; first_false.
Qed.

(** Neither does a line that starts with a digit or a plus or the bullet
    character. *)
Lemma digit_tests : forall c s,
  isDigit c = true \/ c = 43%N \/ c = BULLET ->
  reMatch codeFenceRe (c :: s) = None /\
  reTest ruleRe (c :: s) = false /\
  reMatch headingRe (c :: s) = None /\
  reTest quoteRe (c :: s) = false /\
  reTest tableLineRe (c :: s) = false.
Proof.
  intros c s [H|[->| ->]].
  - repeat split;
      first [apply reMatch_other | apply reTest_other];
      try solve [cbv; lia]; first_false.
  - repeat split;
      first [apply reMatch_other | apply reTest_other];
      solve [cbv; lia | reflexivity].
  - repeat split;
      first [apply reMatch_other | apply reTest_other];
      solve [cbv; lia | reflexivity].
Qed.

(** A rule needs three rule characters in a row. *)
Lemma rule_needs_three : forall c s,
  headNot (anyOf "*-_") s = true -> reTest ruleRe (c :: s) = false.
Proof.
  intros c s H. unfold ruleRe. rewrite reTest_Bol.
  unfold matchAt, atLeast.
  remember (star isSpace <+> Eol)%re as R2 eqn:ER2.
  cbn [matchRe].
  assert (Hrun : forall cls (k : nat -> str -> option result) pos,
            (forall x, cls x = true -> anyOf "*-_" x = true) ->
            repGreedy cls 3 None pos (c :: s) k = None).
  { intros cls k pos Hcls. cbn [repGreedy canTake pred decr].
    destruct (cls c); cbn [andb]; auto.
    destruct s as [|c' s']; cbn [repGreedy]; auto.
    cbn [headNot] in H. apply Bool.negb_true_iff in H.
    destruct (cls c') eqn:Hc'; auto.
    apply Hcls in Hc'. congruence. }
  assert (Hsub : forall d x, In d (lit "*-_") ->
            N.eqb x d || false = true -> anyOf "*-_" x = true).
  { intros d x Hd Hx. rewrite Bool.orb_false_r in Hx. apply N.eqb_eq in Hx.
    subst x. cbn in Hd. destruct Hd as [<-|[<-|[<-|[]]]]; reflexivity. }
  rewrite !Hrun; auto.
  - intros x Hx. apply (Hsub 95%N); [cbn; auto|exact Hx].
  - intros x Hx. apply (Hsub 45%N); [cbn; auto|exact Hx].
  - intros x Hx. apply (Hsub 42%N); [cbn; auto|exact Hx].
Qed.

Lemma space_not_rule : forall c, isSpace c = true -> anyOf "*-_" c = false.
Proof. intros c H. class_false. Qed.

(** The trimmed form of an item line opens none of the constructs tested
    before the lists. *)
Lemma item_tests : forall ws c tail,
  forallb isSpace ws = true ->
  isDigit c = true \/
  ((anyOf "-*+" c || N.eqb c BULLET) = true /\
   headNot (anyOf "*-_") tail = true) ->
  reMatch codeFenceRe (trimEnd (ws ++ c :: tail)) = None /\
  reTest ruleRe (trimEnd (ws ++ c :: tail)) = false /\
  reMatch headingRe (trimEnd (ws ++ c :: tail)) = None /\
  reTest quoteRe (trimEnd (ws ++ c :: tail)) = false /\
  reTest tableLineRe (trimEnd (ws ++ c :: tail)) = false.
Proof.
  intros ws c tail Hws Hc.
  assert (Hsp : isSpace c = false).
  { destruct Hc as [Hc|[Hc _]];
      [now apply digit_not_space|now apply marker_not_space]. }
  rewrite trimEnd_app_keep
    by (rewrite trimEnd_cons_nonspace by exact Hsp; discriminate).
  rewrite trimEnd_cons_nonspace by exact Hsp.
  destruct ws as [|w ws]; cbn [app].
  - destruct Hc as [Hc|[Hc Htail]]; [apply digit_tests; now left|].
    apply (headNot_trimEnd _ _) in Htail.
    pose proof (rule_needs_three c (trimEnd tail) Htail) as Hrule.
    assert (Hcases : c = 45%N \/ c = 42%N \/ c = 43%N \/ c = BULLET).
    { clear -Hc. cbv [anyOf oneOf lit list_ascii_of_string map existsb
                      N_of_ascii N_of_digits] in Hc.
      cbn [N.add N.mul] in Hc. codes; subst; auto. }
    destruct Hcases as [->|[->|[->| ->]]];
      [| |apply digit_tests; auto|apply digit_tests; auto];
      (repeat split; try exact Hrule;
       first [apply reMatch_other | apply reTest_other];
       solve [cbv; lia | reflexivity]).
  - cbn [forallb] in Hws. apply Bool.andb_true_iff in Hws.
    destruct Hws as [Hw _]. now apply space_tests.
Qed.

(** An ordered item line is no bullet item. *)
Lemma ordered_not_bullet : forall ws d tail,
  forallb isSpace ws = true -> isDigit d = true ->
  reTest bulletRe (ws ++ d :: tail) = false.
Proof.
  intros ws d tail Hws Hd. unfold bulletRe. rewrite reTest_Bol.
  unfold matchAt, star.
  remember (Chr (fun c => anyOf "-*+" c || N.eqb c BULLET) <+> plus isSpace)%re
    as R2 eqn:ER2.
  assert (Hmin : 0 < minLen R2) by (subst R2; cbv; lia).
  assert (Hfirst : forall c, first R2 c = (anyOf "-*+" c || N.eqb c BULLET))
    by (intros c; subst R2; cbn [first minLen Nat.eqb andb];
        apply Bool.orb_false_r).
  cbn [matchRe].
  rewrite repGreedy_run_fail; auto.
  - cbn [headNot]. now rewrite (digit_not_space d Hd).
  - intros i pos Hi.
    destruct (skipn_head_or isSpace ws d tail i Hws Hi) as (x & s & -> & Hx).
    apply matchRe_other; [exact Hmin|]. rewrite Hfirst.
    destruct Hx as [Hx| ->];
      [now apply space_not_marker|now apply digit_not_marker].
Qed.

(** The shape behind a well-formed bullet or ordered item line. *)
Lemma bulletLine_shape : forall it,
  wfItemLine isBulletMarker it = true ->
  exists c,
    itemLine it = (indent it ++ [c] ++ gap it) ++ itemText it /\
    itemLine it = indent it ++ c :: (gap it ++ itemText it) /\
    (anyOf "-*+" c || N.eqb c BULLET) = true.
Proof.
  intros it H. destruct (wfItemLine_parts _ _ H) as (_ & Hm & _).
  destruct (bulletMarker_inv _ Hm) as (c & Hmc & Hc).
  exists c. unfold itemLine. rewrite Hmc.
  repeat split; auto. now rewrite <- !app_assoc.
Qed.

Lemma orderedLine_shape : forall it,
  wfItemLine isOrderedMarker it = true ->
  exists d ds,
    itemLine it = (indent it ++ (d :: ds) ++ [46%N] ++ gap it) ++ itemText it /\
    itemLine it = indent it ++ d :: (ds ++ [46%N] ++ gap it ++ itemText it) /\
    forallb isDigit (d :: ds) = true.
Proof.
  intros it H. destruct (wfItemLine_parts _ _ H) as (_ & Hm & _).
  destruct (orderedMarker_inv _ Hm) as (d & ds & Hmd & Hds).
  exists d, ds. unfold itemLine. rewrite Hmd.
  repeat split; auto.
  - now rewrite <- !app_assoc.
  - cbn [app]. now rewrite <- !app_assoc.
Qed.

(** What the loop tests and strips at a bullet item line. *)
Lemma bulletLine_facts : forall it,
  wfItemLine isBulletMarker it = true ->
  reMatch codeFenceRe (trimEnd (itemLine it)) = None /\
  reTest ruleRe (trimEnd (itemLine it)) = false /\
  reMatch headingRe (trimEnd (itemLine it)) = None /\
  reTest quoteRe (trimEnd (itemLine it)) = false /\
  reTest tableLineRe (trimEnd (itemLine it)) = false /\
  reTest bulletRe (itemLine it) = true /\
  reRemove bulletRe (itemLine it) = itemText it.
Proof.
  intros it H.
  destruct (bulletLine_shape it H) as (c & E1 & E2 & Hc).
  destruct (wfItemLine_parts _ _ H) as (Hws & _ & Hgne & Hgp & Ht & _).
  pose proof (bullet_Firstly _ c _ _ Hws Hc Hgne Hgp Ht) as HF.
  assert (Htests := item_tests (indent it) c (gap it ++ itemText it) Hws).
  rewrite <- E2 in Htests.
  destruct Htests as (H1 & H2 & H3 & H4 & H5).
  { right. split; [exact Hc|].
    destruct (gap it) as [|g gp]; [contradiction|].
    cbn [app headNot forallb] in *. apply Bool.andb_true_iff in Hgp.
    destruct Hgp as [Hg _]. now rewrite (space_not_rule g Hg). }
  repeat split; auto.
  - rewrite E1. unfold bulletRe. now apply (reTest_Firstly _ _ _ _ HF).
  - rewrite E1. unfold bulletRe. now apply (reRemove_Firstly _ _ _ _ HF).
Qed.

(** What the loop tests and strips at an ordered item line. *)
Lemma orderedLine_facts : forall it,
  wfItemLine isOrderedMarker it = true ->
  reMatch codeFenceRe (trimEnd (itemLine it)) = None /\
  reTest ruleRe (trimEnd (itemLine it)) = false /\
  reMatch headingRe (trimEnd (itemLine it)) = None /\
  reTest quoteRe (trimEnd (itemLine it)) = false /\
  reTest tableLineRe (trimEnd (itemLine it)) = false /\
  reTest bulletRe (itemLine it) = false /\
  reTest orderedRe (itemLine it) = true /\
  reRemove orderedRe (itemLine it) = itemText it.
Proof.
  intros it H.
  destruct (orderedLine_shape it H) as (d & ds & E1 & E2 & Hds).
  destruct (wfItemLine_parts _ _ H) as (Hws & _ & Hgne & Hgp & Ht & _).
  pose proof (ordered_Firstly _ d ds _ _ Hws Hds Hgne Hgp Ht) as HF.
  assert (Hd : isDigit d = true)
    by (cbn [forallb] in Hds; now apply Bool.andb_true_iff in Hds).
  assert (Htests := item_tests (indent it) d
                      (ds ++ [46%N] ++ gap it ++ itemText it) Hws
                      (or_introl Hd)).
  rewrite <- E2 in Htests.
  destruct Htests as (H1 & H2 & H3 & H4 & H5).
  repeat split; auto.
  - rewrite E2. now apply ordered_not_bullet.
  - rewrite E1. unfold orderedRe. now apply (reTest_Firstly _ _ _ _ HF).
  - rewrite E1. unfold orderedRe. now apply (reRemove_Firstly _ _ _ _ HF).
Qed.

Lemma listItems_items : forall markerRe items,
  (forall it, In it items -> reRemove markerRe (itemLine it) = itemText it) ->
  listItems markerRe (map itemLine items) =
  (contents <- mapM parseInline (map itemText items) ;;
   Some (itemsOf contents)).
Proof.
  intros markerRe items. unfold listItems.
  induction items as [|it items IH]; intros H; cbn [map mapM]; auto.
  rewrite (H it) by now left.
  destruct (parseInline (itemText it)) as [nodes|]; cbn [bind]; auto.
  rewrite IH by (intros it' Hin; apply H; now right).
  destruct (mapM parseInline (map itemText items)); reflexivity.
Qed.

Lemma mapM_parseInline_total : forall texts,
  exists contents, mapM parseInline texts = Some contents.
Proof.
  intros texts.
  destruct (mapM_ok parseInline (fun _ => true) texts) as (bs & H & _); eauto.
  intros a. destruct (parseInline_ok a) as (nodes & Hn & _). eauto.
Qed.

(** At the first of a run of bullet item lines that ends the input, the
    loop pushes one bullet list with one item for each line. *)
Lemma blockStep_bullets : forall recur it its blocks buf,
  forallb (wfItemLine isBulletMarker) (it :: its) = true ->
  blockStep recur (itemLine it) (map itemLine its) blocks buf =
  (blocks' <- flushParagraph blocks buf ;;
   contents <- mapM parseInline (map itemText (it :: its)) ;;
   Some (blocks' ++ [BulletList (itemsOf contents)], [], [])).
Proof.
  intros recur it its blocks buf Hall.
  assert (Hfacts : forall x, In x (it :: its) ->
            reTest bulletRe (itemLine x) = true /\
            reRemove bulletRe (itemLine x) = itemText x).
  { intros x Hx. rewrite forallb_forall in Hall.
    destruct (bulletLine_facts x (Hall x Hx)) as (_ & _ & _ & _ & _ & ? & ?).
    auto. }
  assert (Hit : wfItemLine isBulletMarker it = true).
  { cbn [forallb] in Hall. now apply Bool.andb_true_iff in Hall. }
  destruct (bulletLine_facts it Hit) as (H1 & H2 & H3 & H4 & H5 & H6 & _).
  unfold blockStep. cbv zeta. rewrite H1, H2, H3, H4, H5, H6. cbn [andb].
  change (itemLine it :: map itemLine its) with (map itemLine (it :: its)).
  rewrite span_all.
  - rewrite listItems_items by (intros x Hx; now apply Hfacts).
    destruct (flushParagraph blocks buf); cbn [bind]; auto.
    destruct (mapM parseInline (map itemText (it :: its))); reflexivity.
  - apply forallb_forall. intros l Hl. apply in_map_iff in Hl.
    destruct Hl as (x & <- & Hx). now apply Hfacts.
Qed.

Lemma blockStep_ordered : forall recur it its blocks buf,
  forallb (wfItemLine isOrderedMarker) (it :: its) = true ->
  blockStep recur (itemLine it) (map itemLine its) blocks buf =
  (blocks' <- flushParagraph blocks buf ;;
   contents <- mapM parseInline (map itemText (it :: its)) ;;
   Some (blocks' ++ [OrderedList (itemsOf contents)], [], [])).
Proof.
  intros recur it its blocks buf Hall.
  assert (Hfacts : forall x, In x (it :: its) ->
            reTest orderedRe (itemLine x) = true /\
            reRemove orderedRe (itemLine x) = itemText x).
  { intros x Hx. rewrite forallb_forall in Hall.
    destruct (orderedLine_facts x (Hall x Hx))
      as (_ & _ & _ & _ & _ & _ & ? & ?).
    auto. }
  assert (Hit : wfItemLine isOrderedMarker it = true).
  { cbn [forallb] in Hall. now apply Bool.andb_true_iff in Hall. }
  destruct (orderedLine_facts it Hit) as (H1 & H2 & H3 & H4 & H5 & H6 & H7 & _).
  unfold blockStep. cbv zeta. rewrite H1, H2, H3, H4, H5, H6, H7. cbn [andb].
  change (itemLine it :: map itemLine its) with (map itemLine (it :: its)).
  rewrite span_all.
  - rewrite listItems_items by (intros x Hx; now apply Hfacts).
    destruct (flushParagraph blocks buf); cbn [bind]; auto.
    destruct (mapM parseInline (map itemText (it :: its))); reflexivity.
  - apply forallb_forall. intros l Hl. apply in_map_iff in Hl.
    destruct Hl as (x & <- & Hx). now apply Hfacts.
Qed.

Lemma itemLines_no_newline : forall isMarker items,
  forallb (wfItemLine isMarker) items = true ->
  Forall (fun x => forallb (fun c => negb (N.eqb c LF)) x = true)
         (map itemLine items).
Proof.
  intros isMarker items H. apply Forall_forall. intros l Hl.
  apply in_map_iff in Hl. destruct Hl as (it & <- & Hin).
  rewrite forallb_forall in H.
  now destruct (wfItemLine_parts _ _ (H it Hin)) as (_ & _ & _ & _ & _ & ?).
Qed.

(** A document of bullet item lines is one bullet list. *)
Lemma markdownToAdf_bullets : forall items,
  items <> [] -> forallb (wfItemLine isBulletMarker) items = true ->
  exists contents,
    mapM parseInline (map itemText items) = Some contents /\
    markdownToAdf (join LF (map itemLine items)) =
    Some (mkDocument 1 [BulletList (itemsOf contents)]).
Proof.
  intros items Hne Hall.
  destruct (mapM_parseInline_total (map itemText items)) as (contents & Hc).
  exists contents. split; [exact Hc|].
  destruct items as [|it its]; [contradiction|].
  unfold markdownToAdf. cbn [markdownToAdfAt].
  cbn [map] in *. rewrite split_join
    by (apply (itemLines_no_newline isBulletMarker (it :: its)); exact Hall).
  cbn [List.length blockLoop].
  rewrite blockStep_bullets by exact Hall.
  cbn [flushParagraph bind map]. rewrite Hc. cbn [bind app].
  rewrite blockLoop_nil. reflexivity.
Qed.

(** A document of ordered item lines is one ordered list. *)
Lemma markdownToAdf_ordered : forall items,
  items <> [] -> forallb (wfItemLine isOrderedMarker) items = true ->
  exists contents,
    mapM parseInline (map itemText items) = Some contents /\
    markdownToAdf (join LF (map itemLine items)) =
    Some (mkDocument 1 [OrderedList (itemsOf contents)]).
Proof.
  intros items Hne Hall.
  destruct (mapM_parseInline_total (map itemText items)) as (contents & Hc).
  exists contents. split; [exact Hc|].
  destruct items as [|it its]; [contradiction|].
  unfold markdownToAdf. cbn [markdownToAdfAt].
  cbn [map] in *. rewrite split_join
    by (apply (itemLines_no_newline isOrderedMarker (it :: its)); exact Hall).
  cbn [List.length blockLoop].
  rewrite blockStep_ordered by exact Hall.
  cbn [flushParagraph bind map]. rewrite Hc. cbn [bind app].
  rewrite blockLoop_nil. reflexivity.
Qed.

(* ------------------------------------------------------------------ *)
(** ** Quoting a text *)
(* ------------------------------------------------------------------ *)

Lemma split_no_newline : forall sep s,
  Forall (fun l => forallb (fun c => negb (N.eqb c sep)) l = true) (split sep s).
Proof.
  intros sep. induction s as [|c s IH]; cbn [split].
  - repeat constructor.
  - destruct (N.eqb c sep) eqn:Hc.
    + constructor; auto.
    + destruct (split sep s) as [|l ls].
      * repeat constructor. cbn. now rewrite Hc.
      * inversion IH; subst. constructor; auto. cbn [forallb]. now rewrite Hc.
Qed.

Lemma join_split : forall sep s, join sep (split sep s) = s.
Proof.
  intros sep. induction s as [|c s IH]; cbn [split]; auto.
  pose proof (split_nonEmpty sep s) as Hne.
  destruct (N.eqb_spec c sep) as [->|Hc].
  - destruct (split sep s) as [|l ls]; [discriminate|].
    change (join sep ([] :: l :: ls)) with ([] ++ sep :: join sep (l :: ls)).
    now rewrite IH.
  - destruct (split sep s) as [|l ls]; [discriminate|].
    rewrite <- IH. destruct ls; reflexivity.
Qed.

(** A quoted line passes the quote test, and stripping the marker gives the
    line back. *)
Lemma quoted_line : forall l,
  reTest quoteRe (trimEnd (lit "> " ++ l)) = true /\
  reRemove quoteRe (lit "> " ++ l) = l.
Proof.
  intros l. split.
  - change (lit "> " ++ l) with (62%N :: 32%N :: l).
    rewrite trimEnd_cons_nonspace by reflexivity.
    apply quote_tests.
  - unfold quoteRe. apply (reRemove_Firstly _ (lit "> ") l []).
    eapply (Firstly_Seq _ _ 0 [62%N] [32%N]).
    + apply (Firstly_Lit [62%N]).
    + unfold opt. apply Firstly_greedy_max;
        [reflexivity|now left|cbn; lia|cbn; lia].
Qed.

Lemma map_quoted : forall ls,
  map (reRemove quoteRe) (map (fun l => lit "> " ++ l) ls) = ls.
Proof.
  induction ls as [|l ls IH]; cbn [map]; auto.
  now rewrite (proj2 (quoted_line l)), IH.
Qed.

Lemma quoted_all : forall ls,
  forallb (fun l => reTest quoteRe (trimEnd l))
          (map (fun l => lit "> " ++ l) ls) = true.
Proof.
  induction ls as [|l ls IH]; cbn [map forallb]; auto.
  now rewrite (proj1 (quoted_line l)), IH.
Qed.

Lemma quoted_no_newline : forall ls,
  Forall (fun l => forallb (fun c => negb (N.eqb c LF)) l = true) ls ->
  Forall (fun l => forallb (fun c => negb (N.eqb c LF)) l = true)
         (map (fun l => lit "> " ++ l) ls).
Proof.
  intros ls H. induction H; cbn [map]; constructor; auto.
Qed.

Lemma lineSize_quoted : forall ls,
  lineSize (map (fun l => lit "> " ++ l) ls) = lineSize ls + 2 * List.length ls.
Proof.
  induction ls as [|l ls IH]; cbn [map]; auto.
  rewrite !lineSize_cons, IH. cbn [List.length app lit]. 
  change (List.length (lit "> " ++ l)) with (S (S (List.length l))). lia.
Qed.

(** A quoted text is longer than the text. *)
Lemma quoteText_longer : forall a, List.length a < List.length (quoteText a).
Proof.
  intros a. unfold quoteText.
  pose proof (split_size LF a) as Hs.
  pose proof (split_nonEmpty LF a) as Hne.
  destruct (split LF a) as [|l ls] eqn:E; [discriminate|].
  pose proof (join_size LF (lit "> " ++ l) (map (fun l => lit "> " ++ l) ls)) as Hj.
  pose proof (lineSize_quoted (l :: ls)) as Hq. cbn [map] in Hq.
  pose proof (eq_trans Hj Hq) as Hjq. cbn [List.length] in Hjq.
  cbn [map]. unfold str in *. lia.
Qed.

(** At the first line of a quoted text that ends the input, the loop pushes
    one block quote holding the content of the document of the text. *)
Lemma blockStep_quoted : forall recur l ls blocks buf,
  blockStep recur (lit "> " ++ l) (map (fun l => lit "> " ++ l) ls) blocks buf =
  (blocks' <- flushParagraph blocks buf ;;
   innerDoc <- recur (join LF (l :: ls)) ;;
   Some (blocks' ++ [Blockquote (content innerDoc)], [], [])).
Proof.
  intros recur l ls blocks buf.
  unfold blockStep. cbv zeta.
  change (trimEnd (lit "> " ++ l)) with (trimEnd (62%N :: 32%N :: l)).
  rewrite trimEnd_cons_nonspace by reflexivity.
  destruct (quote_tests (trimEnd (32%N :: l))) as (H1 & H2 & H3 & H4).
  rewrite H1, H2, H3, H4.
  change ((lit "> " ++ l) :: map (fun l => lit "> " ++ l) ls)
    with (map (fun l => lit "> " ++ l) (l :: ls)).
  rewrite span_all by apply quoted_all.
  rewrite map_quoted. reflexivity.
Qed.

(** The document of a quoted text is one block quote around the content of
    the document of the text. *)
Lemma markdownToAdf_quoted : forall a d,
  markdownToAdf a = Some d ->
  markdownToAdf (quoteText a) = Some (mkDocument 1 [Blockquote (content d)]).
Proof.
  intros a d Hd.
  pose proof (quoteText_longer a) as Hlen.
  unfold markdownToAdf at 1. cbn [markdownToAdfAt].
  unfold quoteText at 2 3.
  pose proof (split_nonEmpty LF a) as Hne.
  pose proof (split_no_newline LF a) as Hnl.
  pose proof (join_split LF a) as Hjs.
  destruct (split LF a) as [|l ls]; [discriminate|].
  cbn [map]. rewrite split_join
    by (apply (quoted_no_newline (l :: ls)); exact Hnl).
  cbn [List.length blockLoop].
  rewrite blockStep_quoted. cbn [flushParagraph bind].
  unfold str in *. rewrite Hjs.
  rewrite (markdownToAdfAt_stable _ (S (List.length a)) a) by lia.
  fold (markdownToAdf a). rewrite Hd. cbn [bind app].
  rewrite blockLoop_nil. reflexivity.
Qed.

(* ------------------------------------------------------------------ *)
(** ** Texts separated by a blank line *)
(* ------------------------------------------------------------------ *)

Lemma split_app_sep : forall sep a r,
  split sep (a ++ sep :: r) = split sep a ++ split sep r.
Proof.
  intros sep a r. induction a as [|c a IH]; cbn [app split].
  - now rewrite N.eqb_refl.
  - rewrite IH. pose proof (split_nonEmpty sep a) as Hne.
    destruct (N.eqb c sep); auto.
    destruct (split sep a) as [|l ls]; [discriminate|]. reflexivity.
Qed.

Lemma span_app_stop : forall {A : Type} (p : A -> bool) (xs : list A) (y : A)
    (ys : list A),
  p y = false ->
  span p (xs ++ y :: ys) = (fst (span p xs), snd (span p xs) ++ y :: ys).
Proof.
  intros A p xs y ys Hy. induction xs as [|x xs IH]; cbn [app span].
  - now rewrite Hy.
  - destruct (p x); auto. rewrite IH.
    destruct (span p xs) as [a b]. reflexivity.
Qed.

(** The loop needs no more fuel than it has lines. *)
Lemma blockLoop_fuel : forall recur fuel1 fuel2 lines blocks buf,
  List.length lines <= fuel1 -> List.length lines <= fuel2 ->
  blockLoop recur fuel1 lines blocks buf = blockLoop recur fuel2 lines blocks buf.
Proof.
  intros recur. induction fuel1 as [|fuel1 IH];
    intros fuel2 lines blocks buf H1 H2;
    destruct lines as [|line rest]; cbn [List.length] in *;
    try lia; destruct fuel2 as [|fuel2]; try lia; cbn [blockLoop]; auto.
  destruct (blockStep recur line rest blocks buf)
    as [[[blocks' buf'] lines']|] eqn:Hstep; cbn [bind]; auto.
  destruct (blockStep_suffix _ _ _ _ _ _ _ _ Hstep) as (pre & Hpre).
  assert (List.length lines' <= List.length rest)
    by (rewrite Hpre, length_app; lia).
  apply IH; lia.
Qed.

(** The blocks already pushed stay as they are. *)
Lemma flushParagraph_acc : forall X blocks paraLines,
  flushParagraph (X ++ blocks) paraLines =
  match flushParagraph blocks paraLines with
  | Some blocks' => Some (X ++ blocks')
  | None => None
  end.
Proof.
  intros X blocks paraLines. unfold flushParagraph.
  destruct paraLines as [|l ls]; auto.
  destruct (isEmpty (trim (join LF (l :: ls)))); auto.
  destruct (parseInline (join LF (l :: ls))); cbn [bind]; auto.
  now rewrite app_assoc.
Qed.

Lemma blockStep_acc : forall recur X line rest blocks buf,
  blockStep recur line rest (X ++ blocks) buf =
  match blockStep recur line rest blocks buf with
  | Some (blocks', buf', lines') => Some (X ++ blocks', buf', lines')
  | None => None
  end.
Proof.
  intros recur X line rest blocks buf. unfold blockStep. cbv zeta.
  rewrite flushParagraph_acc.
  destruct (reMatch codeFenceRe (trimEnd line)) as [codeMatch|].
  { destruct (flushParagraph blocks buf); cbn [bind]; auto.
    destruct (span _ rest). now rewrite app_assoc. }
  destruct (reTest ruleRe (trimEnd line)).
  { destruct (flushParagraph blocks buf); cbn [bind]; auto.
    now rewrite app_assoc. }
  destruct (reMatch headingRe (trimEnd line)) as [headingMatch|].
  { destruct (flushParagraph blocks buf); cbn [bind]; auto.
    destruct (parseInline _); cbn [bind]; auto. now rewrite app_assoc. }
  destruct (reTest quoteRe (trimEnd line)).
  { destruct (flushParagraph blocks buf); cbn [bind]; auto.
    destruct (span _ (line :: rest)).
    destruct (recur _); cbn [bind]; auto. now rewrite app_assoc. }
  destruct (reTest tableLineRe (trimEnd line) &&
            reTest separatorRe (nextLineOf rest)).
  { destruct (flushParagraph blocks buf); cbn [bind]; auto.
    destruct (span _ (line :: rest)).
    destruct (parseTableBlock _); cbn [bind]; auto. now rewrite app_assoc. }
  destruct (reTest bulletRe line).
  { destruct (flushParagraph blocks buf); cbn [bind]; auto.
    destruct (span _ (line :: rest)).
    destruct (listItems _ _); cbn [bind]; auto. now rewrite app_assoc. }
  destruct (reTest orderedRe line).
  { destruct (flushParagraph blocks buf); cbn [bind]; auto.
    destruct (span _ (line :: rest)).
    destruct (listItems _ _); cbn [bind]; auto. now rewrite app_assoc. }
  destruct (isEmpty (trimEnd line)).
  { destruct (flushParagraph blocks buf); cbn [bind]; auto. }
  reflexivity.
Qed.

Lemma blockLoop_acc : forall recur X fuel lines blocks buf,
  blockLoop recur fuel lines (X ++ blocks) buf =
  match blockLoop recur fuel lines blocks buf with
  | Some (blocks', buf') => Some (X ++ blocks', buf')
  | None => None
  end.
Proof.
  intros recur X. induction fuel as [|fuel IH]; intros lines blocks buf;
    destruct lines as [|line rest]; cbn [blockLoop]; auto.
  rewrite blockStep_acc.
  destruct (blockStep recur line rest blocks buf)
    as [[[blocks' buf'] lines']|]; cbn [bind]; auto.
Qed.

(** An iteration at a line that opens no fence does not look beyond a blank
    line. *)
Lemma blockStep_more : forall recur line rest more blocks buf,
  reMatch codeFenceRe (trimEnd line) = None ->
  blockStep recur line (rest ++ [] :: more) blocks buf =
  match blockStep recur line rest blocks buf with
  | Some (blocks', buf', lines') => Some (blocks', buf', lines' ++ [] :: more)
  | None => None
  end.
Proof.
  intros recur line rest more blocks buf Hfence.
  assert (Hnext : nextLineOf (rest ++ [] :: more) = nextLineOf rest)
    by (destruct rest; reflexivity).
  unfold blockStep. cbv zeta. rewrite Hfence, Hnext.
  change (line :: rest ++ [] :: more) with ((line :: rest) ++ [] :: more).
  destruct (reTest ruleRe (trimEnd line)).
  { destruct (flushParagraph blocks buf); reflexivity. }
  destruct (reMatch headingRe (trimEnd line)) as [headingMatch|].
  { destruct (flushParagraph blocks buf); cbn [bind]; auto.
    destruct (parseInline _); reflexivity. }
  destruct (reTest quoteRe (trimEnd line)).
  { rewrite span_app_stop by reflexivity.
    destruct (flushParagraph blocks buf); cbn [bind]; auto.
    destruct (span _ (line :: rest)). cbn [fst snd].
    destruct (recur _); reflexivity. }
  destruct (reTest tableLineRe (trimEnd line) &&
            reTest separatorRe (nextLineOf rest)).
  { rewrite span_app_stop by reflexivity.
    destruct (flushParagraph blocks buf); cbn [bind]; auto.
    destruct (span _ (line :: rest)). cbn [fst snd].
    destruct (parseTableBlock _); reflexivity. }
  destruct (reTest bulletRe line).
  { rewrite span_app_stop by reflexivity.
    destruct (flushParagraph blocks buf); cbn [bind]; auto.
    destruct (span _ (line :: rest)). cbn [fst snd].
    destruct (listItems _ _); reflexivity. }
  destruct (reTest orderedRe line).
  { rewrite span_app_stop by reflexivity.
    destruct (flushParagraph blocks buf); cbn [bind]; auto.
    destruct (span _ (line :: rest)). cbn [fst snd].
    destruct (listItems _ _); reflexivity. }
  destruct (isEmpty (trimEnd line)).
  { destruct (flushParagraph blocks buf); reflexivity. }
  reflexivity.
Qed.

Lemma blockLoop_cons : forall recur fuel line rest blocks buf,
  blockLoop recur (S fuel) (line :: rest) blocks buf =
  ('(blocks', buf', lines') <- blockStep recur line rest blocks buf ;;
   blockLoop recur fuel lines' blocks' buf').
Proof. reflexivity. Qed.

(** The loop on lines that open no fence, a blank line and more lines: the
    loop on the first lines, a flush, the loop on the others. *)
Lemma blockLoop_more : forall recur fuel lines more blocks buf,
  forallb (fun l => negb (reTest codeFenceRe (trimEnd l))) lines = true ->
  List.length lines + S (List.length more) <= fuel ->
  blockLoop recur fuel (lines ++ [] :: more) blocks buf =
  match blockLoop recur fuel lines blocks buf with
  | Some (blocks1, buf1) =>
      blocks2 <- flushParagraph blocks1 buf1 ;;
      blockLoop recur fuel more blocks2 []
  | None => None
  end.
Proof.
  intros recur. induction fuel as [|fuel IH];
    intros lines more blocks buf Hall Hfuel; [lia|].
  destruct lines as [|line rest].
  - cbn [app]. rewrite blockLoop_cons, blockLoop_nil.
    rewrite blockStep_blank by reflexivity.
    destruct (flushParagraph blocks buf) as [blocks2|]; cbn [bind]; auto.
    apply blockLoop_fuel; cbn [List.length] in Hfuel; unfold str in *; lia.
  - cbn [app]. rewrite !blockLoop_cons.
    cbn [forallb] in Hall. apply Bool.andb_true_iff in Hall.
    destruct Hall as [Hline Hall]. apply Bool.negb_true_iff in Hline.
    unfold reTest in Hline.
    rewrite blockStep_more
      by (destruct (reMatch codeFenceRe (trimEnd line)); [discriminate|auto]).
    destruct (blockStep recur line rest blocks buf)
      as [[[blocks' buf'] lines']|] eqn:Hstep; cbn [bind]; auto.
    destruct (blockStep_suffix _ _ _ _ _ _ _ _ Hstep) as (pre & Hpre).
    assert (Hlen : List.length lines' <= List.length rest)
      by (rewrite Hpre, length_app; lia).
    cbn [List.length] in Hfuel. unfold str in Hfuel, Hlen.
    rewrite IH; [| |unfold str; lia].
    + destruct (blockLoop recur fuel lines' blocks' buf')
        as [[blocks1 buf1]|]; auto.
      destruct (flushParagraph blocks1 buf1); cbn [bind]; auto.
      apply blockLoop_fuel; unfold str; lia.
    + rewrite Hpre, forallb_app in Hall.
      now apply Bool.andb_true_iff in Hall.
Qed.

(** The scan of a text in terms of the loop run with any recursive call
    that is deep enough and any fuel that is large enough. *)
Lemma scanBlocks_loop : forall markdown depth fuel,
  List.length markdown <= depth ->
  List.length (split LF markdown) <= fuel ->
  scanBlocks markdown =
  ('(blocks, paragraphBuffer) <-
     blockLoop (markdownToAdfAt depth) fuel (split LF markdown) [] [] ;;
   flushParagraph blocks paragraphBuffer).
Proof.
  intros markdown depth fuel Hdepth Hfuel. unfold scanBlocks. cbv zeta.
  rewrite (blockLoop_fuel _ _ fuel) by lia.
  rewrite (blockLoop_ext (markdownToAdfAt (List.length markdown))
             (markdownToAdfAt depth) (List.length markdown)); auto.
  - intros s Hs. apply markdownToAdfAt_stable; lia.
  - rewrite split_size. lia.
Qed.

(** The blocks of two texts separated by a blank line are the blocks of the
    one followed by the blocks of the other, when no line of the first text
    opens a fence. *)
Lemma scanBlocks_blank_line : forall a b blocksA blocksB,
  noFence a = true ->
  scanBlocks a = Some blocksA -> scanBlocks b = Some blocksB ->
  scanBlocks (a ++ LF :: LF :: b) = Some (blocksA ++ blocksB).
Proof.
  intros a b blocksA blocksB Hfence Ha Hb.
  set (w := a ++ LF :: LF :: b).
  assert (Hw : List.length w = List.length a + 2 + List.length b)
    by (unfold w; rewrite length_app; cbn [List.length]; lia).
  assert (Hsplit : split LF w = split LF a ++ [] :: split LF b).
  { unfold w. rewrite split_app_sep. cbn [split].
    now rewrite N.eqb_refl. }
  pose proof (lineSize_length (split LF a)) as Hla.
  pose proof (lineSize_length (split LF b)) as Hlb.
  rewrite split_size in Hla, Hlb.
  assert (Hlw : List.length (split LF w)
                = List.length (split LF a) + S (List.length (split LF b)))
    by (rewrite Hsplit, length_app; reflexivity).
  rewrite (scanBlocks_loop a (List.length w) (List.length (split LF w))) in Ha
    by lia.
  rewrite (scanBlocks_loop b (List.length w) (List.length (split LF w))) in Hb
    by lia.
  unfold scanBlocks. fold w. cbv zeta.
  rewrite Hsplit at 2.
  rewrite blockLoop_more; [|exact Hfence|unfold str in *; lia].
  destruct (blockLoop (markdownToAdfAt (List.length w))
              (List.length (split LF w)) (split LF a) [] [])
    as [[blocks1 buf1]|]; [|discriminate].
  cbn [bind] in Ha. rewrite Ha. cbn [bind].
  rewrite <- (app_nil_r blocksA) at 1. rewrite blockLoop_acc.
  destruct (blockLoop (markdownToAdfAt (List.length w))
              (List.length (split LF w)) (split LF b) [] [])
    as [[blocks2 buf2]|]; [|discriminate].
  cbn [bind] in Hb. cbn [bind].
  rewrite flushParagraph_acc, Hb. reflexivity.
Qed.

Lemma markdownToAdf_blank_line : forall a b blocksA blocksB,
  noFence a = true ->
  scanBlocks a = Some blocksA -> scanBlocks b = Some blocksB ->
  markdownToAdf (a ++ LF :: LF :: b) = Some (assemble (blocksA ++ blocksB)).
Proof.
  intros a b blocksA blocksB Hfence Ha Hb.
  rewrite markdownToAdf_scan.
  now rewrite (scanBlocks_blank_line a b blocksA blocksB Hfence Ha Hb).
Qed.

(* ------------------------------------------------------------------ *)
(** ** Searching for a match of known shape *)
(* ------------------------------------------------------------------ *)

(** The first match lies after a prefix no match can start in. *)
Lemma reMatch_found : forall r pre X rest caps,
  0 < minLen r ->
  forallb (fun c => negb (first r c)) pre = true ->
  Firstly r (List.length pre) X rest [] caps ->
  reMatch r (pre ++ X ++ rest) =
  Some (mkMatch (List.length pre) (List.length pre + List.length X) caps).
Proof.
  intros r pre X rest caps Hmin Hpre HF.
  unfold reMatch, reExec. cbn [Nat.leb skipn].
  rewrite search_skip by assumption. cbn [Nat.add].
  apply matchAt_search. now apply Firstly_matchAt.
Qed.

Lemma skipn_exact : forall {A : Type} (n : nat) (a b : list A),
  n = List.length a -> skipn n (a ++ b) = b.
Proof.
  intros A n a b ->. rewrite skipn_app, skipn_all, Nat.sub_diag. reflexivity.
Qed.

Lemma reReplace_found : forall r repl pre X rest caps,
  0 < minLen r ->
  forallb (fun c => negb (first r c)) pre = true ->
  Firstly r (List.length pre) X rest [] caps ->
  reReplace r repl (pre ++ X ++ rest) = pre ++ repl ++ rest.
Proof.
  intros r repl pre X rest caps Hmin Hpre HF. unfold reReplace.
  rewrite (reMatch_found r pre X rest caps Hmin Hpre HF). cbn [index stop].
  rewrite firstn_exact by reflexivity.
  rewrite (app_assoc pre X rest), skipn_exact by (rewrite length_app; lia).
  reflexivity.
Qed.

Lemma reReplace_Firstly : forall r repl X rest caps,
  Firstly r 0 X rest [] caps ->
  reReplace (Seq Bol r) repl (X ++ rest) = repl ++ rest.
Proof.
  intros r repl X rest caps HF. unfold reReplace.
  rewrite (reMatch_Firstly _ _ _ _ HF). cbn [index stop firstn app].
  rewrite skipn_app, skipn_all, Nat.sub_diag. reflexivity.
Qed.

(** A match of a literal is the literal. *)
Lemma matchRe_Lit_inv : forall l pos s caps k x,
  matchRe (Lit l) pos s caps k = Some x ->
  exists rest, s = l ++ rest /\ k (pos + List.length l) rest caps = Some x.
Proof.
  induction l as [|c l IH]; intros pos s caps k x H.
  - exists s. cbn in *. now rewrite Nat.add_0_r.
  - destruct l as [|c' l].
    + cbn [Lit matchRe] in H. destruct s as [|d s]; [discriminate|].
      destruct (N.eqb_spec c d) as [->|]; [|discriminate].
      exists s. cbn [app List.length]. split; auto.
      now replace (pos + 1) with (S pos) by lia.
    + change (Lit (c :: c' :: l)) with (Seq (Chr (N.eqb c)) (Lit (c' :: l))) in H.
      cbn [matchRe] in H. destruct s as [|d s]; [discriminate|].
      destruct (N.eqb_spec c d) as [->|]; [|discriminate].
      apply IH in H. destruct H as (rest & -> & H).
      exists rest. split; auto.
      now replace (pos + List.length (d :: c' :: l))
        with (S pos + List.length (c' :: l)) by (cbn [List.length]; lia).
Qed.

(** A literal at the end of the text matches nowhere but at the end. *)
Lemma matchAt_Lit_Eol : forall l pos s e caps,
  matchAt (Lit l <+> Eol) pos s = Some (e, caps) -> s = l.
Proof.
  intros l pos s e caps H. unfold matchAt in H. cbn [matchRe] in H.
  apply matchRe_Lit_inv in H. destruct H as (rest & -> & H).
  destruct rest; [now rewrite app_nil_r|discriminate].
Qed.

Lemma matchAt_Lit_Eol_here : forall l pos,
  matchAt (Lit l <+> Eol) pos l = Some (pos + List.length l, []).
Proof.
  intros l pos. unfold matchAt.
  change (matchRe (Lit l <+> Eol) pos l [] accept)
    with (matchRe (Lit l) pos l []
            (fun pos' s' caps' => matchRe Eol pos' s' caps' accept)).
  rewrite <- (app_nil_r l) at 2. rewrite matchRe_Lit_app. reflexivity.
Qed.

Lemma search_suffix : forall l Y pos,
  l <> [] ->
  search (Lit l <+> Eol) pos (Y ++ l) =
  Some (mkMatch (pos + List.length Y) (pos + List.length Y + List.length l) []).
Proof.
  intros l Y pos Hl. revert pos. induction Y as [|c Y IH]; intros pos.
  - cbn [app List.length]. rewrite Nat.add_0_r.
    apply matchAt_search, matchAt_Lit_Eol_here.
  - cbn [app search].
    destruct (matchAt (Lit l <+> Eol) pos (c :: Y ++ l)) as [[e caps]|] eqn:E.
    + apply matchAt_Lit_Eol in E. apply (f_equal (@List.length N)) in E.
      cbn [List.length] in E. rewrite length_app in E. lia.
    + rewrite IH. cbn [List.length]. do 2 f_equal; lia.
Qed.

Lemma search_found : forall r s pos m,
  search r pos s = Some m ->
  exists pre suf, s = pre ++ suf /\
                  matchAt r (pos + List.length pre) suf = Some (stop m, groups m).
Proof.
  intros r. induction s as [|c s IH]; intros pos m H; cbn [search] in H.
  - destruct (matchAt r pos []) as [[e caps]|] eqn:E; [|discriminate].
    inversion H; subst. exists [], []. cbn. now rewrite Nat.add_0_r.
  - destruct (matchAt r pos (c :: s)) as [[e caps]|] eqn:E.
    + inversion H; subst. exists [], (c :: s). cbn. now rewrite Nat.add_0_r.
    + apply IH in H. destruct H as (pre & suf & -> & H).
      exists (c :: pre), suf. split; auto.
      now replace (pos + List.length (c :: pre))
        with (S pos + List.length pre) by (cbn [List.length]; lia).
Qed.

(** Replacing a literal at the end of the text: the text that ends with it
    loses it, any other text stays as it is. *)
Lemma reReplace_suffix : forall l repl Y,
  l <> [] -> reReplace (Lit l <+> Eol) repl (Y ++ l) = Y ++ repl.
Proof.
  intros l repl Y Hl. unfold reReplace, reMatch, reExec.
  cbn [Nat.leb skipn]. rewrite search_suffix by exact Hl.
  cbn [index stop Nat.add].
  rewrite firstn_exact by reflexivity.
  rewrite skipn_all2 by (rewrite length_app; lia).
  now rewrite app_nil_r.
Qed.

Lemma reReplace_no_suffix : forall l repl t,
  (forall pre, t <> pre ++ l) -> reReplace (Lit l <+> Eol) repl t = t.
Proof.
  intros l repl t Ht. unfold reReplace, reMatch, reExec.
  cbn [Nat.leb skipn].
  destruct (search (Lit l <+> Eol) 0 t) as [m|] eqn:E; auto.
  apply search_found in E. destruct E as (pre & suf & -> & E).
  apply matchAt_Lit_Eol in E. subst suf. now destruct (Ht pre).
Qed.

Lemma reRemove_reReplace : forall r t, reRemove r t = reReplace r [] t.
Proof.
  intros r t. unfold reRemove, reReplace. now destruct (reMatch r t).
Qed.

Lemma reRemove_suffix : forall l Y,
  l <> [] -> reRemove (Lit l <+> Eol) (Y ++ l) = Y.
Proof.
  intros l Y Hl. rewrite reRemove_reReplace, reReplace_suffix by exact Hl.
  apply app_nil_r.
Qed.

(* ------------------------------------------------------------------ *)
(** ** The cells of a table row *)
(* ------------------------------------------------------------------ *)

Lemma tableCells_row : forall cells,
  cells <> [] ->
  Forall (fun x => forallb (fun c => negb (N.eqb c 124)) x = true) cells ->
  tableCells (lit "|" ++ join 124 cells ++ lit "|") = map trim cells.
Proof.
  intros cells Hne Hcells. unfold tableCells.
  rewrite (reRemove_Firstly (Str "|") (lit "|") _ []) by apply Firstly_Lit.
  unfold Str. rewrite reRemove_suffix by discriminate.
  destruct cells as [|l ls]; [contradiction|].
  now rewrite split_join.
Qed.

(* ------------------------------------------------------------------ *)
(** ** Git utilities *)
(* ------------------------------------------------------------------ *)

Lemma startsWith_app : forall p s, startsWith p (p ++ s) = true.
Proof.
  induction p as [|c p IH]; intros s; cbn [app startsWith]; auto.
  now rewrite N.eqb_refl, IH.
Qed.

(** The three replacements on an SSH remote. *)
Lemma ssh_replacements : forall rest,
  reReplace (Str ".git" <+> Eol) []
    (reReplace (Str ":") (lit "/")
       (reReplace (Bol <+> Str "git@") (lit "https://")
          (lit "git@" ++ rest ++ lit ".git")))
  = lit "https///" ++ rest.
Proof.
  intros rest.
  rewrite (reReplace_Firstly (Str "git@") _ (lit "git@") _ [])
    by apply Firstly_Lit.
  change (lit "https://" ++ rest ++ lit ".git")
    with (lit "https" ++ lit ":" ++ (lit "//" ++ rest ++ lit ".git")).
  rewrite (reReplace_found (Str ":") (lit "/") (lit "https") (lit ":") _ []);
    [|cbv; lia|reflexivity|apply Firstly_Lit].
  change (lit "https" ++ lit "/" ++ lit "//" ++ rest ++ lit ".git")
    with (lit "https///" ++ rest ++ lit ".git").
  rewrite app_assoc. unfold Str.
  rewrite reReplace_suffix by discriminate.
  now rewrite app_nil_r.
Qed.

Lemma getRepoRemoteUrl_ssh : forall output rest,
  trim output = lit "git@" ++ rest ++ lit ".git" ->
  getRepoRemoteUrl (Some output) = Some (lit "https///" ++ rest).
Proof.
  intros output rest H. unfold getRepoRemoteUrl, run. rewrite H.
  rewrite startsWith_app. now rewrite ssh_replacements.
Qed.

Lemma getRepoRemoteUrl_other : forall output remote,
  startsWith (lit "git@") (trim output) = false ->
  (trim output = remote ++ lit ".git" \/
   (trim output = remote /\ forall pre, remote <> pre ++ lit ".git")) ->
  getRepoRemoteUrl (Some output) = Some remote.
Proof.
  intros output remote Hssh H. unfold getRepoRemoteUrl, run. rewrite Hssh.
  unfold Str. destruct H as [->|[-> H]].
  - rewrite reReplace_suffix by discriminate. now rewrite app_nil_r.
  - now rewrite reReplace_no_suffix.
Qed.

Lemma issueKey_first : forall c, first issueKeyRe c = isUpper c.
Proof.
  intros c. unfold issueKeyRe. cbn [first minLen Nat.eqb andb].
  apply Bool.orb_false_r.
Qed.

Lemma issueKey_skip : forall s,
  forallb (fun c => negb (isUpper c)) s = true ->
  forallb (fun c => negb (first issueKeyRe c)) s = true.
Proof.
  intros s. apply forallb_impl. intros c Hc. now rewrite issueKey_first.
Qed.

Lemma issueKey_Firstly : forall pos L mid digits post,
  isUpper L = true ->
  mid <> [] -> forallb (fun c => isUpper c || isDigit c) mid = true ->
  digits <> [] -> forallb isDigit digits = true ->
  headNot isDigit post = true ->
  Firstly issueKeyRe pos ([L] ++ mid ++ lit "-" ++ digits) post []
    [(1, [L] ++ mid ++ lit "-" ++ digits)].
Proof.
  intros pos L mid digits post HL Hmne Hmid Hdne Hdigits Hpost.
  unfold issueKeyRe. apply Firstly_Grp.
  eapply Firstly_Seq; [now apply Firstly_Chr|].
  eapply Firstly_Seq.
  - unfold plus. apply Firstly_greedy; [exact Hmid|reflexivity|].
    destruct mid; [contradiction|cbn; lia].
  - eapply Firstly_Seq; [apply (Firstly_Lit (lit "-"))|].
    unfold plus. apply Firstly_greedy; [exact Hdigits|exact Hpost|].
    destruct digits; [contradiction|cbn; lia].
Qed.

(** The key found in a branch name. *)
Lemma getIssueKeyFromBranch_found : forall output pre L mid digits post,
  trim output = pre ++ ([L] ++ mid ++ lit "-" ++ digits) ++ post ->
  forallb (fun c => negb (isUpper c)) pre = true ->
  isUpper L = true ->
  mid <> [] -> forallb (fun c => isUpper c || isDigit c) mid = true ->
  digits <> [] -> forallb isDigit digits = true ->
  headNot isDigit post = true ->
  getIssueKeyFromBranch (Some output) = Some ([L] ++ mid ++ lit "-" ++ digits).
Proof.
  intros output pre L mid digits post Hout Hpre HL Hmne Hmid Hdne Hdigits Hpost.
  unfold getIssueKeyFromBranch, run. rewrite Hout.
  rewrite (reMatch_found issueKeyRe pre _ post
             [(1, [L] ++ mid ++ lit "-" ++ digits)]).
  - reflexivity.
  - cbv; lia.
  - now apply issueKey_skip.
  - now apply issueKey_Firstly.
Qed.

(** No capital letter, no key. *)
Lemma getIssueKeyFromBranch_none : forall output,
  forallb (fun c => negb (isUpper c)) (trim output) = true ->
  getIssueKeyFromBranch (Some output) = None.
Proof.
  intros output H. unfold getIssueKeyFromBranch, run.
  unfold reMatch, reExec. cbn [Nat.leb skipn].
  rewrite search_none; [reflexivity|cbv; lia|now apply issueKey_skip].
Qed.

(* ------------------------------------------------------------------ *)
(** ** A fence with an info string that is no word *)
(* ------------------------------------------------------------------ *)

Lemma span_not_all : forall {A : Type} (p : A -> bool) (l : list A),
  forallb p l = false -> snd (span p l) <> [].
Proof.
  intros A p. induction l as [|x l IH]; cbn [forallb span]; [discriminate|].
  destruct (p x); cbn [andb]; [|discriminate].
  intros H. specialize (IH H). now destruct (span p l).
Qed.

(** Three backticks followed by a text with a character that is no word
    character do not match the fence expression. *)
Lemma codeFence_fail : forall t,
  forallb isWord t = false -> reMatch codeFenceRe (fence ++ t) = None.
Proof.
  intros t H. unfold codeFenceRe. rewrite reMatch_Bol. unfold matchAt, Str.
  change (matchRe (Lit (lit "```") <+> Grp 1 (star isWord) <+> Eol)
            0 (fence ++ t) [] accept)
    with (matchRe (Lit fence) 0 (fence ++ t) []
            (fun pos' s' caps' =>
               matchRe (Grp 1 (star isWord) <+> Eol) pos' s' caps' accept)).
  rewrite matchRe_Lit_app. unfold star. cbn [matchRe].
  pose proof (span_not_all isWord t H) as Hne.
  pose proof (span_snd_head isWord t) as Hhead.
  rewrite (span_app isWord t) at 1.
  rewrite repGreedy_run_fail; [reflexivity| |].
  - destruct (snd (span isWord t)) as [|c r]; [contradiction|].
    cbn [headNot]. now rewrite Hhead.
  - intros i pos Hi.
    destruct (snd (span isWord t)) as [|c r]; [contradiction|].
    now destruct (skipn i (fst (span isWord t))).
Qed.

Lemma backtick_tests : forall s,
  reTest ruleRe (96%N :: s) = false /\
  reMatch headingRe (96%N :: s) = None /\
  reTest quoteRe (96%N :: s) = false /\
  reTest tableLineRe (96%N :: s) = false /\
  reTest bulletRe (96%N :: s) = false /\
  reTest orderedRe (96%N :: s) = false.
Proof.
  intros s. repeat split;
    first [apply reMatch_other | apply reTest_other];
    solve [cbv; lia | reflexivity].
Qed.

(** Such a line is paragraph text. *)
Lemma blockStep_fence_info : forall recur info rest blocks buf,
  forallb isWord (trimEnd info) = false ->
  blockStep recur (fence ++ info) rest blocks buf =
  Some (blocks, buf ++ [fence ++ trimEnd info], rest).
Proof.
  intros recur info rest blocks buf H.
  assert (Htrim : trimEnd (fence ++ info) = fence ++ trimEnd info)
    by (now apply trimEnd_app_nonspace).
  unfold blockStep. cbv zeta. rewrite Htrim, (codeFence_fail _ H).
  change (fence ++ trimEnd info) with (96%N :: 96%N :: 96%N :: trimEnd info).
  change (fence ++ info) with (96%N :: 96%N :: 96%N :: info).
  destruct (backtick_tests (96%N :: 96%N :: trimEnd info))
    as (H1 & H2 & H3 & H4 & _).
  destruct (backtick_tests (96%N :: 96%N :: info)) as (_ & _ & _ & _ & H5 & H6).
  now rewrite H1, H2, H3, H4, H5, H6.
Qed.

(** A fence line flushes the paragraph buffer and opens a code block. *)
Lemma blockStep_fence_buf : forall recur lang rest blocks buf,
  forallb isWord lang = true ->
  blockStep recur (fence ++ lang) rest blocks buf =
  (blocks' <- flushParagraph blocks buf ;;
   Some (blocks' ++
           [CodeBlock (match lang with [] => None | _ :: _ => Some lang end)
              [Text (join LF
                       (fst (span (fun l => negb (startsWith fence (trimEnd l)))
                               rest))) None]],
         [],
         tl (snd (span (fun l => negb (startsWith fence (trimEnd l))) rest)))).
Proof.
  intros recur lang rest blocks buf H. unfold blockStep. cbv zeta.
  rewrite (trimEnd_open lang H).
  destruct (codeFence_open lang H) as (m & -> & ->).
  destruct (flushParagraph blocks buf); cbn [bind]; auto.
  destruct (span _ rest) as [codeLines after]. cbn [fst snd].
  now destruct lang.
Qed.

Lemma blockStep_fence_bare : forall recur rest blocks buf,
  blockStep recur fence rest blocks buf =
  (blocks' <- flushParagraph blocks buf ;;
   Some (blocks' ++
           [CodeBlock None
              [Text (join LF
                       (fst (span (fun l => negb (startsWith fence (trimEnd l)))
                               rest))) None]],
         [],
         tl (snd (span (fun l => negb (startsWith fence (trimEnd l))) rest)))).
Proof.
  intros recur rest blocks buf.
  exact (blockStep_fence_buf recur [] rest blocks buf eq_refl).
Qed.

(** Lines of text go to the paragraph buffer, whatever follows them. *)
Lemma blockLoop_text_then : forall recur body more fuel blocks buf,
  forallb textLine body = true ->
  blockLoop recur (List.length body + fuel) (body ++ more) blocks buf =
  blockLoop recur fuel more blocks (buf ++ map trimEnd body).
Proof.
  intros recur. induction body as [|l body IH]; intros more fuel blocks buf H;
    cbn [List.length app map Nat.add].
  - now rewrite app_nil_r.
  - cbn [forallb] in H. apply Bool.andb_true_iff in H. destruct H as [Hl H].
    rewrite blockLoop_cons, blockStep_text by exact Hl. cbn [bind].
    rewrite IH by exact H. now rewrite <- app_assoc.
Qed.

(** With an info string that is no word the line meant to open the block is
    paragraph text, and so are the lines of text after it; the line meant to
    close the block opens a code block, here an empty one. *)
Lemma markdownToAdf_fence_info : forall info body,
  forallb isWord (trimEnd info) = false ->
  forallb (fun c => negb (N.eqb c LF)) info = true ->
  forallb textLine body = true ->
  exists nodes,
    parseInline (join LF ((fence ++ trimEnd info) :: map trimEnd body))
      = Some nodes /\
    markdownToAdf (join LF ((fence ++ info) :: body ++ [fence])) =
    Some (mkDocument 1 [Paragraph nodes; CodeBlock None [Text [] None]]).
Proof.
  intros info body Hinfo Hnl Hbody.
  destruct (parseInline_ok (join LF ((fence ++ trimEnd info) :: map trimEnd body)))
    as (nodes & Hnodes & _).
  exists nodes. split; [exact Hnodes|].
  unfold markdownToAdf. cbn [markdownToAdfAt].
  rewrite split_join.
  - cbn [List.length]. rewrite blockLoop_cons.
    rewrite blockStep_fence_info by exact Hinfo. cbn [bind app].
    rewrite length_app. cbn [List.length].
    rewrite blockLoop_text_then by exact Hbody. cbn [app].
    rewrite blockLoop_cons.
    rewrite blockStep_fence_bare.
    change (fence ++ trimEnd info) with (96%N :: 96%N :: 96%N :: trimEnd info).
    rewrite flushParagraph_text by reflexivity.
    change (96%N :: 96%N :: 96%N :: trimEnd info) with (fence ++ trimEnd info).
    use_nodes Hnodes. reflexivity.
  - constructor.
    + apply forallb_app_intro; [reflexivity|exact Hnl].
    + apply Forall_app. split.
      * apply forallb_Forall. revert Hbody. apply forallb_impl.
        intros x Hx. unfold textLine in Hx.
        now apply Bool.andb_true_iff in Hx.
      * repeat constructor.
Qed.

(* ------------------------------------------------------------------ *)
(** ** Tables *)
(* ------------------------------------------------------------------ *)

(** A greedy quantifier gives back the last character when the continuation
    needs it. *)
Lemma repGreedy_then_last : forall cls (k : nat -> str -> option result) c Y
    min pos x,
  forallb cls Y = true -> min <= List.length Y ->
  (forall pos, k pos [] = None) ->
  k (pos + List.length Y) [c] = Some x ->
  repGreedy cls min None pos (Y ++ [c]) k = Some x.
Proof.
  intros cls k c. induction Y as [|y Y IH]; intros min pos x HY Hmin Hnil Hk;
    cbn [app List.length] in *.
  - destruct min; [|lia]. rewrite Nat.add_0_r in Hk.
    cbn [repGreedy pred decr canTake]. rewrite Hnil, Hk.
    now destruct (cls c && true).
  - cbn [forallb] in HY. apply Bool.andb_true_iff in HY. destruct HY as [Hy HY].
    cbn [repGreedy canTake decr]. rewrite Hy. cbn [andb].
    rewrite (IH (pred min) (S pos) x); auto; [lia|].
    now replace (S pos + List.length Y) with (pos + S (List.length Y)) by lia.
Qed.

Lemma rowLine_cons : forall cells,
  rowLine cells = 124%N :: join 124 cells ++ [124%N].
Proof. reflexivity. Qed.

Lemma wfRowCells_parts : forall cells,
  wfRowCells cells = true ->
  cells <> [] /\
  Forall (fun x => forallb (fun c => negb (N.eqb c 124)) x = true) cells /\
  forallb dot (join 124 cells) = true /\
  join 124 cells <> [] /\
  forallb isSepChar (join 124 cells ++ [124%N]) = false.
Proof.
  intros cells H. unfold wfRowCells in H.
  apply Bool.andb_true_iff in H. destruct H as [Hall Hex].
  assert (Hne : cells <> []) by (destruct cells; [discriminate|discriminate]).
  assert (Hpipes : Forall (fun x => forallb (fun c => negb (N.eqb c 124)) x = true)
                          cells).
  { apply Forall_forall. intros x Hx. rewrite forallb_forall in Hall.
    specialize (Hall x Hx). revert Hall. apply forallb_impl.
    intros c Hc. now apply Bool.andb_true_iff in Hc. }
  assert (Hdot : forallb dot (join 124 cells) = true).
  { clear Hex Hne Hpipes. induction cells as [|l ls IH]; auto.
    cbn [forallb] in Hall. apply Bool.andb_true_iff in Hall.
    destruct Hall as [Hl Hall]. specialize (IH Hall).
    assert (Hld : forallb dot l = true).
    { revert Hl. apply forallb_impl. intros c Hc.
      now apply Bool.andb_true_iff in Hc. }
    destruct ls as [|l' ls]; [exact Hld|].
    change (join 124 (l :: l' :: ls)) with (l ++ 124%N :: join 124 (l' :: ls)).
    apply forallb_app_intro; [exact Hld|]. cbn [forallb]. now rewrite IH. }
  assert (Hin : exists c, In c (join 124 cells) /\ isSepChar c = false).
  { clear Hall Hne Hpipes Hdot. induction cells as [|l ls IH]; [discriminate|].
    cbn [existsb] in Hex. apply Bool.orb_true_iff in Hex.
    destruct Hex as [Hl|Hls].
    - apply existsb_exists in Hl. destruct Hl as (c & Hc & Hs).
      apply Bool.negb_true_iff in Hs. exists c. split; auto.
      destruct ls as [|l' ls]; [exact Hc|].
      change (join 124 (l :: l' :: ls)) with (l ++ 124%N :: join 124 (l' :: ls)).
      apply in_or_app. now left.
    - destruct (IH Hls) as (c & Hc & Hs). exists c. split; auto.
      destruct ls as [|l' ls]; [destruct Hc|].
      change (join 124 (l :: l' :: ls)) with (l ++ 124%N :: join 124 (l' :: ls)).
      apply in_or_app. right. now right. }
  destruct Hin as (c & Hc & Hs).
  repeat split; auto.
  - intros E. rewrite E in Hc. destruct Hc.
  - destruct (forallb isSepChar (join 124 cells ++ [124%N])) eqn:E; auto.
    rewrite forallb_forall in E.
    rewrite (E c) in Hs; [discriminate|]. apply in_or_app. now left.
Qed.

(** A row line is a pipe-delimited line, is its own trimmed form and is no
    separator row. *)
Lemma rowLine_facts : forall cells,
  wfRowCells cells = true ->
  trim (rowLine cells) = rowLine cells /\
  trimEnd (rowLine cells) = rowLine cells /\
  reTest tableLineRe (rowLine cells) = true /\
  reTest separatorRe (rowLine cells) = false /\
  forallb (fun c => negb (N.eqb c LF)) (rowLine cells) = true.
Proof.
  intros cells H.
  destruct (wfRowCells_parts cells H) as (Hne & Hpipes & Hdot & Hjne & Hsep).
  assert (Htrim : trimEnd (rowLine cells) = rowLine cells).
  { rewrite rowLine_cons.
    change (124%N :: join 124 cells ++ [124%N])
      with ((124%N :: join 124 cells) ++ [124%N]).
    now rewrite trimEnd_app_keep by discriminate. }
  repeat split.
  - unfold trim. rewrite rowLine_cons. cbn [trimStart].
    change (isSpace 124) with false. cbv iota.
    rewrite <- rowLine_cons. exact Htrim.
  - exact Htrim.
  - rewrite rowLine_cons. unfold tableLineRe. rewrite reTest_Bol.
    unfold matchAt, Str, plus.
    change (lit "|") with [124%N]. cbn [Lit matchRe].
    change (N.eqb 124 124) with true. cbv iota.
    erewrite repGreedy_then_last; [reflexivity|exact Hdot| |reflexivity|].
    + destruct (join 124 cells); [contradiction|cbn; lia].
    + reflexivity.
  - rewrite rowLine_cons. unfold separatorRe. rewrite reTest_Bol.
    unfold matchAt, Str, plus.
    change (lit "|") with [124%N]. cbn [Lit].
    remember (Chr (N.eqb 124) <+> Eol)%re as R2 eqn:ER2.
    cbn [matchRe]. change (N.eqb 124 124) with true. cbv iota.
    fold isSepChar.
    change (fun c => isSpace c || anyOf "-:|" c) with isSepChar.
    pose proof (span_not_all isSepChar _ Hsep) as Hr.
    pose proof (span_snd_head isSepChar (join 124 cells ++ [124%N])) as Hhead.
    rewrite (span_app isSepChar (join 124 cells ++ [124%N])).
    rewrite repGreedy_run_fail; [reflexivity| |].
    + destruct (snd (span isSepChar (join 124 cells ++ [124%N]))) as [|c r];
        [contradiction|]. cbn [headNot]. now rewrite Hhead.
    + intros i pos Hi. subst R2.
      destruct (snd (span isSepChar (join 124 cells ++ [124%N]))) as [|c r];
        [contradiction|].
      destruct (skipn i (fst (span isSepChar (join 124 cells ++ [124%N]))))
        as [|d [|d' s]]; cbn [app matchRe].
      * destruct (N.eqb_spec 124 c) as [<-|]; [discriminate Hhead|reflexivity].
      * destruct (N.eqb 124 d); reflexivity.
      * destruct (N.eqb 124 d); reflexivity.
  - rewrite rowLine_cons. cbn [forallb]. change (negb (N.eqb 124 LF)) with true.
    cbn [andb]. apply forallb_app_intro; [|reflexivity].
    now apply dot_not_newline.
Qed.

Lemma tableRowOf_contents : forall isHeader cells,
  tableRowOf isHeader cells =
  (contents <- mapM parseInline cells ;;
   Some (rowOf (if isHeader then tableHeader else tableCell) contents)).
Proof.
  intros isHeader cells. unfold tableRowOf, rowOf.
  induction cells as [|c cells IH]; cbn [mapM map bind]; auto.
  destruct (parseInline c) as [nodes|]; cbn [bind]; auto.
  destruct (mapM _ cells) as [row|] eqn:E1;
    destruct (mapM parseInline cells) as [contents|] eqn:E2;
    cbn [bind] in *; try discriminate; auto.
  inversion IH; subst. reflexivity.
Qed.

(** The rows of the body lines of a table. *)
Lemma parseTableRows_rows : forall body i rows,
  forallb wfRowCells body = true ->
  parseTableRows (S i) (map rowLine body) rows =
  (contents <- mapM (fun cells => mapM parseInline (map trim cells)) body ;;
   Some (rows ++ map (rowOf tableCell) contents)).
Proof.
  induction body as [|cells body IH]; intros i rows H; cbn [map mapM parseTableRows].
  - cbn [bind map]. now rewrite app_nil_r.
  - cbn [forallb] in H. apply Bool.andb_true_iff in H. destruct H as [Hc H].
    destruct (rowLine_facts cells Hc) as (Ht & _ & _ & Hs & _).
    destruct (wfRowCells_parts cells Hc) as (Hne & Hpipes & _).
    cbv zeta. rewrite Ht, Hs. unfold rowLine at 1.
    rewrite (tableCells_row cells Hne Hpipes).
    rewrite tableRowOf_contents. cbn [Nat.eqb].
    destruct (mapM parseInline (map trim cells)) as [row|]; cbn [bind]; auto.
    rewrite IH by exact H.
    destruct (mapM _ body) as [contents|]; cbn [bind map]; auto.
    now rewrite <- app_assoc.
Qed.

Lemma mapM_total : forall {A B : Type} (f : A -> option B) (l : list A),
  (forall a, exists b, f a = Some b) -> exists bs, mapM f l = Some bs.
Proof.
  intros A B f l Hf. induction l as [|a l IH]; cbn [mapM]; eauto.
  destruct (Hf a) as (b & ->). destruct IH as (bs & ->). cbn [bind]. eauto.
Qed.

(** A header row, a separator row and body rows, up to the end of the
    input, are one table: a row of header cells and a row of body cells for
    each body line, each cell one paragraph, the inline parse of the trimmed
    cell text. *)
Lemma markdownToAdf_table : forall header sep body,
  wfRowCells header = true -> wfSeparator sep = true ->
  forallb wfRowCells body = true ->
  exists hc bc,
    mapM parseInline (map trim header) = Some hc /\
    mapM (fun cells => mapM parseInline (map trim cells)) body = Some bc /\
    markdownToAdf (join LF (rowLine header :: sep :: map rowLine body)) =
    Some (mkDocument 1
            [Table false (lit "default")
               (rowOf tableHeader hc :: map (rowOf tableCell) bc)]).
Proof.
  intros header sep body Hh Hsep Hb.
  destruct (mapM_parseInline_total (map trim header)) as (hc & Hhc).
  destruct (mapM_total (fun cells => mapM parseInline (map trim cells)) body)
    as (bc & Hbc).
  { intros cells. apply mapM_parseInline_total. }
  exists hc, bc. repeat split; auto.
  unfold wfSeparator in Hsep.
  apply Bool.andb_true_iff in Hsep. destruct Hsep as [Hsep Hsnl].
  apply Bool.andb_true_iff in Hsep. destruct Hsep as [Hsep Hstab].
  destruct (rowLine_facts header Hh) as (Ht & Hte & Htab & Hns & Hnl).
  destruct (wfRowCells_parts header Hh) as (Hne & Hpipes & _).
  assert (Hrows : forall cells, In cells body ->
            reTest tableLineRe (trimEnd (rowLine cells)) = true /\
            forallb (fun c => negb (N.eqb c LF)) (rowLine cells) = true).
  { intros cells Hin. rewrite forallb_forall in Hb.
    destruct (rowLine_facts cells (Hb cells Hin)) as (_ & -> & ? & _ & ?).
    auto. }
  unfold markdownToAdf. cbn [markdownToAdfAt].
  rewrite split_join.
  - cbn [List.length]. rewrite blockLoop_cons.
    unfold blockStep. cbv zeta. rewrite Hte.
    destruct (pipe_tests (join 124 header ++ [124%N])) as (H1 & H2 & H3 & H4 & _).
    rewrite <- rowLine_cons in H1, H2, H3, H4.
    rewrite H1, H2, H3, H4.
    rewrite Htab. cbn [nextLineOf]. unfold isSeparator in Hsep. rewrite Hsep.
    cbn [andb flushParagraph bind].
    rewrite span_all.
    + unfold parseTableBlock. cbn [parseTableRows]. cbv zeta.
      rewrite Ht, Hns. unfold rowLine at 1.
      rewrite (tableCells_row header Hne Hpipes).
      rewrite tableRowOf_contents, Hhc. cbn [Nat.eqb bind app].
      rewrite Hsep. rewrite parseTableRows_rows by exact Hb.
      rewrite Hbc. cbn [bind app].
      rewrite blockLoop_nil. reflexivity.
    + cbn [forallb]. rewrite Hte, Htab, Hstab. cbn [andb].
      apply forallb_forall. intros l Hl. apply in_map_iff in Hl.
      destruct Hl as (cells & <- & Hin). now apply Hrows.
  - constructor; [exact Hnl|]. constructor; [exact Hsnl|].
    apply Forall_forall. intros l Hl. apply in_map_iff in Hl.
    destruct Hl as (cells & <- & Hin). now apply Hrows.
Qed.

(* ------------------------------------------------------------------ *)
(** ** The commits of a branch *)
(* ------------------------------------------------------------------ *)

Lemma splitOn_last : forall f,
  forallb (fun c => negb (N.eqb c 124)) f = true ->
  splitOn (lit "||") f = [f].
Proof.
  unfold splitOn. induction f as [|c f IH]; intros H; auto.
  cbn [forallb] in H. apply Bool.andb_true_iff in H. destruct H as [Hc H].
  apply Bool.negb_true_iff in Hc. rewrite N.eqb_sym in Hc.
  cbn [splitOnAux]. change (lit "||") with [124%N; 124%N] at 1.
  cbn [startsWith]. rewrite Hc. cbn [andb]. now rewrite IH.
Qed.

Lemma splitOn_field : forall f rest,
  forallb (fun c => negb (N.eqb c 124)) f = true ->
  splitOn (lit "||") (f ++ lit "||" ++ rest) = f :: splitOn (lit "||") rest.
Proof.
  unfold splitOn. induction f as [|c f IH]; intros rest H.
  - cbn [app]. change (lit "||" ++ rest) with (124%N :: 124%N :: rest).
    cbn [splitOnAux]. change (lit "||") with [124%N; 124%N] at 1.
    cbn [startsWith]. rewrite !N.eqb_refl. reflexivity.
  - cbn [forallb] in H. apply Bool.andb_true_iff in H. destruct H as [Hc H].
    apply Bool.negb_true_iff in Hc. rewrite N.eqb_sym in Hc.
    cbn [app splitOnAux]. change (lit "||") with [124%N; 124%N] at 1.
    cbn [startsWith]. rewrite Hc. cbn [andb]. now rewrite IH.
Qed.

Lemma wfFields_parts : forall fields,
  wfFields fields = true ->
  fields <> [] /\
  Forall (fun f => forallb (fun c => negb (N.eqb c 124)) f = true) fields /\
  Forall (fun f => forallb (fun c => negb (N.eqb c LF)) f = true) fields.
Proof.
  intros fields H. unfold wfFields in H.
  apply Bool.andb_true_iff in H. destruct H as [Hne H].
  split; [now destruct fields|].
  rewrite forallb_forall in H.
  split; apply Forall_forall; intros f Hf; specialize (H f Hf);
    revert H; apply forallb_impl; intros c Hc;
    now apply Bool.andb_true_iff in Hc.
Qed.

(** Splitting a line of fields gives the fields. *)
Lemma splitOn_joinOn : forall fields,
  wfFields fields = true ->
  splitOn (lit "||") (joinOn (lit "||") fields) = fields.
Proof.
  intros fields H. destruct (wfFields_parts fields H) as (Hne & Hp & _).
  clear H. induction fields as [|f fields IH]; [contradiction|].
  inversion Hp; subst.
  destruct fields as [|f' fields].
  - now apply splitOn_last.
  - change (joinOn (lit "||") (f :: f' :: fields))
      with (f ++ lit "||" ++ joinOn (lit "||") (f' :: fields)).
    rewrite splitOn_field by assumption.
    rewrite IH; auto. discriminate.
Qed.

Lemma joinOn_no_newline : forall fields,
  wfFields fields = true ->
  forallb (fun c => negb (N.eqb c LF)) (joinOn (lit "||") fields) = true.
Proof.
  intros fields H. destruct (wfFields_parts fields H) as (_ & _ & Hn).
  clear H. induction fields as [|f fields IH]; auto.
  inversion Hn; subst.
  destruct fields as [|f' fields]; auto.
  change (joinOn (lit "||") (f :: f' :: fields))
    with (f ++ lit "||" ++ joinOn (lit "||") (f' :: fields)).
  apply forallb_app_intro; [assumption|].
  apply forallb_app_intro; [reflexivity|].
  apply IH. assumption.
Qed.

Lemma commitOf_fields : forall fields,
  wfFields fields = true ->
  commitOf (joinOn (lit "||") fields) = commitOfFields fields.
Proof.
  intros fields H. unfold commitOf, commitOfFields. cbv zeta.
  now rewrite splitOn_joinOn.
Qed.

(** The commits read from a log whose lines are lines of fields. *)
Lemma getCommitsOnBranch_fields : forall output table,
  trim output = join LF (map (joinOn (lit "||")) table) ->
  isEmpty (trim output) = false ->
  forallb wfFields table = true ->
  getCommitsOnBranch (Some output) = map commitOfFields table.
Proof.
  intros output table Hout Hne Hall.
  unfold getCommitsOnBranch, run.
  destruct (trim output) as [|c log] eqn:E; [discriminate Hne|].
  cbn [isEmpty]. rewrite Hout.
  destruct table as [|fields table]; [discriminate Hout|].
  cbn [map]. rewrite split_join.
  - change (joinOn (lit "||") fields :: map (joinOn (lit "||")) table)
      with (map (joinOn (lit "||")) (fields :: table)).
    rewrite map_map.
    change (commitOfFields fields :: map commitOfFields table)
      with (map commitOfFields (fields :: table)).
    apply map_ext_in. intros x Hx.
    apply commitOf_fields. rewrite forallb_forall in Hall. now apply Hall.
  - change (joinOn (lit "||") fields :: map (joinOn (lit "||")) table)
      with (map (joinOn (lit "||")) (fields :: table)).
    apply Forall_forall. intros l Hl. apply in_map_iff in Hl.
    destruct Hl as (x & <- & Hx). apply joinOn_no_newline.
    rewrite forallb_forall in Hall. now apply Hall.
Qed.

(* ------------------------------------------------------------------ *)
(** ** The next start time *)
(* ------------------------------------------------------------------ *)

Lemma uintOf_digitsOf : forall u, uintOf (digitsOf u) = Some u.
Proof.
  induction u; cbn [digitsOf uintOf]; auto; rewrite IHu; reflexivity.
Qed.

Lemma digitsOf_digits : forall u, forallb isDigit (digitsOf u) = true.
Proof.
  induction u; cbn [digitsOf forallb]; auto; rewrite IHu; reflexivity.
Qed.

Lemma uintOf_zeros : forall k s,
  uintOf (repeat 48%N k ++ s) =
  (u <- uintOf s ;; Some (Nat.iter k Decimal.D0 u)).
Proof.
  induction k as [|k IH]; intros s; cbn [repeat app Nat.iter].
  - now destruct (uintOf s).
  - cbn [uintOf]. rewrite IH. destruct (uintOf s); reflexivity.
Qed.

Lemma of_uint_zeros : forall k u,
  N.of_uint (Nat.iter k Decimal.D0 u) = N.of_uint u.
Proof.
  induction k as [|k IH]; intros u; cbn [Nat.iter]; auto.
  rewrite <- (IH u). reflexivity.
Qed.

Lemma digit_facts : forall c,
  isDigit c = true -> isSpace c = false /\ N.eqb c 58 = false.
Proof.
  intros c H. split; class_false.
Qed.

Lemma trimStart_no_space : forall s,
  headNot isSpace s = true -> trimStart s = s.
Proof.
  intros [|c s] H; auto. cbn [headNot] in H. apply Bool.negb_true_iff in H.
  cbn [trimStart]. now rewrite H.
Qed.

Lemma padded_digits : forall n,
  forallb isDigit (padStart 2 48 (toStr n)) = true /\
  isEmpty (padStart 2 48 (toStr n)) = false.
Proof.
  intros n. unfold padStart, toStr. split.
  - apply forallb_app_intro; [now apply forallb_repeat|apply digitsOf_digits].
  - destruct (digitsOf (N.to_uint n)) as [|c [|d s]]; reflexivity.
Qed.

Lemma trim_digits : forall s, forallb isDigit s = true -> trim s = s.
Proof.
  intros s H. unfold trim.
  assert (Hns : forallb (fun c => negb (isSpace c)) s = true).
  { revert H. apply forallb_impl. intros c Hc.
    now rewrite (proj1 (digit_facts c Hc)). }
  rewrite trimStart_no_space.
  - now apply trimEnd_no_space.
  - destruct s as [|c s]; auto. cbn [forallb] in Hns.
    now apply Bool.andb_true_iff in Hns.
Qed.

Lemma digit_numeral : forall c, isDigit c = true -> isNumeralChar c = true.
Proof. intros c H. unfold isNumeralChar. now rewrite H. Qed.

(** A number printed and padded reads back as the number. *)
Lemma Number_padded : forall n,
  (n < maxSafe)%N -> Number (padStart 2 48 (toStr n)) = Some (Num n).
Proof.
  intros n Hn. destruct (padded_digits n) as (Hd & Hne).
  unfold Number. cbv zeta. rewrite (trim_digits _ Hd), Hne.
  rewrite (forallb_impl isDigit isNumeralChar _ digit_numeral Hd).
  unfold padStart, toStr. rewrite uintOf_zeros, uintOf_digitsOf. cbn [bind].
  rewrite of_uint_zeros, DecimalN.Unsigned.of_to.
  apply N.ltb_lt in Hn. now rewrite Hn.
Qed.

Lemma hms_sum : forall n,
  (n / 3600 * 3600 + n mod 3600 / 60 * 60 + n mod 60 = n)%N.
Proof.
  intros n.
  pose proof (N.div_mod n 3600) as H1.
  pose proof (N.div_mod (n mod 3600) 60) as H2.
  pose proof (N.Div0.mod_mul_r n 60 60) as H3.
  change (60 * 60)%N with 3600%N in H3.
  assert (H4 : ((n mod 3600) mod 60 = n mod 60)%N).
  { rewrite H3, N.mul_comm, N.Div0.mod_add. apply N.Div0.mod_mod. }
  specialize (H1 ltac:(discriminate)). specialize (H2 ltac:(discriminate)).
  rewrite H4 in H2. clear H3 H4.
  remember (n / 3600)%N as a eqn:Ea in *.
  remember (n mod 3600)%N as r eqn:Er in *.
  remember (r / 60)%N as b eqn:Eb in *.
  remember (n mod 60)%N as c eqn:Ec in *.
  clear Ea Er Eb Ec. lia.
Qed.

Lemma hms_bounds : forall n,
  (n / 3600 <= n)%N /\ (n mod 3600 / 60 <= n)%N /\ (n mod 60 <= n)%N.
Proof.
  intros n. pose proof (hms_sum n) as H.
  remember (n / 3600)%N as a eqn:Ea in *.
  remember (n mod 3600 / 60)%N as b eqn:Eb in *.
  remember (n mod 60)%N as c eqn:Ec in *.
  clear Ea Eb Ec. lia.
Qed.

(** The parts of a formatted time. *)
Lemma split_formatTime : forall n,
  split 58 (formatTime n) =
  [padStart 2 48 (toStr (n / 3600)); padStart 2 48 (toStr (n mod 3600 / 60));
   padStart 2 48 (toStr (n mod 60))].
Proof.
  intros n. unfold formatTime. cbv zeta.
  change (padStart 2 48 (toStr (n / 3600)) ++ lit ":" ++
          padStart 2 48 (toStr (n mod 3600 / 60)) ++ lit ":" ++
          padStart 2 48 (toStr (n mod 60)))
    with (join 58 [padStart 2 48 (toStr (n / 3600));
                   padStart 2 48 (toStr (n mod 3600 / 60));
                   padStart 2 48 (toStr (n mod 60))]).
  apply split_join.
  repeat constructor;
    (eapply forallb_impl; [|apply padded_digits]);
    intros c Hc; now rewrite (proj2 (digit_facts c Hc)).
Qed.

(** An entry that starts at a formatted time ends that many seconds and its
    duration after midnight. *)
Lemma endSecondsOf_formatTime : forall n d,
  (n + d < maxSafe)%N ->
  endSecondsOf (mkEntry (formatTime n) d) = Some (Num (n + d)).
Proof.
  intros n d Hn. unfold endSecondsOf. cbn [startTime timeSpentSeconds].
  rewrite split_formatTime. cbn [map].
  destruct (hms_bounds n) as (H1 & H2 & H3).
  rewrite !Number_padded by lia.
  cbn [isNaN orb]. cbv zeta. rewrite hms_sum.
  apply N.ltb_lt in Hn. now rewrite Hn.
Qed.

(** The ends the model follows are below two to the power 53. *)
Lemma endSecondsOf_bound : forall e x,
  endSecondsOf e = Some (Num x) -> (x < maxSafe)%N.
Proof.
  intros e x H. unfold endSecondsOf in H.
  destruct (map Number (split 58 (startTime e))) as [|h [|m [|s l]]];
    try discriminate.
  destruct (isNaN h || isNaN m || isNaN s); [discriminate|].
  destruct h as [[h|]|]; try discriminate.
  destruct m as [[m|]|]; try discriminate.
  destruct s as [[s|]|]; try discriminate.
  cbv zeta in H.
  destruct (N.ltb_spec (h * 3600 + m * 60 + s + timeSpentSeconds e) maxSafe);
    [|discriminate].
  inversion H; subst. assumption.
Qed.

Lemma latestEnd_app : forall a b latest,
  latestEnd (a ++ b) latest = (l <- latestEnd a latest ;; latestEnd b l).
Proof.
  induction a as [|e a IH]; intros b latest; cbn [app latestEnd bind]; auto.
  destruct (endSecondsOf e); cbn [bind]; auto.
Qed.

Lemma uintOf_digits : forall s,
  forallb isDigit s = true -> exists u, uintOf s = Some u.
Proof.
  induction s as [|c s IH]; intros H; cbn [uintOf]; eauto.
  cbn [forallb] in H. apply Bool.andb_true_iff in H. destruct H as [Hc H].
  destruct (IH H) as (u & ->). cbn [bind].
  unfold isDigit in Hc. apply Bool.andb_true_iff in Hc.
  destruct Hc as [Hlo Hhi]. apply N.leb_le in Hlo, Hhi.
  destruct (N.eqb_spec c 48); eauto. destruct (N.eqb_spec c 49); eauto.
  destruct (N.eqb_spec c 50); eauto. destruct (N.eqb_spec c 51); eauto.
  destruct (N.eqb_spec c 52); eauto. destruct (N.eqb_spec c 53); eauto.
  destruct (N.eqb_spec c 54); eauto. destruct (N.eqb_spec c 55); eauto.
  destruct (N.eqb_spec c 56); eauto. destruct (N.eqb_spec c 57); eauto.
  lia.
Qed.

(** A part that is no numeral for certain reads as not-a-number. *)
Lemma Number_noNumeral : forall part,
  isNoNumeral part = true -> Number part = Some NaN.
Proof.
  intros part H. unfold isNoNumeral in H. apply Bool.negb_true_iff in H.
  unfold Number. cbv zeta.
  destruct (trim part) as [|c t]; [discriminate|].
  cbn [isEmpty]. now rewrite H.
Qed.

(** A part of digits reads as its value. *)
Lemma Number_digits : forall part,
  isDigitsPart part = true -> (valueOfPart part < maxSafe)%N ->
  Number part = Some (Num (valueOfPart part)).
Proof.
  intros part H Hv. unfold isDigitsPart in H. unfold valueOfPart in *.
  unfold Number. cbv zeta.
  destruct (trim part) as [|c t] eqn:Et; [reflexivity|].
  cbn [isEmpty].
  rewrite (forallb_impl isDigit isNumeralChar _ digit_numeral H).
  destruct (uintOf_digits _ H) as (u & Hu). rewrite Hu in *. cbn [bind].
  apply N.ltb_lt in Hv. now rewrite Hv.
Qed.

(** The model follows the end of an exact entry. *)
Lemma exactEntry_end : forall e,
  exactEntry e = true -> exists x, endSecondsOf e = Some x.
Proof.
  intros e H. unfold exactEntry in H. unfold endSecondsOf.
  destruct (split 58 (startTime e)) as [|h [|m [|s l]]]; cbn [map]; eauto.
  apply Bool.orb_true_iff in H. destruct H as [H|H].
  - assert (Hnan : isNaN (Number h) || isNaN (Number m) || isNaN (Number s)
                   = true).
    { apply Bool.orb_true_iff in H. destruct H as [H|H];
        [apply Bool.orb_true_iff in H; destruct H as [H|H]|];
        rewrite (Number_noNumeral _ H); cbn [isNaN];
        now rewrite ?Bool.orb_true_r. }
    rewrite Hnan. eauto.
  - apply Bool.andb_true_iff in H. destruct H as [H Hsum].
    apply Bool.andb_true_iff in H. destruct H as [H Hs].
    apply Bool.andb_true_iff in H. destruct H as [Hh Hm].
    pose proof Hsum as Hlt. apply N.ltb_lt in Hlt.
    rewrite (Number_digits h Hh), (Number_digits m Hm), (Number_digits s Hs)
      by lia.
    cbn [isNaN orb]. cbv zeta. rewrite Hsum. eauto.
Qed.

(** The loop returns on exact entries. *)
Lemma latestEnd_exact : forall entries latest,
  forallb exactEntry entries = true ->
  exists n, latestEnd entries latest = Some n.
Proof.
  induction entries as [|e entries IH]; intros latest H; cbn [latestEnd].
  - eauto.
  - cbn [forallb] in H. apply Bool.andb_true_iff in H. destruct H as [He H].
    destruct (exactEntry_end e He) as (x & ->). cbn [bind].
    now apply IH.
Qed.

(** The latest end is at least the value the loop starts with. *)
Lemma latestEnd_ge : forall entries latest n,
  latestEnd entries latest = Some n -> (latest <= n)%N.
Proof.
  induction entries as [|e entries IH]; intros latest n H; cbn [latestEnd] in H.
  - inversion H. lia.
  - destruct (endSecondsOf e) as [[x|]|]; cbn [bind] in H; [| |discriminate].
    + apply IH in H. destruct (N.ltb_spec latest x); lia.
    + now apply IH.
Qed.

(** It is the end of an entry, or the value the loop starts with, and no
    entry ends later. *)
Lemma latestEnd_max : forall entries latest n,
  latestEnd entries latest = Some n ->
  (n = latest \/ exists e, In e entries /\ endSecondsOf e = Some (Num n)) /\
  (forall e x, In e entries -> endSecondsOf e = Some (Num x) -> (x <= n)%N).
Proof.
  induction entries as [|e entries IH]; intros latest n H; cbn [latestEnd] in H.
  - inversion H. split; [now left|]. intros e x [].
  - destruct (endSecondsOf e) as [[x|]|] eqn:Ex; cbn [bind] in H;
      [| |discriminate].
    + pose proof (latestEnd_ge _ _ _ H) as Hge.
      destruct (IH _ _ H) as ([Hn|(e' & Hin & He')] & Hall).
      * split.
        -- destruct (N.ltb_spec latest x); [right|now left].
           exists e. split; [now left|]. now rewrite Ex, Hn.
        -- intros e0 x0 [<-|Hin] He0; [|eauto].
           rewrite Ex in He0. inversion He0; subst.
           destruct (N.ltb_spec latest x0); lia.
      * split.
        -- right. exists e'. split; [now right|exact He'].
        -- intros e0 x0 [<-|Hin0] He0; [|eauto].
           rewrite Ex in He0. inversion He0; subst.
           destruct (N.ltb_spec latest x0); lia.
    + destruct (IH _ _ H) as ([Hn|(e' & Hin & He')] & Hall).
      * split; [now left|].
        intros e0 x0 [<-|Hin] He0; [|eauto].
        rewrite Ex in He0. discriminate.
      * split.
        -- right. exists e'. split; [now right|exact He'].
        -- intros e0 x0 [<-|Hin0] He0; [|eauto].
           rewrite Ex in He0. discriminate.
Qed.

(** The latest end is below two to the power 53. *)
Lemma latestEnd_bound : forall entries n,
  latestEnd entries 0%N = Some n -> (n < maxSafe)%N.
Proof.
  intros entries n H.
  destruct (latestEnd_max _ _ _ H) as ([->|(e & _ & He)] & _).
  - reflexivity.
  - now apply endSecondsOf_bound in He.
Qed.

(** A worklog that starts at the computed time moves the next start time by
    its duration. *)
Lemma calculateNextStartTime_stacks : forall entries workdayStart d,
  entries <> [] ->
  forallb exactEntry entries = true ->
  exists n,
    calculateNextStartTime entries workdayStart = Some (formatTime n) /\
    latestEnd entries 0%N = Some n /\
    ((n + d < maxSafe)%N ->
     calculateNextStartTime (entries ++ [mkEntry (formatTime n) d])
       workdayStart =
     Some (formatTime (n + d))).
Proof.
  intros entries workdayStart d Hne Hex.
  destruct (latestEnd_exact entries 0%N Hex) as (n & En).
  destruct entries as [|e entries]; [contradiction|].
  exists n. unfold calculateNextStartTime at 1. rewrite En. cbn [bind].
  repeat split; auto.
  intros Hd. unfold calculateNextStartTime. cbn [app].
  change (e :: entries ++ [mkEntry (formatTime n) d])
    with ((e :: entries) ++ [mkEntry (formatTime n) d]).
  rewrite latestEnd_app, En. cbn [bind latestEnd].
  rewrite endSecondsOf_formatTime by exact Hd. cbn [bind].
  assert (Hmax : (if N.ltb n (n + d) then n + d else n)%N = (n + d)%N)
    by (destruct (N.ltb_spec n (n + d)); lia).
  now rewrite Hmax.
Qed.

(** The computed time is the latest end of an entry, formatted. *)
Lemma calculateNextStartTime_latest : forall entries workdayStart,
  entries <> [] ->
  forallb exactEntry entries = true ->
  exists n,
    calculateNextStartTime entries workdayStart = Some (formatTime n) /\
    (n = 0%N \/ exists e, In e entries /\ endSecondsOf e = Some (Num n)) /\
    (forall e x, In e entries -> endSecondsOf e = Some (Num x) -> (x <= n)%N) /\
    endSecondsOf (mkEntry (formatTime n) 0) = Some (Num n).
Proof.
  intros entries workdayStart Hne Hex.
  destruct (latestEnd_exact entries 0%N Hex) as (n & En).
  pose proof (latestEnd_bound _ _ En) as Hn.
  destruct (latestEnd_max _ _ _ En) as (H1 & H2).
  destruct entries as [|e entries]; [contradiction|].
  exists n. unfold calculateNextStartTime. rewrite En. cbn [bind].
  repeat split; auto.
  rewrite <- (N.add_0_r n) at 2. apply endSecondsOf_formatTime.
  now rewrite N.add_0_r.
Qed.

(* ------------------------------------------------------------------ *)
(** ** The variant without blockquotes pushes none *)
(* ------------------------------------------------------------------ *)






(* ------------------------------------------------------------------ *)
(** ** Newlines around a text *)
(* ------------------------------------------------------------------ *)

(** A newline before a text changes nothing. *)
Lemma scanBlocks_leading_newline : forall markdown,
  scanBlocks (LF :: markdown) = scanBlocks markdown.
Proof.
  intros markdown.
  pose proof (lineSize_length (split LF markdown)) as Hl.
  rewrite split_size in Hl.
  rewrite (scanBlocks_loop markdown (List.length (LF :: markdown))
             (List.length (split LF markdown)))
    by (cbn [List.length]; lia).
  unfold scanBlocks. cbv zeta.
  change (split LF (LF :: markdown)) with ([] :: split LF markdown).
  cbn [List.length]. rewrite blockLoop_cons.
  rewrite blockStep_blank by reflexivity. reflexivity.
Qed.

(** A newline after a text changes nothing when no line of the text opens a
    fence. *)
Lemma scanBlocks_trailing_newline : forall markdown,
  noFence markdown = true ->
  scanBlocks (markdown ++ [LF]) = scanBlocks markdown.
Proof.
  intros markdown Hfence.
  pose proof (lineSize_length (split LF markdown)) as Hl.
  rewrite split_size in Hl.
  assert (Hsplit : split LF (markdown ++ [LF]) = split LF markdown ++ [[]])
    by (now rewrite split_app_sep).
  assert (Hlen : List.length (markdown ++ [LF]) = S (List.length markdown))
    by (rewrite length_app; cbn [List.length]; lia).
  assert (Hlines : List.length (split LF (markdown ++ [LF]))
                   = S (List.length (split LF markdown)))
    by (rewrite Hsplit, length_app; cbn [List.length]; lia).
  rewrite (scanBlocks_loop markdown (List.length (markdown ++ [LF]))
             (List.length (split LF (markdown ++ [LF]))))
    by (unfold str in *; lia).
  unfold scanBlocks. cbv zeta.
  rewrite Hsplit at 2.
  rewrite blockLoop_more; [|exact Hfence|unfold str in *; cbn [List.length]; lia].
  destruct (blockLoop _ _ (split LF markdown) [] []) as [[blocks buf]|];
    cbn [bind]; auto.
  destruct (flushParagraph blocks buf) as [blocks'|]; cbn [bind]; auto.
  now rewrite blockLoop_nil.
Qed.

Lemma markdownToAdf_newlines : forall markdown,
  markdownToAdf (LF :: markdown) = markdownToAdf markdown /\
  (noFence markdown = true ->
   markdownToAdf (markdown ++ [LF]) = markdownToAdf markdown).
Proof.
  intros markdown. split.
  - now rewrite !markdownToAdf_scan, scanBlocks_leading_newline.
  - intros H. now rewrite !markdownToAdf_scan, scanBlocks_trailing_newline.
Qed.

(* ------------------------------------------------------------------ *)
(** ** Matching does not depend on what came before *)
(* ------------------------------------------------------------------ *)

Section Continuations.

Variable cls : N -> bool.

Lemma repGreedy_ext : forall (k1 k2 : nat -> str -> option result),
  (forall p s, k1 p s = k2 p s) ->
  forall s min max pos,
    repGreedy cls min max pos s k1 = repGreedy cls min max pos s k2.
Proof.
  intros k1 k2 H. induction s as [|c s IH]; intros min max pos;
    cbn [repGreedy]; rewrite ?H; auto.
  now rewrite IH.
Qed.

Lemma repLazy_ext : forall (k1 k2 : nat -> str -> option result),
  (forall p s, k1 p s = k2 p s) ->
  forall s min max pos,
    repLazy cls min max pos s k1 = repLazy cls min max pos s k2.
Proof.
  intros k1 k2 H. induction s as [|c s IH]; intros min max pos;
    cbn [repLazy]; rewrite ?H; auto.
  now rewrite IH.
Qed.

Lemma repGreedy_shift : forall (k : nat -> str -> option result) d s min max pos,
  repGreedy cls min max (d + pos) s k =
  repGreedy cls min max pos s (fun p s' => k (d + p) s').
Proof.
  intros k d. induction s as [|c s IH]; intros min max pos;
    cbn [repGreedy]; auto.
  rewrite <- Nat.add_succ_r. now rewrite IH.
Qed.

Lemma repLazy_shift : forall (k : nat -> str -> option result) d s min max pos,
  repLazy cls min max (d + pos) s k =
  repLazy cls min max pos s (fun p s' => k (d + p) s').
Proof.
  intros k d. induction s as [|c s IH]; intros min max pos;
    cbn [repLazy]; auto.
  rewrite <- Nat.add_succ_r. now rewrite IH.
Qed.

Lemma repGreedy_map : forall (g : result -> result)
    (k : nat -> str -> option result) s min max pos,
  repGreedy cls min max pos s (fun p s' => option_map g (k p s')) =
  option_map g (repGreedy cls min max pos s k).
Proof.
  intros g k. induction s as [|c s IH]; intros min max pos; cbn [repGreedy].
  - now destruct min.
  - rewrite IH.
    destruct (cls c && canTake max); [|now destruct min].
    destruct (repGreedy cls (pred min) (decr max) (S pos) s k); cbn [option_map];
      auto.
    now destruct min.
Qed.

Lemma repLazy_map : forall (g : result -> result)
    (k : nat -> str -> option result) s min max pos,
  repLazy cls min max pos s (fun p s' => option_map g (k p s')) =
  option_map g (repLazy cls min max pos s k).
Proof.
  intros g k. induction s as [|c s IH]; intros min max pos; cbn [repLazy].
  - destruct min; auto. now destruct (k pos []).
  - rewrite IH.
    destruct min.
    + destruct (k pos (c :: s)); cbn [option_map]; auto.
      now destruct (cls c && canTake max).
    + now destruct (cls c && canTake max).
Qed.

End Continuations.

Lemma matchRe_ext : forall r pos s caps (k1 k2 : cont),
  (forall p s' c, k1 p s' c = k2 p s' c) ->
  matchRe r pos s caps k1 = matchRe r pos s caps k2.
Proof.
  induction r as [| | |cls|greedy min max cls|r1 IH1 r2 IH2|r1 IH1 r2 IH2|n r IH];
    intros pos s caps k1 k2 H; cbn [matchRe].
  - apply H.
  - now rewrite H.
  - destruct s; auto.
  - destruct s as [|c s]; auto. now rewrite H.
  - destruct greedy; [apply repGreedy_ext|apply repLazy_ext]; intros; apply H.
  - apply IH1. intros. now apply IH2.
  - now rewrite (IH1 pos s caps k1 k2 H), (IH2 pos s caps k1 k2 H).
  - apply IH. intros. apply H.
Qed.

Lemma matchRe_shift : forall r d pos s caps (k : cont),
  noBol r = true ->
  matchRe r (d + pos) s caps k =
  matchRe r pos s caps (fun p s' c => k (d + p) s' c).
Proof.
  induction r as [| | |cls|greedy min max cls|r1 IH1 r2 IH2|r1 IH1 r2 IH2|n r IH];
    intros d pos s caps k H; cbn [matchRe noBol] in *.
  - reflexivity.
  - discriminate.
  - reflexivity.
  - destruct s as [|c s]; auto. now rewrite Nat.add_succ_r.
  - destruct greedy; [apply repGreedy_shift|apply repLazy_shift].
  - apply Bool.andb_true_iff in H. destruct H as [H1 H2].
    rewrite IH1 by exact H1. apply matchRe_ext. intros. now apply IH2.
  - apply Bool.andb_true_iff in H. destruct H as [H1 H2].
    now rewrite IH1, IH2.
  - rewrite IH by exact H. apply matchRe_ext. intros p s' c.
    now replace (d + p - (d + pos)) with (p - pos) by lia.
Qed.

Lemma matchRe_map : forall (g : result -> result) r pos s caps (k : cont),
  matchRe r pos s caps (fun p s' c => option_map g (k p s' c)) =
  option_map g (matchRe r pos s caps k).
Proof.
  intros g.
  induction r as [| | |cls|greedy min max cls|r1 IH1 r2 IH2|r1 IH1 r2 IH2|n r IH];
    intros pos s caps k; cbn [matchRe].
  - reflexivity.
  - now destruct (Nat.eqb pos 0).
  - now destruct s.
  - destruct s as [|c s]; auto. now destruct (cls c).
  - destruct greedy; [apply repGreedy_map|apply repLazy_map].
  - rewrite <- IH1. apply matchRe_ext. intros. apply IH2.
  - rewrite IH1, IH2. now destruct (matchRe r1 pos s caps k).
  - rewrite <- IH. reflexivity.
Qed.

Lemma matchAt_shift : forall r d pos s,
  noBol r = true ->
  matchAt r (d + pos) s =
  option_map (fun x : result => (d + fst x, snd x)) (matchAt r pos s).
Proof.
  intros r d pos s H. unfold matchAt.
  rewrite matchRe_shift by exact H.
  rewrite <- matchRe_map. reflexivity.
Qed.

Lemma search_shift : forall r d s pos,
  noBol r = true ->
  search r (d + pos) s = option_map (shiftMatch d) (search r pos s).
Proof.
  intros r d. induction s as [|c s IH]; intros pos H; cbn [search];
    rewrite matchAt_shift by exact H.
  - now destruct (matchAt r pos []) as [[e caps]|].
  - destruct (matchAt r pos (c :: s)) as [[e caps]|]; cbn [option_map fst snd];
      auto.
    rewrite <- Nat.add_succ_r. now apply IH.
Qed.

(** The search in a text from the end of a prefix on is the search in the
    rest of the text. *)
Lemma reExec_shift : forall r done post lastIndex,
  noBol r = true ->
  reExec r (done ++ post) (List.length done + lastIndex) =
  option_map (shiftMatch (List.length done)) (reExec r post lastIndex).
Proof.
  intros r done post lastIndex H. unfold reExec.
  rewrite length_app.
  destruct (Nat.leb_spec lastIndex (List.length post)) as [Hle|Hgt].
  - replace (Nat.leb (List.length done + lastIndex)
               (List.length done + List.length post)) with true
      by (symmetry; apply Nat.leb_le; lia).
    rewrite search_shift by exact H.
    rewrite skipn_app, skipn_all2 by lia.
    replace (List.length done + lastIndex - List.length done) with lastIndex
      by lia.
    reflexivity.
  - replace (Nat.leb (List.length done + lastIndex)
               (List.length done + List.length post)) with false
      by (symmetry; apply Nat.leb_gt; lia).
    reflexivity.
Qed.

Lemma slice_shift : forall (done post : str) a b,
  slice (done ++ post) (List.length done + a) (List.length done + b)
  = slice post a b.
Proof.
  intros done post a b. unfold slice.
  rewrite skipn_app, skipn_all2 by lia.
  replace (List.length done + a - List.length done) with a by lia.
  now replace (List.length done + b - (List.length done + a)) with (b - a) by lia.
Qed.

(** The loop of the inline parser needs no more fuel than it has
    characters left. *)
Lemma parseInlineLoop_fuel : forall fuel1 fuel2 text lastIndex nodes,
  List.length text < fuel1 + lastIndex ->
  List.length text < fuel2 + lastIndex ->
  parseInlineLoop fuel1 text lastIndex nodes =
  parseInlineLoop fuel2 text lastIndex nodes.
Proof.
  assert (Hmin : minLen inlineRe = 3) by reflexivity.
  induction fuel1 as [|fuel1 IH]; intros fuel2 text lastIndex nodes H1 H2;
    destruct fuel2 as [|fuel2]; cbn [parseInlineLoop];
    destruct (reExec inlineRe text lastIndex) as [m|] eqn:E; auto;
    apply reExec_inv in E; rewrite Hmin in E; try lia.
  apply IH; lia.
Qed.

(** The loop from the end of a prefix on is the loop on the rest of the
    text. *)
Lemma parseInlineLoop_shift : forall done post fuel lastIndex acc nodes,
  parseInlineLoop fuel (done ++ post) (List.length done + lastIndex)
    (acc ++ nodes) =
  match parseInlineLoop fuel post lastIndex nodes with
  | Some (nodes', lastIndex') =>
      Some (acc ++ nodes', List.length done + lastIndex')
  | None => None
  end.
Proof.
  intros done post. induction fuel as [|fuel IH]; intros lastIndex acc nodes;
    cbn [parseInlineLoop]; rewrite reExec_shift by reflexivity;
    destruct (reExec inlineRe post lastIndex) as [m|]; cbn [option_map]; auto.
  change (stop (shiftMatch (List.length done) m))
    with (List.length done + stop m).
  change (index (shiftMatch (List.length done) m))
    with (List.length done + index m).
  change (inlineNode (shiftMatch (List.length done) m)) with (inlineNode m).
  rewrite slice_shift.
  assert (Hlt : Nat.ltb (List.length done + lastIndex)
                  (List.length done + index m) = Nat.ltb lastIndex (index m)).
  { destruct (Nat.ltb_spec lastIndex (index m));
      [apply Nat.ltb_lt|apply Nat.ltb_ge]; lia. }
  rewrite Hlt.
  destruct (Nat.ltb lastIndex (index m)); rewrite <- !app_assoc; apply IH.
Qed.

(* ------------------------------------------------------------------ *)
(** ** Every match pushes a node *)
(* ------------------------------------------------------------------ *)

Lemma truthy_firstn : forall n (s : str),
  1 <= n -> n <= List.length s -> truthy (Some (firstn n s)) = true.
Proof.
  intros [|n] [|c s] H1 H2; cbn [List.length] in *; try lia. reflexivity.
Qed.

(** A match of a group alternative binds its group to a text that is not
    empty. *)
Lemma group_truthy : forall g r pos s e caps,
  1 <= minLen r ->
  matchRe (Grp g r) pos s [] accept = Some (e, caps) ->
  truthy (lookup g caps) = true.
Proof.
  intros g r pos s e caps Hmin H.
  destruct (matchAt_Grp g r pos s e caps H) as (n & caps' & Hn & Hle & _ & ->).
  cbn [lookup]. rewrite Nat.eqb_refl. apply truthy_firstn; lia.
Qed.

(** A match of the link alternative binds both of its groups to texts that
    are not empty. *)
Lemma link_truthy : forall pos s e caps,
  matchRe linkRe pos s [] accept = Some (e, caps) ->
  truthy (lookup 9 caps) = true /\ truthy (lookup 10 caps) = true.
Proof.
  intros pos s e caps H. unfold linkRe in H.
  remember (Grp 9 (plus (notOf "]")) <+> Str "](" <+>
            Grp 10 (plus (notOf ")")) <+> Str ")")%re as R1 eqn:E1.
  cbn [matchRe] in H. unfold Str in H at 1.
  apply matchRe_Lit_inv in H. destruct H as (s1 & -> & H). subst R1.
  remember (Str "](" <+> Grp 10 (plus (notOf ")")) <+> Str ")")%re as R2 eqn:E2.
  cbn [matchRe] in H.
  change ((if true then repGreedy else repLazy) (notOf "]") 1 None)
    with (repGreedy (notOf "]") 1 None) in H.
  pose proof (matchRe_inv (plus (notOf "]")) (pos + List.length (lit "["))
                s1 []
                (fun p s' c =>
                   matchRe R2 p s'
                     ((9, firstn (p - (pos + List.length (lit "["))) s1) :: c)
                     accept)
                (e, caps)) as Hinv.
  cbn [matchRe plus] in Hinv.
  destruct (Hinv H) as (n1 & c1 & Hn1 & Hle1 & Hc1 & H1). clear Hinv H.
  subst R2.
  remember (Grp 10 (plus (notOf ")")) <+> Str ")")%re as R3 eqn:E3.
  cbn [matchRe] in H1. unfold Str in H1 at 1.
  apply matchRe_Lit_inv in H1. destruct H1 as (s2 & Hs2 & H2). subst R3.
  cbn [matchRe] in H2.
  pose proof (matchRe_inv (plus (notOf ")"))
                (pos + List.length (lit "[") + n1 + List.length (lit "]("))
                s2
                ((9, firstn
                       (pos + List.length (lit "[") + n1
                        - (pos + List.length (lit "["))) s1) :: c1)
                (fun p s' c =>
                   matchRe (Str ")") p s'
                     ((10, firstn
                             (p - (pos + List.length (lit "[") + n1
                                   + List.length (lit "]("))) s2) :: c)
                     accept)
                (e, caps)) as Hinv.
  cbn [matchRe plus] in Hinv.
  destruct (Hinv H2) as (n2 & c2 & Hn2 & Hle2 & Hc2 & H3). clear Hinv H2.
  unfold Str in H3. apply matchRe_Lit_inv in H3.
  destruct H3 as (s3 & Hs3 & H3). unfold accept in H3.
  inversion H3; subst e caps. clear H3.
  cbn [minLen plus] in Hn1, Hn2. cbn [groupNums plus] in Hc1, Hc2.
  split.
  - cbn [lookup Nat.eqb]. rewrite (Hc2 9) by (intros []).
    cbn [lookup Nat.eqb]. apply truthy_firstn; lia.
  - cbn [lookup Nat.eqb]. apply truthy_firstn; lia.
Qed.

Lemma inline_match_node : forall pos s e caps,
  matchAt inlineRe pos s = Some (e, caps) ->
  inlineNode (mkMatch pos e caps) <> [].
Proof.
  intros pos s e caps H. unfold matchAt, inlineRe in H.
  assert (Hnode : forall g,
            (truthy (lookup g caps) = true /\
             (g = 1 \/ g = 3 \/ g = 5 \/ g = 7 \/ g = 11)) \/
            (truthy (lookup 9 caps) = true /\ truthy (lookup 10 caps) = true) ->
            inlineNode (mkMatch pos e caps) <> []).
  { intros g Hg. unfold inlineNode, group. cbn [groups].
    destruct (truthy (lookup 1 caps)) eqn:T1; [discriminate|].
    destruct (truthy (lookup 3 caps)) eqn:T3; [discriminate|].
    destruct (truthy (lookup 5 caps)) eqn:T5; [discriminate|].
    destruct (truthy (lookup 7 caps)) eqn:T7; [discriminate|].
    destruct (truthy (lookup 9 caps) && truthy (lookup 10 caps)) eqn:T9;
      [discriminate|].
    destruct (truthy (lookup 11 caps)) eqn:T11; [discriminate|].
    exfalso. destruct Hg as [(Ht & [->|[->|[->|[->| ->]]]])|(H9 & H10)];
      try congruence.
    rewrite H9, H10 in T9. discriminate. }
  cbn [matchRe] in H.
  destruct (matchRe boldRe pos s [] accept) as [[e1 c1]|] eqn:E1.
  { inversion H; subst. apply (Hnode 1). left. split; auto.
    eapply group_truthy; [|exact E1]. cbv; lia. }
  destruct (matchRe italicStarRe pos s [] accept) as [[e1 c1]|] eqn:E2.
  { inversion H; subst. apply (Hnode 3). left. split; auto.
    eapply group_truthy; [|exact E2]. cbv; lia. }
  destruct (matchRe italicUnderRe pos s [] accept) as [[e1 c1]|] eqn:E3.
  { inversion H; subst. apply (Hnode 5). left. split; auto 6.
    eapply group_truthy; [|exact E3]. cbv; lia. }
  destruct (matchRe codeSpanRe pos s [] accept) as [[e1 c1]|] eqn:E4.
  { inversion H; subst. apply (Hnode 7). left. split; auto 6.
    eapply group_truthy; [|exact E4]. cbv; lia. }
  destruct (matchRe linkRe pos s [] accept) as [[e1 c1]|] eqn:E5.
  { inversion H; subst. apply (Hnode 0). right.
    eapply link_truthy; exact E5. }
  apply (Hnode 11). left. split; auto 7.
  eapply group_truthy; [|exact H]. cbv; lia.
Qed.

(** The loop either finds no match, or ends with a node. *)
Lemma parseInlineLoop_progress : forall fuel text lastIndex nodes nodes' lastIndex',
  parseInlineLoop fuel text lastIndex nodes = Some (nodes', lastIndex') ->
  (lastIndex' = lastIndex /\ nodes' = nodes) \/ nodes' <> [].
Proof.
  induction fuel as [|fuel IH]; intros text lastIndex nodes nodes' lastIndex' H;
    cbn [parseInlineLoop] in H;
    destruct (reExec inlineRe text lastIndex) as [m|] eqn:E;
    try discriminate; try (inversion H; subst; now left).
  right.
  assert (Hm : inlineNode m <> []).
  { unfold reExec in E.
    destruct (Nat.leb lastIndex (List.length text)); [|discriminate].
    apply search_found in E. destruct E as (pre & suf & _ & E).
    apply inline_match_node in E.
    unfold inlineNode in *. exact E. }
  apply IH in H. destruct H as [[_ ->]|H]; auto.
  intros E0. apply app_eq_nil in E0. destruct E0 as [_ E0]. contradiction.
Qed.

(* ------------------------------------------------------------------ *)
(** ** What follows a construct is parsed on its own *)
(* ------------------------------------------------------------------ *)

Lemma parseInline_nil : parseInline [] = Some [Text [] None].
Proof. reflexivity. Qed.

Lemma parseInline_then : forall pre X post caps node,
  isPlain pre = true ->
  Firstly inlineRe (List.length pre) X post [] caps ->
  inlineNode (mkMatch (List.length pre) (List.length pre + List.length X) caps)
    = [node] ->
  1 <= List.length X ->
  exists rest,
    parseInline post = Some rest /\
    parseInline (pre ++ X ++ post) =
    Some (textNode pre ++ node :: (if isEmpty post then [] else rest)).
Proof.
  intros pre X post caps node Hpre HF Hnode HX.
  assert (Hexec : reExec inlineRe (pre ++ X ++ post) 0 =
                  Some (mkMatch (List.length pre)
                          (List.length pre + List.length X) caps)).
  { unfold reExec. cbn [Nat.leb skipn].
    rewrite search_skip; [|exact inlineRe_minLen|now apply plain_first].
    cbn [Nat.add]. now apply matchAt_search, Firstly_matchAt. }
  destruct (parseInlineLoop_ok (S (List.length post)) post 0 [])
    as (ns & l & Hloop & _); [lia|reflexivity|].
  pose proof (parseInlineLoop_progress _ _ _ _ _ _ Hloop) as Hprog.
  set (tailNodes := if Nat.ltb l (List.length post)
                    then ns ++ [Text (skipn l post) None] else ns).
  assert (Hpost : parseInline post =
                  Some (match tailNodes with
                        | [] => [Text [] None]
                        | _ :: _ => tailNodes
                        end)).
  { unfold parseInline. rewrite Hloop. reflexivity. }
  assert (Hrest :
    (if isEmpty post then []
     else match tailNodes with
          | [] => [Text [] None]
          | _ :: _ => tailNodes
          end) = tailNodes).
  { unfold tailNodes. destruct post as [|c post].
    - cbn [isEmpty List.length]. cbn in Hloop. inversion Hloop; subst.
      reflexivity.
    - cbn [isEmpty].
      destruct (Nat.ltb_spec l (List.length (c :: post))) as [Hl|Hl].
      + destruct ns; reflexivity.
      + destruct Hprog as [[-> _]|Hns].
        * cbn [List.length] in Hl. lia.
        * destruct ns; [contradiction|reflexivity]. }
  eexists. split; [exact Hpost|]. rewrite Hrest. clear Hpost Hrest.
  unfold parseInline. cbn [parseInlineLoop]. rewrite Hexec.
  cbn [index stop]. rewrite Hnode.
  assert (Hslice : slice (pre ++ X ++ post) 0 (List.length pre) = pre).
  { unfold slice. cbn [skipn]. rewrite Nat.sub_0_r. now rewrite firstn_exact. }
  rewrite Hslice.
  assert (Hpre' : (if Nat.ltb 0 (List.length pre)
                   then [] ++ [Text pre None] else []) = textNode pre)
    by (now destruct pre).
  rewrite Hpre'.
  rewrite (app_assoc pre X post).
  assert (Hlen : List.length pre + List.length X = List.length (pre ++ X) + 0)
    by (rewrite length_app; lia).
  rewrite Hlen.
  rewrite <- (app_nil_r (textNode pre ++ [node])).
  rewrite parseInlineLoop_shift.
  assert (Hfuel : List.length post < List.length ((pre ++ X) ++ post) + 0)
    by (rewrite !length_app; lia).
  rewrite (parseInlineLoop_fuel _ (S (List.length post)) post 0 [] Hfuel)
    by lia.
  rewrite Hloop. cbn [bind].
  rewrite (length_app (pre ++ X) post).
  assert (Hlt : Nat.ltb (List.length (pre ++ X) + l)
                  (List.length (pre ++ X) + List.length post)
                = Nat.ltb l (List.length post)).
  { destruct (Nat.ltb_spec l (List.length post));
      [apply Nat.ltb_lt|apply Nat.ltb_ge]; lia. }
  rewrite Hlt.
  rewrite skipn_app, skipn_all2 by lia.
  replace (List.length (pre ++ X) + l - List.length (pre ++ X)) with l by lia.
  cbn [app]. fold tailNodes.
  assert (Hall : (if Nat.ltb l (List.length post)
                  then ((textNode pre ++ [node]) ++ ns)
                       ++ [Text (skipn l post) None]
                  else (textNode pre ++ [node]) ++ ns)
                 = textNode pre ++ node :: tailNodes).
  { unfold tailNodes. destruct (Nat.ltb l (List.length post));
      rewrite <- !app_assoc; reflexivity. }
  rewrite Hall.
  destruct (textNode pre ++ node :: tailNodes) eqn:E; auto.
  destruct (textNode pre); discriminate.
Qed.

(** The first match at a construct, and its node. *)
Lemma construct_Firstly : forall c post pos,
  wfConstruct c post = true ->
  exists caps,
    Firstly inlineRe pos (constructText c) post [] caps /\
    inlineNode (mkMatch pos (pos + List.length (constructText c)) caps)
      = [constructNode c] /\
    1 <= List.length (constructText c).
Proof.
  intros c post pos H. destruct c as [t|d t|t|label url|id]; cbn [wfConstruct] in H;
    repeat (apply Bool.andb_true_iff in H; destruct H as [H ?]).
  - assert (t <> []) by (destruct t; [discriminate|discriminate]).
    eexists. split; [apply bold_Firstly; auto|]. split; [reflexivity|cbn; lia].
  - assert (t <> []) by (destruct t; [discriminate|discriminate]).
    apply Bool.orb_true_iff in H. destruct H as [H|H]; apply N.eqb_eq in H;
      subst d.
    + eexists. split; [apply italicStar_Firstly; auto|].
      split; [reflexivity|cbn; lia].
    + eexists. split; [apply italicUnder_Firstly; auto|].
      split; [reflexivity|cbn; lia].
  - assert (t <> []) by (destruct t; [discriminate|discriminate]).
    eexists. split; [apply codeSpan_Firstly; auto|].
    split; [reflexivity|cbn; lia].
  - assert (label <> []) by (destruct label; [discriminate|discriminate]).
    assert (url <> []) by (destruct url; [discriminate|discriminate]).
    eexists. split; [apply link_Firstly; auto|].
    split; [|cbn; lia].
    destruct label; [contradiction|]. destruct url; [contradiction|].
    reflexivity.
  - assert (id <> []) by (destruct id; [discriminate|discriminate]).
    eexists. split; [apply mention_Firstly; auto|].
    split; [reflexivity|cbn; lia].
Qed.

(** A plain text, a construct and any text: the node of the plain text, the
    node of the construct, and the nodes of the text after it parsed on its
    own. *)
Lemma parseInline_construct : forall pre c post,
  isPlain pre = true -> wfConstruct c post = true ->
  exists rest,
    parseInline post = Some rest /\
    parseInline (pre ++ constructText c ++ post) =
    Some (textNode pre ++ constructNode c
          :: (if isEmpty post then [] else rest)).
Proof.
  intros pre c post Hpre Hc.
  destruct (construct_Firstly c post (List.length pre) Hc)
    as (caps & HF & Hnode & Hlen).
  now apply (parseInline_then pre (constructText c) post caps).
Qed.

(** ** The converter without the blockquote case returns *)




(** ** The room on the call stack *)

Lemma quoteNesting_app : forall a b,
  quoteNesting (a ++ b) = Nat.max (quoteNesting a) (quoteNesting b).
Proof.
  intros a b. unfold quoteNesting. now rewrite map_app, list_max_app.
Qed.

Lemma quoteNesting_snoc : forall a b,
  quoteNesting (a ++ [b]) = Nat.max (quoteNesting a) (blockNesting b).
Proof.
  intros a b. rewrite quoteNesting_app. unfold quoteNesting at 2.
  cbn [map list_max fold_right]. now rewrite Nat.max_0_r.
Qed.

Lemma quoteNesting_snoc_flat : forall a b,
  blockNesting b = 0 -> quoteNesting (a ++ [b]) = quoteNesting a.
Proof.
  intros a b H. rewrite quoteNesting_snoc, H. apply Nat.max_0_r.
Qed.

Lemma flushParagraph_nesting : forall blocks paraLines blocks',
  flushParagraph blocks paraLines = Some blocks' ->
  quoteNesting blocks' = quoteNesting blocks.
Proof.
  intros blocks paraLines blocks' H. unfold flushParagraph in H.
  destruct paraLines as [|l ls]; [now inversion H|]. cbv zeta in H.
  destruct (isEmpty _); [now inversion H|].
  destruct (parseInline _); cbn [bind] in H; [|discriminate].
  inversion H. now apply quoteNesting_snoc_flat.
Qed.

Lemma parseTableBlock_nesting : forall lines tbl,
  parseTableBlock lines = Some tbl -> blockNesting tbl = 0.
Proof.
  intros lines tbl H. unfold parseTableBlock in H.
  destruct (parseTableRows 0 lines []); cbn [bind] in H; [|discriminate].
  now inversion H.
Qed.

Lemma assemble_nesting : forall blocks,
  quoteNesting (content (assemble blocks)) = quoteNesting blocks.
Proof. intros [|b blocks]; reflexivity. Qed.

(** A line that passes the quote test opens no earlier construct, so the
    loop takes the quote case: it calls the converter on the dedented run
    of quote lines. *)
Lemma blockStep_quote : forall recur line rest blocks buf,
  reTest quoteRe (trimEnd line) = true ->
  blockStep recur line rest blocks buf =
  (blocks' <- flushParagraph blocks buf ;;
   innerDoc <-
     recur (join LF (map (reRemove quoteRe)
                       (fst (span (fun l => reTest quoteRe (trimEnd l))
                               (line :: rest))))) ;;
   Some (blocks' ++ [Blockquote (content innerDoc)], [],
         snd (span (fun l => reTest quoteRe (trimEnd l)) (line :: rest)))).
Proof.
  intros recur line rest blocks buf Hquote. unfold blockStep. cbv zeta.
  destruct (quoteTest_head _ Hquote) as (r & Hr).
  destruct (quote_tests r) as (H1 & H2 & H3 & H4).
  rewrite Hr, H1, H2, H3, H4.
  destruct (span _ (line :: rest)) as [quoted after]. reflexivity.
Qed.

Section StepStack.

Variables recur1 recur2 : str -> option Document.
Variable room : nat.
Variable n : nat.

(** On the texts shorter than [n] the second call returns, and the first
    returns the same document when its block quotes nest less than [room]
    deep, and nothing otherwise. *)
Hypothesis recur_room : forall t,
  List.length t < n ->
  exists d, recur2 t = Some d /\
            recur1 t = if Nat.ltb (quoteNesting (content d)) room
                       then Some d else None.

Ltac flat_step Hroom :=
  match goal with
  | |- context [flushParagraph ?b ?p] =>
      let b1 := fresh "blocks1" in
      let E := fresh "Hflush" in
      destruct (flushParagraph b p) as [b1|] eqn:E; cbn [bind within];
      [apply flushParagraph_nesting in E|reflexivity]
  end.

Ltac flat_done Hroom E :=
  cbn [within];
  rewrite ?quoteNesting_snoc_flat by (reflexivity || assumption);
  rewrite E; apply Nat.leb_le in Hroom; now rewrite Hroom.

Lemma blockStep_room : forall line rest blocks buf,
  lineSize (line :: rest) <= S n ->
  quoteNesting blocks <= room ->
  blockStep recur1 line rest blocks buf =
  within room (blockStep recur2 line rest blocks buf).
Proof.
  intros line rest blocks buf Hsize Hroom.
  destruct (reTest quoteRe (trimEnd line)) eqn:Hquote.
  { rewrite !blockStep_quote by exact Hquote.
    flat_step Hroom.
    rewrite (span_cons_true (fun l => reTest quoteRe (trimEnd l)) line rest Hquote).
    pose proof (span_app (fun l => reTest quoteRe (trimEnd l)) rest) as Happ.
    pose proof (span_fst_all (fun l => reTest quoteRe (trimEnd l)) rest) as Hall.
    destruct (span _ rest) as [quoted after]. cbn [fst snd] in *.
    destruct (recur_room (join LF (map (reRemove quoteRe) (line :: quoted))))
      as (d & -> & ->).
    - assert (Hq : forallb (fun l => reTest quoteRe (trimEnd l))
                     (line :: quoted) = true).
      { cbn [forallb]. now rewrite Hquote, Hall. }
      apply dedent_size in Hq.
      pose proof (join_size LF (reRemove quoteRe line)
                    (map (reRemove quoteRe) quoted)) as Hj.
      cbn [map] in *. cbn [List.length] in Hq.
      rewrite Happ in Hsize.
      rewrite lineSize_cons, lineSize_app in Hsize.
      rewrite (lineSize_cons line) in Hq. lia.
    - cbn [bind within]. rewrite quoteNesting_snoc, Hflush.
      cbn [blockNesting]. fold (quoteNesting (content d)).
      destruct (Nat.ltb_spec (quoteNesting (content d)) room);
        destruct (Nat.leb_spec
                    (Nat.max (quoteNesting blocks) (S (quoteNesting (content d))))
                    room); cbn [bind]; auto; lia. }
  unfold blockStep. cbv zeta. rewrite Hquote.
  destruct (reMatch codeFenceRe (trimEnd line)) as [codeMatch|].
  { flat_step Hroom. destruct (span _ rest) as [codeLines after].
    flat_done Hroom Hflush. }
  destruct (reTest ruleRe (trimEnd line)).
  { flat_step Hroom. flat_done Hroom Hflush. }
  destruct (reMatch headingRe (trimEnd line)) as [headingMatch|].
  { flat_step Hroom. destruct (parseInline _); cbn [bind]; [|reflexivity].
    flat_done Hroom Hflush. }
  destruct (reTest tableLineRe (trimEnd line) &&
            reTest separatorRe (nextLineOf rest)).
  { flat_step Hroom. destruct (span _ (line :: rest)) as [run after].
    destruct (parseTableBlock run) as [tbl|] eqn:Et; cbn [bind]; [|reflexivity].
    apply parseTableBlock_nesting in Et. flat_done Hroom Hflush. }
  destruct (reTest bulletRe line).
  { flat_step Hroom. destruct (span _ (line :: rest)) as [run after].
    destruct (listItems _ _); cbn [bind]; [|reflexivity].
    flat_done Hroom Hflush. }
  destruct (reTest orderedRe line).
  { flat_step Hroom. destruct (span _ (line :: rest)) as [run after].
    destruct (listItems _ _); cbn [bind]; [|reflexivity].
    flat_done Hroom Hflush. }
  destruct (isEmpty (trimEnd line)).
  { flat_step Hroom. flat_done Hroom Hflush. }
  cbn [within]. apply Nat.leb_le in Hroom. now rewrite Hroom.
Qed.

End StepStack.
(** The blocks only grow along the loop. *)
Lemma blockLoop_nesting : forall recur fuel lines blocks buf blocks' buf',
  blockLoop recur fuel lines blocks buf = Some (blocks', buf') ->
  quoteNesting blocks <= quoteNesting blocks'.
Proof.
  intros recur fuel lines blocks buf blocks' buf' H.
  rewrite <- (app_nil_r blocks) in H. rewrite blockLoop_acc in H.
  destruct (blockLoop recur fuel lines [] buf) as [[new buf1]|];
    [|discriminate].
  inversion H. rewrite quoteNesting_app. lia.
Qed.

Section LoopStack.

Variables recur1 recur2 : str -> option Document.
Variable room : nat.
Variable n : nat.

Hypothesis recur_room : forall t,
  List.length t < n ->
  exists d, recur2 t = Some d /\
            recur1 t = if Nat.ltb (quoteNesting (content d)) room
                       then Some d else None.

(** The loop with the first call returns what the loop with the second
    returns when no block quote pushed nests deeper than [room], and
    nothing otherwise. *)
Lemma blockLoop_room : forall fuel lines blocks buf,
  lineSize lines <= S n ->
  quoteNesting blocks <= room ->
  blockLoop recur1 fuel lines blocks buf =
  match blockLoop recur2 fuel lines blocks buf with
  | Some (blocks', buf') =>
      if Nat.leb (quoteNesting blocks') room then Some (blocks', buf') else None
  | None => None
  end.
Proof.
  induction fuel as [|fuel IH]; intros lines blocks buf Hsize Hroom;
    destruct lines as [|line rest]; cbn [blockLoop]; auto;
    try (apply Nat.leb_le in Hroom; now rewrite Hroom).
  rewrite (blockStep_room recur1 recur2 room n recur_room line rest blocks buf
             Hsize Hroom).
  destruct (blockStep recur2 line rest blocks buf)
    as [[[blocks1 buf1] lines1]|] eqn:Hstep; cbn [within bind]; auto.
  apply blockStep_suffix in Hstep. destruct Hstep as (pre & Hpre).
  apply suffix_size in Hpre. rewrite lineSize_cons in Hsize.
  destruct (Nat.leb_spec (quoteNesting blocks1) room) as [Hle|Hgt];
    cbn [bind].
  - apply IH; [lia|exact Hle].
  - destruct (blockLoop recur2 fuel lines1 blocks1 buf1)
      as [[blocks' buf']|] eqn:Hloop; auto.
    apply blockLoop_nesting in Hloop.
    destruct (Nat.leb_spec (quoteNesting blocks') room); auto. lia.
Qed.

End LoopStack.

(** With room for [stack] nested calls the converter returns the document
    of the text when the block quotes of the document nest less than
    [stack] deep, and exhausts the call stack otherwise. *)
Lemma markdownToAdfAt_room : forall n markdown stack,
  List.length markdown <= n ->
  exists d,
    markdownToAdf markdown = Some d /\
    markdownToAdfAt stack markdown =
    if Nat.ltb (quoteNesting (content d)) stack then Some d else None.
Proof.
  induction n as [n IH] using lt_wf_ind. intros markdown stack Hlen.
  destruct (markdownToAdf_total markdown) as (d & Hd & _).
  exists d. split; [exact Hd|].
  destruct stack as [|stack]; [reflexivity|].
  unfold markdownToAdf in Hd. cbn [markdownToAdfAt] in Hd |- *.
  rewrite (blockLoop_room (markdownToAdfAt stack)
             (markdownToAdfAt (List.length markdown)) stack
             (List.length markdown)).
  - destruct (blockLoop (markdownToAdfAt (List.length markdown)) _ _ _ _)
      as [[blocks buf]|]; cbn [bind] in Hd |- *; [|discriminate].
    destruct (flushParagraph blocks buf) as [blocks'|] eqn:Hflush;
      cbn [bind] in Hd; [|discriminate].
    inversion Hd; subst d. rewrite assemble_nesting.
    rewrite (flushParagraph_nesting _ _ _ Hflush).
    change (Nat.ltb (quoteNesting blocks) (S stack))
      with (Nat.leb (quoteNesting blocks) stack).
    destruct (Nat.leb (quoteNesting blocks) stack); cbn [bind]; auto.
    now rewrite Hflush.
  - intros t Ht.
    destruct (IH (List.length t) ltac:(lia) t stack (le_n _)) as (dt & Hdt & Hat).
    exists dt. split; [|exact Hat].
    rewrite <- Hdt. unfold markdownToAdf.
    apply markdownToAdfAt_stable; lia.
  - rewrite split_size. lia.
  - cbn. lia.
Qed.

Lemma markdownToAdfAt_stack : forall markdown,
  exists d,
    markdownToAdf markdown = Some d /\ wfDocument d = true /\
    quoteNesting (content d) <= List.length markdown /\
    forall stack,
      markdownToAdfAt stack markdown =
      if Nat.ltb (quoteNesting (content d)) stack then Some d else None.
Proof.
  intros markdown.
  destruct (markdownToAdf_total markdown) as (d & Hd & Hwf).
  exists d. split; [exact Hd|]. split; [exact Hwf|].
  assert (Hall : forall stack,
            markdownToAdfAt stack markdown =
            if Nat.ltb (quoteNesting (content d)) stack then Some d else None).
  { intros stack.
    destruct (markdownToAdfAt_room (List.length markdown) markdown stack
                (le_n _)) as (d' & Hd' & Hat).
    rewrite Hd in Hd'. inversion Hd'; subst d'. exact Hat. }
  split; [|exact Hall].
  specialize (Hall (S (List.length markdown))).
  fold (markdownToAdf markdown) in Hall. rewrite Hd in Hall.
  destruct (Nat.ltb_spec (quoteNesting (content d)) (S (List.length markdown)));
    [lia|discriminate].
Qed.

(** The converter gives no document exactly when the call stack has no
    room for the nesting of the text. *)
Lemma markdownToAdfAt_None : forall stack markdown,
  markdownToAdfAt stack markdown = None <-> stack <= nesting markdown.
Proof.
  intros stack markdown.
  destruct (markdownToAdfAt_stack markdown) as (d & Hd & _ & _ & Hall).
  unfold nesting. rewrite Hd, Hall.
  destruct (Nat.ltb_spec (quoteNesting (content d)) stack); split;
    intros H'; try discriminate; auto; lia.
Qed.

Lemma markdownToAdfAt_nesting : forall stack markdown,
  markdownToAdfAt stack markdown =
  if Nat.ltb (nesting markdown) stack then markdownToAdf markdown else None.
Proof.
  intros stack markdown.
  destruct (markdownToAdfAt_stack markdown) as (d & Hd & _ & _ & Hall).
  unfold nesting. rewrite Hd, Hall. reflexivity.
Qed.

(** The body of a quoted fenced block is not read for quote markers. *)
Example nesting_fence_body :
  nesting (nl ["> ```"; "> > > > x"; "> ```"]%string) = 1.
Proof. reflexivity. Qed.

Lemma nestedBlocks_nesting : forall n, quoteNesting (nestedBlocks n) = n.
Proof.
  induction n as [|n IH]; [reflexivity|].
  cbn [nestedBlocks]. unfold quoteNesting. cbn [map blockNesting list_max fold_right].
  fold (quoteNesting (nestedBlocks n)). rewrite IH. now rewrite Nat.max_0_r.
Qed.

Lemma nesting_nested : forall n, nesting (nestedQuote n) = n.
Proof.
  intros n. unfold nesting. rewrite markdownToAdf_nested.
  apply nestedBlocks_nesting.
Qed.

(** [n] markers need room for [n] nested calls and one more. *)
Lemma markdownToAdfAt_nested : forall stack n,
  markdownToAdfAt stack (nestedQuote n) =
  if Nat.ltb n stack then Some (mkDocument 1 (nestedBlocks n)) else None.
Proof.
  intros stack n.
  destruct (markdownToAdfAt_stack (nestedQuote n)) as (d & Hd & _ & _ & Hall).
  rewrite markdownToAdf_nested in Hd. inversion Hd; subst d.
  rewrite Hall. cbn [content]. now rewrite nestedBlocks_nesting.
Qed.

(** Quoting a text takes one more nested call. *)
Lemma markdownToAdfAt_quoted : forall stack a,
  markdownToAdfAt (S stack) (quoteText a) =
  match markdownToAdfAt stack a with
  | Some d => Some (mkDocument 1 [Blockquote (content d)])
  | None => None
  end.
Proof.
  intros stack a. cbn [markdownToAdfAt].
  unfold quoteText.
  pose proof (split_nonEmpty LF a) as Hne.
  pose proof (split_no_newline LF a) as Hnl.
  pose proof (join_split LF a) as Hjs.
  destruct (split LF a) as [|l ls]; [discriminate|].
  cbn [map]. rewrite split_join
    by (apply (quoted_no_newline (l :: ls)); exact Hnl).
  cbn [List.length blockLoop].
  rewrite blockStep_quoted. cbn [flushParagraph bind].
  unfold str in *. rewrite Hjs.
  destruct (markdownToAdfAt stack a) as [d|]; cbn [bind app]; auto.
  rewrite blockLoop_nil. reflexivity.
Qed.

Lemma nesting_quoted : forall a, nesting (quoteText a) = S (nesting a).
Proof.
  intros a. unfold nesting.
  destruct (markdownToAdf_total a) as (d & Hd & _).
  rewrite (markdownToAdf_quoted a d Hd), Hd. cbn [content].
  unfold quoteNesting at 1. cbn [map blockNesting list_max fold_right].
  fold (quoteNesting (content d)). now rewrite Nat.max_0_r.
Qed.

(* ================================================================== *)
(** * The specification, claim by claim *)
(* ================================================================== *)

(** C1. For every input the converter returns a document whose content is
    not empty: the content is the sequence of blocks of the scan, and the
    single paragraph with one empty text node when the scan produced no
    block. *)
Theorem content_never_empty : forall markdown,
  exists blocks d,
    scanBlocks markdown = Some blocks /\
    markdownToAdf markdown = Some d /\
    content d = match blocks with
                | [] => [Paragraph [Text [] None]]
                | _ :: _ => blocks
                end /\
    content d <> [].
Proof.
  intros markdown.
  destruct (markdownToAdf_total markdown) as (d & Hd & _).
  rewrite markdownToAdf_scan in Hd.
  destruct (scanBlocks markdown) as [blocks|] eqn:Hscan; [|discriminate].
  cbn [bind] in Hd. inversion Hd; subst; clear Hd.
  exists blocks, (assemble blocks).
  rewrite markdownToAdf_scan, Hscan. cbn [bind].
  split; [reflexivity|]. split; [reflexivity|].
  split; destruct blocks; cbn; try reflexivity; discriminate.
Qed.

(** C2, as stated: the converter returns a document for every input, nested
    block quotes included.  The call for a run of quote lines is not
    guarded and every level of quoting takes one nested call more, so no
    call stack has room for every input: with room for 4000 nested calls
    the text of 4000 quote markers and a letter gives no document, and
    whatever the room there is such a text. *)
Lemma deep_quotes_exhaust_stack_counterexample :
  markdownToAdfAt 4000 (nestedQuote 4000) = None /\
  ~ (exists stack, forall markdown,
        exists d, markdownToAdfAt stack markdown = Some d).
Proof.
  split.
  - rewrite markdownToAdfAt_nested. now rewrite Nat.ltb_irrefl.
  - intros (stack & H). destruct (H (nestedQuote stack)) as (d & Hd).
    rewrite markdownToAdfAt_nested, Nat.ltb_irrefl in Hd. discriminate.
Qed.

(** C2, amended. The converter terminates on every input: it returns a
    well-formed document where the call stack has room, and the engine
    stops it where not.  The document does not depend on the room; room
    for one nested call more than the block quotes of the document nest
    deep is enough and is needed, and that nesting is at most the length of
    the input.  At a quote line the loop calls the converter on the
    dedented text of the run of quote lines, which is strictly shorter than
    the run; so an iteration depends on the nested call only through texts
    strictly shorter than the text it still has to read. *)
Theorem markdownToAdf_terminates :
  (forall markdown,
     exists d,
       wfDocument d = true /\
       quoteNesting (content d) <= List.length markdown /\
       forall stack,
         markdownToAdfAt stack markdown =
         if Nat.ltb (quoteNesting (content d)) stack then Some d else None) /\
  (forall recur line rest blocks buf,
     reTest quoteRe (trimEnd line) = true ->
     blockStep recur line rest blocks buf =
     (blocks' <- flushParagraph blocks buf ;;
      innerDoc <-
        recur (join LF (map (reRemove quoteRe)
                          (fst (span (fun l => reTest quoteRe (trimEnd l))
                                  (line :: rest))))) ;;
      Some (blocks' ++ [Blockquote (content innerDoc)], [],
            snd (span (fun l => reTest quoteRe (trimEnd l)) (line :: rest))))) /\
  (forall line rest,
     reTest quoteRe (trimEnd line) = true ->
     List.length
       (join LF (map (reRemove quoteRe)
                   (fst (span (fun l => reTest quoteRe (trimEnd l))
                           (line :: rest)))))
     < List.length
         (join LF (fst (span (fun l => reTest quoteRe (trimEnd l))
                          (line :: rest))))) /\
  (forall recur1 recur2 line rest blocks buf,
     (forall s, List.length s < List.length (join LF (line :: rest)) ->
                recur1 s = recur2 s) ->
     blockStep recur1 line rest blocks buf =
     blockStep recur2 line rest blocks buf).
Proof.
  split; [|split; [|split]].
  - intros markdown.
    destruct (markdownToAdfAt_stack markdown) as (d & _ & Hwf & Hlen & Hall).
    exists d. auto.
  - exact blockStep_quote.
  - exact quote_run_shorter.
  - intros recur1 recur2 line rest blocks buf Hagree.
    apply (blockStep_ext recur1 recur2 _ Hagree).
    rewrite <- (join_size LF). lia.
Qed.

Lemma markdownToAdf_terminates_witness :
  (reTest quoteRe (trimEnd (lit "> > a")) = true /\
   (forall s, List.length s < List.length (join LF [lit "> > a"; lit "> b"]) ->
              markdownToAdf s =
              (if Nat.ltb (List.length s) 9 then markdownToAdf s else None))) /\
  (exists d,
     wfDocument d = true /\
     quoteNesting (content d) <= List.length (nl ["> > a"; "> b"]%string) /\
     forall stack,
       markdownToAdfAt stack (nl ["> > a"; "> b"]%string) =
       if Nat.ltb (quoteNesting (content d)) stack then Some d else None) /\
  blockStep markdownToAdf (lit "> > a") [lit "> b"] [] [] =
  (blocks' <- flushParagraph [] [] ;;
   innerDoc <-
     markdownToAdf
       (join LF (map (reRemove quoteRe)
                   (fst (span (fun l => reTest quoteRe (trimEnd l))
                           (lit "> > a" :: [lit "> b"]))))) ;;
   Some (blocks' ++ [Blockquote (content innerDoc)], [],
         snd (span (fun l => reTest quoteRe (trimEnd l))
                (lit "> > a" :: [lit "> b"])))) /\
  List.length
    (join LF (map (reRemove quoteRe)
                (fst (span (fun l => reTest quoteRe (trimEnd l))
                        (lit "> > a" :: [lit "> b"])))))
  < List.length
      (join LF (fst (span (fun l => reTest quoteRe (trimEnd l))
                       (lit "> > a" :: [lit "> b"])))) /\
  blockStep markdownToAdf (lit "> > a") [lit "> b"] [] [] =
  blockStep (fun s => if Nat.ltb (List.length s) 9 then markdownToAdf s else None)
    (lit "> > a") [lit "> b"] [] [].
Proof.
  assert (Hagree :
    forall s, List.length s < List.length (join LF [lit "> > a"; lit "> b"]) ->
              markdownToAdf s =
              (if Nat.ltb (List.length s) 9 then markdownToAdf s else None)).
  { intros s Hs. change (List.length s < 9) in Hs.
    apply Nat.ltb_lt in Hs. now rewrite Hs. }
  split; [split; [reflexivity | exact Hagree]|].
  split; [|split; [|split]].
  - exact (proj1 markdownToAdf_terminates (nl ["> > a"; "> b"]%string)).
  - exact (proj1 (proj2 markdownToAdf_terminates) markdownToAdf
             (lit "> > a") [lit "> b"] [] [] eq_refl).
  - exact (proj1 (proj2 (proj2 markdownToAdf_terminates))
             (lit "> > a") [lit "> b"] eq_refl).
  - exact (proj2 (proj2 (proj2 markdownToAdf_terminates)) _ _
             (lit "> > a") [lit "> b"] [] [] Hagree).
Defined.

(** C3, as stated: there is a nesting depth, chosen by the implementation,
    beyond which the converter reports an error instead of returning a
    document.  The converter chooses no depth: whatever the depth, where
    the call stack has room for two nested calls more, the text of one
    quote marker more than the depth and a letter gives a document. *)
Lemma no_nesting_limit_counterexample :
  ~ (exists d, forall stack markdown,
        d < nesting markdown -> markdownToAdfAt stack markdown = None).
Proof.
  intros (d & H). specialize (H (S (S d)) (nestedQuote (S d))).
  rewrite nesting_nested, markdownToAdfAt_nested in H.
  assert (Hlt : Nat.ltb (S d) (S (S d)) = true) by (apply Nat.ltb_lt; lia).
  rewrite Hlt in H. discriminate H. lia.
Qed.

(** C3, amended. The converter has no maximum nesting depth of its own and
    no outcome that reports a nesting too deep: it gives the document of
    the text where the call stack has room for more nested calls than the
    block quotes of the text nest deep, and where not the calls exhaust the
    stack, which is the only way it gives no document.  The text of [n]
    quote markers and a letter, of nesting [n], gives [n] block quotes one
    inside the other, or exhausts a stack with room for [n] calls or
    fewer. *)
Theorem nesting_limited_by_call_stack :
  (forall markdown,
     exists d,
       quoteNesting (content d) = nesting markdown /\
       forall stack,
         markdownToAdfAt stack markdown =
         if Nat.ltb (nesting markdown) stack then Some d else None) /\
  (forall stack n,
     nesting (nestedQuote n) = n /\
     markdownToAdfAt stack (nestedQuote n) =
     if Nat.ltb n stack then Some (mkDocument 1 (nestedBlocks n)) else None).
Proof.
  split.
  - intros markdown.
    destruct (markdownToAdf_total markdown) as (d & Hd & _).
    exists d. split; [unfold nesting; now rewrite Hd|].
    intros stack. now rewrite markdownToAdfAt_nesting, Hd.
  - intros stack n. split; [apply nesting_nested|apply markdownToAdfAt_nested].
Qed.

(** C4. The empty string gives a document of exactly one paragraph that
    holds exactly one text node, with the empty text and no marks; so does
    every input of white space: none of its lines starts a block. *)
Theorem empty_input_single_empty_paragraph :
  markdownToAdf [] = Some (mkDocument 1 [Paragraph [Text [] None]]) /\
  (forall markdown,
     forallb isSpace markdown = true ->
     scanBlocks markdown = Some [] /\
     markdownToAdf markdown = Some (mkDocument 1 [Paragraph [Text [] None]])).
Proof.
  split; [reflexivity|].
  intros markdown H. split; [|now apply markdownToAdf_spaces].
  unfold scanBlocks. cbv zeta.
  rewrite blockLoop_blank; auto.
  now apply split_spaces.
Qed.

Lemma empty_input_single_empty_paragraph_witness :
  forallb isSpace (nl ["  "; " "; "   "]%string) = true /\
  scanBlocks (nl ["  "; " "; "   "]%string) = Some [] /\
  markdownToAdf (nl ["  "; " "; "   "]%string) =
  Some (mkDocument 1 [Paragraph [Text [] None]]).
Proof.
  split; [reflexivity|].
  apply (proj2 empty_input_single_empty_paragraph). reflexivity.
Defined.

(** C5. The example is a single paragraph of three text nodes: [bold] with
    the strong mark only, [ and ] without marks, [italic] with the em mark
    only.  In general, at a scan position where both the bold and the
    asterisk italic alternative match, the match of the whole expression is
    the bold one and the node pushed is a strong text. *)
Theorem bold_before_italic :
  markdownToAdf (lit "**bold** and *italic*") =
    Some (mkDocument 1
            [Paragraph [Text (lit "bold") (Some [Strong]);
                        Text (lit " and ") None;
                        Text (lit "italic") (Some [Em])]]) /\
  (forall text lastIndex mb mi,
     reExec boldRe text lastIndex = Some mb -> index mb = lastIndex ->
     reExec italicStarRe text lastIndex = Some mi -> index mi = lastIndex ->
     reExec inlineRe text lastIndex = Some mb /\
     inlineNode mb = [Text (orEmpty (group 2 mb)) (Some [Strong])]).
Proof.
  split; [reflexivity|].
  intros text lastIndex mb mi Hb Hib _ _. now apply reExec_bold_first.
Qed.

Lemma bold_before_italic_witness :
  (reExec boldRe (lit "a **x** b") 2 =
     Some (mkMatch 2 7 [(1, lit "**x**"); (2, lit "x")]) /\
   reExec italicStarRe (lit "a **x** b") 2 =
     Some (mkMatch 2 6 [(3, lit "**x*"); (4, lit "*x")])) /\
  reExec inlineRe (lit "a **x** b") 2 =
    Some (mkMatch 2 7 [(1, lit "**x**"); (2, lit "x")]) /\
  inlineNode (mkMatch 2 7 [(1, lit "**x**"); (2, lit "x")]) =
    [Text (lit "x") (Some [Strong])].
Proof.
  split; [split; reflexivity|].
  exact (proj2 bold_before_italic (lit "a **x** b") 2
           (mkMatch 2 7 [(1, lit "**x**"); (2, lit "x")])
           (mkMatch 2 6 [(3, lit "**x*"); (4, lit "*x")])
           eq_refl eq_refl eq_refl eq_refl).
Defined.

(** C6. The fenced block of the example is a single code block with the
    language [js] and the single unmarked text [code].  In general the lines
    between the opening fence and the closing fence, or the end of the
    input, are the text of the block as they are: no inline parsing, also
    when they hold asterisks. *)
Theorem fenced_code_verbatim :
  markdownToAdf (nl ["```js"; "code"; "```"]%string) =
    Some (mkDocument 1 [CodeBlock (Some (lit "js")) [Text (lit "code") None]]) /\
  markdownToAdf (nl ["```"; "**a** and *b*"; "` * `"]%string) =
    Some (mkDocument 1
            [CodeBlock None [Text (nl ["**a** and *b*"; "` * `"]%string) None]]) /\
  (forall lang body closing,
     forallb isWord lang = true ->
     Forall (fun l => forallb (fun c => negb (N.eqb c LF)) l = true)
            (body ++ closingLines closing) ->
     forallb (fun l => negb (startsWith fence (trimEnd l))) body = true ->
     forallb (fun l => startsWith fence (trimEnd l)) (closingLines closing)
       = true ->
     markdownToAdf (join LF ((fence ++ lang) :: body ++ closingLines closing)) =
     Some (mkDocument 1
             [CodeBlock (match lang with [] => None | _ :: _ => Some lang end)
                [Text (join LF body) None]])).
Proof.
  split; [reflexivity|]. split; [reflexivity|].
  exact markdownToAdf_fenced.
Qed.

Lemma fenced_code_verbatim_witness :
  (forallb isWord (lit "py") = true /\
   Forall (fun l => forallb (fun c => negb (N.eqb c LF)) l = true)
          ([lit "x = a * b"; lit "**y**"] ++ closingLines (Some (lit "``` "))) /\
   forallb (fun l => negb (startsWith fence (trimEnd l)))
           [lit "x = a * b"; lit "**y**"] = true /\
   forallb (fun l => startsWith fence (trimEnd l))
           (closingLines (Some (lit "``` "))) = true) /\
  markdownToAdf
    (join LF ((fence ++ lit "py")
              :: [lit "x = a * b"; lit "**y**"]
                 ++ closingLines (Some (lit "``` ")))) =
  Some (mkDocument 1
          [CodeBlock (Some (lit "py"))
             [Text (join LF [lit "x = a * b"; lit "**y**"]) None]]).
Proof.
  assert (Hlines :
    Forall (fun l => forallb (fun c => negb (N.eqb c LF)) l = true)
           ([lit "x = a * b"; lit "**y**"] ++ closingLines (Some (lit "``` ")))).
  { repeat constructor. }
  split.
  - split; [reflexivity|]. split; [exact Hlines|]. split; reflexivity.
  - apply (proj2 (proj2 fenced_code_verbatim) (lit "py")
             [lit "x = a * b"; lit "**y**"] (Some (lit "``` ")));
      [reflexivity | exact Hlines | reflexivity | reflexivity].
Defined.

(** C7. The three lines of the example give a single table of two rows: the
    header cells [A] and [B], then the body cells [1] and [2].  In general a
    table has one row for each line that is no separator row and none for a
    separator row; the row of the first line has header cells, every other
    row has body cells. *)
Theorem table_rows :
  markdownToAdf (nl ["| A | B |"; "|---|---|"; "| 1 | 2 |"]%string) =
    Some (mkDocument 1
            [Table false (lit "default")
               [tableRow [Cell tableHeader [Paragraph [Text (lit "A") None]];
                          Cell tableHeader [Paragraph [Text (lit "B") None]]];
                tableRow [Cell tableCell [Paragraph [Text (lit "1") None]];
                          Cell tableCell [Paragraph [Text (lit "2") None]]]]]) /\
  (forall lines,
     exists rows,
       parseTableBlock lines = Some (Table false (lit "default") rows) /\
       List.length rows =
         List.length (filter (fun l => negb (isSeparator l)) lines) /\
       match lines with
       | [] => True
       | l :: _ =>
           if isSeparator l then forallb (rowIs tableCell) rows = true
           else match rows with
                | header :: body =>
                    rowIs tableHeader header = true /\
                    forallb (rowIs tableCell) body = true
                | [] => False
                end
       end).
Proof.
  split; [reflexivity|]. exact parseTableBlock_rows.
Qed.

(** C8. A pipe-delimited line alone, with no separator row after it, is a
    paragraph of its text and not a table.  Inside a longer input the loop,
    when it stands at a pipe-delimited line that no separator row follows,
    pushes no block and appends the trimmed line to the paragraph buffer. *)
Theorem table_line_without_separator :
  markdownToAdf (lit "| A | B |") =
    Some (mkDocument 1 [Paragraph [Text (lit "| A | B |") None]]) /\
  (forall line,
     forallb (fun c => negb (N.eqb c LF)) line = true ->
     reTest tableLineRe (trimEnd line) = true ->
     exists nodes,
       parseInline (trimEnd line) = Some nodes /\
       markdownToAdf line = Some (mkDocument 1 [Paragraph nodes])) /\
  (forall recur line rest blocks buf,
     reTest tableLineRe (trimEnd line) = true ->
     reTest separatorRe (nextLineOf rest) = false ->
     blockStep recur line rest blocks buf =
     Some (blocks, buf ++ [trimEnd line], rest)).
Proof.
  split; [reflexivity|].
  split; [exact markdownToAdf_table_line_alone|].
  exact blockStep_table_line_alone.
Qed.

Lemma table_line_without_separator_witness :
  (forallb (fun c => negb (N.eqb c LF)) (lit "| *x* | y |  ") = true /\
   reTest tableLineRe (trimEnd (lit "| *x* | y |  ")) = true /\
   reTest separatorRe (nextLineOf [lit "| 1 | 2 |"]) = false) /\
  (exists nodes,
     parseInline (trimEnd (lit "| *x* | y |  ")) = Some nodes /\
     markdownToAdf (lit "| *x* | y |  ") =
       Some (mkDocument 1 [Paragraph nodes])) /\
  blockStep markdownToAdf (lit "| *x* | y |  ") [lit "| 1 | 2 |"]
    [Rule] [lit "a"] =
  Some ([Rule], [lit "a"; lit "| *x* | y |"], [lit "| 1 | 2 |"]).
Proof.
  split; [repeat split; reflexivity|].
  split.
  - apply (proj1 (proj2 table_line_without_separator)); reflexivity.
  - apply (proj2 (proj2 table_line_without_separator)); reflexivity.
Defined.

(** C9, as stated: a rule line padded with white space on either side gives
    a single rule.  It fails on leading white space: the line of a space and
    three hyphens is a paragraph. *)
Lemma rule_leading_space_counterexample :
  In 45%N (lit "*-_") /\ 3 <= 3 /\ forallb isSpace (lit " ") = true /\
  markdownToAdf (lit " " ++ repeat 45%N 3) =
    Some (mkDocument 1 [Paragraph [Text (lit " ---") None]]) /\
  markdownToAdf (lit " " ++ repeat 45%N 3) <> Some (mkDocument 1 [Rule]).
Proof.
  split; [cbn; auto|]. split; [lia|]. split; [reflexivity|].
  split; [reflexivity|]. vm_compute. discriminate.
Qed.

(** C9, amended. Three or more repetitions of one character among the
    asterisk, the hyphen and the underscore, from the first column on and
    followed by white space or nothing, give a document whose content is a
    single rule. *)
Theorem rule_line_single_rule : forall c n ws,
  In c (lit "*-_") -> 3 <= n -> forallb isSpace ws = true ->
  markdownToAdf (repeat c n ++ ws) = Some (mkDocument 1 [Rule]).
Proof. exact markdownToAdf_rule. Qed.

Lemma rule_line_single_rule_witness :
  (In 95%N (lit "*-_") /\ 3 <= 4 /\ forallb isSpace (lit "  ") = true) /\
  markdownToAdf (repeat 95%N 4 ++ lit "  ") = Some (mkDocument 1 [Rule]).
Proof.
  split.
  - split; [cbn; auto|]. split; [lia|reflexivity].
  - apply rule_line_single_rule; [cbn; auto | lia | reflexivity].
Defined.

(** C10, as stated: the two converters return the same document on every
    input without a quote line.  They do not: a pipe-delimited line with no
    separator row after it is a paragraph for the one and a table for the
    other, and an item marked with the bullet character is a list for the
    one and a paragraph for the other. *)
Lemma variants_differ_counterexample :
  (noQuoteLine (lit "| A | B |") = true /\
   markdownToAdf (lit "| A | B |") =
     Some (mkDocument 1 [Paragraph [Text (lit "| A | B |") None]]) /\
   NoQuote.markdownToAdf (lit "| A | B |") =
     Some (mkDocument 1
             [Table false (lit "default")
                [tableRow
                   [Cell tableHeader [Paragraph [Text (lit "A") None]];
                    Cell tableHeader [Paragraph [Text (lit "B") None]]]]]) /\
   NoQuote.markdownToAdf (lit "| A | B |") <> markdownToAdf (lit "| A | B |")) /\
  (noQuoteLine (BULLET :: lit " a") = true /\
   markdownToAdf (BULLET :: lit " a") =
     Some (mkDocument 1
             [BulletList [listItem [Paragraph [Text (lit "a") None]]]]) /\
   NoQuote.markdownToAdf (BULLET :: lit " a") =
     Some (mkDocument 1 [Paragraph [Text (BULLET :: lit " a") None]]) /\
   NoQuote.markdownToAdf (BULLET :: lit " a")
     <> markdownToAdf (BULLET :: lit " a")).
Proof.
  split; (split; [reflexivity|]); (split; [reflexivity|]);
    (split; [reflexivity|]); vm_compute; discriminate.
Qed.

(** C10, amended. The two converters return the same document on every
    input in which no line begins with the quote marker once trimmed on the
    right, no line is a list item marked with the bullet character, and
    every pipe-delimited line is followed by a separator row or comes
    after a pipe-delimited line. *)
Theorem variants_agree : forall markdown,
  noQuoteLine markdown = true ->
  noDotItem markdown = true ->
  tablesSeparated markdown = true ->
  NoQuote.markdownToAdf markdown = markdownToAdf markdown.
Proof. exact markdownToAdf_same. Qed.

Lemma variants_agree_witness :
  (noQuoteLine (nl ["# T"; "| A | B |"; "|---|---|"; "| 1 | 2 |"; "- a";
                    "* b"; "1. c"; "```"; "x*"; "```"; "text"]%string) = true /\
   noDotItem (nl ["# T"; "| A | B |"; "|---|---|"; "| 1 | 2 |"; "- a";
                  "* b"; "1. c"; "```"; "x*"; "```"; "text"]%string) = true /\
   tablesSeparated (nl ["# T"; "| A | B |"; "|---|---|"; "| 1 | 2 |"; "- a";
                        "* b"; "1. c"; "```"; "x*"; "```"; "text"]%string)
     = true) /\
  NoQuote.markdownToAdf
    (nl ["# T"; "| A | B |"; "|---|---|"; "| 1 | 2 |"; "- a";
         "* b"; "1. c"; "```"; "x*"; "```"; "text"]%string) =
  markdownToAdf
    (nl ["# T"; "| A | B |"; "|---|---|"; "| 1 | 2 |"; "- a";
         "* b"; "1. c"; "```"; "x*"; "```"; "text"]%string).
Proof.
  split; [repeat split; reflexivity|].
  apply variants_agree; reflexivity.
Defined.

(* ================================================================== *)
(** * Further properties of the code *)
(* ================================================================== *)

(** ** The inline parser *)

(** X1. A text that holds none of the characters the inline expression can
    start with (asterisk, underscore, backtick, opening bracket, at sign) is
    returned whole, as one text node without marks; for the empty text this
    is the single empty text node. *)
Theorem inline_plain_text : forall text,
  isPlain text = true -> parseInline text = Some [Text text None].
Proof. exact parseInline_plain. Qed.

Lemma inline_plain_text_witness :
  isPlain (lit "Deploy (v2) at 10:30 - done.") = true /\
  parseInline (lit "Deploy (v2) at 10:30 - done.") =
  Some [Text (lit "Deploy (v2) at 10:30 - done.") None].
Proof.
  split; [reflexivity|]. apply inline_plain_text. reflexivity.
Defined.

(** X2. Between two plain texts, a text without asterisks and line
    terminators enclosed in double asterisks gives one text node with the
    strong mark only; its text is the enclosed text as it is, so underscores
    and backticks in it stay literal.  The plain texts before and after
    become unmarked text nodes, and no node when they are empty. *)
Theorem inline_strong : forall pre t post,
  isPlain pre = true -> isPlain post = true ->
  forallb (fun c => dot c && negb (N.eqb c 42)) t = true -> t <> [] ->
  parseInline (pre ++ (lit "**" ++ t ++ lit "**") ++ post) =
  Some (textNode pre ++ Text t (Some [Strong]) :: textNode post).
Proof. exact parseInline_bold. Qed.

Lemma inline_strong_witness :
  (isPlain (lit "see ") = true /\ isPlain [] = true /\
   forallb (fun c => dot c && negb (N.eqb c 42)) (lit "a _b_ `c`") = true /\
   lit "a _b_ `c`" <> []) /\
  parseInline (lit "see " ++ (lit "**" ++ lit "a _b_ `c`" ++ lit "**") ++ []) =
  Some (textNode (lit "see ") ++
        Text (lit "a _b_ `c`") (Some [Strong]) :: textNode []).
Proof.
  split.
  - repeat split; try reflexivity. discriminate.
  - apply inline_strong; try reflexivity. discriminate.
Defined.

(** X3. Between two plain texts, a text enclosed in single asterisks, or in
    single underscores, gives one text node with the em mark only, when the
    enclosed text holds no line terminator and not the delimiter itself.
    The underscores need not stand at word boundaries. *)
Theorem inline_emphasis : forall (d : N) pre t post,
  d = 42%N \/ d = 95%N ->
  isPlain pre = true -> isPlain post = true ->
  forallb (fun c => dot c && negb (N.eqb c d)) t = true -> t <> [] ->
  parseInline (pre ++ ([d] ++ t ++ [d]) ++ post) =
  Some (textNode pre ++ Text t (Some [Em]) :: textNode post).
Proof.
  intros d pre t post [-> | ->].
  - exact (parseInline_italicStar pre t post).
  - exact (parseInline_italicUnder pre t post).
Qed.

Lemma inline_emphasis_witness :
  ((95%N = 42%N \/ 95%N = 95%N) /\
   isPlain (lit "snake") = true /\ isPlain (lit "name") = true /\
   forallb (fun c => dot c && negb (N.eqb c 95)) (lit "case") = true /\
   lit "case" <> []) /\
  parseInline (lit "snake" ++ ([95%N] ++ lit "case" ++ [95%N]) ++ lit "name") =
  Some (textNode (lit "snake") ++
        Text (lit "case") (Some [Em]) :: textNode (lit "name")).
Proof.
  split.
  - repeat split; try reflexivity; [now right|discriminate].
  - apply inline_emphasis; try reflexivity; [now right|discriminate].
Defined.

(** X4. Between two plain texts, a text without backticks enclosed in
    backticks gives one text node with the code mark only; its text is the
    enclosed text as it is, line terminators and the characters of the other
    constructs included. *)
Theorem inline_code_span : forall pre t post,
  isPlain pre = true -> isPlain post = true ->
  forallb (notOf "`") t = true -> t <> [] ->
  parseInline (pre ++ (lit "`" ++ t ++ lit "`") ++ post) =
  Some (textNode pre ++ Text t (Some [Code]) :: textNode post).
Proof. exact parseInline_codeSpan. Qed.

Lemma inline_code_span_witness :
  (isPlain (lit "run ") = true /\ isPlain (lit " now") = true /\
   forallb (notOf "`") (lit "a **b** [c](d) @x") = true /\
   lit "a **b** [c](d) @x" <> []) /\
  parseInline (lit "run " ++ (lit "`" ++ lit "a **b** [c](d) @x" ++ lit "`")
               ++ lit " now") =
  Some (textNode (lit "run ") ++
        Text (lit "a **b** [c](d) @x") (Some [Code]) :: textNode (lit " now")).
Proof.
  split.
  - repeat split; try reflexivity. discriminate.
  - apply inline_code_span; try reflexivity. discriminate.
Defined.

(** X5. Between two plain texts, a label in brackets followed by an address
    in parentheses gives one text node whose text is the label and whose only
    mark is a link to the address, when the label holds no closing bracket
    and the address no closing parenthesis.  The label is not parsed
    again. *)
Theorem inline_link : forall pre label url post,
  isPlain pre = true -> isPlain post = true ->
  forallb (notOf "]") label = true -> label <> [] ->
  forallb (notOf ")") url = true -> url <> [] ->
  parseInline (pre ++ (lit "[" ++ label ++ lit "](" ++ url ++ lit ")") ++ post) =
  Some (textNode pre ++ Text label (Some [Link url]) :: textNode post).
Proof. exact parseInline_link. Qed.

Lemma inline_link_witness :
  (isPlain (lit "see ") = true /\ isPlain (lit ".") = true /\
   forallb (notOf "]") (lit "the **docs**") = true /\
   lit "the **docs**" <> [] /\
   forallb (notOf ")") (lit "https://a.b/c_d") = true /\
   lit "https://a.b/c_d" <> []) /\
  parseInline (lit "see " ++
               (lit "[" ++ lit "the **docs**" ++ lit "](" ++
                lit "https://a.b/c_d" ++ lit ")") ++ lit ".") =
  Some (textNode (lit "see ") ++
        Text (lit "the **docs**") (Some [Link (lit "https://a.b/c_d")])
        :: textNode (lit ".")).
Proof.
  split.
  - repeat split; try reflexivity; discriminate.
  - apply inline_link; try reflexivity; discriminate.
Defined.

(** X6. Between two plain texts, the mention prefix followed by an
    identifier of letters, digits, colons, underscores and hyphens gives one
    mention node: its identifier is the identifier, its text the identifier
    after an at sign, its access level empty.  The identifier ends where the
    next character is none of these. *)
Theorem inline_mention : forall pre id post,
  isPlain pre = true -> isPlain post = true ->
  forallb isAccountIdChar id = true -> id <> [] ->
  headNot isAccountIdChar post = true ->
  parseInline (pre ++ (lit "@accountId:" ++ id) ++ post) =
  Some (textNode pre ++ Mention id (lit "@" ++ id) [] :: textNode post).
Proof. exact parseInline_mention. Qed.

Lemma inline_mention_witness :
  (isPlain (lit "cc ") = true /\ isPlain (lit " please") = true /\
   forallb isAccountIdChar (lit "5b10:a-b") = true /\
   lit "5b10:a-b" <> [] /\
   headNot isAccountIdChar (lit " please") = true) /\
  parseInline (lit "cc " ++ (lit "@accountId:" ++ lit "5b10:a-b")
               ++ lit " please") =
  Some (textNode (lit "cc ") ++
        Mention (lit "5b10:a-b") (lit "@" ++ lit "5b10:a-b") []
        :: textNode (lit " please")).
Proof.
  split.
  - repeat split; try reflexivity. discriminate.
  - apply inline_mention; try reflexivity. discriminate.
Defined.

(** X7. A delimiter that is never closed stays in the text: a plain text,
    then a double asterisk, an asterisk, an underscore or a backtick, then a
    plain text is one unmarked text node holding all of it; so is a plain
    text, an opening bracket and a plain text without a closing bracket. *)
Theorem inline_unclosed_delimiter : forall pre op t,
  isPlain pre = true -> isPlain t = true ->
  In op [lit "**"; lit "*"; lit "_"; lit "`"] \/
  (op = lit "[" /\ forallb (notOf "]") t = true) ->
  parseInline (pre ++ op ++ t) = Some [Text (pre ++ op ++ t) None].
Proof.
  intros pre op t Hpre Ht [Hop|[-> Hbr]].
  - now apply parseInline_unclosed.
  - now apply parseInline_unclosed_bracket.
Qed.

Lemma inline_unclosed_delimiter_witness :
  (isPlain (lit "2 ") = true /\ isPlain (lit " 3 = 6") = true /\
   (In (lit "*") [lit "**"; lit "*"; lit "_"; lit "`"] \/
    (lit "*" = lit "[" /\ forallb (notOf "]") (lit " 3 = 6") = true))) /\
  parseInline (lit "2 " ++ lit "*" ++ lit " 3 = 6") =
  Some [Text (lit "2 " ++ lit "*" ++ lit " 3 = 6") None].
Proof.
  split.
  - repeat split; try reflexivity. left. cbn. auto.
  - apply inline_unclosed_delimiter; try reflexivity. left. cbn. auto.
Defined.

(** ** The block parser *)

(** X8. A line of one to six hashes, white space and a text that starts
    with a character that is no white space and holds no line terminator is
    a heading: its level is the number of hashes, its content the inline
    parse of the text trimmed on the right. *)
Theorem heading_level_is_hash_count : forall n ws c s,
  1 <= n -> n <= 6 ->
  forallb (fun c => isSpace c && negb (N.eqb c LF)) ws = true -> ws <> [] ->
  isSpace c = false -> forallb dot (c :: s) = true ->
  exists nodes,
    parseInline (trimEnd (c :: s)) = Some nodes /\
    markdownToAdf (repeat 35%N n ++ ws ++ c :: s) =
    Some (mkDocument 1 [Heading n nodes]).
Proof. exact markdownToAdf_heading. Qed.

Lemma heading_level_is_hash_count_witness :
  (1 <= 3 /\ 3 <= 6 /\
   forallb (fun c => isSpace c && negb (N.eqb c LF)) (lit "  ") = true /\
   lit "  " <> [] /\ isSpace 82%N = false /\
   forallb dot (82%N :: lit "elease **2**  ") = true) /\
  exists nodes,
    parseInline (trimEnd (82%N :: lit "elease **2**  ")) = Some nodes /\
    markdownToAdf (repeat 35%N 3 ++ lit "  " ++ 82%N :: lit "elease **2**  ") =
    Some (mkDocument 1 [Heading 3 nodes]).
Proof.
  split.
  - repeat split; try reflexivity; try lia. discriminate.
  - apply heading_level_is_hash_count;
      try reflexivity; try lia. discriminate.
Defined.

(** X9. Hashes make no heading when there are more than six of them or when
    no white space follows them: the line is then paragraph text, hashes
    included. *)
Theorem hashes_without_heading : forall n t,
  1 <= n ->
  headNot (anyOf "#") t = true ->
  6 < n \/ headNot isSpace t = true ->
  forallb (fun c => negb (N.eqb c LF)) t = true ->
  exists nodes,
    parseInline (trimEnd (repeat 35%N n ++ t)) = Some nodes /\
    markdownToAdf (repeat 35%N n ++ t) = Some (mkDocument 1 [Paragraph nodes]).
Proof. exact markdownToAdf_hashes. Qed.

Lemma hashes_without_heading_witness :
  (1 <= 7 /\ headNot (anyOf "#") (lit " Title") = true /\
   (6 < 7 \/ headNot isSpace (lit " Title") = true) /\
   forallb (fun c => negb (N.eqb c LF)) (lit " Title") = true) /\
  exists nodes,
    parseInline (trimEnd (repeat 35%N 7 ++ lit " Title")) = Some nodes /\
    markdownToAdf (repeat 35%N 7 ++ lit " Title") =
    Some (mkDocument 1 [Paragraph nodes]).
Proof.
  split.
  - repeat split; try reflexivity; lia.
  - apply hashes_without_heading; try reflexivity; lia.
Defined.

(** X10. Lines that each start with a character opening no block construct
    form one paragraph up to the end of the input: the lines are trimmed on
    the right, joined by newlines and parsed as one inline text, so a line
    break inside a paragraph stays in its text. *)
Theorem paragraph_lines_joined : forall lines,
  lines <> [] -> forallb textLine lines = true ->
  exists nodes,
    parseInline (join LF (map trimEnd lines)) = Some nodes /\
    markdownToAdf (join LF lines) = Some (mkDocument 1 [Paragraph nodes]).
Proof. exact markdownToAdf_paragraph. Qed.

Lemma paragraph_lines_joined_witness :
  ([lit "first line  "; lit "second *line*"] <> [] /\
   forallb textLine [lit "first line  "; lit "second *line*"] = true) /\
  exists nodes,
    parseInline (join LF (map trimEnd [lit "first line  "; lit "second *line*"]))
      = Some nodes /\
    markdownToAdf (join LF [lit "first line  "; lit "second *line*"]) =
    Some (mkDocument 1 [Paragraph nodes]).
Proof.
  split.
  - split; [discriminate|reflexivity].
  - apply paragraph_lines_joined; [discriminate|reflexivity].
Defined.

(** X11. Lines that are each a bullet item (indentation, one of the four
    markers, white space, text) form one bullet list up to the end of the
    input, with one item for each line in order: the item holds one
    paragraph, the inline parse of the text after the white space that
    follows the marker.  Markers may differ from line to line and the
    indentation plays no part: the list is flat. *)
Theorem bullet_list_items : forall items,
  items <> [] -> forallb (wfItemLine isBulletMarker) items = true ->
  exists contents,
    mapM parseInline (map itemText items) = Some contents /\
    markdownToAdf (join LF (map itemLine items)) =
    Some (mkDocument 1 [BulletList (itemsOf contents)]).
Proof. exact markdownToAdf_bullets. Qed.

Lemma bullet_list_items_witness :
  ([mkItemLine [] (lit "-") (lit " ") (lit "a");
    mkItemLine (lit "    ") (lit "*") (lit "  ") (lit "**b**");
    mkItemLine [] [BULLET] (lit " ") (lit "c")] <> [] /\
   forallb (wfItemLine isBulletMarker)
     [mkItemLine [] (lit "-") (lit " ") (lit "a");
      mkItemLine (lit "    ") (lit "*") (lit "  ") (lit "**b**");
      mkItemLine [] [BULLET] (lit " ") (lit "c")] = true) /\
  exists contents,
    mapM parseInline
      (map itemText
         [mkItemLine [] (lit "-") (lit " ") (lit "a");
          mkItemLine (lit "    ") (lit "*") (lit "  ") (lit "**b**");
          mkItemLine [] [BULLET] (lit " ") (lit "c")]) = Some contents /\
    markdownToAdf
      (join LF
         (map itemLine
            [mkItemLine [] (lit "-") (lit " ") (lit "a");
             mkItemLine (lit "    ") (lit "*") (lit "  ") (lit "**b**");
             mkItemLine [] [BULLET] (lit " ") (lit "c")])) =
    Some (mkDocument 1 [BulletList (itemsOf contents)]).
Proof.
  split.
  - split; [discriminate|reflexivity].
  - apply bullet_list_items; [discriminate|reflexivity].
Defined.

(** X12. Lines that are each an ordered item (indentation, digits, a
    period, white space, text) form one ordered list up to the end of the
    input, with one item for each line in order.  The numbers written are
    dropped: the list holds the texts only. *)
Theorem ordered_list_items : forall items,
  items <> [] -> forallb (wfItemLine isOrderedMarker) items = true ->
  exists contents,
    mapM parseInline (map itemText items) = Some contents /\
    markdownToAdf (join LF (map itemLine items)) =
    Some (mkDocument 1 [OrderedList (itemsOf contents)]).
Proof. exact markdownToAdf_ordered. Qed.

Lemma ordered_list_items_witness :
  ([mkItemLine [] (lit "7.") (lit " ") (lit "x");
    mkItemLine (lit " ") (lit "10.") (lit " ") (lit "y");
    mkItemLine [] (lit "7.") (lit "  ") (lit "z")] <> [] /\
   forallb (wfItemLine isOrderedMarker)
     [mkItemLine [] (lit "7.") (lit " ") (lit "x");
      mkItemLine (lit " ") (lit "10.") (lit " ") (lit "y");
      mkItemLine [] (lit "7.") (lit "  ") (lit "z")] = true) /\
  exists contents,
    mapM parseInline
      (map itemText
         [mkItemLine [] (lit "7.") (lit " ") (lit "x");
          mkItemLine (lit " ") (lit "10.") (lit " ") (lit "y");
          mkItemLine [] (lit "7.") (lit "  ") (lit "z")]) = Some contents /\
    markdownToAdf
      (join LF
         (map itemLine
            [mkItemLine [] (lit "7.") (lit " ") (lit "x");
             mkItemLine (lit " ") (lit "10.") (lit " ") (lit "y");
             mkItemLine [] (lit "7.") (lit "  ") (lit "z")])) =
    Some (mkDocument 1 [OrderedList (itemsOf contents)]).
Proof.
  split.
  - split; [discriminate|reflexivity].
  - apply ordered_list_items; [discriminate|reflexivity].
Defined.

(** X13. Quoting commutes with conversion and takes one nested call more:
    with room for one more call on the stack, the text with a quote marker
    and a space put before each of its lines gives a document of exactly
    one block quote, whose content is the content of the document of the
    text itself, and it exhausts the stack when the text itself does with
    the room there was.  Its nesting is that of the text and one. *)
Theorem quoted_text_is_blockquote : forall stack a,
  markdownToAdfAt (S stack) (quoteText a) =
  match markdownToAdfAt stack a with
  | Some d => Some (mkDocument 1 [Blockquote (content d)])
  | None => None
  end /\
  nesting (quoteText a) = S (nesting a).
Proof.
  intros stack a. split; [apply markdownToAdfAt_quoted|apply nesting_quoted].
Qed.

(** X14. A blank line separates: when no line of a text opens a fenced code
    block, the blocks of that text, a blank line and a second text are the
    blocks of the first text followed by the blocks of the second.  What
    stands before the blank line cannot change what comes after it, and the
    other way round. *)
Theorem blank_line_concatenates : forall a b,
  noFence a = true ->
  exists blocksA blocksB,
    scanBlocks a = Some blocksA /\ scanBlocks b = Some blocksB /\
    scanBlocks (a ++ LF :: LF :: b) = Some (blocksA ++ blocksB) /\
    markdownToAdf (a ++ LF :: LF :: b) = Some (assemble (blocksA ++ blocksB)).
Proof.
  intros a b Hfence.
  assert (Htotal : forall t, exists blocks, scanBlocks t = Some blocks).
  { intros t. destruct (markdownToAdf_total t) as (d & Hd & _).
    rewrite markdownToAdf_scan in Hd.
    destruct (scanBlocks t) as [blocks|]; [eauto|discriminate]. }
  destruct (Htotal a) as (blocksA & Ha). destruct (Htotal b) as (blocksB & Hb).
  exists blocksA, blocksB. repeat split; auto.
  - now apply scanBlocks_blank_line.
  - now apply markdownToAdf_blank_line.
Qed.

Lemma blank_line_concatenates_witness :
  noFence (nl ["# T"; "- a"; "- b"; "> q"]%string) = true /\
  exists blocksA blocksB,
    scanBlocks (nl ["# T"; "- a"; "- b"; "> q"]%string) = Some blocksA /\
    scanBlocks (nl ["text"; "```"; "code"]%string) = Some blocksB /\
    scanBlocks (nl ["# T"; "- a"; "- b"; "> q"]%string ++ LF :: LF ::
                nl ["text"; "```"; "code"]%string)
      = Some (blocksA ++ blocksB) /\
    markdownToAdf (nl ["# T"; "- a"; "- b"; "> q"]%string ++ LF :: LF ::
                   nl ["text"; "```"; "code"]%string)
      = Some (assemble (blocksA ++ blocksB)).
Proof.
  split; [reflexivity|]. apply blank_line_concatenates. reflexivity.
Defined.

(** ** The table parser *)

(** X15. The cells of a row: a line made of a pipe, cell texts without
    pipes separated by pipes, and a closing pipe has exactly these cell
    texts as its cells, each trimmed on both sides; an empty cell text gives
    an empty cell. *)
Theorem table_row_cells : forall cells,
  cells <> [] ->
  Forall (fun x => forallb (fun c => negb (N.eqb c 124)) x = true) cells ->
  tableCells (lit "|" ++ join 124 cells ++ lit "|") = map trim cells.
Proof. exact tableCells_row. Qed.

Lemma table_row_cells_witness :
  ([lit " a b "; []; lit "c"] <> [] /\
   Forall (fun x => forallb (fun c => negb (N.eqb c 124)) x = true)
          [lit " a b "; []; lit "c"]) /\
  tableCells (lit "|" ++ join 124 [lit " a b "; []; lit "c"] ++ lit "|") =
  map trim [lit " a b "; []; lit "c"].
Proof.
  assert (H : Forall (fun x => forallb (fun c => negb (N.eqb c 124)) x = true)
                     [lit " a b "; []; lit "c"])
    by (repeat constructor).
  split.
  - split; [discriminate|exact H].
  - apply table_row_cells; [discriminate|exact H].
Defined.

(** ** The Git utilities *)

(** X16. For an SSH remote, the text [git@] followed by any text and the
    suffix [.git], the result is the text [https///] followed by that text:
    the prefix is replaced by the scheme, the suffix is dropped, and the one
    colon replaced by a slash is the first colon of the text, which is the
    colon of the scheme just written, not the colon after the host. *)
Theorem ssh_remote_url : forall output rest,
  trim output = lit "git@" ++ rest ++ lit ".git" ->
  getRepoRemoteUrl (Some output) = Some (lit "https///" ++ rest).
Proof. exact getRepoRemoteUrl_ssh. Qed.

Lemma ssh_remote_url_witness :
  trim (lit "git@github.com:org/repo.git" ++ [LF]) =
    lit "git@" ++ lit "github.com:org/repo" ++ lit ".git" /\
  getRepoRemoteUrl (Some (lit "git@github.com:org/repo.git" ++ [LF])) =
  Some (lit "https///" ++ lit "github.com:org/repo").
Proof.
  split; [reflexivity|]. apply ssh_remote_url. reflexivity.
Defined.

(** X17. For a remote that does not start with [git@], the result is the
    trimmed output without a final [.git]: the suffix is dropped when the
    text ends with it, and the text is returned as it is when it does
    not. *)
Theorem other_remote_url : forall output remote,
  startsWith (lit "git@") (trim output) = false ->
  (trim output = remote ++ lit ".git" \/
   (trim output = remote /\ forall pre, remote <> pre ++ lit ".git")) ->
  getRepoRemoteUrl (Some output) = Some remote.
Proof. exact getRepoRemoteUrl_other. Qed.

Lemma other_remote_url_witness :
  (startsWith (lit "git@")
     (trim (lit "https://github.com/org/repo.git" ++ [LF])) = false /\
   (trim (lit "https://github.com/org/repo.git" ++ [LF]) =
      lit "https://github.com/org/repo" ++ lit ".git" \/
    (trim (lit "https://github.com/org/repo.git" ++ [LF]) =
       lit "https://github.com/org/repo" /\
     forall pre, lit "https://github.com/org/repo" <> pre ++ lit ".git"))) /\
  getRepoRemoteUrl (Some (lit "https://github.com/org/repo.git" ++ [LF])) =
  Some (lit "https://github.com/org/repo").
Proof.
  split.
  - split; [reflexivity|]. left. reflexivity.
  - apply other_remote_url; [reflexivity|]. left. reflexivity.
Defined.

(** X18. The issue key of a branch name: when the trimmed output is a text
    without capital letters, then a capital letter, one or more capital
    letters or digits, a hyphen and one or more digits, then a text that
    does not start with a digit, the result is that key. *)
Theorem issue_key_found : forall output pre L mid digits post,
  trim output = pre ++ ([L] ++ mid ++ lit "-" ++ digits) ++ post ->
  forallb (fun c => negb (isUpper c)) pre = true ->
  isUpper L = true ->
  mid <> [] -> forallb (fun c => isUpper c || isDigit c) mid = true ->
  digits <> [] -> forallb isDigit digits = true ->
  headNot isDigit post = true ->
  getIssueKeyFromBranch (Some output) = Some ([L] ++ mid ++ lit "-" ++ digits).
Proof. exact getIssueKeyFromBranch_found. Qed.

Lemma issue_key_found_witness :
  (trim (lit "feature/MRP-404-some-description" ++ [LF]) =
     lit "feature/" ++ ([77%N] ++ lit "RP" ++ lit "-" ++ lit "404")
     ++ lit "-some-description" /\
   forallb (fun c => negb (isUpper c)) (lit "feature/") = true /\
   isUpper 77%N = true /\
   lit "RP" <> [] /\
   forallb (fun c => isUpper c || isDigit c) (lit "RP") = true /\
   lit "404" <> [] /\ forallb isDigit (lit "404") = true /\
   headNot isDigit (lit "-some-description") = true) /\
  getIssueKeyFromBranch (Some (lit "feature/MRP-404-some-description" ++ [LF])) =
  Some ([77%N] ++ lit "RP" ++ lit "-" ++ lit "404").
Proof.
  split.
  - repeat split; try reflexivity; discriminate.
  - apply (issue_key_found _ (lit "feature/") 77%N (lit "RP") (lit "404")
             (lit "-some-description"));
      try reflexivity; discriminate.
Defined.

(** X19. A branch name without a capital letter has no issue key: the
    result is null. *)
Theorem issue_key_absent : forall output,
  forallb (fun c => negb (isUpper c)) (trim output) = true ->
  getIssueKeyFromBranch (Some output) = None.
Proof. exact getIssueKeyFromBranch_none. Qed.

Lemma issue_key_absent_witness :
  forallb (fun c => negb (isUpper c)) (trim (lit "fix/mrp-404" ++ [LF])) = true /\
  getIssueKeyFromBranch (Some (lit "fix/mrp-404" ++ [LF])) = None.
Proof.
  split; [reflexivity|]. apply issue_key_absent. reflexivity.
Defined.

(** ** More on the block parser *)

(** X20. An opening fence whose info string, trimmed on the right, holds a
    character that is no word character (a plus, a hyphen, a space, a hash)
    opens no code block: the loop appends the line to the paragraph buffer.
    So in a text of such a line, lines of text and a closing fence, the
    first lines are one paragraph and the closing fence opens a code block,
    here an empty one. *)
Theorem fence_info_must_be_word :
  (forall recur info rest blocks buf,
     forallb isWord (trimEnd info) = false ->
     blockStep recur (fence ++ info) rest blocks buf =
     Some (blocks, buf ++ [fence ++ trimEnd info], rest)) /\
  (forall info body,
     forallb isWord (trimEnd info) = false ->
     forallb (fun c => negb (N.eqb c LF)) info = true ->
     forallb textLine body = true ->
     exists nodes,
       parseInline (join LF ((fence ++ trimEnd info) :: map trimEnd body))
         = Some nodes /\
       markdownToAdf (join LF ((fence ++ info) :: body ++ [fence])) =
       Some (mkDocument 1 [Paragraph nodes; CodeBlock None [Text [] None]])).
Proof.
  split.
  - exact blockStep_fence_info.
  - exact markdownToAdf_fence_info.
Qed.

Lemma fence_info_must_be_word_witness :
  (forallb isWord (trimEnd (lit "c++")) = false /\
   forallb (fun c => negb (N.eqb c LF)) (lit "c++") = true /\
   forallb textLine [lit "int x = 1;"; lit "return x;"] = true) /\
  exists nodes,
    parseInline
      (join LF ((fence ++ trimEnd (lit "c++"))
                :: map trimEnd [lit "int x = 1;"; lit "return x;"]))
      = Some nodes /\
    markdownToAdf
      (join LF ((fence ++ lit "c++")
                :: [lit "int x = 1;"; lit "return x;"] ++ [fence])) =
    Some (mkDocument 1 [Paragraph nodes; CodeBlock None [Text [] None]]).
Proof.
  split.
  - repeat split; reflexivity.
  - apply (proj2 fence_info_must_be_word); reflexivity.
Defined.

(** X21. A header row, a separator row and body rows up to the end of the
    input are one table with a row of header cells and, for each body line
    in order, a row of body cells; the separator row gives no row.  Each
    cell holds one paragraph: the inline parse of its cell text trimmed on
    both sides. *)
Theorem table_of_rows : forall header sep body,
  wfRowCells header = true -> wfSeparator sep = true ->
  forallb wfRowCells body = true ->
  exists hc bc,
    mapM parseInline (map trim header) = Some hc /\
    mapM (fun cells => mapM parseInline (map trim cells)) body = Some bc /\
    markdownToAdf (join LF (rowLine header :: sep :: map rowLine body)) =
    Some (mkDocument 1
            [Table false (lit "default")
               (rowOf tableHeader hc :: map (rowOf tableCell) bc)]).
Proof. exact markdownToAdf_table. Qed.

Lemma table_of_rows_witness :
  (wfRowCells [lit " Key "; lit " Status "] = true /\
   wfSeparator (lit "|-----|:------:|") = true /\
   forallb wfRowCells [[lit " A-1 "; lit " **done** "]; [lit "A-2"; []]] = true) /\
  exists hc bc,
    mapM parseInline (map trim [lit " Key "; lit " Status "]) = Some hc /\
    mapM (fun cells => mapM parseInline (map trim cells))
         [[lit " A-1 "; lit " **done** "]; [lit "A-2"; []]] = Some bc /\
    markdownToAdf
      (join LF (rowLine [lit " Key "; lit " Status "]
                :: lit "|-----|:------:|"
                :: map rowLine [[lit " A-1 "; lit " **done** "]; [lit "A-2"; []]])) =
    Some (mkDocument 1
            [Table false (lit "default")
               (rowOf tableHeader hc :: map (rowOf tableCell) bc)]).
Proof.
  split.
  - repeat split; reflexivity.
  - apply table_of_rows; reflexivity.
Defined.

(** ** The commits of a branch and the next start time *)

(** X22. The commits read from a log: when each line of the trimmed output
    is a sequence of one or more fields without pipes, separated by two
    pipes, the result has one commit for each line in order, whose hash,
    message, date and author are the first four fields of the line, and
    undefined where the line has fewer.  So a subject that holds two pipes
    is cut there: what follows them is taken for the date, and the date for
    the author. *)
Theorem commits_from_fields : forall output table,
  trim output = join LF (map (joinOn (lit "||")) table) ->
  isEmpty (trim output) = false ->
  forallb wfFields table = true ->
  getCommitsOnBranch (Some output) = map commitOfFields table.
Proof. exact getCommitsOnBranch_fields. Qed.

Lemma commits_from_fields_witness :
  (trim (nl ["a1b2||fix a || b||2024-05-01||Ann"; "c3d4||docs||2024-05-02"]%string
         ++ [LF]) =
     join LF (map (joinOn (lit "||"))
                [[lit "a1b2"; lit "fix a "; lit " b"; lit "2024-05-01"; lit "Ann"];
                 [lit "c3d4"; lit "docs"; lit "2024-05-02"]]) /\
   isEmpty (trim (nl ["a1b2||fix a || b||2024-05-01||Ann";
                      "c3d4||docs||2024-05-02"]%string ++ [LF])) = false /\
   forallb wfFields
     [[lit "a1b2"; lit "fix a "; lit " b"; lit "2024-05-01"; lit "Ann"];
      [lit "c3d4"; lit "docs"; lit "2024-05-02"]] = true) /\
  getCommitsOnBranch
    (Some (nl ["a1b2||fix a || b||2024-05-01||Ann"; "c3d4||docs||2024-05-02"]%string
           ++ [LF])) =
  map commitOfFields
    [[lit "a1b2"; lit "fix a "; lit " b"; lit "2024-05-01"; lit "Ann"];
     [lit "c3d4"; lit "docs"; lit "2024-05-02"]].
Proof.
  split.
  - repeat split; reflexivity.
  - apply commits_from_fields; reflexivity.
Defined.

(** X23. Worklogs stack.  For entries on which the arithmetic is exact
    (every start time has fewer than three parts, or a part among the first
    three with a character no numeral holds, or its first three parts blank
    or of decimal digits; every time spent is a natural number; every end
    is below two to the power 53), the next start time of a list that is not
    empty is the latest end, written as hours, minutes and seconds, and
    after a worklog of [d] seconds that starts at that time the next start
    time is that end and [d] seconds, as long as this is below two to the
    power 53. *)
Theorem next_start_time_stacks : forall entries workdayStart d,
  entries <> [] ->
  forallb exactEntry entries = true ->
  exists n,
    calculateNextStartTime entries workdayStart = Some (formatTime n) /\
    latestEnd entries 0%N = Some n /\
    ((n + d < maxSafe)%N ->
     calculateNextStartTime (entries ++ [mkEntry (formatTime n) d])
       workdayStart =
     Some (formatTime (n + d))).
Proof. exact calculateNextStartTime_stacks. Qed.

Lemma next_start_time_stacks_witness :
  ([mkEntry (lit "09:00:00") 5400; mkEntry (lit "13:30:00") 3600] <> [] /\
   forallb exactEntry
     [mkEntry (lit "09:00:00") 5400; mkEntry (lit "13:30:00") 3600] = true) /\
  exists n,
    calculateNextStartTime
      [mkEntry (lit "09:00:00") 5400; mkEntry (lit "13:30:00") 3600]
      (lit "09:00:00") = Some (formatTime n) /\
    latestEnd [mkEntry (lit "09:00:00") 5400; mkEntry (lit "13:30:00") 3600] 0%N
      = Some n /\
    ((n + 1800 < maxSafe)%N ->
     calculateNextStartTime
       ([mkEntry (lit "09:00:00") 5400; mkEntry (lit "13:30:00") 3600]
        ++ [mkEntry (formatTime n) 1800])
       (lit "09:00:00") =
     Some (formatTime (n + 1800))).
Proof.
  split.
  - split; [discriminate|reflexivity].
  - apply next_start_time_stacks; [discriminate|reflexivity].
Defined.

(** X24. For entries on which the arithmetic is exact (as in X23), the next
    start time of a list that is not empty is the latest end among the
    entries whose start time gives three numbers, and midnight when there
    is none or when they all end there: no such entry ends later, and the
    time read back as a start time gives that number of seconds.  An entry
    whose start time gives not-a-number (fewer than three parts, or a part
    that is no numeral) fails the comparison and is passed over.  Nothing
    holds the time at the end of the workday and nothing wraps it at
    midnight. *)
Theorem next_start_time_is_latest_end : forall entries workdayStart,
  entries <> [] ->
  forallb exactEntry entries = true ->
  exists n,
    calculateNextStartTime entries workdayStart = Some (formatTime n) /\
    (n = 0%N \/ exists e, In e entries /\ endSecondsOf e = Some (Num n)) /\
    (forall e x, In e entries -> endSecondsOf e = Some (Num x) -> (x <= n)%N) /\
    endSecondsOf (mkEntry (formatTime n) 0) = Some (Num n).
Proof. exact calculateNextStartTime_latest. Qed.

Lemma next_start_time_is_latest_end_witness :
  ([mkEntry (lit "22:15:00") 9900; mkEntry (lit "09:00") 3600;
    mkEntry (lit "9am:00:00") 60] <> [] /\
   forallb exactEntry
     [mkEntry (lit "22:15:00") 9900; mkEntry (lit "09:00") 3600;
      mkEntry (lit "9am:00:00") 60] = true /\
   calculateNextStartTime
     [mkEntry (lit "22:15:00") 9900; mkEntry (lit "09:00") 3600;
      mkEntry (lit "9am:00:00") 60]
     (lit "09:00:00") = Some (lit "25:00:00") /\
   calculateNextStartTime [mkEntry (lit "09:00") 3600] (lit "09:00:00") =
     Some (lit "00:00:00")) /\
  exists n,
    calculateNextStartTime
      [mkEntry (lit "22:15:00") 9900; mkEntry (lit "09:00") 3600;
       mkEntry (lit "9am:00:00") 60]
      (lit "09:00:00") = Some (formatTime n) /\
    (n = 0%N \/
     exists e, In e [mkEntry (lit "22:15:00") 9900; mkEntry (lit "09:00") 3600;
                     mkEntry (lit "9am:00:00") 60]
               /\ endSecondsOf e = Some (Num n)) /\
    (forall e x,
       In e [mkEntry (lit "22:15:00") 9900; mkEntry (lit "09:00") 3600;
             mkEntry (lit "9am:00:00") 60] ->
       endSecondsOf e = Some (Num x) -> (x <= n)%N) /\
    endSecondsOf (mkEntry (formatTime n) 0) = Some (Num n).
Proof.
  split.
  - split; [discriminate|]. repeat split; reflexivity.
  - apply (next_start_time_is_latest_end _ (lit "09:00:00"));
      [discriminate|reflexivity].
Defined.

(** ** The converter without the blockquote case *)


(** ** Composition *)

(** X26. A newline before a text changes nothing in its document; a newline
    after it changes nothing as long as no line of the text opens a fenced
    code block. *)
Theorem newlines_around_text : forall markdown,
  markdownToAdf (LF :: markdown) = markdownToAdf markdown /\
  (noFence markdown = true ->
   markdownToAdf (markdown ++ [LF]) = markdownToAdf markdown).
Proof. exact markdownToAdf_newlines. Qed.

Lemma newlines_around_text_witness :
  noFence (nl ["# T"; "text"; "- a"]%string) = true /\
  markdownToAdf (nl ["# T"; "text"; "- a"]%string ++ [LF]) =
  markdownToAdf (nl ["# T"; "text"; "- a"]%string).
Proof.
  split; [reflexivity|].
  apply (proj2 (newlines_around_text (nl ["# T"; "text"; "- a"]%string))).
  reflexivity.
Defined.

(** X27. The inline parser goes from left to right and starts afresh after
    each construct: a plain text, a construct (strong, em, code, link or
    mention) and any text at all give the node of the plain text, the node of
    the construct, and then exactly the nodes of the text after the
    construct parsed on its own (none when that text is empty). *)
Theorem inline_parse_continues_afresh : forall pre c post,
  isPlain pre = true -> wfConstruct c post = true ->
  exists rest,
    parseInline post = Some rest /\
    parseInline (pre ++ constructText c ++ post) =
    Some (textNode pre ++ constructNode c
          :: (if isEmpty post then [] else rest)).
Proof. exact parseInline_construct. Qed.

Lemma inline_parse_continues_afresh_witness :
  (isPlain (lit "see ") = true /\
   wfConstruct (CLink (lit "docs") (lit "https://a.b"))
     (lit " and **x** or `y`") = true) /\
  exists rest,
    parseInline (lit " and **x** or `y`") = Some rest /\
    parseInline (lit "see " ++
                 constructText (CLink (lit "docs") (lit "https://a.b")) ++
                 lit " and **x** or `y`") =
    Some (textNode (lit "see ") ++
          constructNode (CLink (lit "docs") (lit "https://a.b"))
          :: (if isEmpty (lit " and **x** or `y`") then [] else rest)).
Proof.
  split.
  - split; reflexivity.
  - apply inline_parse_continues_afresh; reflexivity.
Defined.
